(** * Bubble Shooter: the game simulation of [src/game.js]

    A shallow embedding of the simulation core of the Bubble Shooter
    game: the staggered grid and its adjacency ([neighbors]), the two
    depth-first traversals ([clusterCheck], [floatingCheck]), placement
    ([addBubbleAt]), row pressure ([pushRow]) and the frame loop
    ([update], [gameLoop]).

    The repository holds two versions of the program: [src/game.js] and
    an earlier one ([src/unnamed/part_001]).  What both share textually
    ([neighbors], the traversals) is embedded once; what differs is
    embedded per version, in [Module Game] and [Module Early].

    Conventions of the embedding.
    - JavaScript numbers that hold coordinates, speeds and times are
      modelled as exact rationals ([Q]); row and column indices, which
      the code only ever produces with [Math.round], [Math.floor], [+]
      and [-] on integers, as [Z]; the score as [Z].
    - The visited sets of the traversals are keyed by the string
      [b.row + ':' + b.c]; the model keys them by the pair [(row, c)],
      of which that string is an injective printing.
    - A [Bubble] object is owned by exactly one row array of the grid.
      Writes through a reference ([b.removing = true]) are modelled by
      rewriting the grid cell that holds the object, found by its key.
    - What the browser supplies ([Math.random], [performance.now],
      [Math.hypot], [Math.atan2], [Math.cos], [Math.sin], the canvas
      size) is a [Host]; the state counts the calls made to the two
      oracles so that every call reads a fresh value.
    - The canvas is not modelled.  Of [draw()] the model keeps what it
      does to the session: it changes none of its fields, and in
      [src/game.js] it reads the clock once. *)

From Stdlib Require Import ZArith QArith Qround Qabs Qpower Lqa.
From stdpp Require Import base gmap sets list strings.

Set Warnings "-clear-no-such-hyp".

Local Open Scope Z_scope.

(** ** Numbers *)

(** [a < b] on JavaScript numbers. *)
Definition Qltb (a b : Q) : bool := negb (Qle_bool b a).

(** [Math.round]: nearest integer, ties towards plus infinity. *)
Definition js_round (q : Q) : Z := Qfloor (q + (1 # 2))%Q.

(** [Math.floor]. *)
Definition js_floor (q : Q) : Z := Qfloor q.

(** An integer used as a number. *)
Definition ZtoQ (z : Z) : Q := inject_Z z.

(** ** Data model *)

Abbreviation Color := string.

(** A grid cell occupant: [{ row, c, x, y, color, removing }]. *)
Record Bubble := mkBubble {
  b_row : Z;
  b_c : Z;
  b_x : Q;
  b_y : Q;
  b_color : Color;
  b_removing : bool
}.

(** [state.grid]: an array of row arrays. *)
Abbreviation Grid := (list (list Bubble)).

(** The key [b.row + ':' + b.c] of the visited sets. *)
Abbreviation Key := (Z * Z)%type.
Definition key (b : Bubble) : Key := (b_row b, b_c b).

(** [b.removing = true] *)
Definition mark (b : Bubble) : Bubble :=
  mkBubble (b_row b) (b_c b) (b_x b) (b_y b) (b_color b) true.

(** [state.grid[i]] for a number [i]: [undefined] off the array. *)
Definition gridRow (g : Grid) (i : Z) : option (list Bubble) :=
  if i <? 0 then None else g !! Z.to_nat i.

(** [arr.find(x => x.c === nc)] *)
Definition findCol (nc : Z) (arr : list Bubble) : option Bubble :=
  List.find (fun x => b_c x =? nc) arr.

(** Total number of bubbles held by the grid (its cardinality). *)
Definition bubbleCount (g : Grid) : nat := length (concat g).

(** ** Hex grid adjacency: [neighbors] *)

(** The parity-dependent offset table, [[dr, dc]] pairs. *)
Definition deltas (even : bool) : list (Z * Z) :=
  if even
  then [(0, -1); (0, 1); (-1, 0); (-1, 1); (1, 0); (1, 1)]
  else [(0, -1); (0, 1); (-1, -1); (-1, 0); (1, -1); (1, 0)].

(** One turn of the [for (const [dr, dc] of deltas)] loop: the bubble
    pushed on [res], if any. *)
Definition neighborAt (g : Grid) (b : Bubble) (d : Z * Z) : option Bubble :=
  let nr := b_row b + fst d in
  let nc := b_c b + snd d in
  if (nr <? 0) || (Z.of_nat (length g) <=? nr) then None
  else match g !! Z.to_nat nr with
       | Some arr => findCol nc arr
       | None => None
       end.

(** [neighbors(b)]; [%] is the truncating remainder, [Z.rem]. *)
Definition neighbors (g : Grid) (b : Bubble) : list Bubble :=
  match gridRow g (b_row b) with
  | None => []
  | Some _ =>
      let even := Z.rem (b_row b) 2 =? 0 in
      omap (neighborAt g b) (deltas even)
  end.

(** ** The two depth-first traversals

    Both versions of the program contain the same two recursive
    closures.  The recursion of the source is bounded only by the
    visited set; the model carries a recursion budget [fuel], and
    [walk_fuel] below shows that the budget the callers pass is never
    exhausted. *)

(** The [dfs] of [clusterCheck]: the state is [(visited, cluster)]. *)
Fixpoint clusterDfs (fuel : nat) (g : Grid) (targetColor : Color)
    (b : Bubble) (st : gset Key * list Bubble) : gset Key * list Bubble :=
  match fuel with
  | O => st
  | S n =>
      if decide (key b ∈ st.1) then st
      else
        let visited := {[key b]} ∪ st.1 in
        if bool_decide (b_color b ≠ targetColor) then (visited, st.2)
        else foldl (fun acc x => clusterDfs n g targetColor x acc)
                   (visited, st.2 ++ [b]) (neighbors g b)
  end.

(** The [dfs] of [floatingCheck]: the state is the set [connected]. *)
Fixpoint floatDfs (fuel : nat) (g : Grid) (b : Bubble)
    (connected : gset Key) : gset Key :=
  match fuel with
  | O => connected
  | S n =>
      if decide (key b ∈ connected) then connected
      else foldl (fun acc x => floatDfs n g x acc)
                 ({[key b]} ∪ connected) (neighbors g b)
  end.

(** A budget that exceeds the number of keys a traversal can add: one
    per bubble of the grid, and one for a start bubble. *)
Definition dfsFuel (g : Grid) : nat := S (S (bubbleCount g)).

(** [(state.grid[0] || []).forEach(b => dfs(b))]: the set [connected]
    that [floatingCheck] builds before its removal loop. *)
Definition connectedSet (g : Grid) : gset Key :=
  foldl (fun acc b => floatDfs (dfsFuel g) g b acc) ∅ (default [] (g !! 0%nat)).

(** The list [cluster] that [clusterCheck] builds from [origin]. *)
Definition clusterOf (g : Grid) (origin : Bubble) : list Bubble :=
  (clusterDfs (dfsFuel g) g (b_color origin) origin (∅, [])).2.

(** [b.removing = true] for the object of key [k], in place. *)
Definition markKey (k : Key) (g : Grid) : Grid :=
  map (map (fun x => if decide (key x = k) then mark x else x)) g.

(** ** What the browser supplies *)

Record Host := mkHost {
  canvas_width : Z;           (* canvas.width *)
  canvas_height : Z;          (* canvas.height *)
  random : nat -> Q;          (* the n-th value of Math.random() *)
  now : nat -> Q;             (* the n-th value of performance.now() *)
  PI : Q;                     (* Math.PI *)
  hypot : Q -> Q -> Q;        (* Math.hypot *)
  atan2 : Q -> Q -> Q;        (* Math.atan2 *)
  cos : Q -> Q;               (* Math.cos *)
  sin : Q -> Q                (* Math.sin *)
}.

(** ** Entities other than bubbles *)

(** [{ x, y, vx, vy, color, active, bounces, born }] *)
Record Projectile := mkProjectile {
  p_x : Q; p_y : Q; p_vx : Q; p_vy : Q;
  p_color : Color; p_active : bool; p_bounces : Z; p_born : Q
}.

(** [state.shooter] *)
Record Shooter := mkShooter {
  sh_x : Q; sh_y : Q; sh_angle : Q; sh_targetAngle : Q
}.

(** An entry of [state.popping]. *)
Record Popping := mkPopping {
  pop_x : Q; pop_y : Q; pop_color : Color; pop_start : Q
}.

(** An entry of [state.falling]. *)
Record Falling := mkFalling {
  f_x : Q; f_y : Q; f_vx : Q; f_vy : Q; f_color : Color; f_born : Q
}.

(** An entry of [state.particles]. *)
Record Particle := mkParticle {
  pt_x : Q; pt_y : Q; pt_vx : Q; pt_vy : Q; pt_color : Color;
  pt_born : Q; pt_r : Q; pt_alpha : Q
}.

(** An entry of [state.trail]. *)
Record Trail := mkTrail {
  t_x : Q; t_y : Q; t_t : Q; t_color : Color
}.

(** ** Colour arithmetic: [shade]

    The same text in both versions.  A JavaScript string is a sequence
    of 16-bit code units; the model holds the strings whose code units
    are below 256, one [ascii] per unit.  [amt] is an integer. *)

(** The code unit of a character. *)
Definition codeOf (c : Ascii.ascii) : Z := Z.of_N (Ascii.N_of_ascii c).

(** The character of a code unit. *)
Definition charOf (n : Z) : Ascii.ascii := Ascii.ascii_of_N (Z.to_N n).

(** [col.replace('#', '')]: the first ['#'] is taken out. *)
Fixpoint removeFirstHash (s : string) : string :=
  match s with
  | EmptyString => EmptyString
  | String c rest =>
      if codeOf c =? 35 then rest else String c (removeFirstHash rest)
  end.

(** [c.split('').map(x => x + x).join('')] *)
Fixpoint doubled (s : string) : string :=
  match s with
  | EmptyString => EmptyString
  | String c rest => String c (String c (doubled rest))
  end.

(** The white space and line terminators that [parseInt] skips: TAB,
    LF, VT, FF, CR, SP and NBSP are the ones below 256. *)
Definition isStrWhiteSpace (c : Ascii.ascii) : bool :=
  let n := codeOf c in
  (n =? 9) || (n =? 10) || (n =? 11) || (n =? 12) || (n =? 13)
  || (n =? 32) || (n =? 160).

Fixpoint trimStart (s : string) : string :=
  match s with
  | EmptyString => EmptyString
  | String c rest => if isStrWhiteSpace c then trimStart rest else s
  end.

(** The value of a digit of radix 16, in either case. *)
Definition hexDigit (c : Ascii.ascii) : option Z :=
  let n := codeOf c in
  if (48 <=? n) && (n <=? 57) then Some (n - 48)
  else if (97 <=? n) && (n <=? 102) then Some (n - 87)
  else if (65 <=? n) && (n <=? 70) then Some (n - 55)
  else None.

(** The value of the longest prefix of digits; [acc] is [None] as long
    as no digit has been read. *)
Fixpoint hexPrefix (s : string) (acc : option Z) : option Z :=
  match s with
  | EmptyString => acc
  | String c rest =>
      match hexDigit c with
      | Some d => hexPrefix rest (Some (default 0 acc * 16 + d))
      | None => acc
      end
  end.

(** The numbers that [parseInt] returns: [NaN], an infinity, or an
    integer that a double holds. *)
Inductive Num :=
  | NaN
  | Infinite
  | Finite (n : Z).

(** The double nearest to the natural number [v]: 53 significant bits,
    ties to even, infinite from [2^1024] on. *)
Definition toDouble (v : Z) : Num :=
  let bits := Z.log2 v + 1 in
  if bits <=? 53 then Finite v
  else
    let k := bits - 53 in
    let q := Z.shiftr v k in
    let rest := Z.land v (Z.ones k) in
    let half := Z.shiftl 1 (k - 1) in
    let q := if (half <? rest) || ((rest =? half) && Z.odd q)
             then q + 1 else q in
    let r := Z.shiftl q k in
    if 2 ^ 1024 <=? r then Infinite else Finite r.

(** [parseInt(c, 16)]: leading white space, a sign, a prefix [0x] or
    [0X], then the longest run of digits; [NaN] when there is none. *)
Definition parseInt16 (s : string) : Num :=
  let s := trimStart s in
  let '(neg, s) :=
    match s with
    | String c rest =>
        if codeOf c =? 45 then (true, rest)
        else if codeOf c =? 43 then (false, rest)
        else (false, s)
    | EmptyString => (false, s)
    end in
  let s :=
    match s with
    | String c0 (String c1 rest) =>
        if (codeOf c0 =? 48) && ((codeOf c1 =? 120) || (codeOf c1 =? 88))
        then rest else s
    | _ => s
    end in
  match hexPrefix s None with
  | None => NaN
  | Some v =>
      match toDouble v with
      | Finite n => Finite (if neg then - n else n)
      | other => other
      end
  end.

(** An integer wrapped to 32 bits, two's complement. *)
Definition wrap32 (n : Z) : Z := (n + 2 ^ 31) mod 2 ^ 32 - 2 ^ 31.

(** [ToInt32], which the operators [>>], [&], [<<] and [|] apply to
    their operands. *)
Definition toInt32 (x : Num) : Z :=
  match x with
  | Finite n => wrap32 n
  | _ => 0
  end.

(** The digit of value [d]: [0-9a-f]. *)
Definition hexChar (d : Z) : Ascii.ascii :=
  charOf (if d <? 10 then d + 48 else d + 87).

(** The digits of [n > 0] before [acc], most significant first. *)
Fixpoint hexDigits (fuel : nat) (n : Z) (acc : string) : string :=
  match fuel with
  | O => acc
  | S f =>
      if n =? 0 then acc
      else hexDigits f (n / 16) (String (hexChar (n mod 16)) acc)
  end.

(** [n.toString(16)] for an integer [n]. *)
Definition toString16 (n : Z) : string :=
  if n =? 0 then "0"%string
  else
    let digits := hexDigits (S (Z.to_nat (Z.log2 (Z.abs n)))) (Z.abs n)
                    EmptyString in
    if n <? 0 then String (charOf 45) digits else digits.

(** [s.padStart(n, '0')] *)
Fixpoint zeros (n : nat) (s : string) : string :=
  match n with
  | O => s
  | S n => String (charOf 48) (zeros n s)
  end.

Definition padStart0 (n : nat) (s : string) : string :=
  zeros (n - String.length s) s.

(** [Math.max(0, Math.min(255, r))] *)
Definition clampChannel (r : Z) : Z := Z.max 0 (Z.min 255 r).

(** [shade(col, amt)] *)
Definition shade (col : string) (amt : Z) : string :=
  let c := removeFirstHash col in
  let c := if (String.length c =? 3)%nat then doubled c else c in
  let num := toInt32 (parseInt16 c) in
  let r := Z.shiftr num 16 + amt in
  let g := Z.land (Z.shiftr num 8) 255 + amt in
  let b := Z.land num 255 + amt in
  let r := clampChannel r in
  let g := clampChannel g in
  let b := clampChannel b in
  String (charOf 35)
    (padStart0 6
       (toString16
          (wrap32 (Z.lor (wrap32 (Z.lor (wrap32 (Z.shiftl r 16))
                                        (wrap32 (Z.shiftl g 8)))) b)))).

(** ** The aim guide: [drawAimGuide]

    One stroke of the guide, [moveTo(x, y); lineTo(nx, ny); stroke()]. *)
Record Segment := mkSegment {
  seg_x : Q; seg_y : Q; seg_nx : Q; seg_ny : Q
}.

(** The [while (len > 0)] loop, [width] being [canvas.width] and [r]
    the bubble radius: the strokes in order.  The source bounds the
    loop by [len] alone; [None] is a budget of turns that runs out
    with [len] still positive. *)
Fixpoint guideLoop (fuel : nat) (width r x y vx vy len : Q)
    : option (list Segment) :=
  if Qltb 0 len then
    match fuel with
    | O => None
    | S n =>
        let step := if Qltb len 12 then len else 12%Q in
        let nx := (x + vx * step)%Q in
        let ny := (y + vy * step)%Q in
        let vx := if Qltb nx r || Qltb (width - r)%Q nx then (- vx)%Q else vx in
        cons (mkSegment x y nx ny)
          <$> guideLoop n width r nx ny vx vy (len - step)%Q
    end
  else Some [].

(** A budget of turns for a guide of length [len]: one per step of 12. *)
Definition guideTurns (len : Q) : nat := Z.to_nat (Qceiling (len / 12)%Q).

(** * [src/game.js] *)

Module Game.

(** ** [CONFIG] *)

Definition bubbleRadius : Q := 16.
Definition rowCount : Z := 8.
Definition colors : list Color :=
  ["#60a5fa"; "#f472b6"; "#facc15"; "#34d399"; "#a78bfa"; "#f87171"]%string.
Definition launchSpeed : Q := 720.
Definition friction : Q := 988 # 1000.
Definition minCluster : nat := 3.
Definition spawnRowInterval : Q := 14000.
Definition maxBounce : Z := 8.
Definition rowHeightFactor : Q := 162 # 100.
Definition popDuration : Q := 260.
Definition fallGravity : Q := 1200.
Definition fallJitter : Q := 110.
Definition particleCountPerBubble : Z := 7.
Definition particleLife : Q := 420.
Definition projectileTrail : bool := true.
Definition aimDamping : Q := 18 # 100.

(** ** The session state

    The fields of the global [state] object, then [highScore], then what
    the model keeps of the page: whether the overlay carries the class
    [show], the arguments of every [endGame] call so far, and the
    number of calls made so far to [Math.random] and
    [performance.now]. *)
Record State := mkState {
  grid : Grid;
  projectiles : list Projectile;
  shooter : Shooter;
  nextColor : option Color;
  score : Z;
  shots : Z;
  gameOver : bool;
  lastTime : Q;
  spawnTimer : Q;
  particles : list Particle;
  popping : list Popping;
  falling : list Falling;
  trail : list Trail;
  highScore : Z;
  overlayShown : bool;
  endGameCalls : list bool;
  randomCalls : nat;
  nowCalls : nat
}.

Definition set_grid (v : Grid) (s : State) : State :=
  mkState v (projectiles s) (shooter s) (nextColor s) (score s) (shots s)
    (gameOver s) (lastTime s) (spawnTimer s) (particles s) (popping s)
    (falling s) (trail s) (highScore s) (overlayShown s) (endGameCalls s)
    (randomCalls s) (nowCalls s).
Definition set_projectiles (v : list Projectile) (s : State) : State :=
  mkState (grid s) v (shooter s) (nextColor s) (score s) (shots s)
    (gameOver s) (lastTime s) (spawnTimer s) (particles s) (popping s)
    (falling s) (trail s) (highScore s) (overlayShown s) (endGameCalls s)
    (randomCalls s) (nowCalls s).
Definition set_shooter (v : Shooter) (s : State) : State :=
  mkState (grid s) (projectiles s) v (nextColor s) (score s) (shots s)
    (gameOver s) (lastTime s) (spawnTimer s) (particles s) (popping s)
    (falling s) (trail s) (highScore s) (overlayShown s) (endGameCalls s)
    (randomCalls s) (nowCalls s).
Definition set_nextColor (v : option Color) (s : State) : State :=
  mkState (grid s) (projectiles s) (shooter s) v (score s) (shots s)
    (gameOver s) (lastTime s) (spawnTimer s) (particles s) (popping s)
    (falling s) (trail s) (highScore s) (overlayShown s) (endGameCalls s)
    (randomCalls s) (nowCalls s).
Definition set_score (v : Z) (s : State) : State :=
  mkState (grid s) (projectiles s) (shooter s) (nextColor s) v (shots s)
    (gameOver s) (lastTime s) (spawnTimer s) (particles s) (popping s)
    (falling s) (trail s) (highScore s) (overlayShown s) (endGameCalls s)
    (randomCalls s) (nowCalls s).
Definition set_shots (v : Z) (s : State) : State :=
  mkState (grid s) (projectiles s) (shooter s) (nextColor s) (score s) v
    (gameOver s) (lastTime s) (spawnTimer s) (particles s) (popping s)
    (falling s) (trail s) (highScore s) (overlayShown s) (endGameCalls s)
    (randomCalls s) (nowCalls s).
Definition set_gameOver (v : bool) (s : State) : State :=
  mkState (grid s) (projectiles s) (shooter s) (nextColor s) (score s)
    (shots s) v (lastTime s) (spawnTimer s) (particles s) (popping s)
    (falling s) (trail s) (highScore s) (overlayShown s) (endGameCalls s)
    (randomCalls s) (nowCalls s).
Definition set_lastTime (v : Q) (s : State) : State :=
  mkState (grid s) (projectiles s) (shooter s) (nextColor s) (score s)
    (shots s) (gameOver s) v (spawnTimer s) (particles s) (popping s)
    (falling s) (trail s) (highScore s) (overlayShown s) (endGameCalls s)
    (randomCalls s) (nowCalls s).
Definition set_spawnTimer (v : Q) (s : State) : State :=
  mkState (grid s) (projectiles s) (shooter s) (nextColor s) (score s)
    (shots s) (gameOver s) (lastTime s) v (particles s) (popping s)
    (falling s) (trail s) (highScore s) (overlayShown s) (endGameCalls s)
    (randomCalls s) (nowCalls s).
Definition set_particles (v : list Particle) (s : State) : State :=
  mkState (grid s) (projectiles s) (shooter s) (nextColor s) (score s)
    (shots s) (gameOver s) (lastTime s) (spawnTimer s) v (popping s)
    (falling s) (trail s) (highScore s) (overlayShown s) (endGameCalls s)
    (randomCalls s) (nowCalls s).
Definition set_popping (v : list Popping) (s : State) : State :=
  mkState (grid s) (projectiles s) (shooter s) (nextColor s) (score s)
    (shots s) (gameOver s) (lastTime s) (spawnTimer s) (particles s) v
    (falling s) (trail s) (highScore s) (overlayShown s) (endGameCalls s)
    (randomCalls s) (nowCalls s).
Definition set_falling (v : list Falling) (s : State) : State :=
  mkState (grid s) (projectiles s) (shooter s) (nextColor s) (score s)
    (shots s) (gameOver s) (lastTime s) (spawnTimer s) (particles s)
    (popping s) v (trail s) (highScore s) (overlayShown s) (endGameCalls s)
    (randomCalls s) (nowCalls s).
Definition set_trail (v : list Trail) (s : State) : State :=
  mkState (grid s) (projectiles s) (shooter s) (nextColor s) (score s)
    (shots s) (gameOver s) (lastTime s) (spawnTimer s) (particles s)
    (popping s) (falling s) v (highScore s) (overlayShown s) (endGameCalls s)
    (randomCalls s) (nowCalls s).
Definition set_highScore (v : Z) (s : State) : State :=
  mkState (grid s) (projectiles s) (shooter s) (nextColor s) (score s)
    (shots s) (gameOver s) (lastTime s) (spawnTimer s) (particles s)
    (popping s) (falling s) (trail s) v (overlayShown s) (endGameCalls s)
    (randomCalls s) (nowCalls s).
Definition set_overlayShown (v : bool) (s : State) : State :=
  mkState (grid s) (projectiles s) (shooter s) (nextColor s) (score s)
    (shots s) (gameOver s) (lastTime s) (spawnTimer s) (particles s)
    (popping s) (falling s) (trail s) (highScore s) v (endGameCalls s)
    (randomCalls s) (nowCalls s).
Definition set_endGameCalls (v : list bool) (s : State) : State :=
  mkState (grid s) (projectiles s) (shooter s) (nextColor s) (score s)
    (shots s) (gameOver s) (lastTime s) (spawnTimer s) (particles s)
    (popping s) (falling s) (trail s) (highScore s) (overlayShown s) v
    (randomCalls s) (nowCalls s).
Definition set_randomCalls (v : nat) (s : State) : State :=
  mkState (grid s) (projectiles s) (shooter s) (nextColor s) (score s)
    (shots s) (gameOver s) (lastTime s) (spawnTimer s) (particles s)
    (popping s) (falling s) (trail s) (highScore s) (overlayShown s)
    (endGameCalls s) v (nowCalls s).
Definition set_nowCalls (v : nat) (s : State) : State :=
  mkState (grid s) (projectiles s) (shooter s) (nextColor s) (score s)
    (shots s) (gameOver s) (lastTime s) (spawnTimer s) (particles s)
    (popping s) (falling s) (trail s) (highScore s) (overlayShown s)
    (endGameCalls s) (randomCalls s) v.

Section WithHost.
Variable host : Host.

(** [Math.random()] *)
Definition mathRandom (s : State) : Q * State :=
  (random host (randomCalls s), set_randomCalls (S (randomCalls s)) s).

(** [performance.now()] *)
Definition performanceNow (s : State) : Q * State :=
  (now host (nowCalls s), set_nowCalls (S (nowCalls s)) s).

(** [CONFIG.colors[i]]; off the palette the source reads [undefined],
    which no [Math.random] in [0, 1) produces. *)
Definition colorAt (i : Z) : Color :=
  if i <? 0 then "undefined"%string
  else nth_default "undefined"%string colors (Z.to_nat i).

Definition pickColor (s : State) : Color * State :=
  let '(u, s) := mathRandom s in
  (colorAt (js_floor (u * ZtoQ (Z.of_nat (length colors)))%Q), s).

(** [Math.floor(canvas.width / (r * 2))] *)
Definition perRow : Z :=
  js_floor (ZtoQ (canvas_width host) / (bubbleRadius * 2))%Q.

Definition rowHeight : Q := (bubbleRadius * rowHeightFactor)%Q.

(** The inner loop of [initGrid]: one row of [count] bubbles. *)
Definition initRow (row count : Z) (s : State) : list Bubble * State :=
  let offset := (ZtoQ (Z.rem row 2) * bubbleRadius)%Q in
  foldl (fun '(arr, s) c =>
           let '(col, s) := pickColor s in
           (arr ++ [mkBubble row c
                      (bubbleRadius + ZtoQ c * bubbleRadius * 2 + offset)%Q
                      (bubbleRadius + ZtoQ row * rowHeight)%Q col false], s))
        ([], s) (seqZ 0 count).

Definition initGrid (s : State) : State :=
  foldl (fun s row =>
           let count := perRow - (if Z.rem row 2 =? 0 then 0 else 1) in
           let '(arr, s) := initRow row count s in
           set_grid (grid s ++ [arr]) s)
        (set_grid [] s) (seqZ 0 rowCount).

Definition newProjectile (s : State) : State :=
  let '(col, s) := match nextColor s with
                   | Some col => (col, s)
                   | None => pickColor s
                   end in
  let s := set_nextColor (Some col) s in
  let '(born, s) := performanceNow s in
  let p := mkProjectile (sh_x (shooter s)) (sh_y (shooter s))
             (cos host (sh_angle (shooter s)) * launchSpeed)%Q
             (sin host (sh_angle (shooter s)) * launchSpeed)%Q
             col true 0 born in
  let '(next, s) := pickColor s in
  let s := set_nextColor (Some next) s in
  let s := set_projectiles (projectiles s ++ [p]) s in
  set_shots (shots s + 1) s.

Definition updateHighScore (s : State) : State :=
  if highScore s <? score s then set_highScore (score s) s else s.

(** One turn of the loop of [spawnParticles]. *)
Definition spawnParticle (px py : Q) (color : Color) (drop : bool)
    (t : Q) (s : State) : State :=
  let '(u1, s) := mathRandom s in
  let ang := (u1 * PI host * 2)%Q in
  let '(u2, s) := mathRandom s in
  let speed := ((if drop then 60 else 140) * ((4 # 10) + u2 * (6 # 10)))%Q in
  let '(u3, s) := mathRandom s in
  set_particles
    (particles s ++
       [mkParticle px py (cos host ang * speed)%Q
          (sin host ang * speed - (if drop then 0 else 40))%Q
          color t (3 + u3 * 2)%Q 1]) s.

Definition spawnParticles (px py : Q) (color : Color) (drop : bool)
    (s : State) : State :=
  let '(t, s) := performanceNow s in
  foldl (fun s _ => spawnParticle px py color drop t s) s
        (seqZ 0 particleCountPerBubble).

(** ** Cluster pop check *)

(** One turn of [for (const b of cluster)]: the flag is written
    through the reference held by the grid; then the pop animation and
    the particles. *)
Definition popBubble (s : State) (b : Bubble) : State :=
  let s := set_grid (markKey (key b) (grid s)) s in
  let '(t, s) := performanceNow s in
  let s := set_popping
             (popping s ++ [mkPopping (b_x b) (b_y b) (b_color b) t]) s in
  spawnParticles (b_x b) (b_y b) (b_color b) false s.

Definition clusterCheck (origin : Bubble) (s : State) : State :=
  let cluster := clusterOf (grid s) origin in
  if (minCluster <=? length cluster)%nat then
    let s := foldl popBubble s cluster in
    let s := set_score (score s + Z.of_nat (length cluster) * 10) s in
    updateHighScore s
  else s.

(** ** Floating check *)

(** [!connected.has(b.row + ':' + b.c) && !b.removing] *)
Definition floats (connected : gset Key) (b : Bubble) : bool :=
  negb (bool_decide (key b ∈ connected)) && negb (b_removing b).

(** The body of that [if], the [splice] apart: the falling bubble, the
    score and the particles. *)
Definition dropBubble (s : State) (b : Bubble) : State :=
  let '(u1, s) := mathRandom s in
  let '(u2, s) := mathRandom s in
  let '(t, s) := performanceNow s in
  let s := set_falling
             (falling s ++
                [mkFalling (b_x b) (b_y b) ((u1 * 2 - 1) * fallJitter)%Q
                   (- u2 * 80)%Q (b_color b) t]) s in
  let s := set_score (score s + 20) s in
  spawnParticles (b_x b) (b_y b) (b_color b) true s.

(** [for (let i = rowArr.length - 1; i >= 0; i--)]: the row is read
    from its last bubble to its first; a floating bubble is spliced
    out, the others keep their order. *)
Definition sweepRow (connected : gset Key) (rowArr : list Bubble)
    (s : State) : list Bubble * State :=
  foldl (fun '(kept, s) b =>
           if floats connected b then (kept, dropBubble s b)
           else (b :: kept, s))
        ([], s) (rev rowArr).

Definition floatingCheck (s : State) : State :=
  let connected := connectedSet (grid s) in
  let '(rows, s) :=
    foldl (fun '(rows, s) rowArr =>
             let '(kept, s) := sweepRow connected rowArr s in
             (rows ++ [kept], s))
          ([], s) (grid s) in
  updateHighScore (set_grid rows s).

(** ** Placement *)

(** [while (state.grid.length <= row) state.grid.push([])] *)
Definition padRows (g : Grid) (row : Z) : Grid :=
  g ++ replicate (Z.to_nat (row + 1) - length g)%nat [].

(** The slot [(row, col)] that [addBubbleAt] snaps a target to. *)
Definition cellOf (targetX targetY : Q) : Z * Z :=
  let row := Z.max 0 (js_round ((targetY - bubbleRadius) / rowHeight)%Q) in
  let offset := (ZtoQ (Z.rem row 2) * bubbleRadius)%Q in
  let col :=
    Z.max 0 (Z.min (perRow - 1)
               (js_round ((targetX - offset - bubbleRadius)
                          / (bubbleRadius * 2))%Q)) in
  (row, col).

(** The bubble that [addBubbleAt] creates for a free slot. *)
Definition bubbleAt (row col : Z) (color : Color) : Bubble :=
  let offset := (ZtoQ (Z.rem row 2) * bubbleRadius)%Q in
  mkBubble row col
    (bubbleRadius + ZtoQ col * bubbleRadius * 2 + offset)%Q
    (bubbleRadius + ZtoQ row * rowHeight)%Q color false.

Definition addBubbleAt (projectile : Projectile) (targetX targetY : Q)
    (s : State) : State :=
  let '(row, col) := cellOf targetX targetY in
  let g := padRows (grid s) row in
  let rowArr := default [] (g !! Z.to_nat row) in
  match findCol col rowArr with
  | Some _ => set_grid g s
  | None =>
      let bubble := bubbleAt row col (p_color projectile) in
      let s := set_grid (<[Z.to_nat row := rowArr ++ [bubble]]> g) s in
      floatingCheck (clusterCheck bubble s)
  end.

(** ** Row pressure *)

(** [b.y += rowHeight] *)
Definition lower (b : Bubble) : Bubble :=
  mkBubble (b_row b) (b_c b) (b_x b) (b_y b + rowHeight)%Q
    (b_color b) (b_removing b).

(** [b.row = row] *)
Definition setRow (row : Z) (b : Bubble) : Bubble :=
  mkBubble row (b_c b) (b_x b) (b_y b) (b_color b) (b_removing b).

(** The row that [pushRow] builds: [perRow] bubbles, a colour drawn for
    each. *)
Definition newTopRow (s : State) : list Bubble * State :=
  foldl (fun '(arr, s) c =>
           let '(col, s) := pickColor s in
           (arr ++ [mkBubble 0 c
                      (bubbleRadius + ZtoQ c * bubbleRadius * 2)%Q
                      bubbleRadius col false], s))
        ([], s) (seqZ 0 perRow).

(** [for (let row = 0; ...) for (const b of state.grid[row]) b.row = row] *)
Definition renumber (g : Grid) : Grid :=
  imap (fun i rowArr => map (setRow (Z.of_nat i)) rowArr) g.

Definition pushRow (s : State) : State :=
  let g := map (map lower) (grid s) in
  let '(newRow, s) := newTopRow s in
  set_grid (renumber (newRow :: g)) s.

(** ** The frame update *)

(** [state.shooter.angle += da * CONFIG.aimDamping] *)
Definition easeAim (s : State) : State :=
  let sh := shooter s in
  let da := (sh_targetAngle sh - sh_angle sh)%Q in
  set_shooter
    (mkShooter (sh_x sh) (sh_y sh) (sh_angle sh + da * aimDamping)%Q
       (sh_targetAngle sh)) s.

(** [p.x += p.vx * dt; p.y += p.vy * dt; p.vx *= friction; p.vy *= friction] *)
Definition move (dt : Q) (p : Projectile) : Projectile :=
  mkProjectile (p_x p + p_vx p * dt)%Q (p_y p + p_vy p * dt)%Q
    (p_vx p * friction)%Q (p_vy p * friction)%Q
    (p_color p) (p_active p) (p_bounces p) (p_born p).

(** [p.active = false] *)
Definition deactivate (p : Projectile) : Projectile :=
  mkProjectile (p_x p) (p_y p) (p_vx p) (p_vy p)
    (p_color p) false (p_bounces p) (p_born p).

(** The trail entry of the projectile, and the cap of 400 entries. *)
Definition pushTrail (p : Projectile) (s : State) : State :=
  let s :=
    if projectileTrail then
      let '(t, s) := performanceNow s in
      set_trail (trail s ++ [mkTrail (p_x p) (p_y p) t (p_color p)]) s
    else s in
  if (400 <? length (trail s))%nat
  then set_trail (drop (length (trail s) - 400) (trail s)) s
  else s.

(** The wall bounce. *)
Definition bounce (p : Projectile) : Projectile :=
  let right := (ZtoQ (canvas_width host) - bubbleRadius)%Q in
  if Qltb (p_x p) bubbleRadius then
    mkProjectile bubbleRadius (p_y p) (Qabs (p_vx p)) (p_vy p)
      (p_color p) (p_active p) (p_bounces p + 1) (p_born p)
  else if Qltb right (p_x p) then
    mkProjectile right (p_y p) (- Qabs (p_vx p))%Q (p_vy p)
      (p_color p) (p_active p) (p_bounces p + 1) (p_born p)
  else p.

(** [if (p.bounces > CONFIG.maxBounce) p.active = false] *)
Definition bounceLimit (p : Projectile) : Projectile :=
  if maxBounce <? p_bounces p then deactivate p else p.

(** [dist < CONFIG.bubbleRadius * 2 - 0.5] *)
Definition hits (p : Projectile) (b : Bubble) : bool :=
  Qltb (hypot host (p_x p - b_x b) (p_y p - b_y b))%Q
       (bubbleRadius * 2 - (1 # 2))%Q.

(** The two nested collision loops stop at the first bubble hit, rows
    in order and each row in order. *)
Definition firstHit (g : Grid) (p : Projectile) : option Bubble :=
  List.find (hits p) (concat g).

(** The body of the collision [if]: the projectile is switched off and
    a bubble is placed just outside the bubble hit. *)
Definition collide (p : Projectile) (b : Bubble) (s : State)
    : Projectile * State :=
  let p := deactivate p in
  let angle := atan2 host (p_y p - b_y b)%Q (p_x p - b_x b)%Q in
  let tx := (b_x b + cos host angle * bubbleRadius * 2)%Q in
  let ty := (b_y b + sin host angle * bubbleRadius * 2)%Q in
  (p, addBubbleAt p tx ty s).

(** One turn of [for (const p of state.projectiles)].  The projectile
    objects are updated in place; the model collects them in order. *)
Definition stepProjectile (dt : Q) (acc : list Projectile * State)
    (p : Projectile) : list Projectile * State :=
  let '(moved, s) := acc in
  if negb (p_active p) then (moved ++ [p], s)
  else
    let p := move dt p in
    let s := pushTrail p s in
    let p := bounce p in
    let p := bounceLimit p in
    if Qltb (p_y p) bubbleRadius then
      let p := deactivate p in
      (moved ++ [p], addBubbleAt p (p_x p) bubbleRadius s)
    else
      let '(p, s) := match firstHit (grid s) p with
                     | Some b => collide p b s
                     | None => (p, s)
                     end in
      let p := if Qltb (ZtoQ (canvas_height host) - 12)%Q (p_y p)
               then deactivate p else p in
      (moved ++ [p], s).

(** [f.vy += CONFIG.fallGravity * dt; f.x += f.vx * dt; f.y += f.vy * dt] *)
Definition fall (dt : Q) (f : Falling) : Falling :=
  let vy := (f_vy f + fallGravity * dt)%Q in
  mkFalling (f_x f + f_vx f * dt)%Q (f_y f + vy * dt)%Q (f_vx f) vy
    (f_color f) (f_born f).

(** The particle update, [t] being the [now] of the frame. *)
Definition drift (dt t : Q) (pt : Particle) : Particle :=
  let life := ((t - pt_born pt) / particleLife)%Q in
  mkParticle (pt_x pt + pt_vx pt * dt)%Q (pt_y pt + pt_vy pt * dt)%Q
    (pt_vx pt) (pt_vy pt + 400 * dt)%Q (pt_color pt) (pt_born pt)
    (pt_r pt) (1 - life)%Q.

(** [endGame(win)]: the overlay is filled and shown. *)
Definition endGame (win : bool) (s : State) : State :=
  let s := updateHighScore s in
  let s := set_endGameCalls (endGameCalls s ++ [win]) s in
  set_overlayShown true s.

(** Everything [update] does before it looks at the terminal
    conditions: aim, projectiles, effects, row pressure. *)
Definition advance (dt : Q) (s : State) : State :=
  let s := easeAim s in
  let '(ps, s) := foldl (stepProjectile dt) ([], s) (projectiles s) in
  let s := set_projectiles (List.filter p_active ps) s in
  let '(t, s) := performanceNow s in
  let s := set_popping
             (List.filter (fun pop => Qltb (t - pop_start pop)%Q popDuration)
                (popping s)) s in
  let s := set_falling (map (fall dt) (falling s)) s in
  let s := set_falling
             (List.filter
                (fun f => Qltb (f_y f)
                            (ZtoQ (canvas_height host) + bubbleRadius * 2)%Q)
                (falling s)) s in
  let s := set_particles
             (List.filter (fun pt => Qltb (t - pt_born pt)%Q particleLife)
                (particles s)) s in
  let s := set_particles (map (drift dt t) (particles s)) s in
  let s := set_spawnTimer (spawnTimer s + dt * 1000)%Q s in
  if Qle_bool spawnRowInterval (spawnTimer s)
  then set_spawnTimer 0 (pushRow s)
  else s.

(** [state.grid.every(r => r.length === 0)] *)
Definition gridEmpty (g : Grid) : bool :=
  forallb (fun r => (length r =? 0)%nat) g.

(** The win check, then the lose check. *)
Definition winLose (s : State) : State :=
  let s := if negb (gameOver s) && gridEmpty (grid s)
           then endGame true (set_gameOver true s) else s in
  let dangerY := (ZtoQ (canvas_height host) - 100)%Q in
  if negb (gameOver s) then
    if existsb (fun b => Qltb dangerY (b_y b)) (concat (grid s))
    then endGame false (set_gameOver true s)
    else s
  else s.

Definition update (dt : Q) (s : State) : State := winLose (advance dt s).

(** [draw()]: it paints the canvas from the session, which it leaves
    as it is, and reads [performance.now()] once, for the age of the
    trail entries and of the pop animations. *)
Definition draw (s : State) : State :=
  let '(_, s) := performanceNow s in s.

(** [gameLoop(ts)] *)
Definition gameLoop (ts : Q) (s : State) : State :=
  let s := if Qeq_bool (lastTime s) 0 then set_lastTime ts s else s in
  let dt := ((ts - lastTime s) / 1000)%Q in
  let s := set_lastTime ts s in
  let s := if negb (gameOver s) then update dt s else s in
  draw s.

Definition startGame (s : State) : State :=
  let s := set_grid [] s in
  let s := set_projectiles [] s in
  let s := set_score 0 s in
  let s := set_shots 0 s in
  let s := set_gameOver false s in
  let s := set_lastTime 0 s in
  let s := set_spawnTimer 0 s in
  let s := set_particles [] s in
  let s := set_popping [] s in
  let s := set_falling [] s in
  let s := set_trail [] s in
  let s := initGrid s in
  let s := set_overlayShown false s in
  let '(col, s) := pickColor s in
  set_nextColor (Some col) s.

(** ** Input events *)

(** The aim of [mousemove] and [touchstart], [(mx, my)] being the
    pointer in canvas coordinates. *)
Definition aimAt (mx my : Q) (s : State) : State :=
  let sh := shooter s in
  let a := atan2 host (my - sh_y sh)%Q (mx - sh_x sh)%Q in
  let a := if Qltb (- (2 # 10))%Q a then (- (2 # 10))%Q else a in
  let a := if Qltb a (- PI host + (2 # 10))%Q
           then (- PI host + (2 # 10))%Q else a in
  set_shooter (mkShooter (sh_x sh) (sh_y sh) (sh_angle sh) a) s.

(** The [click] listener of the canvas: the fire command. *)
Definition click (s : State) : State :=
  if gameOver s || overlayShown s then s else newProjectile s.

Definition touchstart (mx my : Q) (s : State) : State :=
  let s := aimAt mx my s in
  if negb (gameOver s) && negb (overlayShown s) then newProjectile s else s.

(** What can happen to a session: a frame, a pointer event, or a
    press on one of the buttons bound to [startGame]. *)
Inductive Event :=
  | Frame (ts : Q)
  | MouseMove (mx my : Q)
  | Click
  | TouchStart (mx my : Q)
  | Start.

Definition handle (s : State) (e : Event) : State :=
  match e with
  | Frame ts => gameLoop ts s
  | MouseMove mx my => aimAt mx my s
  | Click => click s
  | TouchStart mx my => touchstart mx my s
  | Start => startGame s
  end.

(** The events of one session: no [startGame] among them. *)
Definition inSession (e : Event) : bool :=
  match e with Start => false | _ => true end.

(** ** Functions of the script that the simulation does not call *)

(** [worldToGrid(y)]: the row of a vertical spacing of [r * 1.732]. *)
Definition worldToGrid (y : Q) : Z :=
  js_round ((y - bubbleRadius) / (bubbleRadius * (1732 # 1000)))%Q.

(** [CONFIG.aimGuideLength] *)
Definition aimGuideLength : Q := 140.

(** The strokes of [drawAimGuide()]. *)
Definition drawAimGuide (s : State) : option (list Segment) :=
  let angle := sh_angle (shooter s) in
  guideLoop (guideTurns aimGuideLength) (ZtoQ (canvas_width host)) bubbleRadius
    (sh_x (shooter s)) (sh_y (shooter s)) (cos host angle) (sin host angle)
    aimGuideLength.

End WithHost.

(** The state the script builds when it is loaded, [best] being the
    high score read from the local storage. *)
Definition initialState (host : Host) (best : Z) (shown : bool) : State :=
  mkState [] []
    (mkShooter (ZtoQ (canvas_width host) / 2)%Q
       (ZtoQ (canvas_height host) - 40)%Q
       (- PI host / 2)%Q (- PI host / 2)%Q)
    None 0 0 false 0 0 [] [] [] [] best shown [] 0%nat 0%nat.

End Game.

(** * [src/unnamed/part_001]: the earlier version of the program

    It differs from [src/game.js] in its constants, in keeping no
    effects (particles, falling bubbles, trail), in a floating check
    that only flags, and in a frame update that splices the flagged
    bubbles out of the grid.  [addBubbleAt] does not clamp the row: on
    a negative row [state.grid[row]] is [undefined] and
    [rowArr.find] throws, which the model renders as [None]. *)

Module Early.

Definition bubbleRadius : Q := 16.
Definition rowCount : Z := 8.
Definition colors : list Color :=
  ["#60a5fa"; "#f472b6"; "#facc15"; "#34d399"; "#a78bfa"; "#f87171"]%string.
Definition launchSpeed : Q := 680.
Definition friction : Q := 985 # 1000.
Definition minCluster : nat := 3.
Definition spawnRowInterval : Q := 15000.
Definition maxBounce : Z := 6.

(** [{ x, y, vx, vy, color, active, bounces }] *)
Record Projectile := mkProjectile {
  p_x : Q; p_y : Q; p_vx : Q; p_vy : Q;
  p_color : Color; p_active : bool; p_bounces : Z
}.

(** [state.shooter] *)
Record Shooter := mkShooter { sh_x : Q; sh_y : Q; sh_angle : Q }.

(** The fields of [state], then the overlay's [show] class, the
    arguments of the [endGame] calls so far and the number of calls
    made to [Math.random]. *)
Record State := mkState {
  grid : Grid;
  projectiles : list Projectile;
  shooter : Shooter;
  nextColor : option Color;
  score : Z;
  shots : Z;
  lastRowPush : Q;
  gameOver : bool;
  lastTime : Q;
  spawnTimer : Q;
  overlayShown : bool;
  endGameCalls : list bool;
  randomCalls : nat
}.

Definition set_grid (v : Grid) (s : State) : State :=
  mkState v (projectiles s) (shooter s) (nextColor s) (score s) (shots s)
    (lastRowPush s) (gameOver s) (lastTime s) (spawnTimer s)
    (overlayShown s) (endGameCalls s) (randomCalls s).
Definition set_projectiles (v : list Projectile) (s : State) : State :=
  mkState (grid s) v (shooter s) (nextColor s) (score s) (shots s)
    (lastRowPush s) (gameOver s) (lastTime s) (spawnTimer s)
    (overlayShown s) (endGameCalls s) (randomCalls s).
Definition set_shooter (v : Shooter) (s : State) : State :=
  mkState (grid s) (projectiles s) v (nextColor s) (score s) (shots s)
    (lastRowPush s) (gameOver s) (lastTime s) (spawnTimer s)
    (overlayShown s) (endGameCalls s) (randomCalls s).
Definition set_nextColor (v : option Color) (s : State) : State :=
  mkState (grid s) (projectiles s) (shooter s) v (score s) (shots s)
    (lastRowPush s) (gameOver s) (lastTime s) (spawnTimer s)
    (overlayShown s) (endGameCalls s) (randomCalls s).
Definition set_score (v : Z) (s : State) : State :=
  mkState (grid s) (projectiles s) (shooter s) (nextColor s) v (shots s)
    (lastRowPush s) (gameOver s) (lastTime s) (spawnTimer s)
    (overlayShown s) (endGameCalls s) (randomCalls s).
Definition set_shots (v : Z) (s : State) : State :=
  mkState (grid s) (projectiles s) (shooter s) (nextColor s) (score s) v
    (lastRowPush s) (gameOver s) (lastTime s) (spawnTimer s)
    (overlayShown s) (endGameCalls s) (randomCalls s).
Definition set_gameOver (v : bool) (s : State) : State :=
  mkState (grid s) (projectiles s) (shooter s) (nextColor s) (score s)
    (shots s) (lastRowPush s) v (lastTime s) (spawnTimer s)
    (overlayShown s) (endGameCalls s) (randomCalls s).
Definition set_lastTime (v : Q) (s : State) : State :=
  mkState (grid s) (projectiles s) (shooter s) (nextColor s) (score s)
    (shots s) (lastRowPush s) (gameOver s) v (spawnTimer s)
    (overlayShown s) (endGameCalls s) (randomCalls s).
Definition set_spawnTimer (v : Q) (s : State) : State :=
  mkState (grid s) (projectiles s) (shooter s) (nextColor s) (score s)
    (shots s) (lastRowPush s) (gameOver s) (lastTime s) v
    (overlayShown s) (endGameCalls s) (randomCalls s).
Definition set_overlayShown (v : bool) (s : State) : State :=
  mkState (grid s) (projectiles s) (shooter s) (nextColor s) (score s)
    (shots s) (lastRowPush s) (gameOver s) (lastTime s) (spawnTimer s)
    v (endGameCalls s) (randomCalls s).
Definition set_endGameCalls (v : list bool) (s : State) : State :=
  mkState (grid s) (projectiles s) (shooter s) (nextColor s) (score s)
    (shots s) (lastRowPush s) (gameOver s) (lastTime s) (spawnTimer s)
    (overlayShown s) v (randomCalls s).
Definition set_randomCalls (v : nat) (s : State) : State :=
  mkState (grid s) (projectiles s) (shooter s) (nextColor s) (score s)
    (shots s) (lastRowPush s) (gameOver s) (lastTime s) (spawnTimer s)
    (overlayShown s) (endGameCalls s) v.

Section WithHost.
Variable host : Host.

Definition mathRandom (s : State) : Q * State :=
  (random host (randomCalls s), set_randomCalls (S (randomCalls s)) s).

Definition colorAt (i : Z) : Color :=
  if i <? 0 then "undefined"%string
  else nth_default "undefined"%string colors (Z.to_nat i).

Definition pickColor (s : State) : Color * State :=
  let '(u, s) := mathRandom s in
  (colorAt (js_floor (u * ZtoQ (Z.of_nat (length colors)))%Q), s).

Definition perRow : Z :=
  js_floor (ZtoQ (canvas_width host) / (bubbleRadius * 2))%Q.

(** The row height of [initGrid], [r * 1.65]. *)
Definition initRowHeight : Q := (bubbleRadius * (165 # 100))%Q.

(** The row height of [worldToGrid], [addBubbleAt] and [pushRow],
    [r * 1.732]. *)
Definition rowHeight : Q := (bubbleRadius * (1732 # 1000))%Q.

Definition initRow (row count : Z) (s : State) : list Bubble * State :=
  let offset := (ZtoQ (Z.rem row 2) * bubbleRadius)%Q in
  foldl (fun '(arr, s) c =>
           let '(col, s) := pickColor s in
           (arr ++ [mkBubble row c
                      (bubbleRadius + ZtoQ c * bubbleRadius * 2 + offset)%Q
                      (bubbleRadius + ZtoQ row * initRowHeight)%Q col false],
            s))
        ([], s) (seqZ 0 count).

Definition initGrid (s : State) : State :=
  foldl (fun s row =>
           let count := perRow - (if Z.rem row 2 =? 0 then 0 else 1) in
           let '(arr, s) := initRow row count s in
           set_grid (grid s ++ [arr]) s)
        (set_grid [] s) (seqZ 0 rowCount).

Definition newProjectile (s : State) : State :=
  let '(col, s) := match nextColor s with
                   | Some col => (col, s)
                   | None => pickColor s
                   end in
  let s := set_nextColor (Some col) s in
  let p := mkProjectile (sh_x (shooter s)) (sh_y (shooter s))
             (cos host (sh_angle (shooter s)) * launchSpeed)%Q
             (sin host (sh_angle (shooter s)) * launchSpeed)%Q
             col true 0 in
  let '(next, s) := pickColor s in
  let s := set_nextColor (Some next) s in
  let s := set_projectiles (projectiles s ++ [p]) s in
  set_shots (shots s + 1) s.

(** [worldToGrid(y)] *)
Definition worldToGrid (y : Q) : Z :=
  js_round ((y - bubbleRadius) / rowHeight)%Q.

(** [cluster.forEach(b => b.removing = true)] and the score. *)
Definition clusterCheck (origin : Bubble) (s : State) : State :=
  let cluster := clusterOf (grid s) origin in
  if (minCluster <=? length cluster)%nat then
    let s := foldl (fun s b => set_grid (markKey (key b) (grid s)) s)
                   s cluster in
    set_score (score s + Z.of_nat (length cluster) * 10) s
  else s.

Definition floats (connected : gset Key) (b : Bubble) : bool :=
  negb (bool_decide (key b ∈ connected)) && negb (b_removing b).

(** The inner loop of [floatingCheck], last bubble first: a floating
    bubble is flagged where it sits and scored. *)
Definition sweepRow (connected : gset Key) (rowArr : list Bubble)
    (s : State) : list Bubble * State :=
  foldl (fun '(seen, s) b =>
           if floats connected b
           then (mark b :: seen, set_score (score s + 20) s)
           else (b :: seen, s))
        ([], s) (rev rowArr).

Definition floatingCheck (s : State) : State :=
  let connected := connectedSet (grid s) in
  let '(rows, s) :=
    foldl (fun '(rows, s) rowArr =>
             let '(seen, s) := sweepRow connected rowArr s in
             (rows ++ [seen], s))
          ([], s) (grid s) in
  set_grid rows s.

Definition padRows (g : Grid) (row : Z) : Grid :=
  g ++ replicate (Z.to_nat (row + 1) - length g)%nat [].

Definition cellOf (targetX targetY : Q) : Z * Z :=
  let row := worldToGrid targetY in
  let offset := (ZtoQ (Z.rem row 2) * bubbleRadius)%Q in
  let col :=
    Z.max 0 (Z.min (perRow - 1)
               (js_round ((targetX - offset - bubbleRadius)
                          / (bubbleRadius * 2))%Q)) in
  (row, col).

Definition bubbleAt (row col : Z) (color : Color) : Bubble :=
  let offset := (ZtoQ (Z.rem row 2) * bubbleRadius)%Q in
  mkBubble row col
    (bubbleRadius + ZtoQ col * bubbleRadius * 2 + offset)%Q
    (bubbleRadius + ZtoQ row * rowHeight)%Q color false.

(** [None]: the [TypeError] of [rowArr.find] on a negative row. *)
Definition addBubbleAt (projectile : Projectile) (targetX targetY : Q)
    (s : State) : option State :=
  let '(row, col) := cellOf targetX targetY in
  let g := padRows (grid s) row in
  match gridRow g row with
  | None => None
  | Some rowArr =>
      match findCol col rowArr with
      | Some _ => Some (set_grid g s)
      | None =>
          let bubble := bubbleAt row col (p_color projectile) in
          let s := set_grid (<[Z.to_nat row := rowArr ++ [bubble]]> g) s in
          Some (floatingCheck (clusterCheck bubble s))
      end
  end.

Definition lower (b : Bubble) : Bubble :=
  mkBubble (b_row b) (b_c b) (b_x b) (b_y b + rowHeight)%Q
    (b_color b) (b_removing b).

Definition setRow (row : Z) (b : Bubble) : Bubble :=
  mkBubble row (b_c b) (b_x b) (b_y b) (b_color b) (b_removing b).

Definition newTopRow (s : State) : list Bubble * State :=
  foldl (fun '(arr, s) c =>
           let '(col, s) := pickColor s in
           (arr ++ [mkBubble 0 c
                      (bubbleRadius + ZtoQ c * bubbleRadius * 2)%Q
                      bubbleRadius col false], s))
        ([], s) (seqZ 0 perRow).

Definition renumber (g : Grid) : Grid :=
  imap (fun i rowArr => map (setRow (Z.of_nat i)) rowArr) g.

Definition pushRow (s : State) : State :=
  let g := map (map lower) (grid s) in
  let '(newRow, s) := newTopRow s in
  set_grid (renumber (newRow :: g)) s.

Definition move (dt : Q) (p : Projectile) : Projectile :=
  mkProjectile (p_x p + p_vx p * dt)%Q (p_y p + p_vy p * dt)%Q
    (p_vx p * friction)%Q (p_vy p * friction)%Q
    (p_color p) (p_active p) (p_bounces p).

Definition deactivate (p : Projectile) : Projectile :=
  mkProjectile (p_x p) (p_y p) (p_vx p) (p_vy p)
    (p_color p) false (p_bounces p).

Definition bounce (p : Projectile) : Projectile :=
  let right := (ZtoQ (canvas_width host) - bubbleRadius)%Q in
  if Qltb (p_x p) bubbleRadius then
    mkProjectile bubbleRadius (p_y p) (Qabs (p_vx p)) (p_vy p)
      (p_color p) (p_active p) (p_bounces p + 1)
  else if Qltb right (p_x p) then
    mkProjectile right (p_y p) (- Qabs (p_vx p))%Q (p_vy p)
      (p_color p) (p_active p) (p_bounces p + 1)
  else p.

Definition bounceLimit (p : Projectile) : Projectile :=
  if maxBounce <? p_bounces p then deactivate p else p.

(** [dist < CONFIG.bubbleRadius * 2 - 1] *)
Definition hits (p : Projectile) (b : Bubble) : bool :=
  Qltb (hypot host (p_x p - b_x b) (p_y p - b_y b))%Q
       (bubbleRadius * 2 - 1)%Q.

Definition firstHit (g : Grid) (p : Projectile) : option Bubble :=
  List.find (hits p) (concat g).

Definition collide (p : Projectile) (b : Bubble) (s : State)
    : option (Projectile * State) :=
  let p := deactivate p in
  let angle := atan2 host (p_y p - b_y b)%Q (p_x p - b_x b)%Q in
  let tx := (b_x b + cos host angle * bubbleRadius * 2)%Q in
  let ty := (b_y b + sin host angle * bubbleRadius * 2)%Q in
  s ← addBubbleAt p tx ty s; Some (p, s).

(** One turn of [for (const p of state.projectiles)]. *)
Definition stepProjectile (dt : Q) (acc : option (list Projectile * State))
    (p : Projectile) : option (list Projectile * State) :=
  '(moved, s) ← acc;
  if negb (p_active p) then Some (moved ++ [p], s)
  else
    let p := move dt p in
    let p := bounce p in
    let p := bounceLimit p in
    if Qltb (p_y p) bubbleRadius then
      let p := deactivate p in
      s ← addBubbleAt p (p_x p) bubbleRadius s; Some (moved ++ [p], s)
    else
      '(p, s) ← match firstHit (grid s) p with
                 | Some b => collide p b s
                 | None => Some (p, s)
                 end;
      let p := if Qltb (ZtoQ (canvas_height host) - 10)%Q (p_y p)
               then deactivate p else p in
      Some (moved ++ [p], s).

(** The removal loop of [update]: every flagged bubble is spliced out
    of its row; the last row, when that leaves it empty, is popped off
    the grid. *)
Definition removeFlagged (g : Grid) : Grid :=
  let g := map (List.filter (fun b => negb (b_removing b))) g in
  match last g with
  | Some [] => removelast g
  | _ => g
  end.

Definition endGame (win : bool) (s : State) : State :=
  let s := set_endGameCalls (endGameCalls s ++ [win]) s in
  set_overlayShown true s.

Definition gridEmpty (g : Grid) : bool :=
  forallb (fun r => (length r =? 0)%nat) g.

(** The lose check: the rows in order; a row that holds a bubble below
    the danger line ends the game; the loop stops at the first row
    after which [state.gameOver] is set. *)
Fixpoint loseCheck (dangerY : Q) (rows : Grid) (s : State) : State :=
  match rows with
  | [] => s
  | rowArr :: rest =>
      let s := if existsb (fun b => Qltb dangerY (b_y b)) rowArr
               then endGame false (set_gameOver true s) else s in
      if gameOver s then s else loseCheck dangerY rest s
  end.

(** Everything [update] does before it looks at the terminal
    conditions. *)
Definition advance (dt : Q) (s : State) : option State :=
  '(ps, s) ← foldl (stepProjectile dt) (Some ([], s)) (projectiles s);
  let s := set_projectiles (List.filter p_active ps) s in
  let s := set_grid (removeFlagged (grid s)) s in
  let s := set_spawnTimer (spawnTimer s + dt * 1000)%Q s in
  Some (if Qle_bool spawnRowInterval (spawnTimer s)
        then set_spawnTimer 0 (pushRow s)
        else s).

Definition winLose (s : State) : State :=
  let s := if negb (gameOver s) && gridEmpty (grid s)
           then endGame true (set_gameOver true s) else s in
  loseCheck (ZtoQ (canvas_height host) - 100)%Q (grid s) s.

Definition update (dt : Q) (s : State) : option State :=
  winLose <$> advance dt s.

(** [gameLoop(ts)]; the [draw()] of the earlier version reads the
    session and no clock, and changes nothing of it. *)
Definition gameLoop (ts : Q) (s : State) : option State :=
  let s := if Qeq_bool (lastTime s) 0 then set_lastTime ts s else s in
  let dt := ((ts - lastTime s) / 1000)%Q in
  let s := set_lastTime ts s in
  if negb (gameOver s) then update dt s else Some s.

Definition startGame (s : State) : State :=
  let s := set_grid [] s in
  let s := set_projectiles [] s in
  let s := set_score 0 s in
  let s := set_shots 0 s in
  let s := set_gameOver false s in
  let s := set_lastTime 0 s in
  let s := set_spawnTimer 0 s in
  let s := initGrid s in
  let s := set_overlayShown false s in
  let '(col, s) := pickColor s in
  set_nextColor (Some col) s.

(** ** Input events *)

(** The [mousemove] listener: the angle is set at once, and clamped. *)
Definition aimAt (mx my : Q) (s : State) : State :=
  let sh := shooter s in
  let a := atan2 host (my - sh_y sh)%Q (mx - sh_x sh)%Q in
  let a := if Qltb (- (2 # 10))%Q a then (- (2 # 10))%Q else a in
  let a := if Qltb a (- PI host + (2 # 10))%Q
           then (- PI host + (2 # 10))%Q else a in
  set_shooter (mkShooter (sh_x sh) (sh_y sh) a) s.

Definition click (s : State) : State :=
  if gameOver s || overlayShown s then s else newProjectile s.

(** The [touchstart] listener: the angle is set, with no clamp. *)
Definition touchstart (mx my : Q) (s : State) : State :=
  let sh := shooter s in
  let a := atan2 host (my - sh_y sh)%Q (mx - sh_x sh)%Q in
  let s := set_shooter (mkShooter (sh_x sh) (sh_y sh) a) s in
  if negb (gameOver s) && negb (overlayShown s) then newProjectile s else s.

Inductive Event :=
  | Frame (ts : Q)
  | MouseMove (mx my : Q)
  | Click
  | TouchStart (mx my : Q)
  | Start.

(** [None]: the listener has thrown. *)
Definition handle (s : State) (e : Event) : option State :=
  match e with
  | Frame ts => gameLoop ts s
  | MouseMove mx my => Some (aimAt mx my s)
  | Click => Some (click s)
  | TouchStart mx my => Some (touchstart mx my s)
  | Start => Some (startGame s)
  end.

(** ** The aim guide *)

(** [CONFIG.aimGuideLength] *)
Definition aimGuideLength : Q := 120.

Definition drawAimGuide (s : State) : option (list Segment) :=
  let angle := sh_angle (shooter s) in
  guideLoop (guideTurns aimGuideLength) (ZtoQ (canvas_width host)) bubbleRadius
    (sh_x (shooter s)) (sh_y (shooter s)) (cos host angle) (sin host angle)
    aimGuideLength.

End WithHost.

End Early.

(** * Notions the properties are stated with *)

(** The grid invariant of the data model: every bubble's stored row is
    the index of the row array that holds it, and no two bubbles of a
    row share a column. *)
Fixpoint rowsIndexedFrom (i : Z) (g : Grid) : bool :=
  match g with
  | [] => true
  | rowArr :: rest =>
      forallb (fun b => b_row b =? i) rowArr && rowsIndexedFrom (i + 1) rest
  end.

Definition rowsIndexed (g : Grid) : bool := rowsIndexedFrom 0 g.

Definition colsUnique (g : Grid) : bool :=
  forallb (fun rowArr => bool_decide (NoDup (b_c <$> rowArr))) g.

Definition wellFormed (g : Grid) : bool := rowsIndexed g && colsUnique g.

(** [b] is an occupied cell of the grid. *)
Definition inGrid (g : Grid) (b : Bubble) : Prop := b ∈ concat g.

(** The occupant of the slot [(row, col)], if any: no row of that
    index, or no bubble of that column in it, and the slot is free. *)
Definition cellAt (g : Grid) (row col : Z) : option Bubble :=
  match gridRow g row with
  | Some rowArr => findCol col rowArr
  | None => None
  end.

(** The slot [(row, col)] is occupied. *)
Definition occupied (g : Grid) (row col : Z) : Prop :=
  is_Some (cellAt g row col).

(** One [neighbors()] link. *)
Definition linked (g : Grid) (x y : Bubble) : Prop := y ∈ neighbors g x.

(** [b] is reachable from a bubble of row 0 by [neighbors()] links. *)
Definition anchored (g : Grid) (b : Bubble) : Prop :=
  ∃ a, a ∈ default [] (g !! 0%nat) ∧ rtc (linked g) a b.



(** The slot of [x] is a slot that the offset table names from the
    slot of [b]: the offset from [b] to [x], in rows and columns, is an
    entry of the table of the parity of [b.row]. *)
Definition atOffset (b x : Bubble) : Prop :=
  (b_row x - b_row b, b_c x - b_c b) ∈ deltas (Z.rem (b_row b) 2 =? 0).




(** The keys of the occupied cells. *)
Definition gridKeys (g : Grid) : gset Key := list_to_set (key <$> concat g).

(** The two traversals are instances of one walk: a bubble whose key is
    new is recorded as visited; it is collected, and its neighbours
    walked, when it passes [keep]. *)
Fixpoint walk (keep : Bubble -> bool) (fuel : nat) (g : Grid) (b : Bubble)
    (st : gset Key * list Bubble) : gset Key * list Bubble :=
  match fuel with
  | O => st
  | S n =>
      if decide (key b ∈ st.1) then st
      else if keep b
           then foldl (fun acc x => walk keep n g x acc)
                      ({[key b]} ∪ st.1, st.2 ++ [b]) (neighbors g b)
           else ({[key b]} ∪ st.1, st.2)
  end.

(** One link of a walk: to a neighbour that passes [keep]. *)
Definition keptLink (keep : Bubble -> bool) (g : Grid) (y z : Bubble) : Prop :=
  z ∈ neighbors g y ∧ keep z = true.

(** What a walk from the bubbles [src] has achieved when it has turned
    [(V, A)] into [(R, C)]. *)
Record Walked (keep : Bubble -> bool) (g : Grid) (U V : gset Key)
    (A : list Bubble) (src : list Bubble) (R : gset Key) (C : list Bubble)
    : Prop := mkWalked {
  walked_mono : V ⊆ R;
  walked_univ : R ⊆ V ∪ U;
  walked_src : ∀ s, s ∈ src → key s ∈ R;
  walked_new : ∃ new,
    C = A ++ new ∧ NoDup (key <$> new) ∧
    (∀ x, x ∈ new →
       keep x = true ∧ key x ∈ R ∧ (key x ∉ V) ∧
       (∃ s, s ∈ src ∧ keep s = true ∧ rtc (keptLink keep g) s x) ∧
       (∀ y, y ∈ neighbors g x → key y ∈ R)) ∧
    (∀ k, k ∈ R → (k ∉ V) →
       ∃ x, key x = k ∧ (x ∈ src ∨ x ∈ concat g) ∧
            (keep x = true → x ∈ new))
}.

(** Equality of bubbles is decidable. *)
Global Instance Q_eq_dec : EqDecision Q.
Proof. solve_decision. Defined.

Global Instance Bubble_eq_dec : EqDecision Bubble.
Proof. solve_decision. Defined.


(** The fields of the session that the effects (particles, pop
    animations, falling bubbles, trail) and the two oracles leave
    alone. *)
Definition gameCore (s : Game.State) :=
  (Game.grid s, Game.projectiles s, Game.shooter s, Game.nextColor s,
   Game.score s, Game.shots s, Game.gameOver s, Game.lastTime s,
   Game.spawnTimer s, Game.highScore s, Game.overlayShown s,
   Game.endGameCalls s).

(** The number of bubbles of the grid that carry the removal flag. *)
Definition flaggedCount (g : Grid) : nat :=
  length (List.filter b_removing (concat g)).

(** A step of the simulation that leaves the game running or ended as
    it was, calls [endGame] no further time, takes nothing off the
    score, and takes no flagged bubble out of the grid. *)
Definition steady (s s' : Game.State) : Prop :=
  Game.gameOver s' = Game.gameOver s ∧
  Game.endGameCalls s' = Game.endGameCalls s ∧
  Game.overlayShown s' = Game.overlayShown s ∧
  Game.score s <= Game.score s' ∧
  (flaggedCount (Game.grid s) ≤ flaggedCount (Game.grid s'))%nat.

(** The grid once [addBubbleAt] has pushed the bubble [b] on the row
    array of index [b.row], the grid grown with empty rows as far as
    that row (the same text in both versions). *)
Definition withBubble (g : Grid) (b : Bubble) : Grid :=
  let g := g ++ replicate (Z.to_nat (b_row b + 1) - length g)%nat [] in
  <[Z.to_nat (b_row b) := default [] (g !! Z.to_nat (b_row b)) ++ [b]]> g.

(** A bubble one row further down: its row index one more, its [y]
    one row height more. *)
Definition pushedDown (rowHeight : Q) (b : Bubble) : Bubble :=
  mkBubble (b_row b + 1) (b_c b) (b_x b) (b_y b + rowHeight)%Q
    (b_color b) (b_removing b).

(** The bubble of column [c] of a new top row, of colour [color]: at
    row index 0, [y] the bubble radius [r]. *)
Definition topBubble (r : Q) (c : Z) (color : Color) : Bubble :=
  mkBubble 0 c (r + ZtoQ c * r * 2)%Q r color false.

(** The fields of the session that a placement and a row push leave
    alone: all but the grid, the score, the high score, the effects and
    the counts of oracle calls. *)
Definition placementFrame (s : Game.State) :=
  (Game.projectiles s, Game.shooter s, Game.nextColor s, Game.shots s,
   Game.gameOver s, Game.lastTime s, Game.spawnTimer s, Game.trail s,
   Game.overlayShown s, Game.endGameCalls s).

(** The fields that the bookkeeping of a frame leaves alone: all but
    the projectiles, the effects other than the trail, the spawn timer,
    the time of the last frame and the count of clock reads. *)
Definition frameSide (s : Game.State) :=
  (Game.grid s, Game.shooter s, Game.nextColor s, Game.score s,
   Game.shots s, Game.gameOver s, Game.trail s, Game.highScore s,
   Game.overlayShown s, Game.endGameCalls s, Game.randomCalls s).

(** ** Notions of the further properties *)

(** Every bubble of the grid satisfies [P]. *)
Definition gridAll (P : Bubble → Prop) (g : Grid) : Prop :=
  Forall P (concat g).

(** A step of [src/game.js] that keeps [P] of every bubble. *)
Definition gridKeeps (P : Bubble → Prop) (s s' : Game.State) : Prop :=
  gridAll P (Game.grid s) → gridAll P (Game.grid s').

(** A bubble on the raster of the columns: its column is one of
    [0 .. perRow - 1], its [x] is the centre of that column, in a row
    without or with the offset, and its [y] is not above the first
    row. *)
Definition onRaster (host : Host) (b : Bubble) : Prop :=
  0 <= b_c b <= Z.max 0 (Game.perRow host - 1) ∧
  ((b_x b == Game.bubbleRadius + 2 * Game.bubbleRadius * ZtoQ (b_c b))%Q ∨
   (b_x b == 2 * Game.bubbleRadius + 2 * Game.bubbleRadius * ZtoQ (b_c b))%Q) ∧
  (Game.bubbleRadius <= b_y b)%Q.

(** A bubble sits on its slot: [addBubbleAt] snaps the position of the
    bubble to the row and column of the bubble. *)
Definition onSlot (host : Host) (b : Bubble) : Prop :=
  Game.cellOf host (b_x b) (b_y b) = (b_row b, b_c b).

Definition earlyOnSlot (host : Host) (b : Bubble) : Prop :=
  Early.cellOf host (b_x b) (b_y b) = (b_row b, b_c b).

(** The trail of a step: with at most 400 entries before, it has lost
    none and has at most 400 after. *)
Definition trailGrows (s s' : Game.State) : Prop :=
  (length (Game.trail s) ≤ 400)%nat →
  (length (Game.trail s) ≤ length (Game.trail s') ≤ 400)%nat.

(** The grid has lost no row array. *)
Definition rowsGrow (s s' : Game.State) : Prop :=
  (length (Game.grid s) ≤ length (Game.grid s'))%nat.

(** The high score has not gone down, and is still at least the score
    if it was. *)
Definition bestKept (s s' : Game.State) : Prop :=
  Game.highScore s <= Game.highScore s' ∧
  (Game.score s <= Game.highScore s → Game.score s' <= Game.highScore s').

(** An angle between the two limits of the aim, [-PI + 0.2] and
    [-0.2]. *)
Definition aimInRange (host : Host) (a : Q) : Prop :=
  (- PI host + (2 # 10) <= a)%Q ∧ (a <= - (2 # 10))%Q.

(** The angle of the shooter and the angle it eases to are both
    between the limits. *)
Definition aimOk (host : Host) (s : Game.State) : Prop :=
  aimInRange host (sh_angle (Game.shooter s)) ∧
  aimInRange host (sh_targetAngle (Game.shooter s)).

Definition aimKept (host : Host) (s s' : Game.State) : Prop :=
  aimOk host s → aimOk host s'.

(** A projectile inside the walls, between the ceiling line and the
    floor line, that has not used up its bounces. *)
Definition inPlayfield (host : Host) (p : Projectile) : Prop :=
  (Game.bubbleRadius <= p_x p)%Q ∧
  (p_x p <= ZtoQ (canvas_width host) - Game.bubbleRadius)%Q ∧
  (Game.bubbleRadius <= p_y p)%Q ∧
  (p_y p <= ZtoQ (canvas_height host) - 12)%Q ∧
  p_bounces p <= Game.maxBounce.

(** [b.y > dangerY] *)
Definition belowDanger (host : Host) (b : Bubble) : Prop :=
  (ZtoQ (canvas_height host) - 100 < b_y b)%Q.

(** The session but for the time of the last frame, the angle that
    the pointer asks for and the count of the clock reads. *)
Definition frozenView (s : Game.State) :=
  (Game.grid s, Game.projectiles s, Game.nextColor s, Game.score s,
   Game.shots s, Game.gameOver s, Game.spawnTimer s, Game.particles s,
   Game.popping s, Game.falling s, Game.trail s, Game.highScore s,
   Game.overlayShown s, Game.endGameCalls s, Game.randomCalls s,
   sh_x (Game.shooter s), sh_y (Game.shooter s),
   sh_angle (Game.shooter s)).

(** The event is a frame of [requestAnimationFrame]. *)
Definition isFrame (e : Game.Event) : bool :=
  match e with Game.Frame _ => true | _ => false end.

(** In the earlier version: a bubble in the first row, or at least one
    row height of [initGrid] further down. *)
Definition rowSpaced (b : Bubble) : Prop :=
  (b_y b == Early.bubbleRadius)%Q ∨
  (Early.bubbleRadius + Early.initRowHeight <= b_y b)%Q.

(** What the earlier version needs of [Math.sin] and [Math.atan2]: a
    sine is at least -1, and the angle of a vector that does not point
    up the screen ([dy >= 0]) has a sine that is not negative. *)
Definition trigSane (host : Host) : Prop :=
  (∀ a, (-1 <= sin host a)%Q) ∧
  (∀ dy dx, (0 <= dy)%Q → (0 <= sin host (atan2 host dy dx))%Q).

(** The events [es] in order, from [s]; [None] once a listener has
    thrown. *)
Definition runEvents (host : Host) (s : Early.State) (es : list Early.Event)
    : option Early.State :=
  foldl (λ acc e, s ← acc; Early.handle host s e) (Some s) es.

(** The [k] low digits of [n] in radix 16, most significant first,
    before [acc]. *)
Fixpoint hexFixed (k : nat) (n : Z) (acc : string) : string :=
  match k with
  | O => acc
  | S k => hexFixed k (n / 16) (String (hexChar (n mod 16)) acc)
  end.

(** The colour [#rrggbb] of the channels [r], [g] and [b]. *)
Definition rgbHex (r g b : Z) : string :=
  String (charOf 35)
    (String (hexChar (r / 16)) (String (hexChar (r mod 16))
    (String (hexChar (g / 16)) (String (hexChar (g mod 16))
    (String (hexChar (b / 16)) (String (hexChar (b mod 16)) EmptyString)))))).

(** The strokes [segs] form one path from [(x, y)]. *)
Fixpoint chained (x y : Q) (segs : list Segment) : Prop :=
  match segs with
  | [] => True
  | sg :: rest =>
      seg_x sg = x ∧ seg_y sg = y ∧ chained (seg_nx sg) (seg_ny sg) rest
  end.

(** The [y] at which a path from [y] ends. *)
Fixpoint pathEndY (y : Q) (segs : list Segment) : Q :=
  match segs with
  | [] => y
  | sg :: rest => pathEndY (seg_ny sg) rest
  end.

(** The projectile that [newProjectile()] of [src/game.js] launches
    from the shooter [sh]: at the shooter, with the launch speed along
    the angle of the shooter, active, no bounce behind it. *)
Definition launchedFrom (host : Host) (sh : Shooter) (p : Projectile) : Prop :=
  p_x p = sh_x sh ∧ p_y p = sh_y sh ∧
  p_vx p = (cos host (sh_angle sh) * Game.launchSpeed)%Q ∧
  p_vy p = (sin host (sh_angle sh) * Game.launchSpeed)%Q ∧
  p_active p = true ∧ p_bounces p = 0.

(** The shot counter is not below the number of projectiles in flight. *)
Definition shotsCover (s : Game.State) : Prop :=
  Z.of_nat (length (Game.projectiles s)) <= Game.shots s.

(** [Math.random()] returns numbers of [0, 1). *)
Definition randomUnit (host : Host) : Prop :=
  ∀ n, (0 <= random host n)%Q ∧ (random host n < 1)%Q.

(** A colour of [CONFIG.colors] of [src/game.js]. *)
Definition inPalette (c : Color) : Prop := c ∈ Game.colors.

(** Every colour of the session is a colour of the palette: those of
    the bubbles of the grid, of the projectiles, and the next colour. *)
Definition paletteOk (s : Game.State) : Prop :=
  gridAll (λ b, inPalette (b_color b)) (Game.grid s) ∧
  Forall (λ p, inPalette (p_color p)) (Game.projectiles s) ∧
  (∀ c, Game.nextColor s = Some c → inPalette c).

(** ** Concrete inputs

    A browser with a canvas of 480 by 640, whose [Math.random] always
    returns 0 and whose clock advances by one millisecond per call.
    Its [Math.hypot], [Math.atan2], [Math.cos] and [Math.sin] are exact
    for a projectile straight below or above a bubble ([dx = 0]),
    which is all that the evaluations below call them on; elsewhere
    they are placeholders. *)
Definition demoHost : Host :=
  let pi : Q := 355 # 113 in
  mkHost 480 640 (fun _ => 0%Q) (fun n => ZtoQ (Z.of_nat n)) pi
    (fun dx dy => if Qeq_bool dx 0 then Qabs dy
                  else if Qeq_bool dy 0 then Qabs dx
                  else (Qabs dx + Qabs dy)%Q)
    (fun dy dx => if Qeq_bool dx 0
                  then if Qltb 0 dy then (pi / 2)%Q
                       else if Qltb dy 0 then (- pi / 2)%Q else 0%Q
                  else 0%Q)
    (fun a => if Qeq_bool (Qabs a) (pi / 2) then 0%Q else 1%Q)
    (fun a => if Qeq_bool a (pi / 2) then 1%Q
              else if Qeq_bool a (- pi / 2) then (-1)%Q else 0%Q).

Definition red : Color := "#f87171"%string.
Definition green : Color := "#34d399"%string.

(** A session of [src/game.js] that holds the grid [g] and the
    projectiles [ps], everything else as the script sets it up. *)
Definition gameWith (g : Grid) (ps : list Projectile) : Game.State :=
  Game.set_projectiles ps (Game.set_grid g (Game.initialState demoHost 0 false)).

(** The same for the earlier version. *)
Definition earlyWith (g : Grid) (ps : list Early.Projectile) : Early.State :=
  Early.mkState g ps
    (Early.mkShooter 240 600 (- (355 # 226))%Q) None 0 0 0 false 0 0 false []
    0%nat.

(** Two red bubbles side by side in row 0. *)
Definition twoReds : Grid := [[Game.bubbleAt 0 0 red; Game.bubbleAt 0 1 red]].


(** The same in the earlier version, a green bubble hanging from the
    first of them in row 1. *)
Definition twoRedsOneGreen : Grid :=
  [[Early.bubbleAt 0 0 red; Early.bubbleAt 0 1 red]; [Early.bubbleAt 1 0 green]].

(** A full row 0 of green bubbles on the 480 wide canvas. *)
Definition greenRow : list Bubble :=
  map (fun c => Game.bubbleAt 0 c green) (seqZ 0 15).

Definition earlyGreenRow : list Bubble :=
  map (fun c => Early.bubbleAt 0 c green) (seqZ 0 15).

(** A red shot to be placed; it is not in flight. *)
Definition redShot : Projectile := mkProjectile 80 16 0 0 red false 0 0.
Definition earlyRedShot : Early.Projectile :=
  Early.mkProjectile 80 16 0 0 red false 0.

(** A red projectile in flight next to the left wall, straight below
    the first bubble of row 0 once the wall has clamped it, with
    [bounces] bounces behind it. *)
Definition wornShot (bounces : Z) : Projectile :=
  mkProjectile 20 52 (-720) (-720) red true bounces 0.
Definition earlyWornShot (bounces : Z) : Early.Projectile :=
  Early.mkProjectile 20 52 (-720) (-720) red true bounces.

(** Membership of a concrete bubble in a concrete list, by evaluation. *)
Ltac in_concrete_list :=
  apply list_elem_of_In; vm_compute;
  repeat (first [left; reflexivity | right]).

(** * Facts about the grid and [neighbors] *)

Lemma foldl_pointwise {A B} (f f' : A → B → A) (l : list B) (a : A) :
  (∀ a x, x ∈ l → f a x = f' a x) → foldl f a l = foldl f' a l.
Proof.
  revert a. induction l as [|x l IH]; intros a Hf; simpl; [done|].
  rewrite Hf by left. apply IH. intros a' y Hy. apply Hf. by right.
Qed.

Lemma findCol_Some nc arr x :
  findCol nc arr = Some x → x ∈ arr ∧ b_c x = nc.
Proof.
  unfold findCol. intros H. apply find_some in H as [Hin Hc].
  split; [by apply list_elem_of_In | lia].
Qed.

Lemma neighborAt_Some g b d x :
  neighborAt g b d = Some x →
  0 <= b_row b + d.1 < Z.of_nat (length g) ∧
  ∃ arr, g !! Z.to_nat (b_row b + d.1) = Some arr ∧
         findCol (b_c b + d.2) arr = Some x.
Proof.
  unfold neighborAt. cbn zeta.
  destruct (b_row b + d.1 <? 0) eqn:E1; [done|].
  destruct (Z.of_nat (length g) <=? b_row b + d.1) eqn:E2; [done|]. simpl.
  destruct (g !! Z.to_nat (b_row b + d.1)) as [arr|] eqn:E3; [|done].
  intros H. split; [lia|]. by exists arr.
Qed.

Lemma elem_of_neighbors g b x :
  x ∈ neighbors g b ↔
  is_Some (gridRow g (b_row b)) ∧
  ∃ d, d ∈ deltas (Z.rem (b_row b) 2 =? 0) ∧ neighborAt g b d = Some x.
Proof.
  unfold neighbors. destruct (gridRow g (b_row b)) as [r|]; cbn zeta.
  - rewrite list_elem_of_omap. split; [intros H; split; [by eexists|done]|].
    by intros [_ H].
  - split; [by intros ?%not_elem_of_nil|]. by intros [[? ?] _].
Qed.

Lemma neighbors_inGrid g b x : x ∈ neighbors g b → x ∈ concat g.
Proof.
  rewrite elem_of_neighbors. intros [_ (d & _ & H)].
  apply neighborAt_Some in H as [_ (arr & Harr & Hf)].
  apply findCol_Some in Hf as [Hin _].
  apply list_elem_of_In, in_concat. exists arr. split.
  - apply list_elem_of_In. by eapply list_elem_of_lookup_2.
  - by apply list_elem_of_In.
Qed.

Lemma key_in_gridKeys g x : x ∈ concat g → key x ∈ gridKeys g.
Proof.
  intros H. unfold gridKeys. apply elem_of_list_to_set.
  by apply list_elem_of_fmap_2.
Qed.

Lemma size_list_to_set_le (l : list Key) :
  (size (list_to_set l : gset Key) ≤ length l)%nat.
Proof.
  induction l as [|k l IH].
  - rewrite list_to_set_nil, size_empty. done.
  - rewrite list_to_set_cons, size_union_alt, size_singleton. simpl.
    etrans; [|apply le_n_S, IH].
    apply le_n_S, subseteq_size. set_solver.
Qed.

Lemma size_gridKeys g : (size (gridKeys g) ≤ bubbleCount g)%nat.
Proof.
  unfold gridKeys, bubbleCount. etrans; [apply size_list_to_set_le|].
  by rewrite length_fmap.
Qed.

(** * The walk: termination within the budget, and what it computes *)

Lemma size_univ_mono (U V V' : gset Key) :
  V ⊆ V' → (size (U ∖ V') ≤ size (U ∖ V))%nat.
Proof. intros H. apply subseteq_size. set_solver. Qed.

Lemma size_univ_visit (U V : gset Key) k :
  k ∈ U → k ∉ V → (size (U ∖ ({[k]} ∪ V)) < size (U ∖ V))%nat.
Proof.
  intros HkU HkV. apply subset_size. split; [set_solver|].
  intros Hsub. assert (k ∈ U ∖ ({[k]} ∪ V)) by (apply Hsub; set_solver).
  set_solver.
Qed.

Section WalkMono.
Context (keep : Bubble → bool) (g : Grid).

Lemma walk_mono n : ∀ b st, st.1 ⊆ (walk keep n g b st).1.
Proof.
  induction n as [|n IH]; intros b [V A]; simpl; [done|].
  case_decide; [done|]. destruct (keep b); [|set_solver].
  assert (∀ ns st, st.1 ⊆ (foldl (λ acc x, walk keep n g x acc) st ns).1)
    as Hfold.
  { induction ns as [|a ns IHns]; intros st; simpl; [done|].
    etrans; [apply (IH a)|apply IHns]. }
  etrans; [|apply Hfold]. simpl. set_solver.
Qed.

Lemma foldl_walk_mono n ns st :
  st.1 ⊆ (foldl (λ acc x, walk keep n g x acc) st ns).1.
Proof.
  revert st. induction ns as [|a ns IH]; intros st; simpl; [done|].
  etrans; [apply (walk_mono n a)|apply IH].
Qed.

End WalkMono.

Section Walked.
Context (keep : Bubble → bool) (g : Grid) (U : gset Key).

Lemma Walked_skip V A src :
  (∀ s, s ∈ src → key s ∈ V) → Walked keep g U V A src V A.
Proof.
  intros Hsrc. split; [done|set_solver|done|].
  exists []. rewrite app_nil_r. split; [done|]. split; [constructor|].
  split; [by intros x ?%not_elem_of_nil|]. intros k ??. done.
Qed.

Lemma Walked_nil V A : Walked keep g U V A [] V A.
Proof. apply Walked_skip. by intros s ?%not_elem_of_nil. Qed.

Lemma Walked_app V A s1 R1 C1 s2 R C :
  Walked keep g U V A s1 R1 C1 → Walked keep g U R1 C1 s2 R C →
  Walked keep g U V A (s1 ++ s2) R C.
Proof.
  intros [M1 U1 S1 (n1 & -> & ND1 & E1 & K1)]
         [M2 U2 S2 (n2 & -> & ND2 & E2 & K2)].
  split; [clear -M1 M2; set_solver|clear -U1 U2; set_solver| |].
  - intros s [Hs|Hs]%elem_of_app; [apply M2, S1, Hs|apply S2, Hs].
  - exists (n1 ++ n2). split; [by rewrite app_assoc|]. split; [|split].
    + rewrite fmap_app. apply NoDup_app. split; [done|]. split; [|done].
      intros k (x & -> & Hx)%list_elem_of_fmap (y & Hk & Hy)%list_elem_of_fmap.
      destruct (E1 x Hx) as (_ & HxR & _). destruct (E2 y Hy) as (_ & _ & HyR & _).
      apply HyR. by rewrite <- Hk.
    + intros x [Hx|Hx]%elem_of_app.
      * destruct (E1 x Hx) as (Hk & HR & HV & (s & Hs & Hks & Hrtc) & Hcl).
        split; [done|]. split; [by apply M2|]. split; [done|]. split.
        -- exists s. split; [apply elem_of_app; by left|done].
        -- intros y Hy. by apply M2, Hcl.
      * destruct (E2 x Hx) as (Hk & HR & HV & (s & Hs & Hks & Hrtc) & Hcl).
        split; [done|]. split; [done|]. split; [set_solver|]. split; [|done].
        exists s. split; [apply elem_of_app; by right|done].
    + intros k HkR HkV. destruct (decide (k ∈ R1)) as [Hk1|Hk1].
      * destruct (K1 k Hk1 HkV) as (x & Hx & Hin & Hnew).
        exists x. split; [done|]. split.
        -- destruct Hin; [left; apply elem_of_app; by left|by right].
        -- intros Hkeep. apply elem_of_app. left. by apply Hnew.
      * destruct (K2 k HkR Hk1) as (x & Hx & Hin & Hnew).
        exists x. split; [done|]. split.
        -- destruct Hin; [left; apply elem_of_app; by right|by right].
        -- intros Hkeep. apply elem_of_app. right. by apply Hnew.
Qed.

End Walked.

Section Walk.
Context (keep : Bubble → bool) (g : Grid) (U : gset Key).
Hypothesis HU : gridKeys g ⊆ U.

Lemma neighbors_key_univ b x : x ∈ neighbors g b → key x ∈ U.
Proof. intros H. by apply HU, key_in_gridKeys, neighbors_inGrid with b. Qed.

(** The budget is never exhausted: any two budgets above the number of
    keys still unvisited give the same walk. *)
Lemma walk_fuel n : ∀ m b st,
  key b ∈ U → (size (U ∖ st.1) < n)%nat → (size (U ∖ st.1) < m)%nat →
  walk keep n g b st = walk keep m g b st.
Proof.
  induction n as [|n IH]; intros m b [V A] Hb Hn Hm; [simpl in Hn; lia|].
  destruct m as [|m]; [simpl in Hm; lia|]. simpl in *.
  case_decide as Hv; [done|]. destruct (keep b); [|done].
  pose proof (size_univ_visit U V (key b) Hb Hv) as Hlt.
  assert (∀ ns st, (∀ x, x ∈ ns → key x ∈ U) →
            (size (U ∖ st.1) < n)%nat → (size (U ∖ st.1) < m)%nat →
            foldl (λ acc x, walk keep n g x acc) st ns
            = foldl (λ acc x, walk keep m g x acc) st ns) as Hfold.
  { induction ns as [|a ns IHns]; intros st Hns Hn' Hm'; simpl; [done|].
    rewrite (IH m a st) by (auto; apply Hns; left).
    pose proof (size_univ_mono U _ _ (walk_mono keep g m a st)).
    apply IHns; [intros x Hx; apply Hns; by right|lia..]. }
  apply Hfold; simpl; [apply neighbors_key_univ|lia..].
Qed.

Lemma walk_Walked n : ∀ b V A,
  key b ∈ U → (size (U ∖ V) < n)%nat →
  Walked keep g U V A [b]
    (walk keep n g b (V, A)).1 (walk keep n g b (V, A)).2.
Proof.
  induction n as [|n IH]; intros b V A Hb Hn; [lia|]. simpl.
  case_decide as Hv.
  { simpl. apply Walked_skip. by intros s ->%list_elem_of_singleton. }
  destruct (keep b) eqn:Hkeep.
  2:{ simpl. split; [set_solver|set_solver|set_solver|].
      exists []. rewrite app_nil_r. split; [done|]. split; [constructor|].
      split; [by intros x ?%not_elem_of_nil|].
      intros k HkR HkV. exists b. split; [set_solver|]. split; [left; set_solver|].
      congruence. }
  pose proof (size_univ_visit U V (key b) Hb Hv) as Hlt.
  assert (∀ ns V' A', (∀ x, x ∈ ns → key x ∈ U) → (size (U ∖ V') < n)%nat →
            Walked keep g U V' A' ns
              (foldl (λ acc x, walk keep n g x acc) (V', A') ns).1
              (foldl (λ acc x, walk keep n g x acc) (V', A') ns).2) as Hfold.
  { induction ns as [|a ns IHns]; intros V' A' Hns Hn'; simpl.
    - apply Walked_nil.
    - pose proof (IH a V' A' (Hns a ltac:(left)) Hn') as Ha.
      destruct (walk keep n g a (V', A')) as [R1 C1] eqn:Hw. simpl in Ha.
      change (a :: ns) with ([a] ++ ns). eapply Walked_app; [exact Ha|].
      apply IHns; [intros x Hx; apply Hns; by right|].
      pose proof (size_univ_mono U _ _ (walked_mono _ _ _ _ _ _ _ _ Ha)). lia. }
  specialize (Hfold (neighbors g b) ({[key b]} ∪ V) (A ++ [b])
                (neighbors_key_univ b) ltac:(lia)).
  destruct (foldl _ _ _) as [R C]. simpl in *.
  destruct Hfold as [M Un S (nf & -> & ND & E & K)].
  split; [clear -M; set_solver|clear -Un Hb; set_solver| |].
  - intros s ->%list_elem_of_singleton. apply M. clear. set_solver.
  - exists (b :: nf). split; [by rewrite <- app_assoc|]. split; [|split].
    + rewrite fmap_cons. constructor; [|done].
      intros (x & Hk & Hx)%list_elem_of_fmap.
      destruct (E x Hx) as (_ & _ & Hnot & _).
      apply Hnot. rewrite <- Hk. apply elem_of_union_l. by apply elem_of_singleton.
    + intros x [->|Hx]%elem_of_cons.
      * split; [done|]. split; [apply M; clear; set_solver|].
        split; [done|]. split.
        -- exists b. split; [by apply list_elem_of_singleton|].
           split; [done|]. constructor.
        -- intros y Hy. by apply S.
      * destruct (E x Hx) as (Hk & HR & HV & (s & Hs & Hks & Hrtc) & Hcl).
        split; [done|]. split; [done|].
        split; [clear -HV; set_solver|]. split; [|done].
        exists b. split; [by apply list_elem_of_singleton|]. split; [done|].
        eapply rtc_l; [|exact Hrtc]. by split.
    + intros k HkR HkV. destruct (decide (k = key b)) as [->|Hne].
      * exists b. split; [done|].
        split; [left; by apply list_elem_of_singleton|]. intros _. left.
      * destruct (K k HkR ltac:(clear -HkV Hne; set_solver))
          as (x & Hx & Hin & Hnew).
        exists x. split; [done|]. split.
        -- right. destruct Hin as [Hin|Hin]; [|done].
           by apply neighbors_inGrid with b.
        -- intros Hkp. right. by apply Hnew.
Qed.

End Walk.

(** * The traversals of the source as walks *)

Lemma clusterDfs_walk n g t : ∀ b st,
  clusterDfs n g t b st = walk (λ x, bool_decide (b_color x = t)) n g b st.
Proof.
  induction n as [|n IH]; intros b st; simpl; [done|].
  case_decide; [done|].
  destruct (decide (b_color b = t)) as [Heq|Hne].
  - rewrite (bool_decide_eq_false_2 (b_color b ≠ t)) by (intros ?; done).
    rewrite (bool_decide_eq_true_2 (b_color b = t)) by done.
    apply foldl_pointwise; intros a x _; apply IH.
  - rewrite (bool_decide_eq_true_2 (b_color b ≠ t)) by done.
    by rewrite (bool_decide_eq_false_2 (b_color b = t)).
Qed.

Lemma floatDfs_walk n g : ∀ b V A,
  floatDfs n g b V = (walk (λ _, true) n g b (V, A)).1.
Proof.
  induction n as [|n IH]; intros b V A; simpl; [done|].
  case_decide; [done|].
  generalize (A ++ [b]) ({[key b]} ∪ V). generalize (neighbors g b).
  induction l as [|a l IHl]; intros A' V'; simpl; [done|].
  rewrite (IH a V' A').
  destruct (walk (λ _, true) n g a (V', A')) as [R C]. apply IHl.
Qed.

Lemma foldl_floatDfs_walk n g ns : ∀ V A,
  foldl (λ acc b, floatDfs n g b acc) V ns
  = (foldl (λ acc b, walk (λ _, true) n g b acc) (V, A) ns).1.
Proof.
  induction ns as [|a l IHl]; intros V A; simpl; [done|].
  rewrite (floatDfs_walk n g a V A).
  destruct (walk (λ _, true) n g a (V, A)) as [R C]. apply IHl.
Qed.

Lemma foldl_walk_Walked keep g U n ns : ∀ V A,
  gridKeys g ⊆ U → (∀ x, x ∈ ns → key x ∈ U) → (size (U ∖ V) < n)%nat →
  Walked keep g U V A ns
    (foldl (λ acc x, walk keep n g x acc) (V, A) ns).1
    (foldl (λ acc x, walk keep n g x acc) (V, A) ns).2.
Proof.
  induction ns as [|a ns IHns]; intros V A HU Hns Hn; simpl.
  - apply Walked_nil.
  - pose proof (walk_Walked keep g U HU n a V A (Hns a ltac:(left)) Hn) as Ha.
    destruct (walk keep n g a (V, A)) as [R1 C1] eqn:Hw. simpl in Ha.
    change (a :: ns) with ([a] ++ ns). eapply Walked_app; [exact Ha|].
    apply IHns; [done|intros x Hx; apply Hns; by right|].
    pose proof (size_univ_mono U _ _ (walked_mono _ _ _ _ _ _ _ _ Ha)). lia.
Qed.

(** [neighbors(b)] reads [b.row] and [b.c] only. *)
Lemma neighbors_key g b b' : key b = key b' → neighbors g b = neighbors g b'.
Proof.
  unfold key. intros [= Hr Hc]. unfold neighbors. rewrite Hr.
  destruct (gridRow g (b_row b')); [|done]. cbn zeta.
  apply list_omap_ext, Forall2_same_length_lookup_2; [done|].
  intros i d1 d2 H1 H2. assert (d1 = d2) as -> by congruence.
  unfold neighborAt. by rewrite Hr, Hc.
Qed.

Lemma rowsIndexedFrom_spec g : ∀ i k rowArr b,
  rowsIndexedFrom i g = true → g !! k = Some rowArr → b ∈ rowArr →
  b_row b = i + Z.of_nat k.
Proof.
  induction g as [|r g IH]; intros i k rowArr b H Hk Hb; [done|].
  simpl in H. apply andb_prop in H as [Hr Hg]. destruct k as [|k]; simpl in Hk.
  - injection Hk as ->. rewrite forallb_forall in Hr.
    specialize (Hr b ltac:(by apply list_elem_of_In)). lia.
  - rewrite (IH (i + 1) k rowArr b Hg Hk Hb). lia.
Qed.

Lemma rowsIndexed_spec g k rowArr b :
  rowsIndexed g = true → g !! k = Some rowArr → b ∈ rowArr →
  b_row b = Z.of_nat k.
Proof. intros H Hk Hb. by rewrite (rowsIndexedFrom_spec g 0 k rowArr b). Qed.

Lemma colsUnique_spec g rowArr :
  colsUnique g = true → rowArr ∈ g → NoDup (b_c <$> rowArr).
Proof.
  unfold colsUnique. rewrite forallb_forall. intros H Hin.
  specialize (H rowArr ltac:(by apply list_elem_of_In)).
  by apply bool_decide_eq_true in H.
Qed.

Lemma NoDup_fmap_eq {A B} (f : A → B) (l : list A) x y :
  NoDup (f <$> l) → x ∈ l → y ∈ l → f x = f y → x = y.
Proof.
  induction l as [|a l IH]; [by intros _ ?%not_elem_of_nil|].
  rewrite fmap_cons, NoDup_cons. intros [Hna Hnd] Hx Hy Hf.
  apply elem_of_cons in Hx as [->|Hx]; apply elem_of_cons in Hy as [->|Hy].
  - done.
  - exfalso. apply Hna. rewrite Hf. by apply list_elem_of_fmap_2.
  - exfalso. apply Hna. rewrite <- Hf. by apply list_elem_of_fmap_2.
  - by apply IH.
Qed.

Lemma elem_of_concat_lookup {A} (ls : list (list A)) x :
  x ∈ concat ls ↔ ∃ k l, ls !! k = Some l ∧ x ∈ l.
Proof.
  rewrite list_elem_of_In, in_concat. split.
  - intros (l & Hl & Hx). apply list_elem_of_In, list_elem_of_lookup in Hl as [k Hk].
    exists k, l. split; [done|by apply list_elem_of_In].
  - intros (k & l & Hk & Hx). exists l. split; apply list_elem_of_In; [|done].
    by eapply list_elem_of_lookup_2.
Qed.

(** In a well-formed grid the key identifies the bubble. *)
Lemma wellFormed_key_inj g x y :
  wellFormed g = true → x ∈ concat g → y ∈ concat g → key x = key y → x = y.
Proof.
  unfold wellFormed. intros [Hr Hc]%andb_prop.
  rewrite !elem_of_concat_lookup.
  intros (i & ri & Hi & Hxi) (j & rj & Hj & Hyj) [= Hrow Hcol].
  pose proof (rowsIndexed_spec g i ri x Hr Hi Hxi).
  pose proof (rowsIndexed_spec g j rj y Hr Hj Hyj).
  assert (i = j) as -> by lia. assert (ri = rj) as -> by congruence.
  eapply (NoDup_fmap_eq b_c rj); [|done..].
  apply (colsUnique_spec g); [done|]. by eapply list_elem_of_lookup_2.
Qed.

(** * Adjacency *)

Lemma neighborAt_cellAt g b d :
  neighborAt g b d = cellAt g (b_row b + d.1) (b_c b + d.2).
Proof.
  unfold neighborAt, cellAt, gridRow. cbn zeta.
  destruct (b_row b + d.1 <? 0) eqn:E1; [done|]. simpl.
  destruct (Z.of_nat (length g) <=? b_row b + d.1) eqn:E2.
  - rewrite lookup_ge_None_2 by lia. done.
  - by destruct (g !! Z.to_nat (b_row b + d.1)).
Qed.

Lemma length_omap_le {A B} (f : A → option B) (l : list A) :
  (length (omap f l) ≤ length l)%nat.
Proof.
  induction l as [|a l IH]; [done|]. csimpl.
  destruct (f a); simpl; lia.
Qed.

Lemma inGrid_gridRow g b :
  rowsIndexed g = true → inGrid g b →
  ∃ rowArr, gridRow g (b_row b) = Some rowArr ∧ b ∈ rowArr.
Proof.
  intros Hr (k & rowArr & Hk & Hb)%elem_of_concat_lookup.
  exists rowArr. split; [|done]. unfold gridRow.
  rewrite (rowsIndexed_spec g k rowArr b Hr Hk Hb).
  rewrite (proj2 (Z.ltb_ge _ _)) by lia. by rewrite Nat2Z.id.
Qed.

Lemma cellAt_Some g row col x :
  cellAt g row col = Some x →
  0 <= row < Z.of_nat (length g) ∧ b_c x = col ∧
  ∃ rowArr, g !! Z.to_nat row = Some rowArr ∧ x ∈ rowArr.
Proof.
  unfold cellAt, gridRow. destruct (row <? 0) eqn:E; [done|].
  destruct (g !! Z.to_nat row) as [rowArr|] eqn:Hrow; [|done].
  intros [Hin Hc]%findCol_Some. apply lookup_lt_Some in Hrow as Hlt.
  split; [lia|]. split; [done|]. by exists rowArr.
Qed.

Lemma find_NoDup_fmap (rowArr : list Bubble) x :
  NoDup (b_c <$> rowArr) → x ∈ rowArr → findCol (b_c x) rowArr = Some x.
Proof.
  intros ND Hx. unfold findCol.
  destruct (List.find (λ y, b_c y =? b_c x) rowArr) as [y|] eqn:Hf.
  - apply find_some in Hf as [Hy Hc]. apply list_elem_of_In in Hy.
    f_equal. apply (NoDup_fmap_eq b_c rowArr); [done..|lia].
  - apply list_elem_of_In in Hx.
    pose proof (find_none _ _ Hf x Hx) as Hn. simpl in Hn. lia.
Qed.

(** In a grid that satisfies the invariant, a bubble is the occupant of
    its own slot. *)
Lemma cellAt_inGrid g x :
  wellFormed g = true → inGrid g x → cellAt g (b_row x) (b_c x) = Some x.
Proof.
  intros Hwf Hx. pose proof Hwf as [Hr Hc]%andb_prop.
  destruct (inGrid_gridRow g x Hr Hx) as (rowArr & Hrow & Hin).
  unfold cellAt. rewrite Hrow. apply find_NoDup_fmap; [|done].
  apply (colsUnique_spec g); [done|].
  unfold gridRow in Hrow. destruct (b_row x <? 0); [done|].
  by eapply list_elem_of_lookup_2.
Qed.

(** What [neighbors(b)] returns, by the rows and columns of the
    bubbles of the grid: the bubbles of the grid that sit at an offset
    of the table from [b]. *)
Lemma neighbors_atOffset g b x :
  wellFormed g = true → inGrid g b →
  x ∈ neighbors g b ↔ inGrid g x ∧ atOffset b x.
Proof.
  intros Hwf Hb. pose proof Hwf as [Hr Hc]%andb_prop.
  destruct (inGrid_gridRow g b Hr Hb) as (rowArr & Hrow & _).
  unfold atOffset. split.
  - intros Hx. split; [by apply neighbors_inGrid with b|].
    apply elem_of_neighbors in Hx as [_ (d & Hd & Hn)].
    rewrite neighborAt_cellAt in Hn.
    apply cellAt_Some in Hn as (Hrange & Hcol & arr & Harr & Hin).
    pose proof (rowsIndexed_spec g _ arr x Hr Harr Hin) as Hrx.
    rewrite Z2Nat.id in Hrx by lia. rewrite Hrx, Hcol.
    replace (b_row b + d.1 - b_row b) with d.1 by lia.
    replace (b_c b + d.2 - b_c b) with d.2 by lia.
    by destruct d.
  - intros [Hx Hd]. apply elem_of_neighbors. split; [by eexists|].
    eexists. split; [exact Hd|]. rewrite neighborAt_cellAt. cbn [fst snd].
    replace (b_row b + (b_row x - b_row b)) with (b_row x) by lia.
    replace (b_c b + (b_c x - b_c b)) with (b_c x) by lia.
    by apply cellAt_inGrid.
Qed.

(** C6. For a grid that satisfies the grid invariant (every bubble
    stored in the row array of its row index, no two bubbles of a row
    in one column) and a bubble [b] of it, [neighbors(b)] returns at
    most six bubbles, and it returns exactly the bubbles of the grid
    whose row and column are those of [b] plus an offset of the table
    of the parity of [b.row]: every bubble stored at such a slot is
    returned, and nothing else is.  A slot in a row off the grid holds
    no bubble, so every bubble returned has its row index in
    [0, grid.length - 1]; none is [b].  The two tables are those of
    the specification. *)
Theorem neighbors_spec (g : Grid) (b : Bubble) :
  wellFormed g = true → inGrid g b →
  (length (neighbors g b) ≤ 6)%nat ∧
  (∀ x, x ∈ neighbors g b ↔
        inGrid g x ∧
        (b_row x - b_row b, b_c x - b_c b) ∈ deltas (Z.rem (b_row b) 2 =? 0)) ∧
  (∀ x, x ∈ neighbors g b →
        0 <= b_row x < Z.of_nat (length g) ∧ x ≠ b) ∧
  deltas true = [(0, -1); (0, 1); (-1, 0); (-1, 1); (1, 0); (1, 1)] ∧
  deltas false = [(0, -1); (0, 1); (-1, -1); (-1, 0); (1, -1); (1, 0)].
Proof.
  intros Hwf Hb. pose proof Hwf as [Hr Hc]%andb_prop.
  destruct (inGrid_gridRow g b Hr Hb) as (rowArr & Hrow & _).
  split; [|split; [|split; [|done]]].
  - unfold neighbors. rewrite Hrow. cbn zeta.
    etrans; [apply length_omap_le|]. by destruct (Z.rem (b_row b) 2 =? 0).
  - intros x. by apply neighbors_atOffset.
  - intros x Hx. split.
    + pose proof (neighbors_inGrid g b x Hx) as Hxg.
      apply elem_of_concat_lookup in Hxg as (k & arr & Hk & Hin).
      rewrite (rowsIndexed_spec g k arr x Hr Hk Hin).
      apply lookup_lt_Some in Hk. lia.
    + apply (neighbors_atOffset g b x Hwf Hb) in Hx as [_ Hd].
      intros ->. unfold atOffset in Hd. rewrite !Z.sub_diag in Hd.
      destruct (Z.rem (b_row b) 2 =? 0); simpl in Hd;
        repeat (apply elem_of_cons in Hd as [Hd|Hd]; [done|]);
        by apply not_elem_of_nil in Hd.
Qed.

(** * Placement into an occupied slot *)

Lemma occupied_row g row col :
  occupied g row col →
  (Z.to_nat (row + 1) - length g = 0)%nat ∧
  ∃ rowArr, gridRow g row = Some rowArr ∧ g !! Z.to_nat row = Some rowArr ∧
            is_Some (findCol col rowArr).
Proof.
  intros [x Hx]. pose proof (cellAt_Some g row col x Hx) as (Hr & _ & _).
  split; [lia|]. unfold cellAt in Hx.
  destruct (gridRow g row) as [rowArr|] eqn:Hrow; [|done].
  exists rowArr. split; [done|]. split; [|by eexists].
  unfold gridRow in Hrow. by rewrite (proj2 (Z.ltb_ge _ _)) in Hrow by lia.
Qed.

Lemma Game_set_grid_id s : Game.set_grid (Game.grid s) s = s.
Proof. by destruct s. Qed.

Lemma Early_set_grid_id s : Early.set_grid (Early.grid s) s = s.
Proof. by destruct s. Qed.

Lemma Game_addBubbleAt_occupied host p tx ty s :
  occupied (Game.grid s) (Game.cellOf host tx ty).1 (Game.cellOf host tx ty).2 →
  Game.addBubbleAt host p tx ty s = s.
Proof.
  unfold Game.addBubbleAt. destruct (Game.cellOf host tx ty) as [row col].
  simpl. intros (Hpad & rowArr & _ & Hrow & [x Hx])%occupied_row.
  unfold Game.padRows. rewrite Hpad. simpl. rewrite app_nil_r, Hrow. simpl.
  rewrite Hx. apply Game_set_grid_id.
Qed.

Lemma Early_addBubbleAt_occupied host p tx ty s :
  occupied (Early.grid s) (Early.cellOf host tx ty).1
    (Early.cellOf host tx ty).2 →
  Early.addBubbleAt host p tx ty s = Some s.
Proof.
  unfold Early.addBubbleAt. destruct (Early.cellOf host tx ty) as [row col].
  simpl. intros (Hpad & rowArr & Hg & Hrow & [x Hx])%occupied_row.
  unfold Early.padRows. rewrite Hpad. simpl. rewrite app_nil_r, Hg.
  rewrite Hx. by rewrite Early_set_grid_id.
Qed.

(** C2. In both versions, when the slot that [addBubbleAt] snaps its
    target to is already occupied, the call leaves the whole session
    state as it was: no bubble is added or replaced, the number of
    bubbles and the score are unchanged, and nothing of what the two
    checks do (flags, score, effects, calls to the oracles) has
    happened; they are called in the branch of the free slot only.
    The shot is consumed all the same: the collision branch of
    [update] hands back the projectile switched off. *)
Theorem addBubbleAt_occupied_noop (host : Host) :
  (∀ p tx ty s,
     occupied (Game.grid s) (Game.cellOf host tx ty).1
       (Game.cellOf host tx ty).2 →
     Game.addBubbleAt host p tx ty s = s ∧
     bubbleCount (Game.grid (Game.addBubbleAt host p tx ty s))
       = bubbleCount (Game.grid s) ∧
     Game.score (Game.addBubbleAt host p tx ty s) = Game.score s) ∧
  (∀ p b s, p_active (Game.collide host p b s).1 = false) ∧
  (∀ p tx ty s,
     occupied (Early.grid s) (Early.cellOf host tx ty).1
       (Early.cellOf host tx ty).2 →
     Early.addBubbleAt host p tx ty s = Some s).
Proof.
  split; [|split].
  - intros p tx ty s H. by rewrite (Game_addBubbleAt_occupied host p tx ty s H).
  - done.
  - intros p tx ty s H. by apply Early_addBubbleAt_occupied.
Qed.

(** * The cluster of a placed bubble *)

Lemma size_univ_empty g : (size (gridKeys g ∖ ∅) < dfsFuel g)%nat.
Proof.
  pose proof (size_gridKeys g).
  pose proof (subseteq_size (gridKeys g ∖ ∅) (gridKeys g) ltac:(set_solver)).
  unfold dfsFuel. lia.
Qed.


(** The budget [dfsFuel] is enough for [clusterCheck]: a larger one
    gives the same cluster, whatever the origin. *)
Lemma clusterOf_fuel (g : Grid) (origin : Bubble) (n : nat) :
  (dfsFuel g ≤ n)%nat →
  (clusterDfs n g (b_color origin) origin (∅, [])).2 = clusterOf g origin.
Proof.
  intros Hn. unfold clusterOf. rewrite !clusterDfs_walk. f_equal.
  apply (walk_fuel _ g (gridKeys g ∪ {[key origin]})); [set_solver|set_solver|..].
  - pose proof (size_gridKeys g).
    pose proof (size_union_alt (gridKeys g) ({[key origin]} : gset Key)) as Hu.
    pose proof (subseteq_size (({[key origin]} : gset Key) ∖ gridKeys g)
                  {[key origin]} ltac:(set_solver)) as Hs.
    rewrite size_singleton in Hs.
    pose proof (subseteq_size ((gridKeys g ∪ {[key origin]}) ∖ ∅)
                  (gridKeys g ∪ {[key origin]}) ltac:(set_solver)).
    simpl. unfold dfsFuel in *. lia.
  - pose proof (size_gridKeys g).
    pose proof (size_union_alt (gridKeys g) ({[key origin]} : gset Key)) as Hu.
    pose proof (subseteq_size (({[key origin]} : gset Key) ∖ gridKeys g)
                  {[key origin]} ltac:(set_solver)) as Hs.
    rewrite size_singleton in Hs.
    pose proof (subseteq_size ((gridKeys g ∪ {[key origin]}) ∖ ∅)
                  (gridKeys g ∪ {[key origin]}) ltac:(set_solver)).
    simpl. unfold dfsFuel in *. lia.
Qed.



(** Flagging in turn the cells of the keys of [cluster]. *)
Lemma foldl_markKey (cluster : list Bubble) : ∀ g,
  foldl (λ g b, markKey (key b) g) g cluster
  = map (map (λ x, if bool_decide (key x ∈ key <$> cluster)
                   then mark x else x)) g.
Proof.
  induction cluster as [|b cl IH]; intros g; cbn [foldl].
  - rewrite <- (map_id g) at 1. apply map_ext. intros r.
    rewrite <- (map_id r) at 1. apply map_ext. intros x.
    rewrite bool_decide_eq_false_2; [done|]. by intros ?%not_elem_of_nil.
  - rewrite IH, fmap_cons. unfold markKey. rewrite map_map.
    apply map_ext. intros r.
    rewrite map_map. apply map_ext. intros x.
    destruct (decide (key x = key b)) as [Hk|Hk].
    + rewrite (bool_decide_eq_true_2 (key x ∈ key b :: (key <$> cl)))
        by (rewrite Hk; left).
      change (key (mark x)) with (key x). by case_bool_decide.
    + destruct (decide (key x ∈ key <$> cl)) as [Hc|Hc].
      * rewrite !bool_decide_eq_true_2; [done|by right|done].
      * rewrite !bool_decide_eq_false_2; [done| |done].
        by intros [?|?]%elem_of_cons.
Qed.


(** * Flagged bubbles under the operations on rows *)

Lemma flaggedCount_cons r (g : Grid) :
  flaggedCount (r :: g) = (length (List.filter b_removing r) + flaggedCount g)%nat.
Proof. unfold flaggedCount. simpl. by rewrite List.filter_app, length_app. Qed.

Lemma flaggedCount_app (g1 g2 : Grid) :
  flaggedCount (g1 ++ g2) = (flaggedCount g1 + flaggedCount g2)%nat.
Proof.
  induction g1 as [|r g1 IH]; [done|].
  rewrite <- app_comm_cons, !flaggedCount_cons, IH. lia.
Qed.

Lemma flagged_map_le (f : Bubble → Bubble) (r : list Bubble) :
  (∀ x, b_removing x = true → b_removing (f x) = true) →
  (length (List.filter b_removing r)
   ≤ length (List.filter b_removing (map f r)))%nat.
Proof.
  intros Hf. induction r as [|a r IH]; simpl; [done|].
  destruct (b_removing a) eqn:Ha.
  - rewrite (Hf a Ha). simpl. lia.
  - destruct (b_removing (f a)); simpl; lia.
Qed.

Lemma flagged_map_eq (f : Bubble → Bubble) (r : list Bubble) :
  (∀ x, b_removing (f x) = b_removing x) →
  length (List.filter b_removing (map f r)) = length (List.filter b_removing r).
Proof.
  intros Hf. induction r as [|a r IH]; simpl; [done|].
  rewrite Hf. destruct (b_removing a); simpl; lia.
Qed.

(** Rewriting bubbles in place without clearing a flag. *)
Lemma flaggedCount_mapRows (f : Bubble → Bubble) (g : Grid) :
  (∀ x, b_removing x = true → b_removing (f x) = true) →
  (flaggedCount g ≤ flaggedCount (map (map f) g))%nat.
Proof.
  intros Hf. induction g as [|r g IH]; [done|]. cbn [map].
  rewrite !flaggedCount_cons. pose proof (flagged_map_le f r Hf). lia.
Qed.

(** Splicing out bubbles that carry no flag. *)
Lemma flaggedCount_filterRows (q : Bubble → bool) (g : Grid) :
  (∀ x, b_removing x = true → q x = true) →
  flaggedCount (map (List.filter q) g) = flaggedCount g.
Proof.
  intros Hq. induction g as [|r g IH]; [done|]. cbn [map].
  rewrite !flaggedCount_cons, IH. f_equal. clear IH.
  induction r as [|a r IH]; simpl; [done|].
  destruct (q a) eqn:Ha; simpl.
  - destruct (b_removing a); simpl; lia.
  - destruct (b_removing a) eqn:Hr; [|done]. rewrite (Hq a Hr) in Ha. done.
Qed.

Lemma flaggedCount_replicate n : flaggedCount (replicate n []) = 0%nat.
Proof. induction n as [|n IH]; [done|]. simpl. by rewrite flaggedCount_cons. Qed.

(** Pushing a bubble on a row. *)
Lemma flaggedCount_insert (g : Grid) : ∀ k r b,
  g !! k = Some r →
  (flaggedCount g ≤ flaggedCount (<[k := r ++ [b]]> g))%nat.
Proof.
  induction g as [|r0 g IH]; intros [|k] r b Hk; try done; simpl in *.
  - injection Hk as ->. rewrite !flaggedCount_cons, List.filter_app, length_app. lia.
  - rewrite !flaggedCount_cons. pose proof (IH k r b Hk). lia.
Qed.

(** Renumbering the rows. *)
Lemma flaggedCount_imap (f : nat → Bubble → Bubble) (g : Grid) :
  (∀ i x, b_removing (f i x) = b_removing x) →
  flaggedCount (imap (λ i rowArr, map (f i) rowArr) g) = flaggedCount g.
Proof.
  revert f. induction g as [|r g IH]; intros f Hf; [done|]. cbn [imap].
  rewrite !flaggedCount_cons, (flagged_map_eq (f 0%nat)) by apply Hf.
  f_equal. apply (IH (λ i, f (S i))). intros i x. apply Hf.
Qed.

(** * Which fields each operation of [src/game.js] touches *)

Lemma gameCore_grid s s' : gameCore s' = gameCore s → Game.grid s' = Game.grid s.
Proof. unfold gameCore. congruence. Qed.

Lemma gameCore_score s s' :
  gameCore s' = gameCore s → Game.score s' = Game.score s.
Proof. unfold gameCore. congruence. Qed.

Lemma gameCore_steady s s' : gameCore s' = gameCore s → steady s s'.
Proof.
  unfold gameCore, steady. intros [= Hg ? ? ? Hs ? ? ? ? ? ? ?].
  rewrite Hs, Hg. repeat split; [done..|lia|lia].
Qed.

Lemma steady_refl s : steady s s.
Proof. unfold steady. repeat split; lia. Qed.

Lemma steady_trans s1 s2 s3 : steady s1 s2 → steady s2 s3 → steady s1 s3.
Proof.
  unfold steady. intros (? & ? & ? & ? & ?) (? & ? & ? & ? & ?).
  repeat split; [congruence..|lia|lia].
Qed.

Lemma foldl_steady {A} (f : Game.State → A → Game.State) (l : list A) :
  (∀ s x, steady s (f s x)) → ∀ s, steady s (foldl f s l).
Proof.
  intros Hf. induction l as [|x l IH]; intros s; simpl; [apply steady_refl|].
  eapply steady_trans; [apply Hf|apply IH].
Qed.

Lemma foldl_gameCore {A} (f : Game.State → A → Game.State) (l : list A) :
  (∀ s x, gameCore (f s x) = gameCore s) →
  ∀ s, gameCore (foldl f s l) = gameCore s.
Proof.
  intros Hf. induction l as [|x l IH]; intros s; simpl; [done|].
  by rewrite IH, Hf.
Qed.

Section GameFields.
Variable host : Host.

Lemma mathRandom_core s : gameCore (Game.mathRandom host s).2 = gameCore s.
Proof. by destruct s. Qed.

Lemma performanceNow_core s :
  gameCore (Game.performanceNow host s).2 = gameCore s.
Proof. by destruct s. Qed.

Lemma pickColor_core s : gameCore (Game.pickColor host s).2 = gameCore s.
Proof. by destruct s. Qed.

Lemma spawnParticle_core px py col drop t s :
  gameCore (Game.spawnParticle host px py col drop t s) = gameCore s.
Proof. by destruct s. Qed.

Lemma spawnParticles_core px py col drop s :
  gameCore (Game.spawnParticles host px py col drop s) = gameCore s.
Proof.
  unfold Game.spawnParticles.
  destruct (Game.performanceNow host s) as [t s1] eqn:Hnow.
  rewrite foldl_gameCore by (intros; apply spawnParticle_core).
  change s1 with (t, s1).2. rewrite <- Hnow. apply performanceNow_core.
Qed.

Lemma popBubble_core s b :
  gameCore (Game.popBubble host s b)
  = gameCore (Game.set_grid (markKey (key b) (Game.grid s)) s).
Proof.
  unfold Game.popBubble.
  destruct (Game.performanceNow host _) as [t s1] eqn:Hnow.
  rewrite spawnParticles_core.
  change s1 with (t, s1).2. rewrite <- Hnow. by destruct s.
Qed.

Lemma foldl_popBubble_grid cluster : ∀ s,
  Game.grid (foldl (Game.popBubble host) s cluster)
  = foldl (λ g b, markKey (key b) g) (Game.grid s) cluster.
Proof.
  induction cluster as [|b cl IH]; intros s; simpl; [done|].
  by rewrite IH, (gameCore_grid _ _ (popBubble_core s b)).
Qed.

Lemma popBubble_steady s b : steady s (Game.popBubble host s b).
Proof.
  eapply steady_trans; [|apply gameCore_steady, popBubble_core].
  destruct s; unfold steady; simpl. repeat split; [lia|].
  apply flaggedCount_mapRows. intros x Hx. by case_decide.
Qed.

Lemma updateHighScore_steady s : steady s (Game.updateHighScore s).
Proof.
  unfold Game.updateHighScore. destruct (_ <? _); [|apply steady_refl].
  destruct s; unfold steady; simpl. repeat split; lia.
Qed.

Lemma updateHighScore_grid s :
  Game.grid (Game.updateHighScore s) = Game.grid s.
Proof. unfold Game.updateHighScore. by destruct (_ <? _), s. Qed.

Lemma updateHighScore_score s :
  Game.score (Game.updateHighScore s) = Game.score s.
Proof. unfold Game.updateHighScore. by destruct (_ <? _), s. Qed.

Lemma updateHighScore_idem s :
  Game.updateHighScore (Game.updateHighScore s) = Game.updateHighScore s.
Proof.
  unfold Game.updateHighScore.
  destruct (Game.highScore s <? Game.score s) eqn:E; [|by rewrite E].
  destruct s; simpl in *. by rewrite Z.ltb_irrefl.
Qed.

(** What [clusterCheck] does to the grid and to the score. *)
Lemma clusterCheck_effect origin s :
  let cluster := clusterOf (Game.grid s) origin in
  let s' := Game.clusterCheck host origin s in
  ((length cluster < 3)%nat → s' = s) ∧
  ((3 ≤ length cluster)%nat →
     Game.grid s' = foldl (λ g b, markKey (key b) g) (Game.grid s) cluster ∧
     Game.score s' = Game.score s + 10 * Z.of_nat (length cluster)).
Proof.
  cbn zeta. unfold Game.clusterCheck, Game.minCluster. split; intros Hlen.
  - by rewrite (proj2 (Nat.leb_gt _ _)) by lia.
  - rewrite (proj2 (Nat.leb_le _ _)) by lia.
    rewrite updateHighScore_grid, updateHighScore_score.
    split; [apply foldl_popBubble_grid|]. simpl.
    pose proof (foldl_steady (Game.popBubble host)
                  (clusterOf (Game.grid s) origin) popBubble_steady s) as Hst.
    assert (Game.score (foldl (Game.popBubble host) s
                          (clusterOf (Game.grid s) origin)) = Game.score s)
      as ->; [|lia].
    clear. generalize (clusterOf (Game.grid s) origin) as cl.
    intros cl. revert s. induction cl as [|b cl IH]; intros s; simpl; [done|].
    rewrite IH. by rewrite (gameCore_score _ _ (popBubble_core s b)).
Qed.

End GameFields.

(** * Placement into a free slot *)

Lemma rowsIndexedFrom_app g1 : ∀ i g2,
  rowsIndexedFrom i (g1 ++ g2)
  = rowsIndexedFrom i g1 && rowsIndexedFrom (i + Z.of_nat (length g1)) g2.
Proof.
  induction g1 as [|r g1 IH]; intros i g2; cbn [rowsIndexedFrom app length].
  - by rewrite Z.add_0_r.
  - rewrite IH, andb_assoc. f_equal. f_equal. lia.
Qed.

Lemma rowsIndexedFrom_replicate n : ∀ i,
  rowsIndexedFrom i (replicate n []) = true.
Proof. induction n as [|n IH]; intros i; simpl; [done|apply IH]. Qed.

Lemma rowsIndexedFrom_insert g : ∀ i k rowArr b,
  rowsIndexedFrom i g = true → g !! k = Some rowArr →
  b_row b = i + Z.of_nat k →
  rowsIndexedFrom i (<[k := rowArr ++ [b]]> g) = true.
Proof.
  induction g as [|r g IH]; intros i k rowArr b H Hk Hb; [done|].
  simpl in H. apply andb_prop in H as [Hr Hg]. destruct k as [|k]; simpl in *.
  - injection Hk as ->. rewrite Hg, andb_true_r, forallb_app, Hr. simpl.
    rewrite andb_true_r. apply Z.eqb_eq. lia.
  - rewrite Hr. simpl. apply (IH (i + 1) k rowArr b Hg Hk). lia.
Qed.

Lemma colsUnique_insert g k rowArr b :
  colsUnique g = true → g !! k = Some rowArr → findCol (b_c b) rowArr = None →
  colsUnique (<[k := rowArr ++ [b]]> g) = true.
Proof.
  unfold colsUnique. rewrite !forallb_forall. intros H Hk Hfree r Hr.
  apply list_elem_of_In, list_elem_of_lookup in Hr as [j Hj].
  destruct (decide (k = j)) as [->|Hne].
  - rewrite list_lookup_insert_eq in Hj by (by eapply lookup_lt_Some).
    injection Hj as <-. apply bool_decide_eq_true.
    specialize (H rowArr ltac:(by eapply list_elem_of_In, list_elem_of_lookup_2)).
    apply bool_decide_eq_true in H. rewrite fmap_app. apply NoDup_app.
    split; [done|]. split; [|apply NoDup_singleton].
    intros c (x & -> & Hx)%list_elem_of_fmap Hc%list_elem_of_singleton.
    unfold findCol in Hfree.
    pose proof (find_none _ _ Hfree x ltac:(by apply list_elem_of_In)) as Hn.
    simpl in Hn. apply Z.eqb_neq in Hn. done.
  - rewrite list_lookup_insert_ne in Hj by done.
    apply H. by eapply list_elem_of_In, list_elem_of_lookup_2.
Qed.

Lemma colsUnique_app g1 g2 :
  colsUnique (g1 ++ g2) = colsUnique g1 && colsUnique g2.
Proof. unfold colsUnique. apply forallb_app. Qed.

Lemma colsUnique_replicate n : colsUnique (replicate n []) = true.
Proof.
  unfold colsUnique. apply forallb_forall.
  intros r [-> _]%list_elem_of_In%elem_of_replicate.
  apply bool_decide_eq_true. constructor.
Qed.

(** A bubble pushed on a free slot of a well-formed grid leaves the
    grid well formed, and is an occupied cell of it. *)
Lemma withBubble_wellFormed g b :
  wellFormed g = true → 0 <= b_row b → cellAt g (b_row b) (b_c b) = None →
  wellFormed (withBubble g b) = true ∧ inGrid (withBubble g b) b.
Proof.
  unfold wellFormed, withBubble. intros [Hr Hc]%andb_prop Hrow Hfree.
  set (g' := g ++ replicate _ []).
  assert (Z.to_nat (b_row b) < length g')%nat as Hlt.
  { unfold g'. rewrite length_app, length_replicate. lia. }
  destruct (lookup_lt_is_Some_2 g' _ Hlt) as [rowArr Hlook]. rewrite Hlook.
  simpl. assert (findCol (b_c b) rowArr = None) as Hfree'.
  { unfold g' in Hlook. apply lookup_app_Some in Hlook as [Hl|[_ Hl]].
    - unfold cellAt, gridRow in Hfree.
      rewrite (proj2 (Z.ltb_ge _ _)) in Hfree by lia. by rewrite Hl in Hfree.
    - by apply lookup_replicate in Hl as [-> _]. }
  assert (rowsIndexed g' = true ∧ colsUnique g' = true) as [Hr' Hc'].
  { unfold g', rowsIndexed. rewrite rowsIndexedFrom_app, colsUnique_app.
    rewrite rowsIndexedFrom_replicate, colsUnique_replicate.
    unfold rowsIndexed in Hr. by rewrite Hr, Hc. }
  split.
  - apply andb_true_intro. split.
    + apply rowsIndexedFrom_insert; [done..|lia].
    + by apply colsUnique_insert.
  - apply elem_of_concat_lookup. exists (Z.to_nat (b_row b)), (rowArr ++ [b]).
    split; [by apply list_lookup_insert_eq|]. apply elem_of_app. right. left.
Qed.

Lemma padded_row g row :
  0 <= row →
  ∃ rowArr,
    (g ++ replicate (Z.to_nat (row + 1) - length g)%nat []) !! Z.to_nat row
    = Some rowArr ∧
    (gridRow g row = Some rowArr ∨ (gridRow g row = None ∧ rowArr = [])).
Proof.
  intros Hrow. unfold gridRow. rewrite (proj2 (Z.ltb_ge _ _)) by lia.
  destruct (g !! Z.to_nat row) as [rowArr|] eqn:Hl.
  - exists rowArr. split; [|by left]. by apply lookup_app_l_Some.
  - exists []. split; [|by right]. apply lookup_ge_None in Hl.
    rewrite lookup_app_r by done. apply lookup_replicate_2. lia.
Qed.

Lemma free_slot g row col :
  0 <= row → cellAt g row col = None →
  ∃ rowArr,
    (g ++ replicate (Z.to_nat (row + 1) - length g)%nat []) !! Z.to_nat row
    = Some rowArr ∧ findCol col rowArr = None.
Proof.
  intros Hrow Hfree. destruct (padded_row g row Hrow) as (rowArr & Hl & H).
  exists rowArr. split; [done|]. unfold cellAt in Hfree.
  destruct H as [H|[H ->]]; [by rewrite H in Hfree|done].
Qed.

Lemma Game_addBubbleAt_free host p tx ty s :
  let row := (Game.cellOf host tx ty).1 in
  let col := (Game.cellOf host tx ty).2 in
  let b := Game.bubbleAt row col (p_color p) in
  cellAt (Game.grid s) row col = None →
  Game.addBubbleAt host p tx ty s
  = Game.floatingCheck host
      (Game.clusterCheck host b (Game.set_grid (withBubble (Game.grid s) b) s)).
Proof.
  cbn zeta. unfold Game.addBubbleAt.
  assert (0 <= (Game.cellOf host tx ty).1) as Hrow by (simpl; lia).
  destruct (Game.cellOf host tx ty) as [row col]. simpl in *. intros Hfree.
  destruct (free_slot _ row col Hrow Hfree) as (rowArr & Hl & Hf).
  unfold Game.padRows. rewrite Hl. simpl. rewrite Hf.
  unfold withBubble. simpl. by rewrite Hl.
Qed.

Lemma Early_addBubbleAt_free host p tx ty s :
  let row := (Early.cellOf host tx ty).1 in
  let col := (Early.cellOf host tx ty).2 in
  let b := Early.bubbleAt row col (Early.p_color p) in
  0 <= row → cellAt (Early.grid s) row col = None →
  Early.addBubbleAt host p tx ty s
  = Some (Early.floatingCheck
            (Early.clusterCheck b
               (Early.set_grid (withBubble (Early.grid s) b) s))).
Proof.
  cbn zeta. unfold Early.addBubbleAt.
  destruct (Early.cellOf host tx ty) as [row col]. simpl. intros Hrow Hfree.
  destruct (free_slot _ row col Hrow Hfree) as (rowArr & Hl & Hf).
  unfold Early.padRows, gridRow. rewrite (proj2 (Z.ltb_ge _ _)) by lia.
  rewrite Hl, Hf. unfold withBubble. simpl. by rewrite Hl.
Qed.

Lemma Early_flag_fold cl : ∀ s,
  Early.grid (foldl (λ s b, Early.set_grid (markKey (key b) (Early.grid s)) s)
                s cl)
  = foldl (λ g b, markKey (key b) g) (Early.grid s) cl ∧
  Early.score (foldl (λ s b, Early.set_grid (markKey (key b) (Early.grid s)) s)
                 s cl)
  = Early.score s.
Proof.
  induction cl as [|b cl IH]; intros s; cbn [foldl]; [done|].
  destruct (IH (Early.set_grid (markKey (key b) (Early.grid s)) s)) as [Hg Hs].
  by rewrite Hg, Hs.
Qed.

Lemma Early_clusterCheck_effect origin s :
  let cluster := clusterOf (Early.grid s) origin in
  let s' := Early.clusterCheck origin s in
  ((length cluster < 3)%nat → s' = s) ∧
  ((3 ≤ length cluster)%nat →
     Early.grid s' = foldl (λ g b, markKey (key b) g) (Early.grid s) cluster ∧
     Early.score s' = Early.score s + 10 * Z.of_nat (length cluster)).
Proof.
  cbn zeta. unfold Early.clusterCheck, Early.minCluster. split; intros Hlen.
  - by rewrite (proj2 (Nat.leb_gt _ _)) by lia.
  - rewrite (proj2 (Nat.leb_le _ _)) by lia.
    destruct (Early_flag_fold (clusterOf (Early.grid s) origin) s) as [Hg Hs].
    split; [exact Hg|]. simpl. rewrite Hs. lia.
Qed.




(** * Row pressure *)

Lemma Game_pickColor_eq host s :
  Game.pickColor host s
  = ((Game.pickColor host s).1,
     Game.set_randomCalls (S (Game.randomCalls s)) s).
Proof. done. Qed.

Lemma Game_set_randomCalls_twice n m s :
  Game.set_randomCalls n (Game.set_randomCalls m s) = Game.set_randomCalls n s.
Proof. done. Qed.

(** The row built by [pushRow]: its [k]-th bubble sits in column [k]
    and carries the colour of the [k]-th [pickColor] call. *)
Lemma Game_newTopRow_fold host (l : list Z) : ∀ arr s,
  foldl (λ '(arr, s) c,
           let '(col, s) := Game.pickColor host s in
           (arr ++ [mkBubble 0 c
                      (Game.bubbleRadius + ZtoQ c * Game.bubbleRadius * 2)%Q
                      Game.bubbleRadius col false], s))
        (arr, s) l
  = (arr ++ imap (λ k c,
                    mkBubble 0 c
                      (Game.bubbleRadius + ZtoQ c * Game.bubbleRadius * 2)%Q
                      Game.bubbleRadius
                      (Game.pickColor host
                         (Game.set_randomCalls (Game.randomCalls s + k) s)).1
                      false) l,
     Game.set_randomCalls (Game.randomCalls s + length l) s).
Proof.
  induction l as [|c l IH]; intros arr s.
  - simpl. rewrite app_nil_r, Nat.add_0_r. by destruct s.
  - cbn [foldl]. rewrite Game_pickColor_eq. cbn iota beta. rewrite IH.
    rewrite <- app_assoc. cbn [imap app length].
    rewrite Game_set_randomCalls_twice. f_equal.
    + f_equal. f_equal.
      * rewrite Nat.add_0_r. by destruct s.
      * apply imap_ext. intros k x _. simpl.
        by rewrite Nat.add_succ_r.
    + simpl. by rewrite Nat.add_succ_r.
Qed.

Lemma Early_pickColor_eq host s :
  Early.pickColor host s
  = ((Early.pickColor host s).1,
     Early.set_randomCalls (S (Early.randomCalls s)) s).
Proof. done. Qed.

Lemma Early_set_randomCalls_twice n m s :
  Early.set_randomCalls n (Early.set_randomCalls m s)
  = Early.set_randomCalls n s.
Proof. done. Qed.

Lemma Early_newTopRow_fold host (l : list Z) : ∀ arr s,
  foldl (λ '(arr, s) c,
           let '(col, s) := Early.pickColor host s in
           (arr ++ [mkBubble 0 c
                      (Early.bubbleRadius + ZtoQ c * Early.bubbleRadius * 2)%Q
                      Early.bubbleRadius col false], s))
        (arr, s) l
  = (arr ++ imap (λ k c,
                    mkBubble 0 c
                      (Early.bubbleRadius + ZtoQ c * Early.bubbleRadius * 2)%Q
                      Early.bubbleRadius
                      (Early.pickColor host
                         (Early.set_randomCalls (Early.randomCalls s + k) s)).1
                      false) l,
     Early.set_randomCalls (Early.randomCalls s + length l) s).
Proof.
  induction l as [|c l IH]; intros arr s.
  - simpl. rewrite app_nil_r, Nat.add_0_r. by destruct s.
  - cbn [foldl]. rewrite Early_pickColor_eq. cbn iota beta. rewrite IH.
    rewrite <- app_assoc. cbn [imap app length].
    rewrite Early_set_randomCalls_twice. f_equal.
    + f_equal. f_equal.
      * rewrite Nat.add_0_r. by destruct s.
      * apply imap_ext. intros k x _. simpl.
        by rewrite Nat.add_succ_r.
    + simpl. by rewrite Nat.add_succ_r.
Qed.

Lemma map_setRow_zero (l : list Bubble) :
  (∀ b, b ∈ l → b_row b = 0) → map (Game.setRow 0) l = l.
Proof.
  intros H. rewrite <- (map_id l) at 2. apply map_ext_in.
  intros [r c x y col rm] Hb%list_elem_of_In. apply H in Hb. simpl in Hb.
  by rewrite Hb.
Qed.

Lemma lookup_seqZ_0 (n : Z) (k : nat) :
  (k < Z.to_nat n)%nat → seqZ 0 n !! k = Some (Z.of_nat k).
Proof. intros H. rewrite lookup_seqZ. split; lia. Qed.

Lemma rowsIndexed_two r0 r1 :
  rowsIndexed [r0; r1] = true →
  (∀ b, b ∈ r0 → b_row b = 0) ∧ (∀ b, b ∈ r1 → b_row b = 1).
Proof.
  intros H. split; intros b Hb.
  - by apply (rowsIndexed_spec [r0; r1] 0 r0 b H).
  - by apply (rowsIndexed_spec [r0; r1] 1 r1 b H).
Qed.

Lemma Game_pushRow_grid host s :
  ∃ newRow,
    Game.grid (Game.pushRow host s)
    = Game.renumber (newRow :: map (map Game.lower) (Game.grid s)) ∧
    length newRow = Z.to_nat (Game.perRow host) ∧
    ∀ k, (k < Z.to_nat (Game.perRow host))%nat →
      newRow !! k
      = Some (topBubble Game.bubbleRadius (Z.of_nat k)
                (Game.pickColor host
                   (Game.set_randomCalls (Game.randomCalls s + k) s)).1).
Proof.
  unfold Game.pushRow, Game.newTopRow. rewrite Game_newTopRow_fold.
  rewrite app_nil_l. eexists. split; [by destruct s|].
  split; [by rewrite length_imap, length_seqZ|].
  intros k Hk. by rewrite list_lookup_imap, lookup_seqZ_0.
Qed.

Lemma Early_pushRow_grid host s :
  ∃ newRow,
    Early.grid (Early.pushRow host s)
    = Early.renumber (newRow :: map (map Early.lower) (Early.grid s)) ∧
    length newRow = Z.to_nat (Early.perRow host) ∧
    ∀ k, (k < Z.to_nat (Early.perRow host))%nat →
      newRow !! k
      = Some (topBubble Early.bubbleRadius (Z.of_nat k)
                (Early.pickColor host
                   (Early.set_randomCalls (Early.randomCalls s + k) s)).1).
Proof.
  unfold Early.pushRow, Early.newTopRow. rewrite Early_newTopRow_fold.
  rewrite app_nil_l. eexists. split; [by destruct s|].
  split; [by rewrite length_imap, length_seqZ|].
  intros k Hk. by rewrite list_lookup_imap, lookup_seqZ_0.
Qed.

Lemma top_row_rows (r : Q) (newRow : list Bubble) (n : nat) (f : nat → Color) :
  length newRow = n →
  (∀ k, (k < n)%nat → newRow !! k = Some (topBubble r (Z.of_nat k) (f k))) →
  ∀ b, b ∈ newRow → b_row b = 0.
Proof.
  intros Hlen Hk b [k Hb]%list_elem_of_lookup.
  pose proof (lookup_lt_Some _ _ _ Hb) as Hlt. rewrite Hk in Hb by lia.
  by injection Hb as <-.
Qed.

(** C5. In both versions, for a grid of two rows that satisfies the
    grid invariant, [pushRow] yields a grid of three rows: the two old
    rows follow in their order, every bubble of them with its row
    index one more and its [y] exactly one row height more, all else
    kept; the new row 0 holds [perRow] bubbles, the [k]-th in column
    [k] at row index 0 with [y] equal to the bubble radius, not
    flagged, of the colour that the [k]-th [pickColor] call of the
    push draws. *)
Theorem pushRow_two_rows (host : Host) :
  (∀ s r0 r1,
     Game.grid s = [r0; r1] → rowsIndexed [r0; r1] = true →
     ∃ newRow,
       Game.grid (Game.pushRow host s)
       = [newRow; map (pushedDown Game.rowHeight) r0;
          map (pushedDown Game.rowHeight) r1] ∧
       length newRow = Z.to_nat (Game.perRow host) ∧
       ∀ k, (k < Z.to_nat (Game.perRow host))%nat →
         newRow !! k
         = Some (topBubble Game.bubbleRadius (Z.of_nat k)
                   (Game.pickColor host
                      (Game.set_randomCalls (Game.randomCalls s + k) s)).1)) ∧
  (∀ s r0 r1,
     Early.grid s = [r0; r1] → rowsIndexed [r0; r1] = true →
     ∃ newRow,
       Early.grid (Early.pushRow host s)
       = [newRow; map (pushedDown Early.rowHeight) r0;
          map (pushedDown Early.rowHeight) r1] ∧
       length newRow = Z.to_nat (Early.perRow host) ∧
       ∀ k, (k < Z.to_nat (Early.perRow host))%nat →
         newRow !! k
         = Some (topBubble Early.bubbleRadius (Z.of_nat k)
                   (Early.pickColor host
                      (Early.set_randomCalls (Early.randomCalls s + k) s)).1)).
Proof.
  split; intros s r0 r1 Hg [H0 H1]%rowsIndexed_two.
  - destruct (Game_pushRow_grid host s) as (newRow & Hgrid & Hlen & Hk).
    exists newRow. split; [|done]. rewrite Hgrid, Hg. simpl.
    unfold Game.renumber. simpl. f_equal; [|f_equal; [|f_equal]].
    + apply map_setRow_zero.
      exact (top_row_rows _ newRow _
               (λ k, (Game.pickColor host
                        (Game.set_randomCalls (Game.randomCalls s + k) s)).1)
               Hlen Hk).
    + rewrite map_map. apply map_ext_in. intros b Hb%list_elem_of_In.
      unfold pushedDown. by rewrite (H0 b Hb).
    + rewrite map_map. apply map_ext_in. intros b Hb%list_elem_of_In.
      unfold pushedDown. by rewrite (H1 b Hb).
  - destruct (Early_pushRow_grid host s) as (newRow & Hgrid & Hlen & Hk).
    exists newRow. split; [|done]. rewrite Hgrid, Hg. simpl.
    unfold Early.renumber. simpl. f_equal; [|f_equal; [|f_equal]].
    + apply (map_setRow_zero newRow).
      exact (top_row_rows _ newRow _
               (λ k, (Early.pickColor host
                        (Early.set_randomCalls (Early.randomCalls s + k) s)).1)
               Hlen Hk).
    + rewrite map_map. apply map_ext_in. intros b Hb%list_elem_of_In.
      unfold pushedDown. by rewrite (H0 b Hb).
    + rewrite map_map. apply map_ext_in. intros b Hb%list_elem_of_In.
      unfold pushedDown. by rewrite (H1 b Hb).
Qed.

(** * The set [connected] of the floating check *)

Lemma row0_inGrid (g : Grid) a : a ∈ default [] (g !! 0%nat) → a ∈ concat g.
Proof.
  destruct (g !! 0%nat) as [r|] eqn:Hr; simpl; [|by intros ?%not_elem_of_nil].
  intros Ha. apply elem_of_concat_lookup. by exists 0%nat, r.
Qed.

Lemma connectedSet_walk g :
  connectedSet g
  = (foldl (λ acc b, walk (λ _, true) (dfsFuel g) g b acc) (∅, [])
       (default [] (g !! 0%nat))).1.
Proof. unfold connectedSet. apply foldl_floatDfs_walk. Qed.

Lemma connectedSet_Walked g :
  ∃ C, Walked (λ _, true) g (gridKeys g) ∅ [] (default [] (g !! 0%nat))
         (connectedSet g) C.
Proof.
  rewrite connectedSet_walk. eexists. apply foldl_walk_Walked; [done| |].
  - intros x Hx. by apply key_in_gridKeys, row0_inGrid.
  - apply size_univ_empty.
Qed.

(** The set holds the keys of the bubbles of row 0, is closed under
    [neighbors()] links, and holds only keys of bubbles that such links
    reach from row 0. *)
Lemma connectedSet_spec g :
  (∀ a, a ∈ default [] (g !! 0%nat) → key a ∈ connectedSet g) ∧
  (∀ b y, key b ∈ connectedSet g → y ∈ neighbors g b →
          key y ∈ connectedSet g) ∧
  (∀ k, k ∈ connectedSet g → ∃ x, key x = k ∧ anchored g x).
Proof.
  destruct (connectedSet_Walked g) as [C [_ _ Hsrc (new & _ & _ & E & K)]].
  split; [exact Hsrc|]. split.
  - intros b y Hb Hy.
    destruct (K (key b) Hb ltac:(set_solver)) as (x & Hk & _ & Hnew).
    destruct (E x (Hnew eq_refl)) as (_ & _ & _ & _ & Hcl).
    apply Hcl. by rewrite (neighbors_key g x b Hk).
  - intros k Hk.
    destruct (K k Hk ltac:(set_solver)) as (x & Hkx & _ & Hnew).
    destruct (E x (Hnew eq_refl)) as (_ & _ & _ & (a & Ha & _ & Hrtc) & _).
    exists x. split; [done|]. exists a. split; [done|].
    eapply rtc_subrel; [|exact Hrtc]. by intros y z [Hn _].
Qed.

(** Every anchored bubble has its key in the set. *)
Lemma anchored_connected g b : anchored g b → key b ∈ connectedSet g.
Proof.
  destruct (connectedSet_spec g) as (H0 & Hcl & _).
  intros (a & Ha & Hrtc). apply H0 in Ha.
  induction Hrtc as [x|x y z Hxy _ IH]; [done|].
  apply IH. by apply Hcl with x.
Qed.

Lemma floatDfs_mono (n : nat) (g : Grid) (b : Bubble) (V : gset Key) :
  V ⊆ floatDfs n g b V.
Proof.
  rewrite (floatDfs_walk n g b V []).
  apply (walk_mono (λ _, true) g n b (V, [])).
Qed.

Lemma floatDfs_fuel (g : Grid) (n m : nat) (b : Bubble) (V : gset Key) :
  key b ∈ gridKeys g →
  (size (gridKeys g ∖ V) < n)%nat → (size (gridKeys g ∖ V) < m)%nat →
  floatDfs n g b V = floatDfs m g b V.
Proof.
  intros Hb Hn Hm. rewrite (floatDfs_walk n g b V []), (floatDfs_walk m g b V []).
  by rewrite (walk_fuel (λ _, true) g (gridKeys g) ltac:(done) n m b (V, [])).
Qed.

Lemma foldl_floatDfs_fuel (g : Grid) (n m : nat) (ns : list Bubble) :
  ∀ V : gset Key,
  (∀ x, x ∈ ns → key x ∈ gridKeys g) →
  (size (gridKeys g ∖ V) < n)%nat → (size (gridKeys g ∖ V) < m)%nat →
  foldl (λ acc b, floatDfs n g b acc) V ns
  = foldl (λ acc b, floatDfs m g b acc) V ns.
Proof.
  induction ns as [|a ns IH]; intros V Hns Hn Hm; simpl; [done|].
  rewrite (floatDfs_fuel g n m a V) by (auto; apply Hns; left).
  pose proof (size_univ_mono (gridKeys g) _ _ (floatDfs_mono m g a V)).
  apply IH; [intros x Hx; apply Hns; by right|lia..].
Qed.

Lemma fmap_key_cons_inv (a a' : Bubble) (l l' : list Bubble) :
  key <$> a :: l = key <$> a' :: l' → key a = key a' ∧ key <$> l = key <$> l'.
Proof. intros [= H1 H2 H3]. split; [unfold key; congruence|done]. Qed.

(** The budget [dfsFuel] is enough for [floatingCheck]: a larger one
    gives the same set [connected]. *)
Lemma connectedSet_fuel (g : Grid) (n : nat) :
  (dfsFuel g ≤ n)%nat →
  foldl (λ acc b, floatDfs n g b acc) ∅ (default [] (g !! 0%nat))
  = connectedSet g.
Proof.
  intros Hn. unfold connectedSet. apply foldl_floatDfs_fuel.
  - intros x Hx. by apply key_in_gridKeys, row0_inGrid.
  - pose proof (size_univ_empty g). lia.
  - apply size_univ_empty.
Qed.

(** The traversal reads the grid only through the keys of the
    neighbours of the keys it visits. *)
Lemma floatDfs_stable (g g' : Grid) (K : gset Key) :
  (∀ b y, key b ∈ K → y ∈ neighbors g b → key y ∈ K) →
  (∀ b, key b ∈ K → key <$> neighbors g' b = key <$> neighbors g b) →
  ∀ n b b' V, key b = key b' → key b' ∈ K →
    floatDfs n g' b V = floatDfs n g b' V.
Proof.
  intros Hcl Hkeys. induction n as [|n IH]; intros b b' V Hk Hb'; simpl; [done|].
  rewrite Hk. case_decide; [done|].
  assert (∀ l l' V, key <$> l = key <$> l' → (∀ x, x ∈ l' → key x ∈ K) →
            foldl (λ acc x, floatDfs n g' x acc) V l
            = foldl (λ acc x, floatDfs n g x acc) V l') as Hfold.
  { induction l as [|a l IHl]; intros [|a' l'] V' Heq Hl'; try done.
    apply fmap_key_cons_inv in Heq as [Ha Hl]. simpl.
    rewrite (IH a a' V' Ha) by (apply Hl'; left).
    apply IHl; [done|]. intros x Hx. apply Hl'. by right. }
  apply Hfold.
  - rewrite (neighbors_key g' b b' Hk). by apply Hkeys.
  - intros x Hx. by apply Hcl with b'.
Qed.

Lemma connectedSet_stable (g g' : Grid) :
  key <$> default [] (g' !! 0%nat) = key <$> default [] (g !! 0%nat) →
  (∀ b, key b ∈ connectedSet g →
        key <$> neighbors g' b = key <$> neighbors g b) →
  (bubbleCount g' ≤ bubbleCount g)%nat →
  connectedSet g' = connectedSet g.
Proof.
  intros Hrow Hkeys Hcount. destruct (connectedSet_spec g) as (H0 & Hcl & _).
  set (K := connectedSet g) in Hkeys, H0, Hcl.
  unfold connectedSet.
  rewrite (foldl_floatDfs_fuel g' (dfsFuel g') (dfsFuel g)).
  2:{ intros x Hx. by apply key_in_gridKeys, row0_inGrid. }
  2:{ apply size_univ_empty. }
  2:{ pose proof (size_univ_empty g'). unfold dfsFuel in *. lia. }
  generalize (dfsFuel g) as N. intros N.
  generalize (∅ : gset Key) as V. revert Hrow H0.
  generalize (default [] (g !! 0%nat)) as l.
  generalize (default [] (g' !! 0%nat)) as l'.
  induction l' as [|a' l' IH]; intros [|a l] Heq Hl V; try done.
  apply fmap_key_cons_inv in Heq as [Ha Hl']. cbn [foldl].
  rewrite (floatDfs_stable g g' K Hcl Hkeys N a' a V Ha) by (apply Hl; left).
  apply IH; [done|]. intros x Hx. apply Hl. by right.
Qed.

(** * Rows spliced or flagged by the floating check *)

Lemma lookup_map {A B} (f : A → B) (l : list A) (i : nat) :
  map f l !! i = f <$> l !! i.
Proof.
  revert i. induction l as [|a l IH]; intros [|i]; simpl; done.
Qed.

Lemma map_fmap {A B} (f : A → B) (l : list A) : map f l = f <$> l.
Proof. induction l as [|a l IH]; simpl; [done|]. by rewrite IH. Qed.

Lemma find_filter_Some {A} (p q : A → bool) (l : list A) x :
  find p l = Some x → q x = true → find p (List.filter q l) = Some x.
Proof.
  induction l as [|a l IH]; simpl; [done|].
  destruct (p a) eqn:Hp.
  - intros [= ->] Hq. rewrite Hq. simpl. by rewrite Hp.
  - intros Hf Hq. destruct (q a); simpl; [rewrite Hp|]; by apply IH.
Qed.

Lemma find_filter_None {A} (p q : A → bool) (l : list A) :
  find p l = None → find p (List.filter q l) = None.
Proof.
  induction l as [|a l IH]; simpl; [done|].
  destruct (p a) eqn:Hp; [done|].
  intros Hf. destruct (q a); simpl; [rewrite Hp|]; by apply IH.
Qed.

Lemma find_map_key {A} (p : A → bool) (f : A → A) (l : list A) :
  (∀ x, p (f x) = p x) → find p (map f l) = f <$> find p l.
Proof.
  intros Hp. induction l as [|a l IH]; simpl; [done|].
  rewrite Hp. by destruct (p a).
Qed.

Lemma gridRow_map (f : list Bubble → list Bubble) (g : Grid) (i : Z) :
  gridRow (map f g) i = f <$> gridRow g i.
Proof. unfold gridRow. destruct (i <? 0); [done|]. apply lookup_map. Qed.

Lemma neighborAt_filterRows (g : Grid) (q : Bubble → bool) b d :
  neighborAt (map (List.filter q) g) b d
  = match neighborAt g b d with
    | Some x => if q x then Some x else neighborAt (map (List.filter q) g) b d
    | None => None
    end.
Proof.
  unfold neighborAt. cbn zeta. rewrite length_map, lookup_map.
  destruct (_ || _); [done|].
  destruct (g !! Z.to_nat (b_row b + d.1)) as [arr|]; [|done]. simpl.
  unfold findCol. destruct (find _ arr) as [x|] eqn:Hf.
  - destruct (q x) eqn:Hq; [|done]. by apply find_filter_Some.
  - by apply find_filter_None.
Qed.

(** Splicing out bubbles that are no neighbour of [b] leaves
    [neighbors(b)] as it was. *)
Lemma neighbors_filterRows (g : Grid) (q : Bubble → bool) (b : Bubble) :
  (∀ y, y ∈ neighbors g b → q y = true) →
  neighbors (map (List.filter q) g) b = neighbors g b.
Proof.
  intros Hq. unfold neighbors at 1 2. rewrite gridRow_map.
  pose proof (λ x, proj2 (elem_of_neighbors g b x)) as Hn.
  destruct (gridRow g (b_row b)) as [r|] eqn:Hrow; [|done]. cbn zeta. simpl.
  apply list_omap_ext, Forall2_same_length_lookup_2; [done|].
  intros i d1 d2 H1 H2. assert (d1 = d2) as -> by congruence.
  assert (d2 ∈ deltas (Z.rem (b_row b) 2 =? 0)) as Hd
    by (by eapply list_elem_of_lookup_2).
  rewrite neighborAt_filterRows.
  destruct (neighborAt g b d2) as [x|] eqn:Hx; [|done].
  rewrite Hq; [done|]. apply Hn. split; [by eexists|]. by exists d2.
Qed.

(** Rewriting bubbles in place without touching their row and column
    leaves the keys of [neighbors(b)] as they were. *)
Lemma neighbors_mapRows (g : Grid) (f : Bubble → Bubble) (b : Bubble) :
  (∀ x, key (f x) = key x) →
  key <$> neighbors (map (map f) g) b = key <$> neighbors g b.
Proof.
  intros Hf. unfold neighbors at 1 2. rewrite gridRow_map.
  destruct (gridRow g (b_row b)) as [r|] eqn:Hrow; [|done]. cbn zeta. simpl.
  assert (∀ d, neighborAt (map (map f) g) b d = f <$> neighborAt g b d) as Hd.
  { intros d. unfold neighborAt. cbn zeta. rewrite length_map, lookup_map.
    destruct (_ || _); [done|].
    destruct (g !! Z.to_nat (b_row b + d.1)) as [arr|]; [|done]. simpl.
    unfold findCol. apply find_map_key. intros x.
    pose proof (Hf x) as [= _ Hc]. by rewrite Hc. }
  induction (deltas _) as [|d l IH]; [done|]. csimpl. rewrite Hd.
  destruct (neighborAt g b d) as [x|]; csimpl; [|done].
  by rewrite IH, Hf.
Qed.

Lemma filter_idem {A} (q : A → bool) (l : list A) :
  List.filter q (List.filter q l) = List.filter q l.
Proof.
  induction l as [|a l IH]; simpl; [done|].
  destruct (q a) eqn:Hq; simpl; [rewrite Hq|]; by rewrite IH.
Qed.

Lemma filter_all {A} (q : A → bool) (l : list A) :
  (∀ x, x ∈ l → q x = true) → List.filter q l = l.
Proof.
  induction l as [|a l IH]; intros H; simpl; [done|].
  rewrite (H a) by left. rewrite IH; [done|]. intros x Hx. apply H. by right.
Qed.

Lemma filter_none {A} (q : A → bool) (l : list A) :
  (∀ x, x ∈ l → q x = false) → List.filter q l = [].
Proof.
  induction l as [|a l IH]; intros H; simpl; [done|].
  rewrite (H a) by left. apply IH. intros x Hx. apply H. by right.
Qed.

Lemma length_concat_filter (q : Bubble → bool) (g : Grid) :
  (bubbleCount (map (List.filter q) g) ≤ bubbleCount g)%nat.
Proof.
  unfold bubbleCount. induction g as [|r g IH]; simpl; [done|].
  rewrite !length_app. pose proof (filter_length_le q r). lia.
Qed.

(** * The floating check of [src/game.js] *)

Section GameFloating.
Variable host : Host.

Lemma dropBubble_core s b :
  gameCore (Game.dropBubble host s b)
  = gameCore (Game.set_score (Game.score s + 20) s).
Proof.
  unfold Game.dropBubble.
  destruct (Game.mathRandom host s) as [u1 s1] eqn:H1.
  destruct (Game.mathRandom host s1) as [u2 s2] eqn:H2.
  destruct (Game.performanceNow host s2) as [t s3] eqn:H3.
  rewrite spawnParticles_core.
  assert (gameCore s3 = gameCore s) as Hc.
  { change s3 with (t, s3).2. rewrite <- H3, performanceNow_core.
    change s2 with (u2, s2).2. rewrite <- H2, mathRandom_core.
    change s1 with (u1, s1).2. rewrite <- H1. apply mathRandom_core. }
  unfold gameCore in *. simpl. injection Hc as -> -> -> -> -> -> -> -> -> -> -> ->.
  done.
Qed.

Lemma dropBubble_steady s b : steady s (Game.dropBubble host s b).
Proof.
  eapply steady_trans; [|apply gameCore_steady, dropBubble_core].
  destruct s; unfold steady; simpl. repeat split; lia.
Qed.

Lemma foldl_dropBubble l : ∀ s,
  Game.grid (foldl (Game.dropBubble host) s l) = Game.grid s ∧
  Game.score (foldl (Game.dropBubble host) s l)
  = Game.score s + 20 * Z.of_nat (length l).
Proof.
  induction l as [|b l IH]; intros s; cbn [foldl length]; [split; [done|lia]|].
  destruct (IH (Game.dropBubble host s b)) as [Hg Hs]. rewrite Hg, Hs.
  rewrite (gameCore_grid _ _ (dropBubble_core s b)).
  rewrite (gameCore_score _ _ (dropBubble_core s b)).
  split; [by destruct s|]. destruct s; simpl. lia.
Qed.

Lemma Game_sweep_fold K l : ∀ kept s,
  foldl (λ '(kept, s) b,
           if Game.floats K b then (kept, Game.dropBubble host s b)
           else (b :: kept, s))
        (kept, s) l
  = (rev (List.filter (λ b, negb (Game.floats K b)) l) ++ kept,
     foldl (Game.dropBubble host) s (List.filter (Game.floats K) l)).
Proof.
  induction l as [|a l IH]; intros kept s; [done|]. cbn [foldl List.filter].
  destruct (Game.floats K a); cbn [negb]; rewrite IH; [done|].
  cbn [rev foldl]. by rewrite <- app_assoc.
Qed.

Lemma Game_sweepRow_eq K rowArr s :
  Game.sweepRow host K rowArr s
  = (List.filter (λ b, negb (Game.floats K b)) rowArr,
     foldl (Game.dropBubble host) s (List.filter (Game.floats K) (rev rowArr))).
Proof.
  unfold Game.sweepRow. rewrite Game_sweep_fold.
  by rewrite app_nil_r, filter_rev, rev_involutive.
Qed.

Lemma Game_rows_fold K g : ∀ rows s,
  foldl (λ '(rows, s) rowArr,
           let '(kept, s) := Game.sweepRow host K rowArr s in
           (rows ++ [kept], s))
        (rows, s) g
  = (rows ++ map (List.filter (λ b, negb (Game.floats K b))) g,
     foldl (λ s rowArr,
              foldl (Game.dropBubble host) s
                (List.filter (Game.floats K) (rev rowArr))) s g).
Proof.
  induction g as [|r g IH]; intros rows s; cbn [foldl map].
  - by rewrite app_nil_r.
  - rewrite Game_sweepRow_eq. cbn iota beta. rewrite IH.
    by rewrite <- app_assoc.
Qed.

(** The floating check as a whole: every row loses its floating
    bubbles; each of them is dropped, for 20 points. *)
Lemma Game_floatingCheck_eq s :
  let K := connectedSet (Game.grid s) in
  Game.floatingCheck host s
  = Game.updateHighScore
      (Game.set_grid
         (map (List.filter (λ b, negb (Game.floats K b))) (Game.grid s))
         (foldl (λ s rowArr,
                   foldl (Game.dropBubble host) s
                     (List.filter (Game.floats K) (rev rowArr)))
            s (Game.grid s))).
Proof. cbn zeta. unfold Game.floatingCheck. by rewrite Game_rows_fold. Qed.

Lemma Game_drops_fold K g : ∀ s,
  let s' := foldl (λ s rowArr,
                     foldl (Game.dropBubble host) s
                       (List.filter (Game.floats K) (rev rowArr))) s g in
  Game.grid s' = Game.grid s ∧
  Game.score s'
  = Game.score s + 20 * Z.of_nat (length (List.filter (Game.floats K) (concat g))).
Proof.
  cbn zeta. induction g as [|r g IH]; intros s; cbn [foldl concat].
  - split; [done|simpl; lia].
  - destruct (IH (foldl (Game.dropBubble host) s
                    (List.filter (Game.floats K) (rev r)))) as [Hg Hs].
    destruct (foldl_dropBubble (List.filter (Game.floats K) (rev r)) s)
      as [Hg' Hs'].
    rewrite Hg, Hs, Hg', Hs'. split; [done|].
    rewrite List.filter_app, length_app, List.filter_rev, length_rev. lia.
Qed.

Lemma Game_floatingCheck_grid s :
  Game.grid (Game.floatingCheck host s)
  = map (List.filter (λ b, negb (Game.floats (connectedSet (Game.grid s)) b)))
      (Game.grid s).
Proof. by rewrite Game_floatingCheck_eq, updateHighScore_grid. Qed.

Lemma Game_floatingCheck_score s :
  Game.score (Game.floatingCheck host s)
  = Game.score s
    + 20 * Z.of_nat
             (length (List.filter (Game.floats (connectedSet (Game.grid s)))
                        (concat (Game.grid s)))).
Proof.
  rewrite Game_floatingCheck_eq, updateHighScore_score.
  destruct (Game_drops_fold (connectedSet (Game.grid s)) (Game.grid s) s)
    as [_ Hs]. by rewrite <- Hs.
Qed.

Lemma floats_connected (K : gset Key) b : key b ∈ K → Game.floats K b = false.
Proof. intros H. unfold Game.floats. by rewrite bool_decide_eq_true_2. Qed.

(** The floating check removes no bubble whose key is in [connected],
    so a second traversal finds the same set. *)
Lemma Game_connectedSet_swept (g : Grid) :
  connectedSet
    (map (List.filter (λ b, negb (Game.floats (connectedSet g) b))) g)
  = connectedSet g.
Proof.
  destruct (connectedSet_spec g) as (H0 & Hcl & _).
  apply connectedSet_stable.
  - rewrite lookup_map. destruct (g !! 0%nat) as [r|]; [|done]. simpl in *.
    rewrite filter_all; [done|]. intros x Hx.
    by rewrite floats_connected by by apply H0.
  - intros b Hb. rewrite neighbors_filterRows; [done|].
    intros y Hy. rewrite floats_connected; [done|]. by apply Hcl with b.
  - apply length_concat_filter.
Qed.

Lemma Game_drops_none K (g : Grid) : ∀ s,
  foldl (λ s rowArr,
           foldl (Game.dropBubble host) s
             (List.filter (Game.floats K) (rev rowArr)))
    s (map (List.filter (λ b, negb (Game.floats K b))) g)
  = s.
Proof.
  induction g as [|r g IH]; intros s; cbn [foldl map]; [done|].
  rewrite filter_none; [apply IH|].
  intros x Hx%list_elem_of_In%in_rev%filter_In. destruct Hx as [_ Hx].
  by apply negb_true_iff in Hx.
Qed.

Lemma Game_floatingCheck_idem s :
  Game.floatingCheck host (Game.floatingCheck host s)
  = Game.floatingCheck host s.
Proof.
  pose proof (Game_floatingCheck_grid s) as Hg1.
  remember (Game.floatingCheck host s) as s1 eqn:Hs1.
  rewrite (Game_floatingCheck_eq s1). cbn zeta.
  rewrite Hg1, Game_connectedSet_swept, Game_drops_none.
  rewrite map_map, (map_ext _ _ (filter_idem _)), <- Hg1, Game_set_grid_id.
  rewrite Hs1, Game_floatingCheck_eq. apply updateHighScore_idem.
Qed.

End GameFloating.

(** * The floating check of the earlier version *)

Lemma Early_set_score_twice a b s :
  Early.set_score a (Early.set_score b s) = Early.set_score a s.
Proof. done. Qed.

Lemma Early_set_score_id s : Early.set_score (Early.score s) s = s.
Proof. by destruct s. Qed.

Lemma Early_sweep_fold K l : ∀ seen s,
  foldl (λ '(seen, s) b,
           if Early.floats K b
           then (mark b :: seen, Early.set_score (Early.score s + 20) s)
           else (b :: seen, s))
        (seen, s) l
  = (rev (map (λ b, if Early.floats K b then mark b else b) l) ++ seen,
     Early.set_score
       (Early.score s + 20 * Z.of_nat (length (List.filter (Early.floats K) l)))
       s).
Proof.
  induction l as [|a l IH]; intros seen s; cbn [foldl map List.filter rev].
  - simpl. by rewrite Z.add_0_r, Early_set_score_id.
  - destruct (Early.floats K a); rewrite IH, <- app_assoc; cbn [app length].
    + rewrite Early_set_score_twice. f_equal. f_equal. destruct s; simpl. lia.
    + done.
Qed.

Lemma Early_sweepRow_eq K rowArr s :
  Early.sweepRow K rowArr s
  = (map (λ b, if Early.floats K b then mark b else b) rowArr,
     Early.set_score
       (Early.score s
        + 20 * Z.of_nat (length (List.filter (Early.floats K) rowArr))) s).
Proof.
  unfold Early.sweepRow. rewrite Early_sweep_fold.
  by rewrite app_nil_r, map_rev, rev_involutive, List.filter_rev, length_rev.
Qed.

Lemma Early_rows_fold K g : ∀ rows s,
  foldl (λ '(rows, s) rowArr,
           let '(seen, s) := Early.sweepRow K rowArr s in
           (rows ++ [seen], s))
        (rows, s) g
  = (rows ++ map (map (λ b, if Early.floats K b then mark b else b)) g,
     Early.set_score
       (Early.score s
        + 20 * Z.of_nat (length (List.filter (Early.floats K) (concat g)))) s).
Proof.
  induction g as [|r g IH]; intros rows s; cbn [foldl map concat].
  - simpl. by rewrite app_nil_r, Z.add_0_r, Early_set_score_id.
  - rewrite Early_sweepRow_eq. cbn iota beta. rewrite IH, <- app_assoc.
    rewrite Early_set_score_twice, List.filter_app, length_app.
    f_equal. f_equal. destruct s; simpl. lia.
Qed.

(** The floating check as a whole: every floating bubble is flagged
    where it sits, for 20 points. *)
Lemma Early_floatingCheck_eq s :
  let K := connectedSet (Early.grid s) in
  Early.floatingCheck s
  = Early.set_grid
      (map (map (λ b, if Early.floats K b then mark b else b)) (Early.grid s))
      (Early.set_score
         (Early.score s
          + 20 * Z.of_nat
                   (length (List.filter (Early.floats K)
                              (concat (Early.grid s))))) s).
Proof. cbn zeta. unfold Early.floatingCheck. by rewrite Early_rows_fold. Qed.

Lemma fmap_key_map (f : Bubble → Bubble) (r : list Bubble) :
  (∀ x, key (f x) = key x) → key <$> map f r = key <$> r.
Proof.
  intros Hf. induction r as [|a r IH]; [done|].
  cbn [map]. by rewrite !fmap_cons, IH, Hf.
Qed.

Lemma Early_connectedSet_flagged (g : Grid) (K : gset Key) :
  connectedSet (map (map (λ b, if Early.floats K b then mark b else b)) g)
  = connectedSet g.
Proof.
  assert (∀ x, key (if Early.floats K x then mark x else x) = key x) as Hkey.
  { intros x. by destruct (Early.floats K x). }
  apply connectedSet_stable.
  - rewrite lookup_map. destruct (g !! 0%nat) as [r|]; [|done]. simpl.
    by apply fmap_key_map.
  - intros b _. by apply neighbors_mapRows.
  - unfold bubbleCount. apply Nat.eq_le_incl. clear.
    induction g as [|r g IH]; simpl; [done|].
    by rewrite !length_app, length_map, IH.
Qed.

Lemma Early_flag_settled (K : gset Key) (g : Grid) :
  let g' := map (map (λ b, if Early.floats K b then mark b else b)) g in
  map (map (λ b, if Early.floats K b then mark b else b)) g' = g' ∧
  List.filter (Early.floats K) (concat g') = [].
Proof.
  cbn zeta.
  assert (∀ x, Early.floats K (if Early.floats K x then mark x else x) = false)
    as Hf.
  { intros x. destruct (Early.floats K x) eqn:E; [|done].
    unfold Early.floats. simpl. apply andb_false_r. }
  split.
  - rewrite map_map. apply map_ext. intros r. rewrite map_map.
    apply map_ext. intros x. by rewrite Hf.
  - apply filter_none. intros x (r' & Hr' & Hx)%list_elem_of_In%in_concat.
    apply in_map_iff in Hr' as (r & <- & _).
    apply in_map_iff in Hx as (y & <- & _). apply Hf.
Qed.

Lemma Early_floatingCheck_idem s :
  Early.floatingCheck (Early.floatingCheck s) = Early.floatingCheck s.
Proof.
  rewrite (Early_floatingCheck_eq (Early.floatingCheck s)). cbn zeta.
  rewrite Early_floatingCheck_eq. cbn zeta.
  set (K := connectedSet (Early.grid s)).
  change (Early.grid (Early.set_grid ?g _)) with g.
  rewrite Early_connectedSet_flagged. fold K.
  destruct (Early_flag_settled K (Early.grid s)) as [Hmap Hnone].
  rewrite Hmap, Hnone. simpl. rewrite Z.add_0_r. by destruct s.
Qed.

(** * The frame update of [src/game.js], step by step *)

Section GameSteady.
Variable host : Host.

Lemma clusterCheck_steady origin s : steady s (Game.clusterCheck host origin s).
Proof.
  unfold Game.clusterCheck. destruct (_ <=? _)%nat; [|apply steady_refl].
  eapply steady_trans; [|apply updateHighScore_steady].
  eapply steady_trans;
    [apply (foldl_steady (Game.popBubble host) (clusterOf (Game.grid s) origin)
              (popBubble_steady host) s)|].
  generalize (foldl (Game.popBubble host) s (clusterOf (Game.grid s) origin)).
  intros s1. destruct s1; unfold steady; simpl. repeat split; lia.
Qed.

Lemma floats_flagged K b : b_removing b = true → negb (Game.floats K b) = true.
Proof. intros H. unfold Game.floats. rewrite H. simpl. by rewrite andb_false_r. Qed.

Lemma floatingCheck_steady s : steady s (Game.floatingCheck host s).
Proof.
  rewrite Game_floatingCheck_eq. cbn zeta.
  set (K := connectedSet (Game.grid s)).
  set (S1 := foldl _ s (Game.grid s)).
  assert (steady s S1) as H1.
  { apply foldl_steady. intros s' r. apply foldl_steady, dropBubble_steady. }
  destruct (Game_drops_fold host K (Game.grid s) s) as [Hg _]. fold S1 in Hg.
  eapply steady_trans; [|apply updateHighScore_steady].
  eapply steady_trans; [exact H1|].
  unfold steady. destruct S1; simpl in *. repeat split; [lia|].
  rewrite Hg, flaggedCount_filterRows; [lia|]. apply floats_flagged.
Qed.

Lemma set_grid_steady g s :
  (flaggedCount (Game.grid s) ≤ flaggedCount g)%nat →
  steady s (Game.set_grid g s).
Proof. intros H. destruct s; unfold steady; simpl in *. repeat split; lia. Qed.

Lemma addBubbleAt_steady p tx ty s : steady s (Game.addBubbleAt host p tx ty s).
Proof.
  unfold Game.addBubbleAt. destruct (Game.cellOf host tx ty) as [row col].
  assert (flaggedCount (Game.grid s)
          ≤ flaggedCount (Game.padRows (Game.grid s) row))%nat as Hpad.
  { unfold Game.padRows. rewrite flaggedCount_app, flaggedCount_replicate. lia. }
  destruct (findCol _ _); [by apply set_grid_steady|].
  eapply steady_trans; [|apply floatingCheck_steady].
  eapply steady_trans; [|apply clusterCheck_steady].
  apply set_grid_steady. etrans; [exact Hpad|].
  destruct (Game.padRows (Game.grid s) row !! Z.to_nat row) as [r|] eqn:Hr.
  - simpl. by apply flaggedCount_insert.
  - rewrite list_insert_ge; [done|]. by apply lookup_ge_None.
Qed.

Lemma pushRow_steady s : steady s (Game.pushRow host s).
Proof.
  unfold Game.pushRow, Game.newTopRow. rewrite Game_newTopRow_fold.
  rewrite app_nil_l. set (newRow := imap _ _).
  eapply steady_trans; [|apply set_grid_steady].
  - apply gameCore_steady. by destruct s.
  - change (Game.grid (Game.set_randomCalls _ s)) with (Game.grid s).
    unfold Game.renumber. rewrite flaggedCount_imap by done.
    rewrite flaggedCount_cons.
    pose proof (flaggedCount_mapRows Game.lower (Game.grid s) ltac:(done)). lia.
Qed.

Lemma pushTrail_core p s : gameCore (Game.pushTrail host p s) = gameCore s.
Proof.
  unfold Game.pushTrail. simpl.
  destruct (_ <? _)%nat; by destruct s.
Qed.

Lemma collide_steady p b s : steady s (Game.collide host p b s).2.
Proof. apply addBubbleAt_steady. Qed.

Lemma stepProjectile_steady dt ds s p :
  steady s (Game.stepProjectile host dt (ds, s) p).2.
Proof.
  unfold Game.stepProjectile. destruct (negb (p_active p)); [apply steady_refl|].
  cbn zeta. set (p1 := Game.bounceLimit (Game.bounce host (Game.move dt p))).
  set (s1 := Game.pushTrail host (Game.move dt p) s).
  assert (steady s s1) as H1 by apply gameCore_steady, pushTrail_core.
  destruct (Qltb (p_y p1) Game.bubbleRadius).
  - simpl. eapply steady_trans; [exact H1|apply addBubbleAt_steady].
  - destruct (Game.firstHit host (Game.grid s1) p1) as [b|].
    + pose proof (collide_steady p1 b s1) as H2.
      destruct (Game.collide host p1 b s1) as [p2 s2]. simpl in *.
      by eapply steady_trans.
    + done.
Qed.

Lemma foldl_stepProjectile_steady dt ps : ∀ ds s,
  steady s (foldl (Game.stepProjectile host dt) (ds, s) ps).2.
Proof.
  induction ps as [|p ps IH]; intros ds s; cbn [foldl]; [apply steady_refl|].
  pose proof (stepProjectile_steady dt ds s p) as H1.
  destruct (Game.stepProjectile host dt (ds, s) p) as [ds1 s1].
  eapply steady_trans; [exact H1|apply IH].
Qed.

(** Everything [update] does before the terminal conditions leaves
    [state.gameOver] and the overlay alone, takes nothing off the
    score and removes no flagged bubble from the grid. *)
Lemma advance_steady dt s : steady s (Game.advance host dt s).
Proof.
  unfold Game.advance.
  assert (steady s (Game.easeAim s)) as H0
    by (destruct s; unfold steady; simpl; repeat split; lia).
  pose proof (foldl_stepProjectile_steady dt
                (Game.projectiles (Game.easeAim s)) [] (Game.easeAim s)) as H1.
  destruct (foldl _ _ _) as [ps s1]. simpl in H1.
  destruct (Game.performanceNow host _) as [t s2] eqn:Hnow.
  assert (steady s1 s2) as H2.
  { change s2 with (t, s2).2. rewrite <- Hnow.
    eapply steady_trans; [|apply gameCore_steady, performanceNow_core].
    destruct s1; unfold steady; simpl; repeat split; lia. }
  match goal with
  | |- steady s (if _ then Game.set_spawnTimer 0 (Game.pushRow host ?X) else ?X) =>
      assert (steady s2 X) as H3
        by (destruct s2; unfold steady; simpl; repeat split; lia);
      generalize dependent X
  end.
  intros X H3. assert (steady s X) as H4.
  { eapply steady_trans; [exact H0|]. eapply steady_trans; [exact H1|].
    by eapply steady_trans. }
  destruct (Qle_bool _ _); [|done].
  eapply steady_trans; [exact H4|].
  eapply steady_trans; [apply pushRow_steady|].
  destruct (Game.pushRow host X); unfold steady; simpl; repeat split; lia.
Qed.

End GameSteady.

(** * Terminal conditions, events and sessions of [src/game.js] *)

Section GameSession.
Variable host : Host.

Lemma endGame_fields win s :
  Game.gameOver (Game.endGame win s) = Game.gameOver s ∧
  Game.overlayShown (Game.endGame win s) = true ∧
  Game.endGameCalls (Game.endGame win s) = Game.endGameCalls s ++ [win] ∧
  Game.score (Game.endGame win s) = Game.score s ∧
  Game.grid (Game.endGame win s) = Game.grid s.
Proof.
  unfold Game.endGame, Game.updateHighScore.
  destruct (Game.highScore s <? Game.score s); by destruct s.
Qed.

Lemma winLose_score s : Game.score (Game.winLose host s) = Game.score s.
Proof.
  unfold Game.winLose.
  assert (∀ (c win : bool) (x : Game.State),
            Game.score (if c then Game.endGame win (Game.set_gameOver true x)
                        else x) = Game.score x) as H.
  { intros [] win x; [|done].
    destruct (endGame_fields win (Game.set_gameOver true x)) as (_&_&_&->&_).
    by destruct x. }
  cbn zeta. destruct (negb (Game.gameOver _)); by rewrite ?H.
Qed.

Lemma winLose_grid s : Game.grid (Game.winLose host s) = Game.grid s.
Proof.
  unfold Game.winLose.
  assert (∀ (c win : bool) (x : Game.State),
            Game.grid (if c then Game.endGame win (Game.set_gameOver true x)
                       else x) = Game.grid x) as H.
  { intros [] win x; [|done].
    destruct (endGame_fields win (Game.set_gameOver true x)) as (_&_&_&_&->).
    by destruct x. }
  cbn zeta. destruct (negb (Game.gameOver _)); by rewrite ?H.
Qed.

(** The win check fires on an empty grid and keeps the lose check
    from running. *)
Lemma winLose_win s :
  Game.gameOver s = false → Game.gridEmpty (Game.grid s) = true →
  Game.winLose host s = Game.endGame true (Game.set_gameOver true s).
Proof.
  intros Hover Hempty. unfold Game.winLose. rewrite Hover, Hempty.
  cbn [negb andb]. cbn zeta.
  destruct (endGame_fields true (Game.set_gameOver true s)) as (Hg&_).
  by rewrite Hg.
Qed.

Lemma draw_eq s :
  Game.draw host s = Game.set_nowCalls (S (Game.nowCalls s)) s.
Proof. done. Qed.

Lemma gameLoop_over ts s :
  Game.gameOver s = true →
  Game.gameLoop host ts s = Game.draw host (Game.set_lastTime ts s).
Proof.
  intros Hover. unfold Game.gameLoop.
  destruct (Qeq_bool _ _); destruct s; simpl in *; by rewrite Hover.
Qed.

Lemma gameLoop_frames_over frames : ∀ s,
  Game.gameOver s = true →
  let s' := foldl (λ s ts, Game.gameLoop host ts s) s frames in
  Game.set_nowCalls 0 (Game.set_lastTime 0 s')
  = Game.set_nowCalls 0 (Game.set_lastTime 0 s) ∧
  Game.nowCalls s' = (Game.nowCalls s + length frames)%nat.
Proof.
  cbn zeta.
  induction frames as [|ts frames IH]; intros s Hover; cbn [foldl length].
  { split; [done|lia]. }
  rewrite gameLoop_over by done.
  destruct (IH (Game.draw host (Game.set_lastTime ts s))) as [H1 H2];
    [by destruct s|].
  rewrite H1, H2. split; [by destruct s|]. destruct s; simpl. lia.
Qed.

Lemma initRow_state (l : list Z) row : ∀ arr s,
  ∃ n, (foldl (λ '(arr, s) c,
           let '(col, s) := Game.pickColor host s in
           (arr ++ [mkBubble row c
                      (Game.bubbleRadius + ZtoQ c * Game.bubbleRadius * 2
                       + ZtoQ (Z.rem row 2) * Game.bubbleRadius)%Q
                      (Game.bubbleRadius + ZtoQ row * Game.rowHeight)%Q
                      col false], s))
        (arr, s) l).2 = Game.set_randomCalls n s.
Proof.
  induction l as [|c l IH]; intros arr s; cbn [foldl].
  - exists (Game.randomCalls s). by destruct s.
  - rewrite Game_pickColor_eq. cbn iota beta.
    destruct (IH (arr ++ [mkBubble row c
                      (Game.bubbleRadius + ZtoQ c * Game.bubbleRadius * 2
                       + ZtoQ (Z.rem row 2) * Game.bubbleRadius)%Q
                      (Game.bubbleRadius + ZtoQ row * Game.rowHeight)%Q
                      (Game.pickColor host s).1 false])
                (Game.set_randomCalls (S (Game.randomCalls s)) s)) as [n Hn].
    exists n. by rewrite Hn.
Qed.

Lemma initGrid_fold (l : list Z) : ∀ s,
  ∃ g n,
    foldl (λ s row,
             let count := Game.perRow host - (if Z.rem row 2 =? 0 then 0 else 1) in
             let '(arr, s) := Game.initRow host row count s in
             Game.set_grid (Game.grid s ++ [arr]) s) s l
    = Game.set_randomCalls n (Game.set_grid g s).
Proof.
  induction l as [|row l IH]; intros s; cbn [foldl].
  - exists (Game.grid s), (Game.randomCalls s). by destruct s.
  - cbn zeta. unfold Game.initRow.
    destruct (initRow_state
                (seqZ 0 (Game.perRow host - (if Z.rem row 2 =? 0 then 0 else 1)))
                row [] s) as [n Hn].
    destruct (foldl _ ([], s) _) as [arr s1]. simpl in Hn. subst s1.
    destruct (IH (Game.set_grid
                    (Game.grid (Game.set_randomCalls n s) ++ [arr])
                    (Game.set_randomCalls n s))) as (g & m & Hg).
    exists g, m. etrans; [exact Hg|]. by destruct s.
Qed.

Lemma initGrid_eq s :
  ∃ g n, Game.initGrid host s = Game.set_randomCalls n (Game.set_grid g s).
Proof.
  unfold Game.initGrid.
  destruct (initGrid_fold (seqZ 0 Game.rowCount) (Game.set_grid [] s))
    as (g & n & Hg).
  exists g, n. etrans; [exact Hg|]. by destruct s.
Qed.

Lemma startGame_fields s :
  Game.score (Game.startGame host s) = 0 ∧
  Game.gameOver (Game.startGame host s) = false ∧
  Game.overlayShown (Game.startGame host s) = false.
Proof.
  unfold Game.startGame. cbn zeta.
  match goal with
  | |- context [Game.initGrid host ?s0] =>
      destruct (initGrid_eq s0) as (g & n & ->)
  end.
  by destruct s.
Qed.

Lemma newProjectile_score s :
  Game.score (Game.newProjectile host s) = Game.score s.
Proof. unfold Game.newProjectile. destruct s as [? ? ? []]; done. Qed.

Lemma update_score dt s : Game.score s <= Game.score (Game.update host dt s).
Proof.
  unfold Game.update. rewrite winLose_score.
  by destruct (advance_steady host dt s) as (_ & _ & _ & H & _).
Qed.

Lemma aimAt_score mx my s :
  Game.score (Game.aimAt host mx my s) = Game.score s.
Proof. by destruct s. Qed.

Lemma handle_score s e :
  Game.inSession e = true → Game.score s <= Game.score (Game.handle host s e).
Proof.
  destruct e as [ts|mx my| |mx my|]; intros He; [| | | |done];
    cbn [Game.handle].
  - unfold Game.gameLoop. cbn zeta. rewrite draw_eq.
    change (Game.score (Game.set_nowCalls ?n ?x)) with (Game.score x).
    match goal with
    | |- _ <= Game.score (if _ then Game.update host ?dt ?x else _) =>
        assert (Game.score x = Game.score s) as Hx
          by (destruct (Qeq_bool _ _); by destruct s);
        pose proof (update_score dt x)
    end.
    destruct (negb _); lia.
  - rewrite aimAt_score. lia.
  - unfold Game.click. destruct (_ || _); [lia|]. rewrite newProjectile_score. lia.
  - unfold Game.touchstart. cbn zeta.
    destruct (_ && _); [rewrite newProjectile_score|]; rewrite aimAt_score; lia.
Qed.

Lemma session_score es : ∀ s,
  forallb Game.inSession es = true →
  Game.score s <= Game.score (foldl (Game.handle host) s es).
Proof.
  induction es as [|e es IH]; intros s Hes; cbn [foldl]; [lia|].
  simpl in Hes. apply andb_prop in Hes as [He Hes].
  pose proof (handle_score s e He).
  pose proof (IH (Game.handle host s e) Hes). lia.
Qed.

End GameSession.

(** * The claims about the frame loop and the two checks *)

(** C7. While the game runs, a frame update that finds every row of
    the grid empty at its win check sets [state.gameOver], shows the
    overlay and calls [endGame(true)] once, and nothing else calls
    [endGame] in that frame.  Once [state.gameOver] is set, [gameLoop]
    does not call [update]: a frame records its timestamp in
    [state.lastTime] and draws, and [draw()] changes nothing of the
    session; it reads the clock once.  So after any number of frames
    the session is what it was, the record of [endGame] calls
    included, but for [state.lastTime] and the clock, which has been
    read once per frame.  [startGame] clears [state.gameOver]. *)
Theorem win_transition_once (host : Host) :
  (∀ dt s,
     Game.gameOver s = false →
     Game.gridEmpty (Game.grid (Game.advance host dt s)) = true →
     Game.gameOver (Game.update host dt s) = true ∧
     Game.overlayShown (Game.update host dt s) = true ∧
     Game.endGameCalls (Game.update host dt s) = Game.endGameCalls s ++ [true]) ∧
  (∀ ts s,
     Game.gameOver s = true →
     Game.gameLoop host ts s
     = Game.set_nowCalls (S (Game.nowCalls s)) (Game.set_lastTime ts s)) ∧
  (∀ frames s,
     Game.gameOver s = true →
     let s' := foldl (λ s ts, Game.gameLoop host ts s) s frames in
     Game.set_nowCalls 0 (Game.set_lastTime 0 s')
     = Game.set_nowCalls 0 (Game.set_lastTime 0 s) ∧
     Game.nowCalls s' = (Game.nowCalls s + length frames)%nat ∧
     Game.gameOver s' = true ∧
     Game.endGameCalls s' = Game.endGameCalls s) ∧
  (∀ s, Game.gameOver (Game.startGame host s) = false).
Proof.
  split; [|split; [|split]].
  - intros dt s Hover Hempty.
    destruct (advance_steady host dt s) as (Hg & He & _).
    unfold Game.update. rewrite winLose_win by congruence.
    destruct (endGame_fields true (Game.set_gameOver true (Game.advance host dt s)))
      as (H1 & H2 & H3 & _).
    rewrite H1, H2, H3. split; [by destruct (Game.advance host dt s)|].
    split; [done|]. rewrite <- He. by destruct (Game.advance host dt s).
  - intros ts s Hover. rewrite gameLoop_over by done. by destruct s.
  - intros frames s Hover. cbn zeta.
    destruct (gameLoop_frames_over host frames s Hover) as [H Hn].
    cbn zeta in H, Hn. split; [exact H|]. split; [exact Hn|].
    split.
    + change (Game.gameOver (Game.set_nowCalls 0 (Game.set_lastTime 0
                (foldl (λ s ts, Game.gameLoop host ts s) s frames))) = true).
      rewrite H. by destruct s.
    + change (Game.endGameCalls (Game.set_nowCalls 0 (Game.set_lastTime 0
                (foldl (λ s ts, Game.gameLoop host ts s) s frames)))
              = Game.endGameCalls s).
      rewrite H. by destruct s.
  - intros s. by destruct (startGame_fields host s) as (_ & H & _).
Qed.

(** C8. In both versions the floating check is idempotent: run a
    second time straight after the first, it leaves the whole session
    state, grid and score included, as the first run left it; it
    scores 20 points for each bubble whose key is not in [connected]
    and that carries no removal flag yet, and for no other, so that it
    scores no bubble twice.  The cluster check has no such guard.  In
    [src/game.js], where the popped bubbles stay in the grid, a third
    red bubble placed next to two pops the three for 30 points, and a
    fourth red bubble placed next to them makes a cluster of four, the
    three flagged bubbles among its members: the three are scored a
    second time, and the score is 70. *)
Theorem removal_scored_twice (host : Host) :
  (∀ (K : gset Key) b,
     Game.floats K (mark b) = false ∧ Early.floats K (mark b) = false) ∧
  (∀ s, Game.floatingCheck host (Game.floatingCheck host s)
        = Game.floatingCheck host s) ∧
  (∀ s, Game.score (Game.floatingCheck host s)
        = Game.score s
          + 20 * Z.of_nat
                   (length (List.filter
                              (Game.floats (connectedSet (Game.grid s)))
                              (concat (Game.grid s))))) ∧
  (∀ s, Early.floatingCheck (Early.floatingCheck s) = Early.floatingCheck s) ∧
  (∀ s, Early.score (Early.floatingCheck s)
        = Early.score s
          + 20 * Z.of_nat
                   (length (List.filter
                              (Early.floats (connectedSet (Early.grid s)))
                              (concat (Early.grid s))))) ∧
  (let s1 := Game.addBubbleAt demoHost redShot 80 16 (gameWith twoReds []) in
   let b := Game.bubbleAt 0 3 red in
   let s2 := Game.addBubbleAt demoHost redShot (b_x b) (b_y b) s1 in
   Game.score s1 = 30 ∧
   Game.grid s1
   = [[mark (Game.bubbleAt 0 0 red); mark (Game.bubbleAt 0 1 red);
       mark (Game.bubbleAt 0 2 red)]] ∧
   clusterOf (withBubble (Game.grid s1) b) b
   = [b; mark (Game.bubbleAt 0 2 red); mark (Game.bubbleAt 0 1 red);
      mark (Game.bubbleAt 0 0 red)] ∧
   Game.score s2 = 70 ∧
   Game.grid s2
   = [[mark (Game.bubbleAt 0 0 red); mark (Game.bubbleAt 0 1 red);
       mark (Game.bubbleAt 0 2 red); mark b]]).
Proof.
  split.
  { intros K b. unfold Game.floats, Early.floats. simpl.
    by rewrite andb_false_r. }
  split; [apply Game_floatingCheck_idem|].
  split; [apply Game_floatingCheck_score|].
  split; [apply Early_floatingCheck_idem|].
  split; [intros s; rewrite Early_floatingCheck_eq; by destruct s|].
  cbn zeta. repeat split; vm_compute; reflexivity.
Qed.

(** The cluster check only sets flags: the grid it leaves is the grid
    it found with the cells of some keys flagged. *)
Lemma clusterCheck_grid (host : Host) origin s :
  ∃ ks : list Key,
    Game.grid (Game.clusterCheck host origin s)
    = map (map (λ x, if bool_decide (key x ∈ ks) then mark x else x))
        (Game.grid s).
Proof.
  destruct (clusterCheck_effect host origin s) as [Hlt Hge].
  destruct (le_lt_dec 3 (length (clusterOf (Game.grid s) origin))) as [H|H].
  - exists (key <$> clusterOf (Game.grid s) origin).
    destruct (Hge H) as [-> _]. apply foldl_markKey.
  - exists (key <$> []). rewrite (Hlt H).
    exact (foldl_markKey [] (Game.grid s)).
Qed.


Lemma length_concat_mapRows (f : Bubble → Bubble) (g : Grid) :
  bubbleCount (map (map f) g) = bubbleCount g.
Proof.
  unfold bubbleCount. induction g as [|r g IH]; simpl; [done|].
  by rewrite !length_app, length_map, IH.
Qed.


(** C10. In [src/game.js] no event of a session lowers the score: a
    frame, a pointer move, a fire command leave it as it is or raise
    it, and so does any sequence of them.  A placement, a cluster
    check, a floating check and a row push do the same; the cluster
    check adds 10 points per bubble of a cluster of at least 3, the
    floating check 20 points per bubble it drops.  [startGame] sets the
    score to 0. *)
Theorem score_monotone (host : Host) :
  (∀ s e, Game.inSession e = true →
          Game.score s <= Game.score (Game.handle host s e)) ∧
  (∀ es s, forallb Game.inSession es = true →
           Game.score s <= Game.score (foldl (Game.handle host) s es)) ∧
  (∀ dt s, Game.score s <= Game.score (Game.update host dt s)) ∧
  (∀ s, Game.score (Game.newProjectile host s) = Game.score s) ∧
  (∀ p tx ty s, Game.score s <= Game.score (Game.addBubbleAt host p tx ty s)) ∧
  (∀ s, Game.score s <= Game.score (Game.pushRow host s)) ∧
  (∀ origin s,
     Game.score (Game.clusterCheck host origin s)
     = Game.score s
       + (if (3 <=? length (clusterOf (Game.grid s) origin))%nat
          then 10 * Z.of_nat (length (clusterOf (Game.grid s) origin))
          else 0)) ∧
  (∀ s,
     Game.score (Game.floatingCheck host s)
     = Game.score s
       + 20 * Z.of_nat
                (bubbleCount (Game.grid s)
                 - bubbleCount (Game.grid (Game.floatingCheck host s)))) ∧
  (∀ s, Game.score (Game.startGame host s) = 0).
Proof.
  split; [apply handle_score|]. split; [apply session_score|].
  split; [apply update_score|]. split; [apply newProjectile_score|].
  split; [|split; [|split; [|split]]].
  - intros p tx ty s.
    by destruct (addBubbleAt_steady host p tx ty s) as (_ & _ & _ & H & _).
  - intros s. by destruct (pushRow_steady host s) as (_ & _ & _ & H & _).
  - intros origin s. destruct (clusterCheck_effect host origin s) as [Hlt Hge].
    destruct (3 <=? _)%nat eqn:E.
    + apply Nat.leb_le in E. by destruct (Hge E) as [_ ->].
    + apply Nat.leb_gt in E. rewrite (Hlt E). lia.
  - intros s. rewrite Game_floatingCheck_score, Game_floatingCheck_grid.
    f_equal. f_equal. f_equal. unfold bubbleCount.
    generalize (Game.floats (connectedSet (Game.grid s))) as q. intros q.
    induction (Game.grid s) as [|r g IH]; [done|]. cbn [map concat].
    rewrite List.filter_app, !length_app, IH.
    assert (length (List.filter q r)
            = length r - length (List.filter (λ b, negb (q b)) r))%nat as ->.
    { clear. induction r as [|a r IH]; [done|]. simpl.
      pose proof (filter_length_le (λ b, negb (q b)) r).
      destruct (q a); simpl; lia. }
    pose proof (filter_length_le (λ b, negb (q b)) r).
    pose proof (length_concat_filter (λ b, negb (q b)) g) as Hle.
    unfold bubbleCount in Hle. lia.
  - intros s. by destruct (startGame_fields host s) as (H & _).
Qed.

(** * Where the code departs from the specification *)

Lemma row0_anchored (g : Grid) a : a ∈ default [] (g !! 0%nat) → anchored g a.
Proof. intros H. exists a. split; [done|constructor]. Qed.

(** C1. The closure property fails in both versions.  In
    [src/game.js], once a third red bubble is placed next to two red
    bubbles of row 0, the three popped bubbles are scored and flagged
    but stay in the grid, where each of them is reachable from row 0.
    In the earlier version, with a green bubble hanging from the first
    red one, the floating check walks through the flagged bubbles and
    spares the green one; when the frame update has spliced the
    flagged bubbles out, the green bubble is still an occupied cell,
    unflagged, and not reachable from row 0. *)
Theorem popped_bubbles_stay_anchored :
  (let s' := Game.addBubbleAt demoHost redShot 80 16 (gameWith twoReds []) in
   Game.score s' = 30 ∧
   length (concat (Game.grid s')) = 3%nat ∧
   Forall (λ b, anchored (Game.grid s') b ∧ b_removing b = true)
     (concat (Game.grid s'))) ∧
  (∃ s',
     Early.addBubbleAt demoHost earlyRedShot 80 16 (earlyWith twoRedsOneGreen [])
     = Some s' ∧
     Early.score s' = 30 ∧
     let g := Early.removeFlagged (Early.grid s') in
     let b := Early.bubbleAt 1 0 green in
     inGrid g b ∧ ¬ anchored g b ∧ b_removing b = false).
Proof.
  split.
  - cbn zeta. split; [by vm_compute|]. split; [by vm_compute|].
    remember (Game.grid (Game.addBubbleAt demoHost redShot 80 16
                           (gameWith twoReds []))) as g eqn:Hg.
    vm_compute in Hg. subst g.
    repeat constructor; apply row0_anchored; in_concrete_list.
  - eexists. split; [vm_compute; reflexivity|]. split; [by vm_compute|].
    cbn zeta. split; [|split; [|done]].
    + unfold inGrid. in_concrete_list.
    + intros (a & Ha & _). vm_compute in Ha. by apply not_elem_of_nil in Ha.
Qed.

Lemma pushRow_projectiles host s :
  Game.projectiles (Game.pushRow host s) = Game.projectiles s.
Proof.
  unfold Game.pushRow, Game.newTopRow. rewrite Game_newTopRow_fold.
  by destruct s.
Qed.

(** A frame leaves no switched-off projectile in [state.projectiles]. *)
Lemma update_projectiles_active host dt s :
  Forall (λ p, p_active p = true) (Game.projectiles (Game.update host dt s)).
Proof.
  assert (∀ x, Game.projectiles (Game.winLose host x) = Game.projectiles x)
    as Hwin.
  { intros x. unfold Game.winLose, Game.endGame, Game.updateHighScore.
    cbn zeta. repeat (match goal with |- context [if ?c then _ else _] =>
                        destruct c end); by destruct x. }
  unfold Game.update. rewrite Hwin. unfold Game.advance.
  destruct (foldl _ _ _) as [ps s1].
  destruct (Game.performanceNow host _) as [t s2] eqn:Hnow.
  assert (Game.projectiles s2 = List.filter p_active ps) as H2.
  { change s2 with (t, s2).2. rewrite <- Hnow. by destruct s1. }
  match goal with
  | |- Forall _ (Game.projectiles
                   (if _ then Game.set_spawnTimer 0 (Game.pushRow host ?X)
                    else ?X)) =>
      assert (Game.projectiles X = Game.projectiles s2) as H3
        by (by destruct s2);
      generalize dependent X
  end.
  intros X H3.
  assert (Forall (λ p, p_active p = true) (Game.projectiles X)) as H4.
  { rewrite H3, H2. apply Forall_forall.
    intros p Hp%list_elem_of_In%filter_In. tauto. }
  destruct (Qle_bool _ _); [|done].
  pose proof (pushRow_projectiles host X) as H5.
  destruct (Game.pushRow host X). simpl in *. by rewrite H5.
Qed.

(** C4. A projectile that exceeds the bounce limit is switched off,
    but the frame goes on to its collision test: in both versions a
    projectile with the maximum number of bounces behind it, which in
    one frame bounces off the left wall once more and touches the first
    bubble of row 0, is switched off and removed from the list of
    projectiles, and a bubble of its colour is placed in the grid, in
    row 1 below the bubble it touched.  What the claim says of later
    frames holds: a frame of [src/game.js] leaves no switched-off
    projectile in the list, and a later frame moves the listed
    projectiles only. *)
Theorem bounce_limit_still_places :
  (∀ host dt s,
     Forall (λ p, p_active p = true)
       (Game.projectiles (Game.update host dt s))) ∧
  (let p := Game.bounceLimit
              (Game.bounce demoHost (Game.move (1 # 60) (wornShot 8))) in
   let s' := Game.update demoHost (1 # 60) (gameWith [greenRow] [wornShot 8]) in
   p_bounces p = 9 ∧ Game.maxBounce = 8 ∧ p_active p = false ∧
   Game.projectiles s' = [] ∧
   Game.grid s' = [greenRow; [Game.bubbleAt 1 0 red]]) ∧
  (let p := Early.bounceLimit
              (Early.bounce demoHost (Early.move (1 # 60) (earlyWornShot 6))) in
   Early.p_bounces p = 7 ∧ Early.maxBounce = 6 ∧ Early.p_active p = false ∧
   ∃ s', Early.update demoHost (1 # 60) (earlyWith [earlyGreenRow] [earlyWornShot 6])
         = Some s' ∧
         Early.projectiles s' = [] ∧
         Early.grid s' = [earlyGreenRow; [Early.bubbleAt 1 0 red]]).
Proof.
  split; [apply update_projectiles_active|]. split.
  - cbn zeta. repeat split; by vm_compute.
  - cbn zeta. split; [by vm_compute|]. split; [done|]. split; [by vm_compute|].
    eexists. split; [vm_compute; reflexivity|]. split; by vm_compute.
Qed.

(** * The properties at concrete inputs *)

(** [neighbors_spec] on the red bubble under a full row of green ones:
    the green bubble above it, one row up in its own column, is
    returned. *)
Lemma neighbors_spec_witness :
  wellFormed [greenRow; [Game.bubbleAt 1 0 red]] = true ∧
  inGrid [greenRow; [Game.bubbleAt 1 0 red]] (Game.bubbleAt 1 0 red) ∧
  inGrid [greenRow; [Game.bubbleAt 1 0 red]] (Game.bubbleAt 0 0 green) ∧
  Game.bubbleAt 0 0 green
  ∈ neighbors [greenRow; [Game.bubbleAt 1 0 red]] (Game.bubbleAt 1 0 red).
Proof.
  assert (wellFormed [greenRow; [Game.bubbleAt 1 0 red]] = true) as H1
    by (vm_compute; reflexivity).
  assert (inGrid [greenRow; [Game.bubbleAt 1 0 red]] (Game.bubbleAt 1 0 red))
    as H2 by (unfold inGrid; in_concrete_list).
  assert (inGrid [greenRow; [Game.bubbleAt 1 0 red]] (Game.bubbleAt 0 0 green))
    as H3 by (unfold inGrid; in_concrete_list).
  split; [exact H1|]. split; [exact H2|]. split; [exact H3|].
  refine (proj2 (proj1 (proj2 (neighbors_spec _ _ H1 H2)) _) (conj H3 _)).
  in_concrete_list.
Defined.

(** [addBubbleAt_occupied_noop] on a shot snapped to the slot of the
    first of two red bubbles. *)
Lemma addBubbleAt_occupied_noop_witness :
  occupied (Game.grid (gameWith twoReds []))
    (Game.cellOf demoHost 16 16).1 (Game.cellOf demoHost 16 16).2 ∧
  Game.addBubbleAt demoHost redShot 16 16 (gameWith twoReds [])
  = gameWith twoReds [].
Proof.
  assert (occupied (Game.grid (gameWith twoReds []))
            (Game.cellOf demoHost 16 16).1 (Game.cellOf demoHost 16 16).2) as H
    by (vm_compute; eexists; reflexivity).
  split; [exact H|].
  exact (proj1 (proj1 (addBubbleAt_occupied_noop demoHost)
                  redShot 16%Q 16%Q (gameWith twoReds []) H)).
Defined.


(** [pushRow_two_rows] on a full green row over one red bubble. *)
Lemma pushRow_two_rows_witness :
  Game.grid (gameWith [greenRow; [Game.bubbleAt 1 0 red]] [])
  = [greenRow; [Game.bubbleAt 1 0 red]] ∧
  rowsIndexed [greenRow; [Game.bubbleAt 1 0 red]] = true ∧
  ∃ newRow,
    Game.grid (Game.pushRow demoHost
                 (gameWith [greenRow; [Game.bubbleAt 1 0 red]] []))
    = [newRow; map (pushedDown Game.rowHeight) greenRow;
       map (pushedDown Game.rowHeight) [Game.bubbleAt 1 0 red]] ∧
    length newRow = Z.to_nat (Game.perRow demoHost).
Proof.
  assert (rowsIndexed [greenRow; [Game.bubbleAt 1 0 red]] = true) as H2
    by (vm_compute; reflexivity).
  split; [reflexivity|]. split; [exact H2|].
  destruct (proj1 (pushRow_two_rows demoHost)
              (gameWith [greenRow; [Game.bubbleAt 1 0 red]] [])
              greenRow [Game.bubbleAt 1 0 red] eq_refl H2)
    as (newRow & Hg & Hlen & _).
  exists newRow. split; [exact Hg|exact Hlen].
Defined.

(** [win_transition_once] on the frame that finds the grid without a
    row, and on two frames of a game that is over. *)
Lemma win_transition_once_witness :
  Game.gameOver (gameWith [] []) = false ∧
  Game.gridEmpty (Game.grid (Game.advance demoHost (1 # 60) (gameWith [] [])))
  = true ∧
  Game.endGameCalls (Game.update demoHost (1 # 60) (gameWith [] []))
  = Game.endGameCalls (gameWith [] []) ++ [true] ∧
  Game.gameOver (Game.set_gameOver true (gameWith twoReds [])) = true ∧
  Game.nowCalls
    (foldl (λ s ts, Game.gameLoop demoHost ts s)
       (Game.set_gameOver true (gameWith twoReds [])) [16%Q; 32%Q])
  = 2%nat ∧
  Game.endGameCalls
    (foldl (λ s ts, Game.gameLoop demoHost ts s)
       (Game.set_gameOver true (gameWith twoReds [])) [16%Q; 32%Q])
  = [].
Proof.
  assert (Game.gridEmpty
            (Game.grid (Game.advance demoHost (1 # 60) (gameWith [] [])))
          = true) as H2 by (vm_compute; reflexivity).
  split; [reflexivity|]. split; [exact H2|].
  split.
  - exact (proj2 (proj2 (proj1 (win_transition_once demoHost)
                           (1 # 60) (gameWith [] []) eq_refl H2))).
  - split; [reflexivity|].
    destruct (proj1 (proj2 (proj2 (win_transition_once demoHost)))
                [16%Q; 32%Q] (Game.set_gameOver true (gameWith twoReds []))
                eq_refl) as (_ & Hn & _ & Hc).
    split; [exact Hn|exact Hc].
Defined.


(** [score_monotone] on a fire command. *)
Lemma score_monotone_witness :
  Game.inSession Game.Click = true ∧
  Game.score (gameWith twoReds [])
  <= Game.score (Game.handle demoHost (gameWith twoReds []) Game.Click).
Proof.
  split; [reflexivity|].
  exact (proj1 (score_monotone demoHost) (gameWith twoReds []) Game.Click
           eq_refl).
Defined.

(** * The grid invariant is kept by every operation

    The hypotheses of the properties above ask for a grid that
    satisfies the grid invariant.  [startGame] builds such a grid, and
    every operation of the session keeps the invariant. *)

Lemma rowsIndexedFrom_mapRows (f : Bubble → Bubble) (g : Grid) :
  (∀ x, b_row (f x) = b_row x) →
  ∀ i, rowsIndexedFrom i (map (map f) g) = rowsIndexedFrom i g.
Proof.
  intros Hf. induction g as [|r g IH]; intros i; [done|].
  cbn [map rowsIndexedFrom]. rewrite IH. f_equal.
  induction r as [|a r IHr]; [done|]. simpl. by rewrite Hf, IHr.
Qed.

Lemma fmap_c_map (f : Bubble → Bubble) (r : list Bubble) :
  (∀ x, b_c (f x) = b_c x) → b_c <$> map f r = b_c <$> r.
Proof.
  intros Hf. induction r as [|a r IH]; [done|].
  cbn [map]. by rewrite !fmap_cons, IH, Hf.
Qed.

Lemma colsUnique_mapRows (f : Bubble → Bubble) (g : Grid) :
  (∀ x, b_c (f x) = b_c x) → colsUnique (map (map f) g) = colsUnique g.
Proof.
  intros Hf. unfold colsUnique. induction g as [|r g IH]; [done|].
  cbn [map forallb]. by rewrite IH, fmap_c_map.
Qed.

Lemma wellFormed_mapRows (f : Bubble → Bubble) (g : Grid) :
  (∀ x, b_row (f x) = b_row x) → (∀ x, b_c (f x) = b_c x) →
  wellFormed (map (map f) g) = wellFormed g.
Proof.
  intros Hr Hc. unfold wellFormed, rowsIndexed.
  by rewrite rowsIndexedFrom_mapRows, colsUnique_mapRows.
Qed.

Lemma NoDup_fmap_filter {A B} (f : A → B) (q : A → bool) (l : list A) :
  NoDup (f <$> l) → NoDup (f <$> List.filter q l).
Proof.
  induction l as [|a l IH]; [done|]. rewrite fmap_cons, NoDup_cons.
  intros [Hn Hd]. simpl. destruct (q a); [|by apply IH].
  rewrite fmap_cons, NoDup_cons. split; [|by apply IH].
  intros (x & Hx & Hin)%list_elem_of_fmap. apply Hn.
  apply list_elem_of_fmap. exists x. split; [done|].
  apply list_elem_of_In. apply list_elem_of_In, filter_In in Hin. tauto.
Qed.

Lemma wellFormed_filterRows (q : Bubble → bool) (g : Grid) :
  wellFormed g = true → wellFormed (map (List.filter q) g) = true.
Proof.
  unfold wellFormed, rowsIndexed. intros [Hr Hc]%andb_prop.
  apply andb_true_intro. split.
  - clear Hc. revert Hr. generalize 0.
    induction g as [|r g IH]; intros i; [done|].
    cbn [map rowsIndexedFrom]. intros [H1 H2]%andb_prop.
    apply andb_true_intro. split; [|by apply IH].
    rewrite forallb_forall in *. intros x [Hx _]%filter_In. by apply H1.
  - unfold colsUnique in *. rewrite forallb_forall in *.
    intros r' (r & <- & Hr')%in_map_iff. apply bool_decide_eq_true.
    apply NoDup_fmap_filter. specialize (Hc r Hr').
    by apply bool_decide_eq_true in Hc.
Qed.

Lemma wellFormed_padded (g : Grid) n :
  wellFormed (g ++ replicate n []) = wellFormed g.
Proof.
  unfold wellFormed, rowsIndexed.
  rewrite rowsIndexedFrom_app, colsUnique_app.
  by rewrite rowsIndexedFrom_replicate, colsUnique_replicate, !andb_true_r.
Qed.

Lemma rowsIndexedFrom_renumbered (f : Z → Bubble → Bubble) (g : Grid) :
  (∀ i x, b_row (f i x) = i) →
  ∀ k, rowsIndexedFrom (Z.of_nat k)
         (imap (λ i rowArr, map (f (Z.of_nat (k + i))) rowArr) g) = true.
Proof.
  intros Hf. induction g as [|r g IH]; intros k; [done|].
  cbn [imap rowsIndexedFrom]. apply andb_true_intro. split.
  - rewrite forallb_forall. intros x (y & <- & _)%in_map_iff.
    rewrite Hf. apply Z.eqb_eq. lia.
  - replace (Z.of_nat k + 1) with (Z.of_nat (S k)) by lia.
    rewrite <- (IH (S k)). f_equal. apply imap_ext. intros i x _. simpl.
    do 2 f_equal. lia.
Qed.

Lemma colsUnique_imap (f : nat → Bubble → Bubble) (g : Grid) :
  (∀ i x, b_c (f i x) = b_c x) →
  colsUnique (imap (λ i rowArr, map (f i) rowArr) g) = colsUnique g.
Proof.
  revert f. unfold colsUnique.
  induction g as [|r g IH]; intros f Hf; [done|].
  cbn [imap forallb]. rewrite fmap_c_map by apply Hf. f_equal.
  apply (IH (λ i, f (S i))). intros i x. apply Hf.
Qed.

Lemma top_row_columns (r : Q) (f : nat → Color) (n : Z) :
  b_c <$> imap (λ k c, mkBubble 0 c (r + ZtoQ c * r * 2)%Q r (f k) false)
            (seqZ 0 n)
  = seqZ 0 n.
Proof.
  generalize (seqZ 0 n) as l. intros l. revert f.
  induction l as [|c l IH]; intros f; [done|].
  cbn [imap]. rewrite fmap_cons. f_equal. apply (IH (λ k, f (S k))).
Qed.

Section GameInvariant.
Variable host : Host.

Lemma clusterCheck_wellFormed origin s :
  wellFormed (Game.grid (Game.clusterCheck host origin s))
  = wellFormed (Game.grid s).
Proof.
  destruct (clusterCheck_grid host origin s) as [ks ->].
  apply wellFormed_mapRows; intros x; by case_bool_decide.
Qed.

Lemma floatingCheck_wellFormed s :
  wellFormed (Game.grid s) = true →
  wellFormed (Game.grid (Game.floatingCheck host s)) = true.
Proof. rewrite Game_floatingCheck_grid. apply wellFormed_filterRows. Qed.

Lemma addBubbleAt_wellFormed p tx ty s :
  wellFormed (Game.grid s) = true →
  wellFormed (Game.grid (Game.addBubbleAt host p tx ty s)) = true.
Proof.
  intros Hwf.
  destruct (cellAt (Game.grid s) (Game.cellOf host tx ty).1
              (Game.cellOf host tx ty).2) as [x|] eqn:Hcell.
  - by rewrite Game_addBubbleAt_occupied by by eexists.
  - rewrite Game_addBubbleAt_free by done.
    apply floatingCheck_wellFormed. rewrite clusterCheck_wellFormed.
    change (Game.grid (Game.set_grid ?g _)) with g.
    apply withBubble_wellFormed; [done| |done]. simpl. lia.
Qed.

Lemma pushRow_wellFormed s :
  wellFormed (Game.grid s) = true →
  wellFormed (Game.grid (Game.pushRow host s)) = true.
Proof.
  intros [_ Hc]%andb_prop.
  unfold Game.pushRow, Game.newTopRow. rewrite Game_newTopRow_fold.
  rewrite app_nil_l.
  change (Game.grid (Game.set_grid ?g _)) with g.
  unfold wellFormed. apply andb_true_intro. split.
  - apply (rowsIndexedFrom_renumbered Game.setRow _ ltac:(done) 0%nat).
  - unfold Game.renumber. rewrite colsUnique_imap by done.
    unfold colsUnique. cbn [forallb]. apply andb_true_intro. split.
    + apply bool_decide_eq_true.
      rewrite (top_row_columns Game.bubbleRadius
                 (λ k, (Game.pickColor host
                          (Game.set_randomCalls (Game.randomCalls s + k) s)).1)).
      apply NoDup_seqZ.
    + fold (colsUnique (map (map Game.lower) (Game.grid s))).
      by rewrite colsUnique_mapRows.
Qed.

Lemma stepProjectile_wellFormed dt ds s p :
  wellFormed (Game.grid s) = true →
  wellFormed (Game.grid (Game.stepProjectile host dt (ds, s) p).2) = true.
Proof.
  intros Hwf. unfold Game.stepProjectile.
  destruct (negb (p_active p)); [done|]. cbn zeta.
  set (p1 := Game.bounceLimit (Game.bounce host (Game.move dt p))).
  set (s1 := Game.pushTrail host (Game.move dt p) s).
  assert (wellFormed (Game.grid s1) = true) as H1.
  { unfold s1. by rewrite (gameCore_grid _ _ (pushTrail_core host _ s)). }
  destruct (Qltb (p_y p1) Game.bubbleRadius).
  - simpl. by apply addBubbleAt_wellFormed.
  - destruct (Game.firstHit host (Game.grid s1) p1) as [b|]; [|done].
    unfold Game.collide. simpl. by apply addBubbleAt_wellFormed.
Qed.

Lemma foldl_stepProjectile_wellFormed dt ps : ∀ ds s,
  wellFormed (Game.grid s) = true →
  wellFormed (Game.grid (foldl (Game.stepProjectile host dt) (ds, s) ps).2)
  = true.
Proof.
  induction ps as [|p ps IH]; intros ds s Hwf; cbn [foldl]; [done|].
  pose proof (stepProjectile_wellFormed dt ds s p Hwf) as H1.
  destruct (Game.stepProjectile host dt (ds, s) p) as [ds1 s1].
  by apply IH.
Qed.

Lemma advance_wellFormed dt s :
  wellFormed (Game.grid s) = true →
  wellFormed (Game.grid (Game.advance host dt s)) = true.
Proof.
  intros Hwf. unfold Game.advance.
  assert (wellFormed (Game.grid (Game.easeAim s)) = true) as H0
    by by destruct s.
  pose proof (foldl_stepProjectile_wellFormed dt
                (Game.projectiles (Game.easeAim s)) [] (Game.easeAim s) H0)
    as H1.
  destruct (foldl _ _ _) as [ps s1]. simpl in H1.
  destruct (Game.performanceNow host _) as [t s2] eqn:Hnow.
  assert (Game.grid s2 = Game.grid s1) as H2.
  { change s2 with (t, s2).2. rewrite <- Hnow.
    rewrite (gameCore_grid _ _ (performanceNow_core host _)). by destruct s1. }
  match goal with
  | |- wellFormed (Game.grid (if _ then Game.set_spawnTimer 0
                                         (Game.pushRow host ?X) else ?X)) = _ =>
      assert (Game.grid X = Game.grid s2) as H3 by (by destruct s2);
      generalize dependent X
  end.
  intros X H3. assert (wellFormed (Game.grid X) = true) as H4 by congruence.
  destruct (Qle_bool _ _); [|done].
  pose proof (pushRow_wellFormed X H4). by destruct (Game.pushRow host X).
Qed.

Lemma update_wellFormed dt s :
  wellFormed (Game.grid s) = true →
  wellFormed (Game.grid (Game.update host dt s)) = true.
Proof.
  intros Hwf. unfold Game.update. rewrite winLose_grid.
  by apply advance_wellFormed.
Qed.

(** The generic form of the two loops that build a row of fresh
    bubbles. *)
Lemma Game_buildRow_fold (mk : Z → Color → Bubble) (l : list Z) : ∀ arr s,
  foldl (λ '(arr, s) c,
           let '(col, s) := Game.pickColor host s in (arr ++ [mk c col], s))
        (arr, s) l
  = (arr ++ imap (λ k c,
                    mk c (Game.pickColor host
                            (Game.set_randomCalls (Game.randomCalls s + k) s)).1)
               l,
     Game.set_randomCalls (Game.randomCalls s + length l) s).
Proof.
  induction l as [|c l IH]; intros arr s.
  - simpl. rewrite app_nil_r, Nat.add_0_r. by destruct s.
  - cbn [foldl]. rewrite Game_pickColor_eq. cbn iota beta. rewrite IH.
    rewrite <- app_assoc. cbn [imap app length].
    rewrite Game_set_randomCalls_twice. f_equal.
    + f_equal. f_equal.
      * rewrite Nat.add_0_r. by destruct s.
      * apply imap_ext. intros k x _. simpl. by rewrite Nat.add_succ_r.
    + simpl. by rewrite Nat.add_succ_r.
Qed.

Lemma initRow_row row count s :
  Game.grid (Game.initRow host row count s).2 = Game.grid s ∧
  (∀ b, b ∈ (Game.initRow host row count s).1 → b_row b = row) ∧
  NoDup (b_c <$> (Game.initRow host row count s).1).
Proof.
  unfold Game.initRow. cbn zeta.
  rewrite (Game_buildRow_fold
             (λ c col, mkBubble row c
                (Game.bubbleRadius + ZtoQ c * Game.bubbleRadius * 2
                 + ZtoQ (Z.rem row 2) * Game.bubbleRadius)%Q
                (Game.bubbleRadius + ZtoQ row * Game.rowHeight)%Q col false)).
  rewrite app_nil_l. cbn [fst snd]. split; [by destruct s|]. split.
  - intros b (k & Hb)%list_elem_of_lookup. rewrite list_lookup_imap in Hb.
    destruct (seqZ 0 count !! k); [|done]. by injection Hb as <-.
  - match goal with
    | |- NoDup (b_c <$> imap ?f ?l) =>
        assert (b_c <$> imap f l = l) as ->; [|apply NoDup_seqZ]
    end.
    generalize (seqZ 0 count) as l. intros l.
    generalize (Game.randomCalls s) as n.
    induction l as [|c l IH]; intros n; [done|].
    cbn [imap]. rewrite fmap_cons. f_equal.
    rewrite <- (IH (S n)) at 2. f_equal. apply imap_ext. intros k x _. simpl.
    by rewrite Nat.add_succ_r.
Qed.

Lemma wellFormed_snoc (g : Grid) (arr : list Bubble) :
  wellFormed g = true →
  (∀ b, b ∈ arr → b_row b = Z.of_nat (length g)) → NoDup (b_c <$> arr) →
  wellFormed (g ++ [arr]) = true.
Proof.
  unfold wellFormed, rowsIndexed. intros [Hr Hc]%andb_prop Hrow Hnd.
  rewrite rowsIndexedFrom_app, colsUnique_app, Hr, Hc. simpl.
  rewrite !andb_true_r. apply andb_true_intro. split.
  - rewrite forallb_forall. intros x Hx%list_elem_of_In.
    apply Z.eqb_eq. by apply Hrow.
  - by apply bool_decide_eq_true.
Qed.

Lemma initGrid_rows (n : nat) : ∀ s,
  wellFormed (Game.grid s) = true →
  wellFormed
    (Game.grid
       (foldl (λ s row,
                 let count := Game.perRow host
                              - (if Z.rem row 2 =? 0 then 0 else 1) in
                 let '(arr, s) := Game.initRow host row count s in
                 Game.set_grid (Game.grid s ++ [arr]) s)
          s (seqZ (Z.of_nat (length (Game.grid s))) (Z.of_nat n))))
  = true.
Proof.
  induction n as [|n IH]; intros s Hwf; [done|].
  rewrite seqZ_cons by lia. cbn [foldl]. cbn zeta.
  set (row := Z.of_nat (length (Game.grid s))).
  set (count := Game.perRow host - _).
  destruct (initRow_row row count s) as (Hg & Hrow & Hnd).
  destruct (Game.initRow host row count s) as [arr s1]. simpl in *.
  set (s2 := Game.set_grid (Game.grid s1 ++ [arr]) s1).
  assert (Game.grid s2 = Game.grid s ++ [arr]) as Hg2
    by (unfold s2; rewrite <- Hg; by destruct s1).
  assert (wellFormed (Game.grid s2) = true) as Hwf2.
  { rewrite Hg2. by apply wellFormed_snoc. }
  specialize (IH s2 Hwf2). rewrite Hg2, length_app in IH. simpl in IH.
  replace (Z.succ row) with (Z.of_nat (length (Game.grid s) + 1)) by lia.
  replace (Z.pred (Z.of_nat (S n))) with (Z.of_nat n) by lia.
  exact IH.
Qed.

Lemma startGame_wellFormed s :
  wellFormed (Game.grid (Game.startGame host s)) = true.
Proof.
  unfold Game.startGame. cbn zeta.
  match goal with
  | |- context [Game.initGrid host ?s0] =>
      pose proof (initGrid_rows 8 (Game.set_grid [] s0) eq_refl) as H;
      change (wellFormed (Game.grid (Game.initGrid host s0)) = true) in H;
      generalize dependent (Game.initGrid host s0)
  end.
  intros s1 H. by destruct s1.
Qed.

(** Every event of the page, [startGame] included, leaves a grid that
    satisfies the grid invariant. *)
Lemma handle_wellFormed s e :
  wellFormed (Game.grid s) = true →
  wellFormed (Game.grid (Game.handle host s e)) = true.
Proof.
  intros Hwf. destruct e as [ts|mx my| |mx my|]; cbn [Game.handle].
  - unfold Game.gameLoop. cbn zeta. rewrite draw_eq.
    change (Game.grid (Game.set_nowCalls ?n ?x)) with (Game.grid x).
    match goal with
    | |- wellFormed (Game.grid (if _ then Game.update host ?dt ?x else _)) = _ =>
        assert (wellFormed (Game.grid x) = true) as Hx
          by (destruct (Qeq_bool _ _); by destruct s);
        pose proof (update_wellFormed dt x Hx)
    end.
    by destruct (negb _).
  - by destruct s.
  - unfold Game.click. destruct (_ || _); [done|].
    unfold Game.newProjectile. by destruct s as [? ? ? []].
  - unfold Game.touchstart. cbn zeta.
    assert (Game.grid (Game.aimAt host mx my s) = Game.grid s) as Ha
      by by destruct s.
    destruct (_ && _); [|by rewrite Ha].
    generalize dependent (Game.aimAt host mx my s). intros s1 Hs1.
    unfold Game.newProjectile. rewrite <- Hs1 in Hwf.
    by destruct s1 as [? ? ? []].
  - apply startGame_wellFormed.
Qed.

End GameInvariant.

(** A session that starts from a grid satisfying the invariant keeps
    it through every sequence of events. *)
Lemma session_wellFormed host s (es : list Game.Event) :
  wellFormed (Game.grid s) = true →
  wellFormed (Game.grid (foldl (Game.handle host) s es)) = true.
Proof.
  revert s. induction es as [|e es IH]; intros s Hwf; [done|].
  cbn [foldl]. by apply IH, handle_wellFormed.
Qed.

(** ** What the floating check does establish *)

Lemma anchored_inGrid g b : anchored g b → inGrid g b.
Proof.
  intros (a & Ha & Hrtc). apply row0_inGrid in Ha. unfold inGrid.
  induction Hrtc as [x|x y z Hxy _ IH]; [done|].
  apply IH. by eapply neighbors_inGrid.
Qed.

(** In a grid satisfying the invariant, the keys of [connected] are
    those of the bubbles reachable from row 0. *)
Lemma connectedSet_anchored g b :
  wellFormed g = true → inGrid g b →
  key b ∈ connectedSet g ↔ anchored g b.
Proof.
  intros Hwf Hb. split; [|apply anchored_connected].
  intros Hk. destruct (connectedSet_spec g) as (_ & _ & Hs).
  destruct (Hs _ Hk) as (x & Hx & Ha).
  by rewrite <- (wellFormed_key_inj g x b Hwf (anchored_inGrid g x Ha) Hb Hx).
Qed.

(** After the floating check of [src/game.js] every bubble of the grid
    is flagged or reachable from row 0 (in the grid the check leaves),
    and no bubble reachable from row 0 has been taken out.  The flagged
    bubbles are the ones that keep the closure property from holding. *)
Lemma Game_floatingCheck_closure host s :
  wellFormed (Game.grid s) = true →
  let g' := Game.grid (Game.floatingCheck host s) in
  (∀ b, inGrid g' b → b_removing b = true ∨ anchored g' b) ∧
  (∀ b, anchored (Game.grid s) b → inGrid g' b).
Proof.
  intros Hwf. cbn zeta.
  pose proof (floatingCheck_wellFormed host s Hwf) as Hwf'.
  rewrite Game_floatingCheck_grid in *.
  set (g := Game.grid s) in *. set (K := connectedSet g) in *.
  assert (∀ b, b ∈ concat (map (List.filter (λ b, negb (Game.floats K b))) g)
               ↔ b ∈ concat g ∧ Game.floats K b = false) as Hin.
  { intros b. rewrite !list_elem_of_In, !in_concat. split.
    - intros (r' & (r & <- & Hr)%in_map_iff & [Hb Hq]%filter_In).
      split; [by exists r|]. by apply negb_true_iff.
    - intros [(r & Hr & Hb) Hq]. exists (List.filter (λ b, negb (Game.floats K b)) r).
      split; [apply in_map_iff; by exists r|].
      apply filter_In. split; [done|]. by apply negb_true_iff. }
  split.
  - intros b Hb. pose proof Hb as [_ Hq]%Hin.
    destruct (b_removing b) eqn:Hrem; [by left|right].
    apply connectedSet_anchored; [done..|].
    unfold K. rewrite Game_connectedSet_swept. fold K.
    unfold Game.floats in Hq. rewrite Hrem in Hq. simpl in Hq.
    rewrite andb_true_r in Hq. apply negb_false_iff in Hq.
    by apply bool_decide_eq_true in Hq.
  - intros b Hb. apply Hin. split; [by apply anchored_inGrid|].
    by apply floats_connected, anchored_connected.
Qed.

(** * Further properties of the two scripts

    What follows covers the code that the properties above leave out:
    the frame rules of the session state, the aim, the flight of the
    projectiles, the end of a game, the geometry of the grid, the
    earlier version's removal loop and its exceptions, and the helpers
    of the rendering ([shade], [drawAimGuide], [worldToGrid]). *)

(** The offset table holds, with each offset from a row, the opposite
    offset from the row it leads to. *)
Lemma deltas_opposite (r : Z) (d : Z * Z) :
  0 <= r → 0 <= r + d.1 → d ∈ deltas (Z.rem r 2 =? 0) →
  (- d.1, - d.2) ∈ deltas (Z.rem (r + d.1) 2 =? 0).
Proof.
  intros Hr Hr' Hd.
  rewrite Z.rem_mod_nonneg in * by lia.
  destruct (r mod 2 =? 0) eqn:E.
  - apply Z.eqb_eq in E.
    unfold deltas in Hd. apply list_elem_of_In in Hd. simpl in Hd.
    destruct Hd as [<-|[<-|[<-|[<-|[<-|[<-|[]]]]]]]; simpl in *;
      match goal with
      | |- context [?a mod 2 =? 0] =>
          let H := fresh in
          destruct (a mod 2 =? 0) eqn:H;
            [apply Z.eqb_eq in H|apply Z.eqb_neq in H];
            try (exfalso; Z.div_mod_to_equations; lia)
      end; apply list_elem_of_In; simpl; tauto.
  - apply Z.eqb_neq in E.
    unfold deltas in Hd. apply list_elem_of_In in Hd. simpl in Hd.
    destruct Hd as [<-|[<-|[<-|[<-|[<-|[<-|[]]]]]]]; simpl in *;
      match goal with
      | |- context [?a mod 2 =? 0] =>
          let H := fresh in
          destruct (a mod 2 =? 0) eqn:H;
            [apply Z.eqb_eq in H|apply Z.eqb_neq in H];
            try (exfalso; Z.div_mod_to_equations; lia)
      end; apply list_elem_of_In; simpl; tauto.
Qed.

(** X1. In a grid that satisfies the grid invariant, [neighbors()] is
    symmetric: a bubble that [neighbors(x)] returns for a bubble [x]
    of the grid has [x] among its own neighbours. *)
Theorem neighbors_symmetric (g : Grid) (x y : Bubble) :
  wellFormed g = true → inGrid g x → y ∈ neighbors g x → x ∈ neighbors g y.
Proof.
  intros Hwf Hx Hy. pose proof Hwf as [Hr Hc]%andb_prop.
  pose proof (neighbors_inGrid g x y Hy) as Hyg.
  apply elem_of_neighbors in Hy as [_ (d & Hd & Hn)].
  rewrite neighborAt_cellAt in Hn.
  pose proof (cellAt_Some _ _ _ _ Hn) as (Hrow & Hcol & rowArr & Hrows & Hin).
  pose proof (rowsIndexed_spec g _ rowArr y Hr Hrows Hin) as Hyrow.
  rewrite Z2Nat.id in Hyrow by lia.
  destruct (inGrid_gridRow g x Hr Hx) as (rx & Hrx & _).
  assert (0 <= b_row x) as Hx0.
  { unfold gridRow in Hrx. destruct (b_row x <? 0) eqn:E; [done|].
    by apply Z.ltb_ge in E. }
  apply elem_of_neighbors. split.
  { destruct (inGrid_gridRow g y Hr Hyg) as (ry & Hry & _). by eexists. }
  exists (- d.1, - d.2). split.
  - rewrite Hyrow. by apply deltas_opposite; [|lia|].
  - rewrite neighborAt_cellAt. simpl. rewrite Hyrow, Hcol.
    replace (b_row x + d.1 + - d.1) with (b_row x) by lia.
    replace (b_c x + d.2 + - d.2) with (b_c x) by lia.
    by apply cellAt_inGrid.
Qed.

(** [neighbors_symmetric] on the two red bubbles of row 0. *)
Lemma neighbors_symmetric_witness :
  wellFormed twoReds = true ∧ inGrid twoReds (Game.bubbleAt 0 0 red) ∧
  Game.bubbleAt 0 1 red ∈ neighbors twoReds (Game.bubbleAt 0 0 red) ∧
  Game.bubbleAt 0 0 red ∈ neighbors twoReds (Game.bubbleAt 0 1 red).
Proof.
  assert (wellFormed twoReds = true) as H1 by (vm_compute; reflexivity).
  assert (inGrid twoReds (Game.bubbleAt 0 0 red)) as H2
    by (unfold inGrid; in_concrete_list).
  assert (Game.bubbleAt 0 1 red ∈ neighbors twoReds (Game.bubbleAt 0 0 red))
    as H3 by in_concrete_list.
  split; [exact H1|]. split; [exact H2|]. split; [exact H3|].
  exact (neighbors_symmetric twoReds _ _ H1 H2 H3).
Defined.

(** X6. In every state that a session reaches from [startGame], the
    floating check of [src/game.js] leaves a grid in which every
    bubble is flagged or reachable from row 0 by [neighbors()] links
    (in the grid it leaves), and it takes out no bubble that was
    reachable from row 0. *)
Theorem floating_closure (host : Host) (s0 : Game.State)
    (es : list Game.Event) :
  let s := foldl (Game.handle host) (Game.startGame host s0) es in
  let g' := Game.grid (Game.floatingCheck host s) in
  (∀ b, inGrid g' b → b_removing b = true ∨ anchored g' b) ∧
  (∀ b, anchored (Game.grid s) b → inGrid g' b).
Proof.
  cbn zeta. apply Game_floatingCheck_closure, session_wellFormed,
    startGame_wellFormed.
Qed.

(** [floating_closure] on the first bubble of the grid that
    [startGame] builds on the 480 wide canvas. *)
Lemma floating_closure_witness :
  anchored (Game.grid (Game.startGame demoHost (gameWith [] [])))
    (Game.bubbleAt 0 0 "#60a5fa") ∧
  inGrid
    (Game.grid
       (Game.floatingCheck demoHost
          (Game.startGame demoHost (gameWith [] []))))
    (Game.bubbleAt 0 0 "#60a5fa").
Proof.
  assert (anchored (Game.grid (Game.startGame demoHost (gameWith [] [])))
            (Game.bubbleAt 0 0 "#60a5fa")) as H
    by (apply row0_anchored; in_concrete_list).
  split; [exact H|].
  exact (proj2 (floating_closure demoHost (gameWith [] []) []) _ H).
Defined.

(** * Frame rules *)

Lemma foldl_keeps {A B} (proj : Game.State → B) (f : Game.State → A → Game.State)
    (l : list A) :
  (∀ s x, proj (f s x) = proj s) → ∀ s, proj (foldl f s l) = proj s.
Proof.
  intros Hf. induction l as [|x l IH]; intros s; simpl; [done|].
  by rewrite IH.
Qed.

Section Keeps.
Variable host : Host.
Context {B : Type} (proj : Game.State → B).
Hypothesis keep_grid : ∀ v s, proj (Game.set_grid v s) = proj s.
Hypothesis keep_score : ∀ v s, proj (Game.set_score v s) = proj s.
Hypothesis keep_highScore : ∀ v s, proj (Game.set_highScore v s) = proj s.
Hypothesis keep_popping : ∀ v s, proj (Game.set_popping v s) = proj s.
Hypothesis keep_particles : ∀ v s, proj (Game.set_particles v s) = proj s.
Hypothesis keep_falling : ∀ v s, proj (Game.set_falling v s) = proj s.
Hypothesis keep_randomCalls : ∀ v s, proj (Game.set_randomCalls v s) = proj s.
Hypothesis keep_nowCalls : ∀ v s, proj (Game.set_nowCalls v s) = proj s.

Lemma spawnParticles_keeps px py col drop s :
  proj (Game.spawnParticles host px py col drop s) = proj s.
Proof.
  unfold Game.spawnParticles, Game.performanceNow. cbn zeta.
  rewrite foldl_keeps; [apply keep_nowCalls|].
  intros s' _. unfold Game.spawnParticle, Game.mathRandom. cbn zeta.
  by rewrite keep_particles, !keep_randomCalls.
Qed.

Lemma popBubble_keeps s b : proj (Game.popBubble host s b) = proj s.
Proof.
  unfold Game.popBubble, Game.performanceNow. cbn zeta.
  by rewrite spawnParticles_keeps, keep_popping, keep_nowCalls, keep_grid.
Qed.

Lemma dropBubble_keeps s b : proj (Game.dropBubble host s b) = proj s.
Proof.
  unfold Game.dropBubble, Game.mathRandom, Game.performanceNow. cbn zeta.
  by rewrite spawnParticles_keeps, keep_score, keep_falling, keep_nowCalls,
       !keep_randomCalls.
Qed.

Lemma updateHighScore_keeps s : proj (Game.updateHighScore s) = proj s.
Proof. unfold Game.updateHighScore. destruct (_ <? _); [apply keep_highScore|done]. Qed.

Lemma clusterCheck_keeps origin s :
  proj (Game.clusterCheck host origin s) = proj s.
Proof.
  unfold Game.clusterCheck. destruct (_ <=? _)%nat; [|done].
  rewrite updateHighScore_keeps, keep_score.
  apply foldl_keeps, popBubble_keeps.
Qed.

Lemma floatingCheck_keeps s : proj (Game.floatingCheck host s) = proj s.
Proof.
  rewrite Game_floatingCheck_eq. cbn zeta.
  rewrite updateHighScore_keeps, keep_grid.
  apply foldl_keeps. intros s' r. apply foldl_keeps, dropBubble_keeps.
Qed.

Lemma addBubbleAt_keeps p tx ty s :
  proj (Game.addBubbleAt host p tx ty s) = proj s.
Proof.
  unfold Game.addBubbleAt. destruct (Game.cellOf host tx ty) as [row col].
  destruct (findCol _ _); [apply keep_grid|].
  by rewrite floatingCheck_keeps, clusterCheck_keeps, keep_grid.
Qed.

Lemma pushRow_keeps s : proj (Game.pushRow host s) = proj s.
Proof.
  unfold Game.pushRow, Game.newTopRow. rewrite Game_newTopRow_fold.
  by rewrite keep_grid, keep_randomCalls.
Qed.

End Keeps.

Lemma addBubbleAt_frame host p tx ty s :
  placementFrame (Game.addBubbleAt host p tx ty s) = placementFrame s.
Proof. apply addBubbleAt_keeps; intros v x; by destruct x. Qed.

Lemma pushRow_frame host s :
  placementFrame (Game.pushRow host s) = placementFrame s.
Proof. apply pushRow_keeps; intros v x; by destruct x. Qed.

(** A relation between the state before and the state after that every
    step of a frame update satisfies holds of the frame update. *)
Section UpdateRel.
Variable host : Host.
Variable R : Game.State → Game.State → Prop.
Hypothesis R_refl : ∀ s, R s s.
Hypothesis R_trans : ∀ s1 s2 s3, R s1 s2 → R s2 s3 → R s1 s3.
Hypothesis R_ease : ∀ s, R s (Game.easeAim s).
Hypothesis R_trail : ∀ p s, R s (Game.pushTrail host p s).
Hypothesis R_add : ∀ p tx ty s, R s (Game.addBubbleAt host p tx ty s).
Hypothesis R_side : ∀ s s', frameSide s' = frameSide s → R s s'.
Hypothesis R_push : ∀ s, R s (Game.pushRow host s).
Hypothesis R_end : ∀ win s, R s (Game.endGame win (Game.set_gameOver true s)).

Lemma stepProjectile_rel dt ds s p :
  R s (Game.stepProjectile host dt (ds, s) p).2.
Proof.
  unfold Game.stepProjectile. destruct (negb (p_active p)); [apply R_refl|].
  cbn zeta. destruct (Qltb _ _).
  - eapply R_trans; [apply R_trail|apply R_add].
  - destruct (Game.firstHit _ _ _) as [b|].
    + unfold Game.collide. cbn zeta. simpl.
      eapply R_trans; [apply R_trail|apply R_add].
    + simpl. apply R_trail.
Qed.

Lemma foldl_stepProjectile_rel dt ps : ∀ ds s,
  R s (foldl (Game.stepProjectile host dt) (ds, s) ps).2.
Proof.
  induction ps as [|p ps IH]; intros ds s; cbn [foldl]; [apply R_refl|].
  pose proof (stepProjectile_rel dt ds s p) as H1.
  destruct (Game.stepProjectile host dt (ds, s) p) as [ds1 s1].
  eapply R_trans; [exact H1|apply IH].
Qed.

Lemma advance_rel dt s : R s (Game.advance host dt s).
Proof.
  unfold Game.advance.
  pose proof (foldl_stepProjectile_rel dt
                (Game.projectiles (Game.easeAim s)) [] (Game.easeAim s)) as H1.
  destruct (foldl _ _ _) as [ps s1]. simpl in H1.
  destruct (Game.performanceNow host _) as [t s2] eqn:Hnow.
  assert (R s1 s2) as H2.
  { change s2 with (t, s2).2. rewrite <- Hnow. apply R_side. by destruct s1. }
  match goal with
  | |- R s (if _ then Game.set_spawnTimer 0 (Game.pushRow host ?X) else ?X) =>
      assert (R s2 X) as H3 by (apply R_side; by destruct s2);
      generalize dependent X
  end.
  intros X H3. assert (R s X) as H4.
  { eapply R_trans; [apply R_ease|]. eapply R_trans; [exact H1|].
    by eapply R_trans. }
  destruct (Qle_bool _ _); [|done].
  eapply R_trans; [exact H4|]. eapply R_trans; [apply R_push|].
  apply R_side. by destruct (Game.pushRow host X).
Qed.

Lemma winLose_rel s : R s (Game.winLose host s).
Proof.
  unfold Game.winLose. cbn zeta.
  destruct (negb (Game.gameOver s) && Game.gridEmpty (Game.grid s)).
  - eapply R_trans; [apply (R_end true)|].
    destruct (negb _); [|apply R_refl].
    destruct (existsb _ _); [apply R_end|apply R_refl].
  - destruct (negb _); [|apply R_refl].
    destruct (existsb _ _); [apply R_end|apply R_refl].
Qed.

Lemma update_rel dt s : R s (Game.update host dt s).
Proof.
  unfold Game.update. eapply R_trans; [apply advance_rel|apply winLose_rel].
Qed.

Hypothesis R_fire : ∀ s, R s (Game.newProjectile host s).
Hypothesis R_aim : ∀ mx my s, R s (Game.aimAt host mx my s).

Lemma handle_rel s e :
  Game.inSession e = true → R s (Game.handle host s e).
Proof.
  destruct e as [ts|mx my| |mx my|]; intros He; [| | | |done];
    cbn [Game.handle].
  - unfold Game.gameLoop. cbn zeta.
    match goal with
    | |- R s (Game.draw host ?Y) =>
        apply (R_trans s Y); [|apply R_side; reflexivity]
    end.
    match goal with
    | |- R s (if _ then Game.update host ?dt ?X else _) =>
        assert (R s X) as H1
          by (apply R_side; destruct (Qeq_bool _ _); by destruct s);
        pose proof (update_rel dt X) as H2
    end.
    destruct (negb _); [|done]. by eapply R_trans.
  - apply R_aim.
  - unfold Game.click. destruct (_ || _); [apply R_refl|apply R_fire].
  - unfold Game.touchstart. cbn zeta.
    destruct (_ && _); [|apply R_aim].
    eapply R_trans; [apply R_aim|apply R_fire].
Qed.

Lemma session_rel es : ∀ s,
  forallb Game.inSession es = true → R s (foldl (Game.handle host) s es).
Proof.
  induction es as [|e es IH]; intros s Hes; cbn [foldl]; [apply R_refl|].
  simpl in Hes. apply andb_prop in Hes as [He Hes].
  eapply R_trans; [by apply handle_rel|by apply IH].
Qed.

End UpdateRel.

(** ** The trail *)

Lemma pushTrail_length host p s :
  (length (Game.trail (Game.pushTrail host p s)) ≤ 400)%nat ∧
  ((length (Game.trail s) ≤ 400)%nat →
   (length (Game.trail s) ≤ length (Game.trail (Game.pushTrail host p s)))%nat).
Proof.
  unfold Game.pushTrail, Game.projectileTrail, Game.performanceNow. cbn zeta.
  match goal with
  | |- context [Game.set_trail ?t (Game.set_nowCalls ?n s)] =>
      change (Game.trail (Game.set_trail t (Game.set_nowCalls n s))) with t
  end.
  rewrite length_app. simpl.
  destruct (400 <? _)%nat eqn:E.
  - apply Nat.ltb_lt in E.
    change (Game.trail (Game.set_trail ?t _)) with t.
    rewrite length_drop, length_app. simpl. lia.
  - apply Nat.ltb_ge in E.
    change (Game.trail (Game.set_trail ?t _)) with t.
    rewrite length_app. simpl. lia.
Qed.

Lemma startGame_trail host s : Game.trail (Game.startGame host s) = [].
Proof.
  unfold Game.startGame. cbn zeta.
  match goal with
  | |- context [Game.initGrid host ?X] =>
      destruct (initGrid_eq host X) as (g & n & ->)
  end.
  by destruct s.
Qed.

Lemma handle_trail host s e :
  Game.inSession e = true → trailGrows s (Game.handle host s e).
Proof.
  apply (handle_rel host trailGrows); unfold trailGrows.
  - lia.
  - intros s1 s2 s3 H1 H2 H. specialize (H1 H). specialize (H2 ltac:(lia)). lia.
  - intros x. by destruct x.
  - intros p x H. destruct (pushTrail_length host p x) as [H1 H2].
    specialize (H2 H). lia.
  - intros p tx ty x H.
    pose proof (addBubbleAt_frame host p tx ty x) as Hf.
    unfold placementFrame in Hf.
    assert (Game.trail (Game.addBubbleAt host p tx ty x) = Game.trail x) as ->
      by congruence. lia.
  - intros x x' Hf H. unfold frameSide in Hf.
    assert (Game.trail x' = Game.trail x) as -> by congruence. lia.
  - intros x H. pose proof (pushRow_frame host x) as Hf.
    unfold placementFrame in Hf.
    assert (Game.trail (Game.pushRow host x) = Game.trail x) as ->
      by congruence. lia.
  - intros win x. unfold Game.endGame, Game.updateHighScore. cbn zeta.
    destruct (_ <? _); by destruct x.
  - intros x. unfold Game.newProjectile. by destruct x as [? ? ? []].
  - intros mx my x. by destruct x.
Qed.

(** X8. The trail of [src/game.js] holds at most 400 entries: the
    frame of a projectile in flight leaves at most 400, and from a
    trail of at most 400 entries no event of a session takes one away
    or lets it grow beyond 400.  Entries are not dropped by their age:
    once the trail is full it stays full until [startGame], which
    empties it. *)
Theorem trail_capped (host : Host) :
  (∀ p s, (length (Game.trail (Game.pushTrail host p s)) ≤ 400)%nat) ∧
  (∀ es s,
     forallb Game.inSession es = true → (length (Game.trail s) ≤ 400)%nat →
     (length (Game.trail s)
      ≤ length (Game.trail (foldl (Game.handle host) s es)) ≤ 400)%nat) ∧
  (∀ s, Game.trail (Game.startGame host s) = []).
Proof.
  split; [|split].
  - intros p s. apply pushTrail_length.
  - intros es. induction es as [|e es IH]; intros s Hes H; cbn [foldl]; [lia|].
    simpl in Hes. apply andb_prop in Hes as [He Hes].
    pose proof (handle_trail host s e He H) as H1.
    specialize (IH (Game.handle host s e) Hes ltac:(lia)). lia.
  - apply startGame_trail.
Qed.

(** [trail_capped] on a frame and a click of a new session. *)
Lemma trail_capped_witness :
  forallb Game.inSession [Game.Frame 16; Game.Click] = true ∧
  (length (Game.trail (gameWith twoReds [wornShot 0])) ≤ 400)%nat ∧
  (length (Game.trail
             (foldl (Game.handle demoHost) (gameWith twoReds [wornShot 0])
                [Game.Frame 16; Game.Click])) ≤ 400)%nat.
Proof.
  assert (length (Game.trail (gameWith twoReds [wornShot 0])) ≤ 400)%nat as H
    by (vm_compute; lia).
  split; [reflexivity|]. split; [exact H|].
  exact (proj2 (proj1 (proj2 (trail_capped demoHost))
                  [Game.Frame 16; Game.Click] (gameWith twoReds [wornShot 0])
                  eq_refl H)).
Defined.

(** ** The number of rows *)

Lemma clusterCheck_rows host origin s :
  length (Game.grid (Game.clusterCheck host origin s)) = length (Game.grid s).
Proof.
  destruct (clusterCheck_grid host origin s) as (ks & ->). by rewrite length_map.
Qed.

Lemma floatingCheck_rows host s :
  length (Game.grid (Game.floatingCheck host s)) = length (Game.grid s).
Proof. by rewrite Game_floatingCheck_grid, length_map. Qed.

Lemma addBubbleAt_rows host p tx ty s :
  length (Game.grid (Game.addBubbleAt host p tx ty s))
  = (length (Game.grid s) `max` Z.to_nat ((Game.cellOf host tx ty).1 + 1))%nat.
Proof.
  unfold Game.addBubbleAt. destruct (Game.cellOf host tx ty) as [row col].
  assert (length (Game.padRows (Game.grid s) row)
          = (length (Game.grid s) `max` Z.to_nat (row + 1))%nat) as Hpad.
  { unfold Game.padRows. rewrite length_app, length_replicate. lia. }
  destruct (findCol _ _); [by destruct s|].
  rewrite floatingCheck_rows, clusterCheck_rows.
  change (Game.grid (Game.set_grid ?g _)) with g.
  by rewrite length_insert.
Qed.

Lemma pushRow_rows host s :
  length (Game.grid (Game.pushRow host s)) = S (length (Game.grid s)).
Proof.
  destruct (Game_pushRow_grid host s) as (newRow & -> & _).
  unfold Game.renumber. rewrite length_imap. simpl. by rewrite length_map.
Qed.

Lemma session_rows host es s :
  forallb Game.inSession es = true →
  rowsGrow s (foldl (Game.handle host) s es).
Proof.
  apply (session_rel host rowsGrow); unfold rowsGrow.
  - lia.
  - lia.
  - intros x. by destruct x.
  - intros p x. by rewrite (gameCore_grid _ _ (pushTrail_core host p x)).
  - intros p tx ty x. rewrite addBubbleAt_rows. lia.
  - intros x x' Hf. unfold frameSide in Hf.
    assert (Game.grid x' = Game.grid x) as -> by congruence. lia.
  - intros x. rewrite pushRow_rows. lia.
  - intros win x. unfold Game.endGame, Game.updateHighScore. cbn zeta.
    destruct (_ <? _); by destruct x.
  - intros x. unfold Game.newProjectile. by destruct x as [? ? ? []].
  - intros mx my x. by destruct x.
Qed.

(** ** The high score *)

Lemma updateHighScore_best s :
  Game.highScore (Game.updateHighScore s)
  = Z.max (Game.highScore s) (Game.score s).
Proof.
  unfold Game.updateHighScore. destruct (_ <? _) eqn:E.
  - apply Z.ltb_lt in E. destruct s; simpl in *. lia.
  - apply Z.ltb_ge in E. lia.
Qed.

Lemma clusterCheck_best host origin s :
  bestKept s (Game.clusterCheck host origin s).
Proof.
  unfold Game.clusterCheck, bestKept. destruct (_ <=? _)%nat; [|lia].
  rewrite updateHighScore_best, updateHighScore_score.
  change (Game.highScore (Game.set_score _ ?x)) with (Game.highScore x).
  rewrite (foldl_keeps Game.highScore (Game.popBubble host)).
  - lia.
  - intros x b. apply popBubble_keeps; intros v y; by destruct y.
Qed.

Lemma floatingCheck_best host s :
  Game.highScore s <= Game.highScore (Game.floatingCheck host s) ∧
  Game.score (Game.floatingCheck host s)
  <= Game.highScore (Game.floatingCheck host s).
Proof.
  rewrite Game_floatingCheck_eq. cbn zeta.
  rewrite updateHighScore_best, updateHighScore_score.
  change (Game.highScore (Game.set_grid _ ?x)) with (Game.highScore x).
  rewrite (foldl_keeps Game.highScore).
  - lia.
  - intros x r. apply foldl_keeps. intros y b.
    apply dropBubble_keeps; intros v z; by destruct z.
Qed.

Lemma addBubbleAt_best host p tx ty s :
  bestKept s (Game.addBubbleAt host p tx ty s).
Proof.
  unfold Game.addBubbleAt. destruct (Game.cellOf host tx ty) as [row col].
  destruct (findCol _ _); [by destruct s|].
  match goal with
  | |- bestKept s (Game.floatingCheck host (Game.clusterCheck host ?b ?X)) =>
      pose proof (clusterCheck_best host b X) as [H1 _];
      pose proof (floatingCheck_best host (Game.clusterCheck host b X)) as [H2 H3];
      change (Game.highScore X) with (Game.highScore s) in H1
  end.
  unfold bestKept. lia.
Qed.

Lemma endGame_best win s :
  Game.highScore s <= Game.highScore (Game.endGame win s) ∧
  Game.score (Game.endGame win s) <= Game.highScore (Game.endGame win s).
Proof.
  unfold Game.endGame. cbn zeta.
  change (Game.highScore (Game.set_overlayShown _ (Game.set_endGameCalls _ ?x)))
    with (Game.highScore x).
  change (Game.score (Game.set_overlayShown _ (Game.set_endGameCalls _ ?x)))
    with (Game.score x).
  rewrite updateHighScore_best, updateHighScore_score. lia.
Qed.

Lemma session_best host es s :
  forallb Game.inSession es = true →
  bestKept s (foldl (Game.handle host) s es).
Proof.
  apply (session_rel host bestKept); unfold bestKept.
  - lia.
  - intros s1 s2 s3 [H1 H2] [H3 H4]. split; [lia|tauto].
  - intros x. by destruct x.
  - intros p x. pose proof (pushTrail_core host p x) as Hc.
    unfold gameCore in Hc.
    assert (Game.highScore (Game.pushTrail host p x) = Game.highScore x) as ->
      by congruence.
    assert (Game.score (Game.pushTrail host p x) = Game.score x) as ->
      by congruence. lia.
  - apply addBubbleAt_best.
  - intros x x' Hf. unfold frameSide in Hf.
    assert (Game.highScore x' = Game.highScore x) as -> by congruence.
    assert (Game.score x' = Game.score x) as -> by congruence. lia.
  - intros x.
    assert ((Game.score (Game.pushRow host x), Game.highScore (Game.pushRow host x))
            = (Game.score x, Game.highScore x)) as [= -> ->]
      by (apply (pushRow_keeps host (λ y, (Game.score y, Game.highScore y)));
          intros v y; by destruct y).
    lia.
  - intros win x. destruct (endGame_best win (Game.set_gameOver true x)) as [H1 H2].
    change (Game.highScore (Game.set_gameOver true x)) with (Game.highScore x) in H1.
    lia.
  - intros x. unfold Game.newProjectile. destruct x as [? ? ? []]; simpl; lia.
  - intros mx my x. destruct x; simpl; lia.
Qed.

Lemma startGame_best host s :
  Game.highScore (Game.startGame host s) = Game.highScore s.
Proof.
  unfold Game.startGame. cbn zeta.
  match goal with
  | |- context [Game.initGrid host ?X] =>
      destruct (initGrid_eq host X) as (g & n & ->)
  end.
  by destruct s.
Qed.

(** X10. In [src/game.js] the grid never loses a row array during a
    session: the two checks keep the number of rows (the floating
    check empties rows and leaves them in place), a placement grows
    the grid as far as the row of its slot, a row push adds one row,
    and so [state.grid.length], which the page shows as the number of
    rows, never goes down before the next [startGame]. *)
Theorem rows_never_shrink (host : Host) :
  (∀ es s,
     forallb Game.inSession es = true →
     (length (Game.grid s)
      ≤ length (Game.grid (foldl (Game.handle host) s es)))%nat) ∧
  (∀ origin s,
     length (Game.grid (Game.clusterCheck host origin s))
     = length (Game.grid s)) ∧
  (∀ s, length (Game.grid (Game.floatingCheck host s)) = length (Game.grid s)) ∧
  (∀ p tx ty s,
     length (Game.grid (Game.addBubbleAt host p tx ty s))
     = (length (Game.grid s) `max` Z.to_nat ((Game.cellOf host tx ty).1 + 1))%nat) ∧
  (∀ s, length (Game.grid (Game.pushRow host s)) = S (length (Game.grid s))).
Proof.
  split; [|split; [|split; [|split]]].
  - intros es s Hes. by apply session_rows.
  - apply clusterCheck_rows.
  - apply floatingCheck_rows.
  - apply addBubbleAt_rows.
  - apply pushRow_rows.
Qed.

(** [rows_never_shrink] on the frame in which a shot pops the two red
    bubbles of row 0. *)
Lemma rows_never_shrink_witness :
  forallb Game.inSession [Game.Frame 16] = true ∧
  (length (Game.grid (gameWith twoReds []))
   ≤ length (Game.grid (foldl (Game.handle demoHost) (gameWith twoReds [])
                          [Game.Frame 16])))%nat.
Proof.
  split; [reflexivity|].
  exact (proj1 (rows_never_shrink demoHost) [Game.Frame 16]
           (gameWith twoReds []) eq_refl).
Defined.

(** X9. The high score of [src/game.js] never goes down, whatever the
    event, [startGame] included.  Once it is at least the score it
    stays so through the events of a session; and it is at least the
    score after every floating check and every [endGame], so that the
    overlay never shows a best score below the score. *)
Theorem high_score_kept (host : Host) :
  (∀ s e, Game.highScore s <= Game.highScore (Game.handle host s e)) ∧
  (∀ es s,
     forallb Game.inSession es = true → Game.score s <= Game.highScore s →
     Game.score (foldl (Game.handle host) s es)
     <= Game.highScore (foldl (Game.handle host) s es)) ∧
  (∀ s, Game.score (Game.floatingCheck host s)
        <= Game.highScore (Game.floatingCheck host s)) ∧
  (∀ win s, Game.score (Game.endGame win s)
            <= Game.highScore (Game.endGame win s)).
Proof.
  split; [|split; [|split]].
  - intros s e. destruct (Game.inSession e) eqn:He.
    + by destruct (session_best host [e] s ltac:(simpl; by rewrite He)) as [H _].
    + destruct e; try done. cbn [Game.handle]. by rewrite startGame_best.
  - intros es s Hes H. by destruct (session_best host es s Hes) as [_ H2]; auto.
  - intros s. by destruct (floatingCheck_best host s).
  - intros win s. by destruct (endGame_best win s).
Qed.

(** [high_score_kept] on the frame in which a shot pops the two red
    bubbles of row 0. *)
Lemma high_score_kept_witness :
  forallb Game.inSession [Game.Frame 16] = true ∧
  Game.score (gameWith twoReds []) <= Game.highScore (gameWith twoReds []) ∧
  Game.score (foldl (Game.handle demoHost) (gameWith twoReds []) [Game.Frame 16])
  <= Game.highScore (foldl (Game.handle demoHost) (gameWith twoReds [])
                       [Game.Frame 16]).
Proof.
  assert (Game.score (gameWith twoReds []) <= Game.highScore (gameWith twoReds []))
    as H by (vm_compute; discriminate).
  split; [reflexivity|]. split; [exact H|].
  exact (proj1 (proj2 (high_score_kept demoHost)) [Game.Frame 16]
           (gameWith twoReds []) eq_refl H).
Defined.

(** ** Comparisons of numbers *)

Lemma Qltb_true (a b : Q) : Qltb a b = true ↔ (a < b)%Q.
Proof.
  unfold Qltb. rewrite negb_true_iff, <- not_true_iff_false, Qle_bool_iff.
  split; [apply Qnot_le_lt|apply Qlt_not_le].
Qed.

Lemma Qltb_false (a b : Q) : Qltb a b = false ↔ (b <= a)%Q.
Proof. unfold Qltb. by rewrite negb_false_iff, Qle_bool_iff. Qed.

(** ** The aim *)

Lemma aimAt_target host mx my s :
  (4 # 10 <= PI host)%Q →
  aimInRange host (sh_targetAngle (Game.shooter (Game.aimAt host mx my s))).
Proof.
  intros Hpi. unfold Game.aimAt, aimInRange. cbn zeta.
  change (Game.shooter (Game.set_shooter ?sh _)) with sh. cbn [sh_targetAngle].
  set (a := atan2 host _ _). clearbody a.
  repeat match goal with
         | |- context [Qltb ?x ?y] =>
             let E := fresh in
             destruct (Qltb x y) eqn:E;
               [apply Qltb_true in E|apply Qltb_false in E]
         end; lra.
Qed.

Lemma easeAim_range host s :
  aimOk host s → aimOk host (Game.easeAim s).
Proof.
  unfold aimOk, aimInRange, Game.easeAim, Game.aimDamping. cbn zeta.
  change (Game.shooter (Game.set_shooter ?sh _)) with sh.
  cbn [sh_angle sh_targetAngle].
  generalize (sh_angle (Game.shooter s)) (sh_targetAngle (Game.shooter s)).
  intros a t. lra.
Qed.

Lemma handle_aim host s e :
  (4 # 10 <= PI host)%Q → aimOk host s → aimOk host (Game.handle host s e).
Proof.
  intros Hpi. destruct e as [ts|mx my| |mx my|].
  - change (aimKept host s (Game.handle host s (Game.Frame ts))).
    apply (handle_rel host (aimKept host)); unfold aimKept; try done.
    + tauto.
    + apply easeAim_range.
    + intros p x. pose proof (pushTrail_core host p x) as Hc.
      unfold gameCore in Hc. unfold aimOk.
      assert (Game.shooter (Game.pushTrail host p x) = Game.shooter x) as ->
        by congruence. done.
    + intros p tx ty x. pose proof (addBubbleAt_frame host p tx ty x) as Hf.
      unfold placementFrame in Hf. unfold aimOk.
      assert (Game.shooter (Game.addBubbleAt host p tx ty x) = Game.shooter x)
        as -> by congruence. done.
    + intros x x' Hf. unfold frameSide in Hf. unfold aimOk.
      assert (Game.shooter x' = Game.shooter x) as -> by congruence. done.
    + intros x. pose proof (pushRow_frame host x) as Hf.
      unfold placementFrame in Hf. unfold aimOk.
      assert (Game.shooter (Game.pushRow host x) = Game.shooter x) as ->
        by congruence. done.
    + intros win x. unfold Game.endGame, Game.updateHighScore. cbn zeta.
      destruct (_ <? _); by destruct x.
    + intros x. unfold Game.newProjectile. by destruct x as [? ? ? []].
    + intros mx my x [H1 H2]. split; [by destruct x|by apply aimAt_target].
  - intros [H1 H2]. split; [by destruct s|by apply aimAt_target].
  - unfold Game.handle, Game.click. destruct (_ || _); [done|].
    unfold Game.newProjectile. by destruct s as [? ? ? []].
  - intros [H1 H2]. unfold Game.handle, Game.touchstart. cbn zeta.
    assert (aimOk host (Game.aimAt host mx my s)) as H3.
    { split; [by destruct s|by apply aimAt_target]. }
    destruct (_ && _); [|done].
    revert H3. generalize (Game.aimAt host mx my s). intros x Hx.
    unfold Game.newProjectile. by destruct x as [? ? ? []].
  - unfold Game.handle, Game.startGame. cbn zeta.
    match goal with
    | |- context [Game.initGrid host ?X] =>
        destruct (initGrid_eq host X) as (g & n & ->)
    end.
    by destruct s.
Qed.

Lemma initialState_aim host best shown :
  (4 # 10 <= PI host)%Q → aimOk host (Game.initialState host best shown).
Proof.
  intros Hpi. unfold aimOk, aimInRange, Game.initialState. simpl.
  assert (- PI host / 2 == - (1 # 2) * PI host)%Q as -> by field.
  lra.
Qed.

(** The frame update touches the shooter in its first statement only. *)
Lemma update_shooter host dt s :
  Game.shooter (Game.update host dt s) = Game.shooter (Game.easeAim s).
Proof.
  assert (∀ x, Game.shooter (Game.winLose host x) = Game.shooter x) as Hwin.
  { intros x.
    apply (winLose_rel host (λ s s', Game.shooter s' = Game.shooter s));
      [done|congruence|].
    intros win y. unfold Game.endGame, Game.updateHighScore. cbn zeta.
    destruct (_ <? _); by destruct y. }
  unfold Game.update. rewrite Hwin. unfold Game.advance.
  pose proof (foldl_stepProjectile_rel host
                (λ s s', Game.shooter s' = Game.shooter s)
                ltac:(done) ltac:(congruence)) as H1.
  specialize (H1 (λ p x, f_equal (λ c, c.1.1.1.1.1.1.1.1.1.2)
                           (pushTrail_core host p x))).
  specialize (H1 (λ p tx ty x, f_equal (λ c, c.1.1.1.1.1.1.1.1.2)
                                 (addBubbleAt_frame host p tx ty x))).
  specialize (H1 dt (Game.projectiles (Game.easeAim s)) [] (Game.easeAim s)).
  destruct (foldl _ _ _) as [ps s1]. cbv beta in H1. cbn [snd] in H1.
  destruct (Game.performanceNow host _) as [t s2] eqn:Hnow.
  assert (Game.shooter s2 = Game.shooter s1) as H2.
  { change s2 with (t, s2).2. rewrite <- Hnow. by destruct s1. }
  match goal with
  | |- Game.shooter (if _ then Game.set_spawnTimer 0 (Game.pushRow host ?X)
                     else ?X) = _ =>
      assert (Game.shooter X = Game.shooter s2) as H3 by (by destruct s2);
      generalize dependent X
  end.
  intros X H3. destruct (Qle_bool _ _); [|congruence].
  pose proof (pushRow_frame host X) as Hf. unfold placementFrame in Hf.
  change (Game.shooter (Game.set_spawnTimer 0 ?x)) with (Game.shooter x).
  congruence.
Qed.

Lemma update_ease host dt s :
  let sh := Game.shooter s in
  let sh' := Game.shooter (Game.update host dt s) in
  sh_x sh' = sh_x sh ∧ sh_y sh' = sh_y sh ∧
  sh_targetAngle sh' = sh_targetAngle sh ∧
  (sh_targetAngle sh' - sh_angle sh'
   == (82 # 100) * (sh_targetAngle sh - sh_angle sh))%Q.
Proof.
  cbn zeta. rewrite update_shooter. unfold Game.easeAim, Game.aimDamping.
  cbn zeta. change (Game.shooter (Game.set_shooter ?sh _)) with sh.
  cbn [sh_x sh_y sh_angle sh_targetAngle]. repeat split. field.
Qed.

Lemma updates_ease host (dts : list Q) : ∀ s,
  let sh := Game.shooter s in
  let sh' := Game.shooter (foldl (λ s dt, Game.update host dt s) s dts) in
  sh_targetAngle sh' = sh_targetAngle sh ∧
  (sh_targetAngle sh' - sh_angle sh'
   == (82 # 100) ^ Z.of_nat (length dts)
      * (sh_targetAngle sh - sh_angle sh))%Q.
Proof.
  induction dts as [|dt dts IH]; intros s; cbn zeta.
  - simpl. split; [done|]. field.
  - cbn [foldl length]. destruct (IH (Game.update host dt s)) as [H1 H2].
    destruct (update_ease host dt s) as (_ & _ & H3 & H4).
    cbn zeta in *. split; [congruence|].
    rewrite H2, H4.
    rewrite Nat2Z.inj_succ, <- Z.add_1_r.
    rewrite Qpower_plus by done. change ((82 # 100) ^ 1)%Q with (82 # 100)%Q.
    field.
Qed.

(** X11. With [Math.PI] at least 0.4, the pointer can ask only for
    an angle between [-PI + 0.2] and [-0.2]: [mousemove] and
    [touchstart] clamp the angle they compute.  The shooter of
    [src/game.js] starts in that range, and no event takes its angle
    or the angle it eases to out of it: the shooter never aims below
    the horizontal. *)
Theorem aim_in_range (host : Host) :
  (4 # 10 <= PI host)%Q →
  (∀ mx my s,
     aimInRange host (sh_targetAngle (Game.shooter (Game.aimAt host mx my s)))) ∧
  (∀ best shown, aimOk host (Game.initialState host best shown)) ∧
  (∀ es s, aimOk host s → aimOk host (foldl (Game.handle host) s es)).
Proof.
  intros Hpi. split; [|split].
  - intros mx my s. by apply aimAt_target.
  - intros best shown. by apply initialState_aim.
  - intros es. induction es as [|e es IH]; intros s H; cbn [foldl]; [done|].
    by apply IH, handle_aim.
Qed.

(** [aim_in_range] on a pointer move, a frame and a touch. *)
Lemma aim_in_range_witness :
  (4 # 10 <= PI demoHost)%Q ∧
  aimOk demoHost
    (foldl (Game.handle demoHost) (Game.initialState demoHost 0 false)
       [Game.MouseMove 10 700; Game.Frame 16; Game.TouchStart 400 20]).
Proof.
  assert (4 # 10 <= PI demoHost)%Q as H by (by vm_compute).
  split; [exact H|].
  exact (proj2 (proj2 (aim_in_range demoHost H)) _ _
           (proj1 (proj2 (aim_in_range demoHost H)) 0 false)).
Defined.

(** X12. A frame update of [src/game.js] touches the shooter in its
    first statement only: the position and the angle asked for are
    kept, and the angle moves 18% of the way to the angle asked for.
    After [n] frame updates the distance to it has shrunk by the
    factor [0.82 ^ n]: the aim eases geometrically and never
    overshoots. *)
Theorem aim_eases (host : Host) :
  (∀ dt s,
     let sh := Game.shooter s in
     let sh' := Game.shooter (Game.update host dt s) in
     sh_x sh' = sh_x sh ∧ sh_y sh' = sh_y sh ∧
     sh_targetAngle sh' = sh_targetAngle sh ∧
     (sh_targetAngle sh' - sh_angle sh'
      == (82 # 100) * (sh_targetAngle sh - sh_angle sh))%Q) ∧
  (∀ dts s,
     let sh := Game.shooter s in
     let sh' := Game.shooter (foldl (λ s dt, Game.update host dt s) s dts) in
     sh_targetAngle sh' = sh_targetAngle sh ∧
     (sh_targetAngle sh' - sh_angle sh'
      == (82 # 100) ^ Z.of_nat (length dts)
         * (sh_targetAngle sh - sh_angle sh))%Q).
Proof.
  split.
  - intros dt s. apply update_ease.
  - intros dts s. apply updates_ease.
Qed.

(** ** Rounding *)

Lemma Qfloor_unique (z : Z) (x : Q) :
  (inject_Z z <= x)%Q → (x < inject_Z (z + 1))%Q → Qfloor x = z.
Proof.
  intros H1 H2.
  pose proof (Qfloor_resp_le _ _ H1) as H3. rewrite Qfloor_Z in H3.
  pose proof (Qfloor_le x) as H4.
  assert (inject_Z (Qfloor x) < inject_Z (z + 1))%Q as H5
    by (eapply Qle_lt_trans; [exact H4|exact H2]).
  rewrite <- Zlt_Qlt in H5. lia.
Qed.

(** [Math.round] of a number that is an integer. *)
Lemma js_round_Z (q : Q) (z : Z) : (q == inject_Z z)%Q → js_round q = z.
Proof.
  intros H. unfold js_round. apply Qfloor_unique.
  - rewrite H. generalize (inject_Z z). intros y. lra.
  - rewrite H, inject_Z_plus. change (inject_Z 1) with 1%Q.
    generalize (inject_Z z). intros y. lra.
Qed.

Lemma rem2_cases (row : Z) :
  0 <= row → Z.rem row 2 = 0 ∨ Z.rem row 2 = 1.
Proof. intros H. rewrite Z.rem_mod_nonneg by lia. Z.div_mod_to_equations. lia. Qed.

(** ** The slot of a target *)

Lemma Game_cellOf_bubbleAt host row col color :
  0 <= row → 0 <= col < Game.perRow host →
  Game.cellOf host (b_x (Game.bubbleAt row col color))
    (b_y (Game.bubbleAt row col color)) = (row, col).
Proof.
  intros Hrow Hcol. unfold Game.cellOf, Game.bubbleAt. cbn zeta.
  cbn [b_x b_y].
  assert (js_round ((Game.bubbleRadius + ZtoQ row * Game.rowHeight
                     - Game.bubbleRadius) / Game.rowHeight) = row) as ->.
  { apply js_round_Z. unfold Game.rowHeight, Game.bubbleRadius,
      Game.rowHeightFactor, ZtoQ. field. }
  rewrite Z.max_r by lia. f_equal.
  rewrite js_round_Z with (z := col); [lia|].
  unfold Game.bubbleRadius, ZtoQ. field.
Qed.

Lemma Early_cellOf_bubbleAt host row col color :
  0 <= col < Early.perRow host →
  Early.cellOf host (b_x (Early.bubbleAt row col color))
    (b_y (Early.bubbleAt row col color)) = (row, col).
Proof.
  intros Hcol. unfold Early.cellOf, Early.bubbleAt, Early.worldToGrid.
  cbn zeta. cbn [b_x b_y].
  assert (js_round ((Early.bubbleRadius + ZtoQ row * Early.rowHeight
                     - Early.bubbleRadius) / Early.rowHeight) = row) as ->.
  { apply js_round_Z. unfold Early.rowHeight, Early.bubbleRadius, ZtoQ. field. }
  f_equal. rewrite js_round_Z with (z := col); [lia|].
  unfold Early.bubbleRadius, ZtoQ. field.
Qed.

Lemma Game_cellOf_bounds host tx ty :
  0 <= (Game.cellOf host tx ty).1 ∧
  0 <= (Game.cellOf host tx ty).2 <= Z.max 0 (Game.perRow host - 1).
Proof. unfold Game.cellOf. cbn zeta. cbn [fst snd]. lia. Qed.

(** ** The layout and the offset table *)

Lemma Game_bubbleAt_x row col color :
  (b_x (Game.bubbleAt row col color)
   == 16 + 32 * inject_Z col + 16 * inject_Z (Z.rem row 2))%Q.
Proof. unfold Game.bubbleAt, Game.bubbleRadius, ZtoQ. cbn [b_x]. field. Qed.

Lemma rem2_succ (row : Z) :
  0 <= row → Z.rem (row + 1) 2 = 1 - Z.rem row 2.
Proof.
  intros H. rewrite !Z.rem_mod_nonneg by lia. Z.div_mod_to_equations. lia.
Qed.

Lemma rem2_pred (row : Z) :
  1 <= row → Z.rem (row - 1) 2 = 1 - Z.rem row 2.
Proof.
  intros H. rewrite !Z.rem_mod_nonneg by lia. Z.div_mod_to_equations. lia.
Qed.

Lemma Early_bubbleAt_x row col color :
  (b_x (Early.bubbleAt row col color)
   == 16 + 32 * inject_Z col + 16 * inject_Z (Z.rem row 2))%Q.
Proof. unfold Early.bubbleAt, Early.bubbleRadius, ZtoQ. cbn [b_x]. field. Qed.

Lemma slot_dx (row col dr dc : Z) :
  0 <= row → 0 <= row + dr → dr = 1 ∨ dr = -1 →
  (16 + 32 * inject_Z (col + dc) + 16 * inject_Z (Z.rem (row + dr) 2)
   - (16 + 32 * inject_Z col + 16 * inject_Z (Z.rem row 2))
   == 32 * inject_Z dc + 16 - 32 * inject_Z (Z.rem row 2))%Q.
Proof.
  intros H0 H1 Hdr.
  assert (Z.rem (row + dr) 2 = 1 - Z.rem row 2) as ->.
  { destruct Hdr as [-> | ->]; [by apply rem2_succ|].
    replace (row + -1) with (row - 1) by lia. apply rem2_pred. lia. }
  rewrite inject_Z_plus. unfold Z.sub. rewrite inject_Z_plus, inject_Z_opp.
  change (inject_Z 1) with 1%Q. field.
Qed.

(** X2. The offset table of [neighbors()] against the layout that
    [initGrid] and [addBubbleAt] give the bubbles
    ([x = r + 2rc + (row % 2) r]), in both versions.  From a slot of
    an even row the table looks, in the row above and in the row
    below, at the columns [c] and [c + 1]; the slot of column [c + 1]
    is centred three radii to the right, more than a diameter away,
    and the slot of column [c - 1], centred one radius to the left,
    is not in the table.  From a slot of an odd row it is the mirror
    image: the table holds column [c - 1], three radii to the left,
    and not column [c + 1], one radius to the right. *)
Theorem adjacency_layout (row col dr : Z) (c1 c2 : Color) :
  0 <= row → 0 <= row + dr → dr = 1 ∨ dr = -1 →
  let dx (dc : Z) :=
    (b_x (Game.bubbleAt (row + dr) (col + dc) c2)
     - b_x (Game.bubbleAt row col c1))%Q in
  let dx' (dc : Z) :=
    (b_x (Early.bubbleAt (row + dr) (col + dc) c2)
     - b_x (Early.bubbleAt row col c1))%Q in
  (Z.rem row 2 = 0 →
     (dr, 1) ∈ deltas true ∧ (dx 1%Z == 3 * Game.bubbleRadius)%Q ∧
     (dx' 1%Z == 3 * Early.bubbleRadius)%Q ∧
     ((dr, -1) ∉ deltas true) ∧ (dx (-1)%Z == - Game.bubbleRadius)%Q ∧
     (dx' (-1)%Z == - Early.bubbleRadius)%Q) ∧
  (Z.rem row 2 = 1 →
     (dr, -1) ∈ deltas false ∧ (dx (-1)%Z == - (3 * Game.bubbleRadius))%Q ∧
     (dx' (-1)%Z == - (3 * Early.bubbleRadius))%Q ∧
     ((dr, 1) ∉ deltas false) ∧ (dx 1%Z == Game.bubbleRadius)%Q ∧
     (dx' 1%Z == Early.bubbleRadius)%Q).
Proof.
  intros H0 H1 Hdr. cbn zeta.
  assert (∀ dc,
    (b_x (Game.bubbleAt (row + dr) (col + dc) c2)
     - b_x (Game.bubbleAt row col c1)
     == 32 * inject_Z dc + 16 - 32 * inject_Z (Z.rem row 2))%Q) as HG.
  { intros dc. rewrite !Game_bubbleAt_x. by apply slot_dx. }
  assert (∀ dc,
    (b_x (Early.bubbleAt (row + dr) (col + dc) c2)
     - b_x (Early.bubbleAt row col c1)
     == 32 * inject_Z dc + 16 - 32 * inject_Z (Z.rem row 2))%Q) as HE.
  { intros dc. rewrite !Early_bubbleAt_x. by apply slot_dx. }
  split; intros Hpar; rewrite !HG, !HE, Hpar;
    unfold Game.bubbleRadius, Early.bubbleRadius, deltas;
    (repeat split; try (vm_compute; reflexivity)).
  - destruct Hdr as [-> | ->]; apply list_elem_of_In; simpl; tauto.
  - intros Hin%list_elem_of_In. simpl in Hin.
    destruct Hdr as [-> | ->]; naive_solver.
  - destruct Hdr as [-> | ->]; apply list_elem_of_In; simpl; tauto.
  - intros Hin%list_elem_of_In. simpl in Hin.
    destruct Hdr as [-> | ->]; naive_solver.
Qed.

(** [adjacency_layout] on the slot of row 0 and column 1, and the row
    below it. *)
Lemma adjacency_layout_witness :
  (1, 1) ∈ deltas true ∧
  (b_x (Game.bubbleAt 1 2 red) - b_x (Game.bubbleAt 0 1 red)
   == 3 * Game.bubbleRadius)%Q ∧
  ((1, -1) ∉ deltas true) ∧
  (b_x (Game.bubbleAt 1 0 red) - b_x (Game.bubbleAt 0 1 red)
   == - Game.bubbleRadius)%Q.
Proof.
  pose proof (proj1 (adjacency_layout 0 1 1 red red ltac:(lia) ltac:(lia)
                       ltac:(by left)) eq_refl)
    as (H1 & H2 & _ & H3 & H4 & _).
  split; [exact H1|]. split; [exact H2|]. split; [exact H3|exact H4].
Defined.

(** ** Projectiles in flight *)

Lemma bounce_walls host p :
  (2 * Game.bubbleRadius <= ZtoQ (canvas_width host))%Q →
  (Game.bubbleRadius <= p_x (Game.bounce host p))%Q ∧
  (p_x (Game.bounce host p) <= ZtoQ (canvas_width host) - Game.bubbleRadius)%Q ∧
  p_y (Game.bounce host p) = p_y p ∧
  p_active (Game.bounce host p) = p_active p.
Proof.
  intros Hw. unfold Game.bounce. cbn zeta. unfold Game.bubbleRadius in *.
  destruct (Qltb (p_x p) 16) eqn:E1.
  - cbn [p_x p_y p_active]. repeat split; lra.
  - apply Qltb_false in E1. destruct (Qltb _ (p_x p)) eqn:E2.
    + cbn [p_x p_y p_active]. repeat split; lra.
    + apply Qltb_false in E2. repeat split; lra.
Qed.

Lemma bounceLimit_fields p :
  p_x (Game.bounceLimit p) = p_x p ∧ p_y (Game.bounceLimit p) = p_y p ∧
  (p_active (Game.bounceLimit p) = true →
   p_active p = true ∧ p_bounces (Game.bounceLimit p) <= Game.maxBounce).
Proof.
  unfold Game.bounceLimit. destruct (_ <? _) eqn:E; [done|].
  apply Z.ltb_ge in E. repeat split; [tauto|lia].
Qed.

(** What one turn of the projectile loop pushes on the list: a
    projectile that is switched off, or one in the playfield. *)
Lemma stepProjectile_survivor host dt ds s p :
  (2 * Game.bubbleRadius <= ZtoQ (canvas_width host))%Q →
  ∃ p', (Game.stepProjectile host dt (ds, s) p).1 = ds ++ [p'] ∧
        (p_active p' = true → inPlayfield host p').
Proof.
  intros Hw. unfold Game.stepProjectile.
  destruct (negb (p_active p)) eqn:Ha.
  { exists p. split; [done|]. apply negb_true_iff in Ha. congruence. }
  cbn zeta.
  set (p1 := Game.bounceLimit (Game.bounce host (Game.move dt p))).
  destruct (bounce_walls host (Game.move dt p) Hw) as (Hx1 & Hx2 & _ & _).
  destruct (bounceLimit_fields (Game.bounce host (Game.move dt p)))
    as (Hx & Hy & Hb). fold p1 in Hx, Hy, Hb.
  destruct (Qltb (p_y p1) Game.bubbleRadius) eqn:E1.
  { eexists. split; [reflexivity|]. done. }
  apply Qltb_false in E1.
  destruct (Game.firstHit host _ p1) as [b|].
  { unfold Game.collide. cbn zeta. cbn [fst snd].
    destruct (Qltb _ _); eexists; (split; [reflexivity|done]). }
  destruct (Qltb _ (p_y p1)) eqn:E2.
  { eexists. split; [reflexivity|done]. }
  apply Qltb_false in E2. exists p1. split; [done|]. intros Hact.
  destruct (Hb Hact) as [_ Hb']. unfold inPlayfield.
  rewrite Hx. repeat split; done.
Qed.

Lemma foldl_stepProjectile_survivors host dt ps : ∀ ds s,
  (2 * Game.bubbleRadius <= ZtoQ (canvas_width host))%Q →
  Forall (λ p, p_active p = true → inPlayfield host p) ds →
  Forall (λ p, p_active p = true → inPlayfield host p)
    (foldl (Game.stepProjectile host dt) (ds, s) ps).1.
Proof.
  induction ps as [|p ps IH]; intros ds s Hw Hds; cbn [foldl]; [done|].
  destruct (stepProjectile_survivor host dt ds s p Hw) as (p' & Hp' & Hin).
  destruct (Game.stepProjectile host dt (ds, s) p) as [ds1 s1].
  simpl in Hp'. subst ds1. apply IH; [done|].
  apply Forall_app. split; [done|]. by constructor.
Qed.

(** The projectiles that a frame leaves are the active ones of the
    projectile loop. *)
Lemma update_projectiles host dt s :
  Game.projectiles (Game.update host dt s)
  = List.filter p_active
      (foldl (Game.stepProjectile host dt) ([], Game.easeAim s)
         (Game.projectiles (Game.easeAim s))).1.
Proof.
  assert (∀ x, Game.projectiles (Game.winLose host x) = Game.projectiles x)
    as Hwin.
  { intros x.
    apply (winLose_rel host (λ s s', Game.projectiles s' = Game.projectiles s));
      [done|congruence|].
    intros win y. unfold Game.endGame, Game.updateHighScore. cbn zeta.
    destruct (_ <? _); by destruct y. }
  unfold Game.update. rewrite Hwin. unfold Game.advance.
  destruct (foldl _ _ _) as [ps s1]. cbn [fst].
  destruct (Game.performanceNow host _) as [t s2] eqn:Hnow.
  assert (Game.projectiles s2 = List.filter p_active ps) as H2.
  { change s2 with (t, s2).2. rewrite <- Hnow. by destruct s1. }
  match goal with
  | |- Game.projectiles
         (if _ then Game.set_spawnTimer 0 (Game.pushRow host ?X) else ?X) = _ =>
      assert (Game.projectiles X = Game.projectiles s2) as H3
        by (by destruct s2);
      generalize dependent X
  end.
  intros X H3. destruct (Qle_bool _ _); [|congruence].
  pose proof (pushRow_frame host X) as Hf. unfold placementFrame in Hf.
  change (Game.projectiles (Game.set_spawnTimer 0 ?x)) with (Game.projectiles x).
  congruence.
Qed.

(** X7. On a canvas at least one bubble wide, every projectile that a
    frame update of [src/game.js] leaves in [state.projectiles] is
    active and in the playfield: its [x] is between the two walls
    ([r] and [canvas.width - r]), its [y] between the ceiling line
    [r] and the floor line [canvas.height - 12], and it has bounced
    at most [maxBounce] times. *)
Theorem projectiles_in_playfield (host : Host) (dt : Q) (s : Game.State) :
  (2 * Game.bubbleRadius <= ZtoQ (canvas_width host))%Q →
  Forall (λ p, p_active p = true ∧ inPlayfield host p)
    (Game.projectiles (Game.update host dt s)).
Proof.
  intros Hw. rewrite update_projectiles.
  pose proof (foldl_stepProjectile_survivors host dt
                (Game.projectiles (Game.easeAim s)) [] (Game.easeAim s) Hw
                ltac:(constructor)) as H.
  apply Forall_forall. intros p Hp%list_elem_of_In%filter_In.
  destruct Hp as [Hp Hact]. split; [done|].
  rewrite Forall_forall in H. apply H; [|done]. by apply list_elem_of_In.
Qed.

(** [projectiles_in_playfield] on the frame of a projectile in free
    flight. *)
Lemma projectiles_in_playfield_witness :
  (2 * Game.bubbleRadius <= ZtoQ (canvas_width demoHost))%Q ∧
  Forall (λ p, p_active p = true ∧ inPlayfield demoHost p)
    (Game.projectiles
       (Game.update demoHost (1 # 60)
          (gameWith [] [mkProjectile 240 300 0 (-720) red true 0 0]))).
Proof.
  assert (2 * Game.bubbleRadius <= ZtoQ (canvas_width demoHost))%Q as H
    by (by vm_compute).
  split; [exact H|]. exact (projectiles_in_playfield demoHost _ _ H).
Defined.

(** ** How a game ends *)

Lemma existsb_belowDanger host (l : list Bubble) :
  existsb (λ b, Qltb (ZtoQ (canvas_height host) - 100)%Q (b_y b)) l = true
  ↔ Exists (belowDanger host) l.
Proof.
  rewrite existsb_exists, Exists_exists. unfold belowDanger.
  split; intros (b & Hb & H); exists b.
  - split; [by apply list_elem_of_In|by apply Qltb_true].
  - split; [by apply list_elem_of_In|by apply Qltb_true].
Qed.

Lemma gridEmpty_concat (g : Grid) : Game.gridEmpty g = true ↔ concat g = [].
Proof.
  unfold Game.gridEmpty. induction g as [|r g IH]; simpl; [done|].
  rewrite andb_true_iff, IH. destruct r; simpl; [tauto|].
  split; [intros [? _]; done|done].
Qed.

(** X13. How a frame update of [src/game.js] ends a running game, the
    grid being the one that the frame has built before its win and
    lose checks: with no bubble left the game is won, [endGame(true)]
    called once; with a bubble below the danger line
    ([y > canvas.height - 100]) the game is lost, [endGame(false)]
    called once; otherwise the frame leaves the game running and
    calls [endGame] not at all. *)
Theorem game_end_conditions (host : Host) (dt : Q) (s : Game.State) :
  Game.gameOver s = false →
  let s1 := Game.advance host dt s in
  let s' := Game.update host dt s in
  (concat (Game.grid s1) = [] →
     Game.gameOver s' = true ∧
     Game.endGameCalls s' = Game.endGameCalls s ++ [true]) ∧
  (Exists (belowDanger host) (concat (Game.grid s1)) →
     Game.gameOver s' = true ∧
     Game.endGameCalls s' = Game.endGameCalls s ++ [false]) ∧
  (concat (Game.grid s1) ≠ [] →
   Forall (λ b, ¬ belowDanger host b) (concat (Game.grid s1)) →
     s' = s1 ∧ Game.gameOver s' = false ∧
     Game.endGameCalls s' = Game.endGameCalls s).
Proof.
  intros Hover. cbn zeta.
  destruct (advance_steady host dt s) as (Hg & He & _).
  rewrite Hover in Hg. unfold Game.update, Game.winLose. cbn zeta.
  rewrite Hg. cbn [negb andb].
  split; [|split].
  - intros Hempty. rewrite (proj2 (gridEmpty_concat _) Hempty).
    destruct (endGame_fields true (Game.set_gameOver true (Game.advance host dt s)))
      as (H1 & _ & H3 & _).
    rewrite H1. cbn [Game.gameOver Game.set_gameOver negb].
    rewrite H1, H3. cbn [Game.gameOver Game.set_gameOver].
    split; [done|]. by rewrite <- He.
  - intros Hex.
    assert (Game.gridEmpty (Game.grid (Game.advance host dt s)) = false) as ->.
    { apply not_true_iff_false. rewrite gridEmpty_concat. intros Hnil.
      rewrite Hnil in Hex. by apply Exists_nil in Hex. }
    rewrite Hg. cbn [negb]. rewrite (proj2 (existsb_belowDanger host _) Hex).
    destruct (endGame_fields false (Game.set_gameOver true (Game.advance host dt s)))
      as (H1 & _ & H3 & _).
    rewrite H1, H3. cbn [Game.gameOver Game.set_gameOver].
    split; [done|]. by rewrite <- He.
  - intros Hne Hall.
    assert (Game.gridEmpty (Game.grid (Game.advance host dt s)) = false) as ->.
    { apply not_true_iff_false. by rewrite gridEmpty_concat. }
    rewrite Hg. cbn [negb].
    assert (existsb (λ b, Qltb (ZtoQ (canvas_height host) - 100)%Q (b_y b))
              (concat (Game.grid (Game.advance host dt s))) = false) as ->.
    { apply not_true_iff_false. rewrite existsb_belowDanger.
      intros Hex. apply Exists_exists in Hex as (b & Hb & Hbd).
      rewrite Forall_forall in Hall. by apply (Hall b). }
    done.
Qed.

(** ** A game that is over *)

Lemma handle_over host s e :
  Game.inSession e = true → Game.gameOver s = true →
  frozenView (Game.handle host s e) = frozenView s ∧
  Game.nowCalls (Game.handle host s e)
  = (Game.nowCalls s + (if isFrame e then 1 else 0))%nat.
Proof.
  destruct e as [ts|mx my| |mx my|]; intros He Hover; [| | | |done];
    cbn [Game.handle isFrame].
  - rewrite gameLoop_over by done. destruct s; simpl. split; [done|lia].
  - destruct s; simpl. split; [done|lia].
  - unfold Game.click. rewrite Hover. cbn [orb]. split; [done|lia].
  - unfold Game.touchstart. cbn zeta.
    assert (Game.gameOver (Game.aimAt host mx my s) = true) as ->
      by (by destruct s). cbn [negb andb].
    destruct s; simpl. split; [done|lia].
Qed.

(** X14. While the game of [src/game.js] is over, no event other than
    [startGame] changes anything but the time of the last frame, the
    angle that the pointer asks for and the clock: frames move nothing,
    clicks and touches fire nothing, and the grid, the score, the
    shots, the projectiles, the effects and the angle of the shooter
    stay as they are.  Each frame still draws, and [draw()] reads
    [performance.now()] once: the clock has been read once per frame
    and by nothing else. *)
Theorem game_over_frozen (host : Host) (es : list Game.Event) (s : Game.State) :
  forallb Game.inSession es = true → Game.gameOver s = true →
  frozenView (foldl (Game.handle host) s es) = frozenView s ∧
  Game.nowCalls (foldl (Game.handle host) s es)
  = (Game.nowCalls s + length (List.filter isFrame es))%nat.
Proof.
  revert s. induction es as [|e es IH]; intros s Hes Hover;
    cbn [foldl List.filter]; [split; [done|simpl; lia]|].
  simpl in Hes. apply andb_prop in Hes as [He Hes].
  destruct (handle_over host s e He Hover) as [H1 H2].
  destruct (IH (Game.handle host s e)) as [H3 H4]; [done| |].
  { unfold frozenView in H1. congruence. }
  rewrite H3, H4, H1, H2. split; [done|].
  destruct (isFrame e); simpl; lia.
Qed.

(** [game_end_conditions] on a frame that finds the grid without a
    bubble. *)
Lemma game_end_conditions_witness :
  Game.gameOver (gameWith [[]] []) = false ∧
  concat (Game.grid (Game.advance demoHost (1 # 60) (gameWith [[]] []))) = [] ∧
  Game.gameOver (Game.update demoHost (1 # 60) (gameWith [[]] [])) = true.
Proof.
  assert (concat (Game.grid (Game.advance demoHost (1 # 60) (gameWith [[]] [])))
          = []) as H by (vm_compute; reflexivity).
  split; [reflexivity|]. split; [exact H|].
  exact (proj1 (proj1 (game_end_conditions demoHost (1 # 60) (gameWith [[]] [])
                         eq_refl) H)).
Defined.

(** [game_over_frozen] on a click and a frame of a game that is
    over. *)
Lemma game_over_frozen_witness :
  Game.gameOver (Game.set_gameOver true (gameWith twoReds [])) = true ∧
  frozenView (foldl (Game.handle demoHost)
                (Game.set_gameOver true (gameWith twoReds []))
                [Game.Click; Game.Frame 16])
  = frozenView (Game.set_gameOver true (gameWith twoReds [])) ∧
  Game.nowCalls (foldl (Game.handle demoHost)
                   (Game.set_gameOver true (gameWith twoReds []))
                   [Game.Click; Game.Frame 16])
  = S (Game.nowCalls (Game.set_gameOver true (gameWith twoReds []))).
Proof.
  split; [reflexivity|].
  destruct (game_over_frozen demoHost [Game.Click; Game.Frame 16]
              (Game.set_gameOver true (gameWith twoReds [])) eq_refl eq_refl)
    as [H1 H2].
  split; [exact H1|exact H2].
Defined.

(** ** Properties that every bubble of a grid has *)

Lemma gridAll_rows P (g : Grid) :
  gridAll P g ↔ Forall (Forall P) g.
Proof.
  unfold gridAll. induction g as [|r g IH]; simpl.
  - split; constructor.
  - rewrite Forall_app, IH, Forall_cons. tauto.
Qed.

Lemma gridAll_mapRows P (f : Bubble → Bubble) (g : Grid) :
  (∀ b, P b → P (f b)) → gridAll P g → gridAll P (map (map f) g).
Proof.
  intros Hf. rewrite !gridAll_rows. intros H.
  apply Forall_forall. intros r' (r & <- & Hr)%list_elem_of_In%in_map_iff.
  rewrite Forall_forall in H. specialize (H r (proj2 (list_elem_of_In _ _) Hr)).
  apply Forall_forall. intros b' (b & <- & Hb)%list_elem_of_In%in_map_iff.
  apply Hf. rewrite Forall_forall in H. apply H. by apply list_elem_of_In.
Qed.

Lemma gridAll_filterRows P (q : Bubble → bool) (g : Grid) :
  gridAll P g → gridAll P (map (List.filter q) g).
Proof.
  rewrite !gridAll_rows. intros H.
  apply Forall_forall. intros r' (r & <- & Hr)%list_elem_of_In%in_map_iff.
  rewrite Forall_forall in H. specialize (H r (proj2 (list_elem_of_In _ _) Hr)).
  apply Forall_forall. intros b [Hb _]%list_elem_of_In%filter_In.
  rewrite Forall_forall in H. apply H. by apply list_elem_of_In.
Qed.

Lemma gridAll_padded P (g : Grid) (n : nat) :
  gridAll P g → gridAll P (g ++ replicate n []).
Proof.
  rewrite !gridAll_rows. intros H. apply Forall_app. split; [done|].
  apply Forall_replicate. constructor.
Qed.

Lemma gridAll_insert P (g : Grid) (i : nat) (r : list Bubble) :
  gridAll P g → Forall P r → gridAll P (<[i := r]> g).
Proof. rewrite !gridAll_rows. intros H Hr. by apply Forall_insert. Qed.

Lemma gridAll_lookup P (g : Grid) (i : nat) :
  gridAll P g → Forall P (default [] (g !! i)).
Proof.
  rewrite gridAll_rows. intros H. destruct (g !! i) as [r|] eqn:E; [|constructor].
  simpl. eapply Forall_lookup_1; [exact H|exact E].
Qed.

Lemma gridAll_withBubble P (g : Grid) (b : Bubble) :
  gridAll P g → P b → gridAll P (withBubble g b).
Proof.
  intros Hg Hb. unfold withBubble. cbn zeta.
  apply gridAll_insert; [by apply gridAll_padded|].
  apply Forall_app. split; [|by repeat constructor].
  by apply gridAll_lookup, gridAll_padded.
Qed.

Lemma gridAll_imap P (f : nat → Bubble → Bubble) (g : Grid) :
  (∀ i b, P b → P (f i b)) →
  gridAll P g → gridAll P (imap (λ i rowArr, map (f i) rowArr) g).
Proof.
  intros Hf. rewrite !gridAll_rows. intros H.
  apply Forall_lookup. intros i r' Hi.
  rewrite list_lookup_imap in Hi.
  destruct (g !! i) as [r|] eqn:E; [|done]. simpl in Hi. injection Hi as <-.
  pose proof (Forall_lookup_1 _ _ _ _ H E) as Hr.
  apply Forall_forall. intros b' (b & <- & Hb)%list_elem_of_In%in_map_iff.
  apply Hf. rewrite Forall_forall in Hr. apply Hr. by apply list_elem_of_In.
Qed.

Lemma gridAll_cons P (r : list Bubble) (g : Grid) :
  gridAll P (r :: g) ↔ Forall P r ∧ gridAll P g.
Proof. unfold gridAll. simpl. by rewrite Forall_app. Qed.

Lemma gridAll_snoc P (g : Grid) (r : list Bubble) :
  gridAll P g → Forall P r → gridAll P (g ++ [r]).
Proof.
  rewrite !gridAll_rows. intros H Hr. apply Forall_app. split; [done|].
  by repeat constructor.
Qed.

(** The grid with the row that [addBubbleAt] pushes its bubble on. *)
Lemma withBubble_eq (g : Grid) (row col : Z) (b : Bubble) (rowArr : list Bubble) :
  b_row b = row →
  (g ++ replicate (Z.to_nat (row + 1) - length g)%nat []) !! Z.to_nat row
  = Some rowArr →
  <[Z.to_nat row := rowArr ++ [b]]>
    (g ++ replicate (Z.to_nat (row + 1) - length g)%nat [])
  = withBubble g b.
Proof. intros <- H. unfold withBubble. cbn zeta. by rewrite H. Qed.

(** ** A property of every bubble that the session keeps *)

Section GameGridAll.
Variable host : Host.
Variable P : Bubble → Prop.
Hypothesis P_mark : ∀ b, P b → P (mark b).
Hypothesis P_lower : ∀ b, P b → P (Game.lower b).
Hypothesis P_setRow : ∀ i b, P b → P (Game.setRow i b).
Hypothesis P_placed : ∀ tx ty color,
  P (Game.bubbleAt (Game.cellOf host tx ty).1 (Game.cellOf host tx ty).2 color).
Hypothesis P_top : ∀ k color,
  0 <= k < Game.perRow host → P (topBubble Game.bubbleRadius k color).
Hypothesis P_init : ∀ row c color,
  0 <= row < Game.rowCount →
  0 <= c < Game.perRow host - (if Z.rem row 2 =? 0 then 0 else 1) →
  P (mkBubble row c
       (Game.bubbleRadius + ZtoQ c * Game.bubbleRadius * 2
        + ZtoQ (Z.rem row 2) * Game.bubbleRadius)%Q
       (Game.bubbleRadius + ZtoQ row * Game.rowHeight)%Q color false).

Lemma clusterCheck_gridAll origin s :
  gridAll P (Game.grid s) → gridAll P (Game.grid (Game.clusterCheck host origin s)).
Proof.
  intros H. destruct (clusterCheck_grid host origin s) as (ks & ->).
  apply gridAll_mapRows; [|done]. intros b Hb. case_bool_decide; auto.
Qed.

Lemma floatingCheck_gridAll s :
  gridAll P (Game.grid s) → gridAll P (Game.grid (Game.floatingCheck host s)).
Proof. rewrite Game_floatingCheck_grid. apply gridAll_filterRows. Qed.

Lemma addBubbleAt_gridAll p tx ty s :
  gridAll P (Game.grid s) →
  gridAll P (Game.grid (Game.addBubbleAt host p tx ty s)).
Proof.
  intros H.
  destruct (cellAt (Game.grid s) (Game.cellOf host tx ty).1
              (Game.cellOf host tx ty).2) as [x|] eqn:Hcell.
  - by rewrite Game_addBubbleAt_occupied by by eexists.
  - rewrite Game_addBubbleAt_free by done.
    apply floatingCheck_gridAll, clusterCheck_gridAll.
    change (Game.grid (Game.set_grid ?g _)) with g.
    by apply gridAll_withBubble.
Qed.

Lemma pushRow_gridAll s :
  gridAll P (Game.grid s) → gridAll P (Game.grid (Game.pushRow host s)).
Proof.
  intros H. destruct (Game_pushRow_grid host s) as (newRow & -> & Hlen & Hk).
  unfold Game.renumber.
  apply (gridAll_imap P (λ i, Game.setRow (Z.of_nat i))); [auto|].
  apply gridAll_cons. split; [|by apply gridAll_mapRows].
  apply Forall_lookup. intros k b Hb.
  pose proof (lookup_lt_Some _ _ _ Hb) as Hlt. rewrite Hlen in Hlt.
  rewrite (Hk k Hlt) in Hb. injection Hb as <-. apply P_top. lia.
Qed.

Lemma initRow_all row s :
  0 <= row < Game.rowCount →
  Forall P (Game.initRow host row
              (Game.perRow host - (if Z.rem row 2 =? 0 then 0 else 1)) s).1.
Proof.
  intros Hrow. unfold Game.initRow. cbn zeta.
  rewrite (Game_buildRow_fold host
             (λ c col, mkBubble row c
                (Game.bubbleRadius + ZtoQ c * Game.bubbleRadius * 2
                 + ZtoQ (Z.rem row 2) * Game.bubbleRadius)%Q
                (Game.bubbleRadius + ZtoQ row * Game.rowHeight)%Q col false)).
  rewrite app_nil_l. cbn [fst].
  apply Forall_lookup. intros k b Hb. rewrite list_lookup_imap in Hb.
  destruct (seqZ 0 _ !! k) as [c|] eqn:Hc; [|done]. injection Hb as <-.
  apply lookup_seqZ in Hc as [-> Hk]. apply P_init; [done|lia].
Qed.

Lemma initGrid_all (rows : list Z) : ∀ s,
  Forall (λ row, 0 <= row < Game.rowCount) rows →
  gridAll P (Game.grid s) →
  gridAll P
    (Game.grid
       (foldl (λ s row,
                 let count := Game.perRow host
                              - (if Z.rem row 2 =? 0 then 0 else 1) in
                 let '(arr, s) := Game.initRow host row count s in
                 Game.set_grid (Game.grid s ++ [arr]) s) s rows)).
Proof.
  induction rows as [|row rows IH]; intros s Hrows H; [done|].
  apply Forall_cons in Hrows as [Hrow Hrows]. cbn [foldl]. cbn zeta.
  pose proof (initRow_all row s Hrow) as Harr.
  destruct (initRow_row host row
              (Game.perRow host - (if Z.rem row 2 =? 0 then 0 else 1)) s)
    as (Hg & _).
  destruct (Game.initRow host row _ s) as [arr s1]. simpl in *.
  apply IH; [done|].
  change (Game.grid (Game.set_grid ?g _)) with g. rewrite Hg.
  by apply gridAll_snoc.
Qed.

Lemma initGrid_gridAll s : gridAll P (Game.grid (Game.initGrid host s)).
Proof.
  unfold Game.initGrid. apply initGrid_all; [|constructor].
  apply Forall_forall. intros row Hrow%elem_of_seqZ. lia.
Qed.

Lemma startGame_gridAll s : gridAll P (Game.grid (Game.startGame host s)).
Proof.
  unfold Game.startGame. cbn zeta.
  match goal with
  | |- context [Game.initGrid host ?s0] =>
      pose proof (initGrid_gridAll s0) as H;
      generalize dependent (Game.initGrid host s0)
  end.
  intros s1 H. by destruct s1.
Qed.

Lemma handle_gridAll s e :
  gridAll P (Game.grid s) → gridAll P (Game.grid (Game.handle host s e)).
Proof.
  destruct e as [ts|mx my| |mx my|].
  - change (gridKeeps P s (Game.handle host s (Game.Frame ts))).
    apply (handle_rel host (gridKeeps P)); unfold gridKeeps;
      [done
      |tauto
      |intros x; by destruct x
      |intros p x; by rewrite (gameCore_grid _ _ (pushTrail_core host p x))
      |apply addBubbleAt_gridAll
      |
      |apply pushRow_gridAll
      |
      |
      |intros mx my x; by destruct x
      |done].
    + intros x x' Hf. unfold frameSide in Hf.
      assert (Game.grid x' = Game.grid x) as -> by congruence. done.
    + intros win x. unfold Game.endGame, Game.updateHighScore. cbn zeta.
      destruct (_ <? _); by destruct x.
    + intros x. unfold Game.newProjectile. by destruct x as [? ? ? []].
  - by destruct s.
  - unfold Game.handle, Game.click. destruct (_ || _); [done|].
    unfold Game.newProjectile. by destruct s as [? ? ? []].
  - unfold Game.handle, Game.touchstart. cbn zeta.
    assert (Game.grid (Game.aimAt host mx my s) = Game.grid s) as Ha
      by by destruct s.
    destruct (_ && _); [|by rewrite Ha].
    rewrite <- Ha. generalize (Game.aimAt host mx my s). intros x Hx.
    unfold Game.newProjectile. by destruct x as [? ? ? []].
  - intros _. apply startGame_gridAll.
Qed.

Lemma session_gridAll es : ∀ s,
  gridAll P (Game.grid s) → gridAll P (Game.grid (foldl (Game.handle host) s es)).
Proof.
  induction es as [|e es IH]; intros s H; cbn [foldl]; [done|].
  by apply IH, handle_gridAll.
Qed.

End GameGridAll.

Lemma ZtoQ_nonneg (z : Z) : 0 <= z → (0 <= ZtoQ z)%Q.
Proof. intros H. unfold ZtoQ. change 0%Q with (inject_Z 0). by rewrite <- Zle_Qle. Qed.

Lemma rowY_lower (row : Z) :
  0 <= row → (Game.bubbleRadius <= Game.bubbleRadius + ZtoQ row * Game.rowHeight)%Q.
Proof.
  intros H. pose proof (ZtoQ_nonneg row H) as Hq.
  assert (0 <= ZtoQ row * Game.rowHeight)%Q.
  { apply Qmult_le_0_compat; [done|]. by vm_compute. }
  lra.
Qed.

Lemma onRaster_bubbleAt host row col color :
  0 <= row → 0 <= col <= Z.max 0 (Game.perRow host - 1) →
  onRaster host (Game.bubbleAt row col color).
Proof.
  intros Hrow Hcol. unfold onRaster, Game.bubbleAt. cbn zeta.
  cbn [b_c b_x b_y]. split; [done|]. split; [|by apply rowY_lower].
  unfold Game.bubbleRadius, ZtoQ.
  destruct (rem2_cases row Hrow) as [-> | ->]; [left|right]; field.
Qed.

Lemma perRow_width host :
  1 <= Game.perRow host →
  (2 * Game.bubbleRadius * ZtoQ (Game.perRow host) <= ZtoQ (canvas_width host))%Q.
Proof.
  intros H. unfold Game.perRow, js_floor, Game.bubbleRadius, ZtoQ in *.
  pose proof (Qfloor_le (inject_Z (canvas_width host) / (16 * 2))) as Hf.
  set (n := inject_Z (Qfloor _)) in *. clearbody n.
  assert (inject_Z (canvas_width host)
          == 32 * (inject_Z (canvas_width host) / (16 * 2)))%Q as -> by field.
  lra.
Qed.

Lemma onRaster_canvas host b :
  1 <= Game.perRow host → onRaster host b →
  (Game.bubbleRadius <= b_x b)%Q ∧ (b_x b <= ZtoQ (canvas_width host))%Q.
Proof.
  intros Hper ([Hc0 Hc1] & Hx & _). pose proof (perRow_width host Hper) as Hw.
  pose proof (ZtoQ_nonneg _ Hc0) as Hq0.
  assert (ZtoQ (b_c b) <= ZtoQ (Game.perRow host) - 1)%Q as Hq1.
  { unfold ZtoQ.
    assert (inject_Z (b_c b) <= inject_Z (Game.perRow host + -1))%Q as Hle
      by (rewrite <- Zle_Qle; lia).
    rewrite inject_Z_plus in Hle. change (inject_Z (-1)) with (-1)%Q in Hle.
    lra. }
  unfold Game.bubbleRadius in *.
  destruct Hx as [-> | ->]; split; lra.
Qed.

Lemma session_onRaster host :
  (∀ s, gridAll (onRaster host) (Game.grid (Game.startGame host s))) ∧
  (∀ es s, gridAll (onRaster host) (Game.grid s) →
           gridAll (onRaster host) (Game.grid (foldl (Game.handle host) s es))).
Proof.
  assert (∀ b, onRaster host b → onRaster host (mark b)) as Hmark by done.
  assert (∀ b, onRaster host b → onRaster host (Game.lower b)) as Hlower.
  { intros b (Hc & Hx & Hy). split; [done|]. split; [done|]. simpl.
    assert (0 <= Game.rowHeight)%Q by by vm_compute. lra. }
  assert (∀ i b, onRaster host b → onRaster host (Game.setRow i b)) as Hset by done.
  assert (∀ tx ty color,
            onRaster host (Game.bubbleAt (Game.cellOf host tx ty).1
                             (Game.cellOf host tx ty).2 color)) as Hplaced.
  { intros tx ty color. destruct (Game_cellOf_bounds host tx ty) as [H1 H2].
    by apply onRaster_bubbleAt. }
  assert (∀ k color, 0 <= k < Game.perRow host →
                     onRaster host (topBubble Game.bubbleRadius k color)) as Htop.
  { intros k color Hk. unfold onRaster, topBubble. cbn [b_c b_x b_y].
    split; [lia|]. split; [|lra]. left. unfold Game.bubbleRadius. field. }
  assert (∀ row c color,
    0 <= row < Game.rowCount →
    0 <= c < Game.perRow host - (if Z.rem row 2 =? 0 then 0 else 1) →
    onRaster host
      (mkBubble row c
         (Game.bubbleRadius + ZtoQ c * Game.bubbleRadius * 2
          + ZtoQ (Z.rem row 2) * Game.bubbleRadius)%Q
         (Game.bubbleRadius + ZtoQ row * Game.rowHeight)%Q color false)) as Hinit.
  { intros row c color Hrow Hc.
    apply (onRaster_bubbleAt host row c color); [lia|].
    destruct (Z.rem row 2 =? 0); lia. }
  split.
  - intros s. by apply startGame_gridAll.
  - intros es s. by apply session_gridAll.
Qed.

(** X4. The geometry of the grid of [src/game.js].  [addBubbleAt]
    snaps every target, however far off the canvas, to a row that is
    not negative and to a column of [0 .. perRow - 1].  Every bubble
    that [startGame] builds is on the raster of the columns, and
    every event keeps the bubbles of the grid on it; on a canvas at
    least one bubble wide the centre of such a bubble is between [r]
    and [canvas.width]. *)
Theorem grid_on_raster (host : Host) :
  (∀ tx ty,
     0 <= (Game.cellOf host tx ty).1 ∧
     0 <= (Game.cellOf host tx ty).2 <= Z.max 0 (Game.perRow host - 1)) ∧
  (∀ s, gridAll (onRaster host) (Game.grid (Game.startGame host s))) ∧
  (∀ es s,
     gridAll (onRaster host) (Game.grid s) →
     gridAll (onRaster host) (Game.grid (foldl (Game.handle host) s es))) ∧
  (∀ b,
     1 <= Game.perRow host → onRaster host b →
     (Game.bubbleRadius <= b_x b)%Q ∧ (b_x b <= ZtoQ (canvas_width host))%Q).
Proof.
  split; [apply Game_cellOf_bounds|].
  split; [apply session_onRaster|]. split; [apply session_onRaster|].
  intros b. apply onRaster_canvas.
Qed.

(** [grid_on_raster] on a frame that places a bubble. *)
Lemma grid_on_raster_witness :
  gridAll (onRaster demoHost) (Game.grid (gameWith [] [])) ∧
  gridAll (onRaster demoHost)
    (Game.grid (foldl (Game.handle demoHost) (gameWith [] [])
                  [Game.Click; Game.Frame 16; Game.Frame 32])).
Proof.
  assert (gridAll (onRaster demoHost) (Game.grid (gameWith [] []))) as H
    by constructor.
  split; [exact H|].
  exact (proj1 (proj2 (proj2 (grid_on_raster demoHost))) _ _ H).
Defined.

(** X5. The grid invariant of [src/game.js] (every bubble stored in
    the row array of its row index, no two bubbles of a row in one
    column) holds of the grid that [startGame] builds, and every
    event keeps it. *)
Theorem grid_invariant_kept (host : Host) :
  (∀ s, wellFormed (Game.grid (Game.startGame host s)) = true) ∧
  (∀ es s,
     wellFormed (Game.grid s) = true →
     wellFormed (Game.grid (foldl (Game.handle host) s es)) = true).
Proof.
  split; [apply startGame_wellFormed|].
  intros es. induction es as [|e es IH]; intros s H; cbn [foldl]; [done|].
  by apply IH, handle_wellFormed.
Qed.

(** [grid_invariant_kept] on the frame in which a shot pops the two
    red bubbles of row 0. *)
Lemma grid_invariant_kept_witness :
  wellFormed (Game.grid (gameWith twoReds [])) = true ∧
  wellFormed (Game.grid (foldl (Game.handle demoHost) (gameWith twoReds [])
                           [Game.Frame 16])) = true.
Proof.
  assert (wellFormed (Game.grid (gameWith twoReds [])) = true) as H
    by (vm_compute; reflexivity).
  split; [exact H|].
  exact (proj2 (grid_invariant_kept demoHost) [Game.Frame 16]
           (gameWith twoReds []) H).
Defined.

(** * The earlier version: its grid through a session *)

Lemma Qfloor_neg (x : Q) : Qfloor x < 0 ↔ (x < 0)%Q.
Proof.
  split; intros H.
  - pose proof (Qlt_floor x) as H1.
    assert (inject_Z (Qfloor x + 1) <= inject_Z 0)%Q as H2
      by (rewrite <- Zle_Qle; lia).
    change (inject_Z 0) with 0%Q in H2. lra.
  - destruct (Z.lt_ge_cases (Qfloor x) 0) as [|Hge]; [done|].
    pose proof (Qfloor_le x) as H1.
    assert (inject_Z 0 <= inject_Z (Qfloor x))%Q as H2
      by (rewrite <- Zle_Qle; lia).
    change (inject_Z 0) with 0%Q in H2. lra.
Qed.

(** The rows that [worldToGrid] sends above the grid. *)
Lemma Early_worldToGrid_neg (y : Q) :
  Early.worldToGrid y < 0 ↔ (y < 2144 # 1000)%Q.
Proof.
  unfold Early.worldToGrid, js_round. rewrite Qfloor_neg.
  unfold Early.rowHeight, Early.bubbleRadius.
  assert ((y - 16) / (16 * (1732 # 1000)) + (1 # 2)
          == (1000 # 27712) * (y - (2144 # 1000)))%Q as -> by field.
  split; intros H; lra.
Qed.

Lemma padRows_row (g : Grid) (row : Z) :
  0 <= row → is_Some (Early.padRows g row !! Z.to_nat row).
Proof.
  intros H. apply lookup_lt_is_Some. unfold Early.padRows.
  rewrite length_app, length_replicate. lia.
Qed.

(** [addBubbleAt] throws on the targets that [worldToGrid] sends above
    the grid, and on no other. *)
Lemma Early_addBubbleAt_None host p tx ty s :
  Early.addBubbleAt host p tx ty s = None ↔ Early.worldToGrid ty < 0.
Proof.
  unfold Early.addBubbleAt, Early.cellOf. cbn zeta.
  set (row := Early.worldToGrid ty). unfold gridRow.
  destruct (row <? 0) eqn:E.
  - apply Z.ltb_lt in E. tauto.
  - apply Z.ltb_ge in E. destruct (padRows_row (Early.grid s) row E) as [r ->].
    split; [|lia]. by destruct (findCol _ r).
Qed.

Lemma Early_buildRow_fold host (mk : Z → Color → Bubble) (l : list Z) : ∀ arr s,
  foldl (λ '(arr, s) c,
           let '(col, s) := Early.pickColor host s in (arr ++ [mk c col], s))
        (arr, s) l
  = (arr ++ imap (λ k c,
                    mk c (Early.pickColor host
                            (Early.set_randomCalls (Early.randomCalls s + k) s)).1)
               l,
     Early.set_randomCalls (Early.randomCalls s + length l) s).
Proof.
  induction l as [|c l IH]; intros arr s.
  - simpl. rewrite app_nil_r, Nat.add_0_r. by destruct s.
  - cbn [foldl]. rewrite Early_pickColor_eq. cbn iota beta. rewrite IH.
    rewrite <- app_assoc. cbn [imap app length].
    rewrite Early_set_randomCalls_twice. f_equal.
    + f_equal. f_equal.
      * rewrite Nat.add_0_r. by destruct s.
      * apply imap_ext. intros k x _. simpl. by rewrite Nat.add_succ_r.
    + simpl. by rewrite Nat.add_succ_r.
Qed.

Lemma Early_clusterCheck_grid origin s :
  ∃ ks : list Key,
    Early.grid (Early.clusterCheck origin s)
    = map (map (λ x, if bool_decide (key x ∈ ks) then mark x else x))
        (Early.grid s).
Proof.
  destruct (Early_clusterCheck_effect origin s) as [Hlt Hge]. cbn zeta in *.
  destruct (le_lt_dec 3 (length (clusterOf (Early.grid s) origin))) as [H|H].
  - destruct (Hge H) as [-> _]. rewrite foldl_markKey. by eexists.
  - rewrite (Hlt H). exists []. symmetry. etrans; [|apply map_id].
    apply map_ext. intros r. etrans; [|apply map_id]. by apply map_ext.
Qed.

Lemma Early_floatingCheck_grid s :
  Early.grid (Early.floatingCheck s)
  = map (map (λ b, if Early.floats (connectedSet (Early.grid s)) b
                   then mark b else b)) (Early.grid s).
Proof. by rewrite Early_floatingCheck_eq. Qed.

Lemma last_snoc_nil (g : Grid) :
  last g = Some [] → ∃ g', g = g' ++ [[]].
Proof.
  intros H. destruct (list.last_is_Some g) as [_ Hl].
  destruct g as [|r g] using rev_ind; [done|].
  rewrite last_snoc in H. injection H as ->. by exists g.
Qed.

(** What the removal loop leaves: the bubbles that are not flagged, in
    their order; the grid loses its last row when that row is left
    empty, and no other row. *)
Lemma removeFlagged_spec (g : Grid) :
  concat (Early.removeFlagged g)
  = List.filter (λ b, negb (b_removing b)) (concat g) ∧
  (length g - 1 ≤ length (Early.removeFlagged g) ≤ length g)%nat ∧
  ∃ n, Early.removeFlagged g
       = take n (map (List.filter (λ b, negb (b_removing b))) g).
Proof.
  unfold Early.removeFlagged. cbn zeta.
  set (g1 := map (List.filter (λ b, negb (b_removing b))) g).
  assert (concat g1 = List.filter (λ b, negb (b_removing b)) (concat g)) as Hc.
  { unfold g1. clear. induction g as [|r g IH]; [done|].
    cbn [map concat]. by rewrite List.filter_app, IH. }
  assert (length g1 = length g) as Hl by apply length_map.
  destruct (last g1) as [[|b r]|] eqn:E.
  - destruct (last_snoc_nil g1 E) as (g' & Hg').
    rewrite Hg', removelast_last. rewrite Hg' in Hc, Hl.
    rewrite concat_app in Hc. simpl in Hc. rewrite app_nil_r in Hc.
    rewrite length_app in Hl. simpl in Hl.
    split; [done|]. split; [lia|]. exists (length g').
    by rewrite take_app_length.
  - split; [done|]. split; [lia|]. exists (length g1). by rewrite firstn_all.
  - split; [done|]. split; [lia|]. exists (length g1). by rewrite firstn_all.
Qed.

Lemma Early_loseCheck_grid dangerY rows : ∀ s,
  Early.grid (Early.loseCheck dangerY rows s) = Early.grid s.
Proof.
  induction rows as [|r rows IH]; intros s; [done|]. cbn [Early.loseCheck].
  cbn zeta. destruct (existsb _ r).
  - by destruct s.
  - destruct (Early.gameOver s); [done|]. apply IH.
Qed.

Lemma Early_winLose_grid host s :
  Early.grid (Early.winLose host s) = Early.grid s.
Proof.
  unfold Early.winLose. cbn zeta. rewrite Early_loseCheck_grid.
  destruct (_ && _); by destruct s.
Qed.

(** X18. In the earlier version [addBubbleAt] throws (the row that
    [worldToGrid] returns is negative, [state.grid[row]] is
    [undefined] and [rowArr.find] is a [TypeError]) exactly when the
    target is more than half a row above the first row:
    [targetY < 2.144], whatever the grid, the projectile and
    [targetX].  On every other target it returns. *)
Theorem early_placement_throws (host : Host) (p : Early.Projectile)
    (tx ty : Q) (s : Early.State) :
  (Early.addBubbleAt host p tx ty s = None ↔ (ty < 2144 # 1000)%Q) ∧
  (is_Some (Early.addBubbleAt host p tx ty s) ↔ (2144 # 1000 <= ty)%Q).
Proof.
  rewrite <- Early_worldToGrid_neg, <- Early_addBubbleAt_None.
  split; [done|].
  pose proof (Early_addBubbleAt_None host p tx ty s) as Hn.
  pose proof (Early_worldToGrid_neg ty) as Hw.
  destruct (Early.addBubbleAt host p tx ty s) as [s'|] eqn:E.
  - split; [|by eexists]. intros _.
    apply Qnot_lt_le. intros Hlt. apply Hw, Hn in Hlt. done.
  - split; [by intros [? ?]|]. intros Hle.
    assert (ty < 2144 # 1000)%Q by tauto. lra.
Qed.

Section EarlyGridAll.
Variable host : Host.
Variable P : Bubble → Prop.
Hypothesis P_mark : ∀ b, P b → P (mark b).
Hypothesis P_lower : ∀ b, P b → P (Early.lower b).
Hypothesis P_setRow : ∀ i b, P b → P (Early.setRow i b).
Hypothesis P_placed : ∀ row col color,
  0 <= row → P (Early.bubbleAt row col color).
Hypothesis P_top : ∀ k color, P (topBubble Early.bubbleRadius k color).
Hypothesis P_init : ∀ row c color,
  0 <= row < Early.rowCount →
  0 <= c < Early.perRow host - (if Z.rem row 2 =? 0 then 0 else 1) →
  P (mkBubble row c
       (Early.bubbleRadius + ZtoQ c * Early.bubbleRadius * 2
        + ZtoQ (Z.rem row 2) * Early.bubbleRadius)%Q
       (Early.bubbleRadius + ZtoQ row * Early.initRowHeight)%Q color false).

Lemma Early_clusterCheck_gridAll origin s :
  gridAll P (Early.grid s) → gridAll P (Early.grid (Early.clusterCheck origin s)).
Proof.
  intros H. destruct (Early_clusterCheck_grid origin s) as (ks & ->).
  apply gridAll_mapRows; [|done]. intros b Hb. case_bool_decide; auto.
Qed.

Lemma Early_floatingCheck_gridAll s :
  gridAll P (Early.grid s) → gridAll P (Early.grid (Early.floatingCheck s)).
Proof.
  intros H. rewrite Early_floatingCheck_grid.
  apply gridAll_mapRows; [|done]. intros b Hb. destruct (Early.floats _ b); auto.
Qed.

Lemma Early_addBubbleAt_gridAll p tx ty s s' :
  Early.addBubbleAt host p tx ty s = Some s' →
  gridAll P (Early.grid s) → gridAll P (Early.grid s').
Proof.
  intros Hadd H.
  assert (0 <= (Early.cellOf host tx ty).1) as Hrow.
  { destruct (Z.lt_ge_cases (Early.cellOf host tx ty).1 0) as [Hneg|]; [|done].
    apply (Early_addBubbleAt_None host p tx ty s) in Hneg. congruence. }
  destruct (cellAt (Early.grid s) (Early.cellOf host tx ty).1
              (Early.cellOf host tx ty).2) as [x|] eqn:Hcell.
  - rewrite Early_addBubbleAt_occupied in Hadd by by eexists. congruence.
  - rewrite Early_addBubbleAt_free in Hadd by done. injection Hadd as <-.
    apply Early_floatingCheck_gridAll, Early_clusterCheck_gridAll.
    change (Early.grid (Early.set_grid ?g _)) with g.
    apply gridAll_withBubble; [done|]. by apply P_placed.
Qed.

Lemma removeFlagged_gridAll (g : Grid) :
  gridAll P g → gridAll P (Early.removeFlagged g).
Proof.
  intros H. destruct (removeFlagged_spec g) as (_ & _ & n & ->).
  apply gridAll_rows, Forall_take, gridAll_rows.
  by apply gridAll_filterRows.
Qed.

Lemma Early_pushRow_gridAll s :
  gridAll P (Early.grid s) → gridAll P (Early.grid (Early.pushRow host s)).
Proof.
  intros H. destruct (Early_pushRow_grid host s) as (newRow & -> & Hlen & Hk).
  unfold Early.renumber.
  apply (gridAll_imap P (λ i, Early.setRow (Z.of_nat i))); [auto|].
  apply gridAll_cons. split; [|by apply gridAll_mapRows].
  apply Forall_lookup. intros k b Hb.
  pose proof (lookup_lt_Some _ _ _ Hb) as Hlt. rewrite Hlen in Hlt.
  rewrite (Hk k Hlt) in Hb. injection Hb as <-. apply P_top.
Qed.

Lemma Early_initRow_all row s :
  0 <= row < Early.rowCount →
  Forall P (Early.initRow host row
              (Early.perRow host - (if Z.rem row 2 =? 0 then 0 else 1)) s).1 ∧
  Early.grid (Early.initRow host row
                (Early.perRow host - (if Z.rem row 2 =? 0 then 0 else 1)) s).2
  = Early.grid s.
Proof.
  intros Hrow. unfold Early.initRow. cbn zeta.
  rewrite (Early_buildRow_fold host
             (λ c col, mkBubble row c
                (Early.bubbleRadius + ZtoQ c * Early.bubbleRadius * 2
                 + ZtoQ (Z.rem row 2) * Early.bubbleRadius)%Q
                (Early.bubbleRadius + ZtoQ row * Early.initRowHeight)%Q
                col false)).
  rewrite app_nil_l. cbn [fst snd]. split; [|by destruct s].
  apply Forall_lookup. intros k b Hb. rewrite list_lookup_imap in Hb.
  destruct (seqZ 0 _ !! k) as [c|] eqn:Hc; [|done]. injection Hb as <-.
  apply lookup_seqZ in Hc as [-> Hk]. apply P_init; [done|lia].
Qed.

Lemma Early_initGrid_all (rows : list Z) : ∀ s,
  Forall (λ row, 0 <= row < Early.rowCount) rows →
  gridAll P (Early.grid s) →
  gridAll P
    (Early.grid
       (foldl (λ s row,
                 let count := Early.perRow host
                              - (if Z.rem row 2 =? 0 then 0 else 1) in
                 let '(arr, s) := Early.initRow host row count s in
                 Early.set_grid (Early.grid s ++ [arr]) s) s rows)).
Proof.
  induction rows as [|row rows IH]; intros s Hrows H; [done|].
  apply Forall_cons in Hrows as [Hrow Hrows]. cbn [foldl]. cbn zeta.
  destruct (Early_initRow_all row s Hrow) as [Harr Hg].
  destruct (Early.initRow host row _ s) as [arr s1]. simpl in *.
  apply IH; [done|].
  change (Early.grid (Early.set_grid ?g _)) with g. rewrite Hg.
  by apply gridAll_snoc.
Qed.

Lemma Early_startGame_gridAll s :
  gridAll P (Early.grid (Early.startGame host s)).
Proof.
  unfold Early.startGame. cbn zeta.
  match goal with
  | |- context [Early.initGrid host ?s0] =>
      assert (gridAll P (Early.grid (Early.initGrid host s0))) as H;
        [|generalize dependent (Early.initGrid host s0)]
  end.
  { unfold Early.initGrid. apply Early_initGrid_all; [|constructor].
    apply Forall_forall. intros row Hrow%elem_of_seqZ. lia. }
  intros s1 H. by destruct s1.
Qed.

End EarlyGridAll.

Lemma ZtoQ_ge_1 (z : Z) : 1 <= z → (1 <= ZtoQ z)%Q.
Proof. intros H. unfold ZtoQ. change 1%Q with (inject_Z 1). by rewrite <- Zle_Qle. Qed.

Lemma rowSpaced_bubbleAt row col color :
  0 <= row → rowSpaced (Early.bubbleAt row col color).
Proof.
  intros H. unfold rowSpaced, Early.bubbleAt. cbn zeta. cbn [b_y].
  unfold Early.rowHeight, Early.initRowHeight, Early.bubbleRadius.
  destruct (Z.eq_dec row 0) as [-> | Hne].
  - left. unfold ZtoQ. change (inject_Z 0) with 0%Q. field.
  - right. pose proof (ZtoQ_ge_1 row ltac:(lia)). lra.
Qed.

Lemma rowSpaced_init row c color x :
  0 <= row →
  rowSpaced (mkBubble row c x
               (Early.bubbleRadius + ZtoQ row * Early.initRowHeight)%Q
               color false).
Proof.
  intros H. unfold rowSpaced. cbn [b_y].
  unfold Early.initRowHeight, Early.bubbleRadius.
  destruct (Z.eq_dec row 0) as [-> | Hne].
  - left. unfold ZtoQ. change (inject_Z 0) with 0%Q. field.
  - right. pose proof (ZtoQ_ge_1 row ltac:(lia)). lra.
Qed.

Lemma rowSpaced_lower b : rowSpaced b → rowSpaced (Early.lower b).
Proof.
  unfold rowSpaced, Early.lower. cbn [b_y].
  unfold Early.rowHeight, Early.initRowHeight, Early.bubbleRadius.
  intros [H | H]; right; lra.
Qed.

Section EarlyTotal.
Variable host : Host.
Hypothesis trig : trigSane host.

Lemma Early_addBubbleAt_spaced p tx ty s :
  (2144 # 1000 <= ty)%Q → gridAll rowSpaced (Early.grid s) →
  ∃ s', Early.addBubbleAt host p tx ty s = Some s' ∧
        gridAll rowSpaced (Early.grid s').
Proof.
  intros Hty H.
  destruct (Early.addBubbleAt host p tx ty s) as [s'|] eqn:E.
  - exists s'. split; [done|].
    apply (Early_addBubbleAt_gridAll host rowSpaced) with p tx ty s;
      [done|apply rowSpaced_bubbleAt|done|done].
  - apply Early_addBubbleAt_None, Early_worldToGrid_neg in E. lra.
Qed.

Lemma Early_collide_target (p : Early.Projectile) (b : Bubble) :
  rowSpaced b → (Early.bubbleRadius <= Early.p_y p)%Q →
  (2144 # 1000
   <= b_y b + sin host (atan2 host (Early.p_y p - b_y b) (Early.p_x p - b_x b))
              * Early.bubbleRadius * 2)%Q.
Proof.
  destruct trig as [Hsin Hup].
  unfold rowSpaced, Early.initRowHeight, Early.bubbleRadius.
  intros [Hb | Hb] Hp.
  - pose proof (Hup (Early.p_y p - b_y b)%Q (Early.p_x p - b_x b)%Q
                  ltac:(lra)). lra.
  - pose proof (Hsin (atan2 host (Early.p_y p - b_y b) (Early.p_x p - b_x b))%Q).
    lra.
Qed.

Lemma Early_stepProjectile_total dt ds s p :
  gridAll rowSpaced (Early.grid s) →
  ∃ ds' s', Early.stepProjectile host dt (Some (ds, s)) p = Some (ds', s') ∧
            gridAll rowSpaced (Early.grid s').
Proof.
  intros H. unfold Early.stepProjectile. cbn [mbind option_bind].
  destruct (negb (Early.p_active p)); [by eexists _, _|].
  cbn zeta.
  set (p1 := Early.bounceLimit (Early.bounce host (Early.move dt p))).
  destruct (Qltb (Early.p_y p1) Early.bubbleRadius) eqn:E1.
  - destruct (Early_addBubbleAt_spaced (Early.deactivate p1)
                (Early.p_x (Early.deactivate p1)) Early.bubbleRadius s
                ltac:(by vm_compute) H) as (s' & -> & H').
    cbn [mbind option_bind]. by eexists _, _.
  - apply Qltb_false in E1.
    destruct (Early.firstHit host (Early.grid s) p1) as [b|] eqn:Ehit.
    + unfold Early.firstHit in Ehit. apply find_some in Ehit as [Hb _].
      apply list_elem_of_In in Hb.
      assert (rowSpaced b) as Hsp.
      { unfold gridAll in H. rewrite Forall_forall in H. by apply H. }
      unfold Early.collide. cbn zeta.
      match goal with
      | |- context [Early.addBubbleAt host ?q ?tx ?ty s] =>
          destruct (Early_addBubbleAt_spaced q tx ty s) as (s' & -> & H');
            [|done|]
      end.
      { apply (Early_collide_target (Early.deactivate p1) b Hsp). exact E1. }
      cbn [mbind option_bind]. by eexists _, _.
    + cbn [mbind option_bind]. by eexists _, _.
Qed.

Lemma Early_foldl_stepProjectile_total dt ps : ∀ ds s,
  gridAll rowSpaced (Early.grid s) →
  ∃ ds' s', foldl (Early.stepProjectile host dt) (Some (ds, s)) ps
            = Some (ds', s') ∧
            gridAll rowSpaced (Early.grid s').
Proof.
  induction ps as [|p ps IH]; intros ds s H; cbn [foldl]; [by eexists _, _|].
  destruct (Early_stepProjectile_total dt ds s p H) as (ds1 & s1 & -> & H1).
  by apply IH.
Qed.

Lemma Early_update_total dt s :
  gridAll rowSpaced (Early.grid s) →
  ∃ s', Early.update host dt s = Some s' ∧ gridAll rowSpaced (Early.grid s').
Proof.
  intros H. unfold Early.update, Early.advance.
  destruct (Early_foldl_stepProjectile_total dt (Early.projectiles s) [] s H)
    as (ps & s1 & -> & H1).
  cbn [mbind option_bind fmap option_fmap option_map]. cbn zeta.
  eexists. split; [reflexivity|]. rewrite Early_winLose_grid.
  assert (gridAll rowSpaced (Early.removeFlagged (Early.grid s1))) as H2
    by by apply removeFlagged_gridAll.
  destruct (Qle_bool _ _).
  - change (Early.grid (Early.set_spawnTimer 0 ?x)) with (Early.grid x).
    apply (Early_pushRow_gridAll host rowSpaced);
      [apply rowSpaced_lower|done| |done].
    intros k color. left. reflexivity.
  - done.
Qed.

Lemma Early_handle_total s e :
  gridAll rowSpaced (Early.grid s) →
  ∃ s', Early.handle host s e = Some s' ∧ gridAll rowSpaced (Early.grid s').
Proof.
  intros H. destruct e as [ts|mx my| |mx my|]; cbn [Early.handle].
  - unfold Early.gameLoop. cbn zeta.
    match goal with
    | |- ∃ s', (if _ then Early.update host ?dt ?X else _) = _ ∧ _ =>
        assert (Early.grid X = Early.grid s) as HX
          by (destruct (Qeq_bool _ _); by destruct s);
        generalize dependent X
    end.
    intros X HX. destruct (negb _).
    + apply Early_update_total. by rewrite HX.
    + exists X. by rewrite HX.
  - eexists. split; [done|]. by destruct s.
  - eexists. split; [done|]. unfold Early.click. destruct (_ || _); [done|].
    unfold Early.newProjectile. by destruct s as [? ? ? []].
  - eexists. split; [done|]. unfold Early.touchstart. cbn zeta.
    destruct (_ && _); [|by destruct s].
    unfold Early.newProjectile. by destruct s as [? ? ? []].
  - eexists. split; [done|].
    apply (Early_startGame_gridAll host rowSpaced).
    intros row c color [Hrow _] _. by apply rowSpaced_init.
Qed.

Lemma Early_session_total es : ∀ s,
  gridAll rowSpaced (Early.grid s) →
  ∃ s', runEvents host s es = Some s' ∧ gridAll rowSpaced (Early.grid s').
Proof.
  unfold runEvents.
  induction es as [|e es IH]; intros s H; cbn [foldl]; [by eexists|].
  cbn [mbind option_bind].
  destruct (Early_handle_total s e H) as (s1 & -> & H1). by apply IH.
Qed.

End EarlyTotal.

(** X17. The earlier version never throws in a session.  With a
    [Math.sin] that is at least -1 and a [Math.atan2] whose angle,
    for a vector that does not point up the screen, has a sine that
    is not negative, a grid whose bubbles are in the first row or at
    least one row height of [initGrid] below it, as [startGame]
    builds it, is kept so by every frame update and every other
    event, and none of them reaches the [TypeError] of
    [addBubbleAt]. *)
Theorem early_never_throws (host : Host) :
  trigSane host →
  (∀ s, gridAll rowSpaced (Early.grid (Early.startGame host s))) ∧
  (∀ dt s,
     gridAll rowSpaced (Early.grid s) →
     ∃ s', Early.update host dt s = Some s' ∧
           gridAll rowSpaced (Early.grid s')) ∧
  (∀ es s,
     gridAll rowSpaced (Early.grid s) →
     ∃ s', runEvents host s es = Some s' ∧ gridAll rowSpaced (Early.grid s')).
Proof.
  intros Htrig. split; [|split].
  - intros s. apply (Early_startGame_gridAll host rowSpaced).
    intros row c color [Hrow _] _. by apply rowSpaced_init.
  - intros dt s. by apply Early_update_total.
  - intros es s. by apply Early_session_total.
Qed.

Lemma demoHost_trigSane : trigSane demoHost.
Proof.
  split.
  - intros a. unfold demoHost. cbn [sin].
    destruct (Qeq_bool a _); [by vm_compute|].
    destruct (Qeq_bool a _); by vm_compute.
  - intros dy dx Hdy. unfold demoHost. cbn [sin atan2].
    destruct (Qeq_bool dx 0); [|by vm_compute].
    destruct (Qltb 0 dy); [by vm_compute|].
    destruct (Qltb dy 0) eqn:E; [|by vm_compute].
    apply Qltb_true in E. lra.
Qed.

(** [early_never_throws] on the frame of the worn shot under a full
    row of green bubbles. *)
Lemma early_never_throws_witness :
  trigSane demoHost ∧
  gridAll rowSpaced (Early.grid (earlyWith [earlyGreenRow] [earlyWornShot 0])) ∧
  is_Some (Early.update demoHost (1 # 60)
             (earlyWith [earlyGreenRow] [earlyWornShot 0])).
Proof.
  assert (gridAll rowSpaced
            (Early.grid (earlyWith [earlyGreenRow] [earlyWornShot 0]))) as H.
  { unfold gridAll.
    let l := eval vm_compute in
               (concat (Early.grid (earlyWith [earlyGreenRow] [earlyWornShot 0]))) in
    change (Forall rowSpaced l).
    repeat (constructor; [left; vm_compute; reflexivity|]). constructor. }
  split; [exact demoHost_trigSane|]. split; [exact H|].
  destruct (proj1 (proj2 (early_never_throws demoHost demoHost_trigSane))
              (1 # 60) (earlyWith [earlyGreenRow] [earlyWornShot 0]) H)
    as (s' & Hs & _).
  rewrite Hs. by eexists.
Defined.

(** * [shade] *)

Lemma lor_shiftl_low (a b k : Z) :
  0 <= k → 0 <= b < 2 ^ k → Z.lor (Z.shiftl a k) b = a * 2 ^ k + b.
Proof.
  intros Hk Hb. rewrite Z.shiftl_mul_pow2 by done. symmetry.
  apply Z.add_nocarry_lor. apply Z.bits_inj'. intros i Hi.
  rewrite Z.land_spec, Z.bits_0.
  destruct (Z.lt_ge_cases i k) as [Hlt|Hge].
  - by rewrite Z.mul_pow2_bits_low.
  - destruct (Z.eq_dec b 0) as [-> | Hne].
    + by rewrite Z.bits_0, andb_false_r.
    + rewrite (Z.bits_above_log2 b i); [apply andb_false_r|lia|].
      assert (Z.log2 b < k) by (apply Z.log2_lt_pow2; lia). lia.
Qed.

Lemma wrap32_small (n : Z) : -2147483648 <= n < 2147483648 → wrap32 n = n.
Proof.
  intros H. unfold wrap32. change (2 ^ 31) with 2147483648.
  change (2 ^ 32) with 4294967296. rewrite Z.mod_small by lia. lia.
Qed.

Lemma clampChannel_range (r : Z) : 0 <= clampChannel r <= 255.
Proof. unfold clampChannel. lia. Qed.

(** The number that [shade] prints, for channels in range. *)
Lemma packed_channels (r g b : Z) :
  0 <= r <= 255 → 0 <= g <= 255 → 0 <= b <= 255 →
  wrap32 (Z.lor (wrap32 (Z.lor (wrap32 (Z.shiftl r 16))
                               (wrap32 (Z.shiftl g 8)))) b)
  = r * 65536 + g * 256 + b.
Proof.
  intros Hr Hg Hb.
  rewrite (Z.shiftl_mul_pow2 g 8) by lia. change (2 ^ 8) with 256.
  rewrite (wrap32_small (g * 256)) by lia.
  rewrite (wrap32_small (Z.shiftl r 16))
    by (rewrite Z.shiftl_mul_pow2 by lia; change (2 ^ 16) with 65536; lia).
  rewrite (lor_shiftl_low r (g * 256) 16)
    by (change (2 ^ 16) with 65536; lia).
  change (2 ^ 16) with 65536.
  rewrite (wrap32_small (r * 65536 + g * 256)) by lia.
  replace (r * 65536 + g * 256) with (Z.shiftl (r * 256 + g) 8)
    by (rewrite Z.shiftl_mul_pow2 by lia; change (2 ^ 8) with 256; lia).
  rewrite (lor_shiftl_low (r * 256 + g) b 8)
    by (change (2 ^ 8) with 256; lia).
  change (2 ^ 8) with 256.
  rewrite wrap32_small by lia.
  rewrite Z.shiftl_mul_pow2 by lia. change (2 ^ 8) with 256. lia.
Qed.

Lemma zeros_cons (j : nat) (s : string) :
  zeros j (String (charOf 48) s) = String (charOf 48) (zeros j s).
Proof. induction j as [|j IH]; [done|]. simpl. by rewrite IH. Qed.

Lemma hexFixed_zero (j : nat) (acc : string) :
  hexFixed j 0 acc = zeros j acc.
Proof.
  revert acc. induction j as [|j IH]; intros acc; [done|].
  cbn [hexFixed]. rewrite Z.div_0_l, Z.mod_0_l by lia.
  rewrite IH. apply zeros_cons.
Qed.

Lemma hexFixed_add (k j : nat) : ∀ n acc,
  hexFixed (k + j) n acc = hexFixed j (n / 16 ^ Z.of_nat k) (hexFixed k n acc).
Proof.
  induction k as [|k IH]; intros n acc.
  - simpl. by rewrite Z.div_1_r.
  - cbn [plus hexFixed]. rewrite IH. f_equal.
    rewrite Nat2Z.inj_succ, Z.pow_succ_r by lia.
    rewrite Z.div_div by lia. done.
Qed.

Lemma hexFixed_length (k : nat) : ∀ n acc,
  String.length (hexFixed k n acc) = (k + String.length acc)%nat.
Proof.
  induction k as [|k IH]; intros n acc; [done|].
  cbn [hexFixed]. rewrite IH. simpl. lia.
Qed.

(** The digits that [toString(16)] prints for a positive number are
    its low digits, as many as it has. *)
Lemma hexDigits_fixed (fuel : nat) : ∀ n acc,
  0 <= n < 16 ^ Z.of_nat fuel →
  ∃ k : nat, hexDigits fuel n acc = hexFixed k n acc ∧
             n < 16 ^ Z.of_nat k ∧ (k = 0%nat ∨ 16 ^ (Z.of_nat k - 1) <= n).
Proof.
  induction fuel as [|fuel IH]; intros n acc Hn.
  - exists 0%nat. simpl in *. split; [done|]. split; [lia|by left].
  - cbn [hexDigits]. destruct (n =? 0) eqn:E.
    + apply Z.eqb_eq in E. subst n. exists 0%nat. simpl. split; [done|].
      split; [lia|by left].
    + apply Z.eqb_neq in E.
      rewrite Nat2Z.inj_succ, Z.pow_succ_r in Hn by lia.
      destruct (IH (n / 16) (String (hexChar (n mod 16)) acc)) as (k & Hk & Hlt & Hge).
      { split; [apply Z.div_pos; lia|]. apply Z.div_lt_upper_bound; lia. }
      exists (S k). cbn [hexFixed]. split; [done|].
      rewrite Nat2Z.inj_succ, Z.pow_succ_r by lia. split.
      * pose proof (Z.mul_div_le n 16 ltac:(lia)).
        pose proof (Z.mod_pos_bound n 16 ltac:(lia)).
        pose proof (Z.div_mod n 16 ltac:(lia)). lia.
      * right. replace (Z.succ (Z.of_nat k) - 1) with (Z.of_nat k) by lia.
        destruct k as [|k']; [simpl; lia|].
        destruct Hge as [Hge | Hge]; [done|].
        rewrite Nat2Z.inj_succ in *.
        replace (Z.succ (Z.of_nat k') - 1) with (Z.of_nat k') in Hge by lia.
        rewrite Z.pow_succ_r by lia.
        pose proof (Z.mul_div_le n 16 ltac:(lia)). lia.
Qed.

Lemma toString16_padded (n : Z) :
  0 <= n < 16 ^ 6 →
  padStart0 6 (toString16 n) = hexFixed 6 n EmptyString.
Proof.
  intros Hn. unfold toString16. destruct (n =? 0) eqn:E.
  { apply Z.eqb_eq in E. by subst n. }
  apply Z.eqb_neq in E. rewrite (proj2 (Z.ltb_ge n 0)) by lia.
  rewrite Z.abs_eq by lia.
  destruct (hexDigits_fixed (S (Z.to_nat (Z.log2 n))) n EmptyString)
    as (k & -> & Hlt & Hge).
  { split; [lia|]. rewrite Nat2Z.inj_succ, Z2Nat.id by apply Z.log2_nonneg.
    pose proof (Z.log2_spec n ltac:(lia)) as [_ H2].
    eapply Z.lt_le_trans; [exact H2|].
    change 16 with (2 ^ 4). rewrite <- Z.pow_mul_r by (pose proof (Z.log2_nonneg n); lia).
    apply Z.pow_le_mono_r; [lia|]. pose proof (Z.log2_nonneg n). lia. }
  assert (k ≤ 6)%nat as Hk.
  { destruct Hge as [-> | Hge]; [lia|].
    destruct (le_lt_dec k 6) as [|Hgt]; [done|]. exfalso.
    assert (16 ^ 6 <= 16 ^ (Z.of_nat k - 1)) by (apply Z.pow_le_mono_r; lia).
    lia. }
  unfold padStart0. rewrite hexFixed_length. simpl String.length.
  rewrite Nat.add_0_r.
  replace 6%nat with (k + (6 - k))%nat at 2 by lia.
  rewrite hexFixed_add. rewrite Z.div_small by lia. by rewrite hexFixed_zero.
Qed.

Lemma hexFixed_channels (r g b : Z) :
  0 <= r <= 255 → 0 <= g <= 255 → 0 <= b <= 255 →
  String (charOf 35) (hexFixed 6 (r * 65536 + g * 256 + b) EmptyString)
  = rgbHex r g b.
Proof.
  intros Hr Hg Hb. unfold rgbHex. cbn [hexFixed].
  set (n := r * 65536 + g * 256 + b).
  assert (n mod 16 = b mod 16) as -> by (unfold n; Z.div_mod_to_equations; lia).
  assert (n / 16 mod 16 = b / 16) as ->
    by (unfold n; Z.div_mod_to_equations; lia).
  assert (n / 16 / 16 mod 16 = g mod 16) as ->
    by (unfold n; Z.div_mod_to_equations; lia).
  assert (n / 16 / 16 / 16 mod 16 = g / 16) as ->
    by (unfold n; Z.div_mod_to_equations; lia).
  assert (n / 16 / 16 / 16 / 16 mod 16 = r mod 16) as ->
    by (unfold n; Z.div_mod_to_equations; lia).
  assert (n / 16 / 16 / 16 / 16 / 16 mod 16 = r / 16) as ->
    by (unfold n; Z.div_mod_to_equations; lia).
  done.
Qed.

(** What [shade] returns, in terms of the number it has parsed. *)
Lemma shade_eq (col : string) (amt : Z) :
  let c := removeFirstHash col in
  let c := if (String.length c =? 3)%nat then doubled c else c in
  let num := toInt32 (parseInt16 c) in
  shade col amt
  = rgbHex (clampChannel (Z.shiftr num 16 + amt))
      (clampChannel (Z.land (Z.shiftr num 8) 255 + amt))
      (clampChannel (Z.land num 255 + amt)).
Proof.
  cbn zeta. unfold shade. cbn zeta.
  set (num := toInt32 _).
  pose proof (clampChannel_range (Z.shiftr num 16 + amt)) as Hr.
  pose proof (clampChannel_range (Z.land (Z.shiftr num 8) 255 + amt)) as Hg.
  pose proof (clampChannel_range (Z.land num 255 + amt)) as Hb.
  rewrite packed_channels by done.
  rewrite toString16_padded by lia.
  by apply hexFixed_channels.
Qed.

Lemma hexChar_facts (d : Z) :
  0 <= d < 16 →
  hexDigit (hexChar d) = Some d ∧
  isStrWhiteSpace (hexChar d) = false ∧
  (codeOf (hexChar d) =? 45) = false ∧
  (codeOf (hexChar d) =? 43) = false ∧
  (codeOf (hexChar d) =? 120) = false ∧
  (codeOf (hexChar d) =? 88) = false ∧
  (codeOf (hexChar d) =? 35) = false.
Proof.
  intros H.
  assert (d = 0 ∨ d = 1 ∨ d = 2 ∨ d = 3 ∨ d = 4 ∨ d = 5 ∨ d = 6 ∨ d = 7 ∨
          d = 8 ∨ d = 9 ∨ d = 10 ∨ d = 11 ∨ d = 12 ∨ d = 13 ∨ d = 14 ∨ d = 15)
    as Hd by lia.
  repeat (destruct Hd as [-> | Hd]; [by vm_compute|]). subst d. by vm_compute.
Qed.

Lemma channel_digits (r : Z) :
  0 <= r <= 255 → 0 <= r / 16 < 16 ∧ 0 <= r mod 16 < 16 ∧
                  r / 16 * 16 + r mod 16 = r.
Proof. intros H. Z.div_mod_to_equations. lia. Qed.

(** [parseInt] reads the six digits of a colour back. *)
Lemma parseInt16_digits (d1 d2 d3 d4 d5 d6 : Z) :
  0 <= d1 < 16 → 0 <= d2 < 16 → 0 <= d3 < 16 →
  0 <= d4 < 16 → 0 <= d5 < 16 → 0 <= d6 < 16 →
  parseInt16
    (String (hexChar d1) (String (hexChar d2) (String (hexChar d3)
    (String (hexChar d4) (String (hexChar d5) (String (hexChar d6)
       EmptyString))))))
  = Finite (((((d1 * 16 + d2) * 16 + d3) * 16 + d4) * 16 + d5) * 16 + d6).
Proof.
  intros H1 H2 H3 H4 H5 H6.
  destruct (hexChar_facts d1 H1) as (D1 & W1 & M1 & P1 & _ & _ & _).
  destruct (hexChar_facts d2 H2) as (D2 & _ & _ & _ & X2 & X2' & _).
  destruct (hexChar_facts d3 H3) as (D3 & _).
  destruct (hexChar_facts d4 H4) as (D4 & _).
  destruct (hexChar_facts d5 H5) as (D5 & _).
  destruct (hexChar_facts d6 H6) as (D6 & _).
  unfold parseInt16. cbn [trimStart]. rewrite W1. rewrite M1, P1.
  rewrite X2, X2', andb_false_r.
  cbn [hexPrefix]. rewrite D1, D2, D3, D4, D5, D6. cbn [default].
  unfold id.
  set (n := _ + d6).
  assert (0 <= n < 16777216) as Hn by (unfold n; lia).
  unfold toDouble. cbn zeta.
  assert ((Z.log2 n + 1 <=? 53) = true) as ->; [|done].
  apply Z.leb_le. destruct (Z.eq_dec n 0) as [-> | Hne]; [done|].
  assert (Z.log2 n < 24); [|lia].
  apply Z.log2_lt_pow2; [lia|]. change (2 ^ 24) with 16777216. lia.
Qed.

Lemma shade_rgb (r g b amt : Z) :
  0 <= r <= 255 → 0 <= g <= 255 → 0 <= b <= 255 →
  shade (rgbHex r g b) amt
  = rgbHex (clampChannel (r + amt)) (clampChannel (g + amt))
      (clampChannel (b + amt)).
Proof.
  intros Hr Hg Hb. rewrite shade_eq. cbn zeta.
  destruct (channel_digits r Hr) as (R1 & R2 & R3).
  destruct (channel_digits g Hg) as (G1 & G2 & G3).
  destruct (channel_digits b Hb) as (B1 & B2 & B3).
  assert (removeFirstHash (rgbHex r g b)
          = String (hexChar (r / 16)) (String (hexChar (r mod 16))
            (String (hexChar (g / 16)) (String (hexChar (g mod 16))
            (String (hexChar (b / 16)) (String (hexChar (b mod 16))
               EmptyString)))))) as -> by done.
  cbn [String.length Nat.eqb].
  rewrite parseInt16_digits by done. cbn [toInt32].
  set (n := _ + b mod 16).
  assert (n = r * 65536 + g * 256 + b) as -> by (unfold n; lia).
  rewrite wrap32_small by lia.
  rewrite !Z.shiftr_div_pow2 by lia.
  change 255 with (Z.ones 8). rewrite !Z.land_ones by lia.
  change (2 ^ 16) with 65536. change (2 ^ 8) with 256.
  assert ((r * 65536 + g * 256 + b) / 65536 = r) as ->
    by (Z.div_mod_to_equations; lia).
  assert (((r * 65536 + g * 256 + b) / 256) mod 256 = g) as ->
    by (Z.div_mod_to_equations; lia).
  assert ((r * 65536 + g * 256 + b) mod 256 = b) as ->
    by (Z.div_mod_to_equations; lia).
  done.
Qed.

(** An abbreviated colour is the colour of the doubled digits. *)
Lemma shade_short (x y z : Ascii.ascii) (amt : Z) :
  shade (String (charOf 35) (String x (String y (String z EmptyString)))) amt
  = shade (String (charOf 35)
             (String x (String x (String y (String y (String z (String z
                EmptyString))))))) amt.
Proof. done. Qed.

(** A string that [parseInt] reads no digit from gives the grey of
    level [amt]. *)
Lemma shade_NaN (col : string) (amt : Z) :
  let c := removeFirstHash col in
  parseInt16 (if (String.length c =? 3)%nat then doubled c else c) = NaN →
  shade col amt = rgbHex (clampChannel amt) (clampChannel amt) (clampChannel amt).
Proof. cbn zeta. intros H. rewrite shade_eq. cbn zeta. by rewrite H. Qed.

(** X20. [shade] always returns a colour of the form [#rrggbb]: a
    ['#'] and six lower-case digits of radix 16, two for each of three
    channels between 0 and 255.  The channels are those of the number
    [num] that [parseInt] has read, taken as a 32-bit integer
    ([num >> 16], [(num >> 8) & 0xff] and [num & 0xff]), each plus
    [amt] and clamped to [0 .. 255].  A string from which [parseInt]
    reads no digit (a colour name, an empty string) is [NaN], its
    channels are taken as 0, and the result is the grey of level [amt]
    clamped. *)
Theorem shade_format (col : string) (amt : Z) :
  let c := removeFirstHash col in
  let c := if (String.length c =? 3)%nat then doubled c else c in
  let num := toInt32 (parseInt16 c) in
  let r := clampChannel (Z.shiftr num 16 + amt) in
  let g := clampChannel (Z.land (Z.shiftr num 8) 255 + amt) in
  let b := clampChannel (Z.land num 255 + amt) in
  shade col amt = rgbHex r g b ∧
  0 <= r <= 255 ∧ 0 <= g <= 255 ∧ 0 <= b <= 255 ∧
  String.length (shade col amt) = 7%nat ∧
  (parseInt16 c = NaN →
   shade col amt
   = rgbHex (clampChannel amt) (clampChannel amt) (clampChannel amt)).
Proof.
  pose proof (shade_eq col amt) as H. cbn zeta in *.
  split; [exact H|].
  split; [apply clampChannel_range|]. split; [apply clampChannel_range|].
  split; [apply clampChannel_range|]. split; [by rewrite H|].
  apply shade_NaN.
Qed.

(** [shade_format] on a colour name, and on the green of the palette
    lightened by 40. *)
Lemma shade_format_witness :
  parseInt16 "red" = NaN ∧ shade "red" (-35) = "#000000"%string ∧
  shade "#34d399" 40 = "#5cfbc1"%string.
Proof.
  assert (parseInt16 "red" = NaN) as H by (vm_compute; reflexivity).
  split; [exact H|]. split.
  - exact (proj2 (proj2 (proj2 (proj2 (proj2 (shade_format "red" (-35)))))) H).
  - exact (proj1 (shade_format "#34d399" 40)).
Defined.

(** X21. On a colour [#rrggbb] of lower-case digits [shade]
    adds [amt] to each of the three channels and clamps each to
    [0 .. 255]; an abbreviated colour [#xyz] gives what [#xxyyzz]
    gives. *)
Theorem shade_channels (r g b amt : Z) :
  0 <= r <= 255 → 0 <= g <= 255 → 0 <= b <= 255 →
  shade (rgbHex r g b) amt
  = rgbHex (clampChannel (r + amt)) (clampChannel (g + amt))
      (clampChannel (b + amt)) ∧
  ∀ x y z : Ascii.ascii,
    shade (String (charOf 35) (String x (String y (String z EmptyString)))) amt
    = shade (String (charOf 35)
               (String x (String x (String y (String y (String z (String z
                  EmptyString))))))) amt.
Proof.
  intros Hr Hg Hb. split; [by apply shade_rgb|]. intros x y z. apply shade_short.
Qed.

(** [shade_channels] on the red of the palette, which the fallback
    gradient of [drawBubble] darkens by 35. *)
Lemma shade_channels_witness :
  0 <= 248 <= 255 ∧ 0 <= 113 <= 255 ∧
  rgbHex 248 113 113 = red ∧
  shade red (-35) = "#d54e4e"%string.
Proof.
  split; [lia|]. split; [lia|]. split; [reflexivity|].
  exact (proj1 (shade_channels 248 113 113 (-35) ltac:(lia) ltac:(lia)
                  ltac:(lia))).
Defined.

(** * The aim guide *)

Lemma guideLoop_spec (width r : Q) (fuel : nat) : ∀ x y vx vy len,
  (len <= 12 * inject_Z (Z.of_nat fuel))%Q →
  ∃ segs, guideLoop fuel width r x y vx vy len = Some segs ∧
          chained x y segs ∧
          ((0 <= len)%Q → (pathEndY y segs == y + vy * len)%Q) ∧
          Forall (λ sg, (Qabs (seg_ny sg - seg_y sg) <= 12 * Qabs vy)%Q) segs.
Proof.
  induction fuel as [|fuel IH]; intros x y vx vy len Hlen.
  - cbn [guideLoop]. change (inject_Z (Z.of_nat 0)) with 0%Q in Hlen.
    destruct (Qltb 0 len) eqn:E.
    + apply Qltb_true in E. lra.
    + exists []. repeat split; [|constructor].
      intros H. apply Qltb_false in E. simpl.
      assert (len == 0)%Q as -> by lra. ring.
  - cbn [guideLoop]. destruct (Qltb 0 len) eqn:E.
    + apply Qltb_true in E. cbn zeta.
      set (step := if Qltb len 12 then len else 12%Q).
      assert (0 < step ∧ step <= 12 ∧ step <= len ∧
              len - step <= 12 * inject_Z (Z.of_nat fuel))%Q as (S1 & S2 & S3 & S4).
      { rewrite Nat2Z.inj_succ in Hlen. unfold Z.succ in Hlen.
        rewrite inject_Z_plus in Hlen. change (inject_Z 1) with 1%Q in Hlen.
        unfold step. destruct (Qltb len 12) eqn:E2.
        - apply Qltb_true in E2.
          assert (0 <= inject_Z (Z.of_nat fuel))%Q
            by (change 0%Q with (inject_Z 0); rewrite <- Zle_Qle; lia).
          repeat split; lra.
        - apply Qltb_false in E2. repeat split; lra. }
      match goal with
      | |- context [guideLoop fuel width r ?nx ?ny ?vx' vy ?len'] =>
          destruct (IH nx ny vx' vy len' S4) as (segs & -> & Hch & Hend & Hall)
      end.
      eexists. split; [reflexivity|]. split; [done|]. split.
      * intros _. cbn [pathEndY seg_ny]. rewrite Hend by lra. ring.
      * constructor; [|done]. cbn [seg_ny seg_y].
        assert (y + vy * step - y == vy * step)%Q as -> by ring.
        rewrite Qabs_Qmult, (Qabs_pos step) by lra.
        pose proof (Qabs_nonneg vy). generalize dependent (Qabs vy).
        intros a Ha. nra.
    + exists []. repeat split; [|constructor].
      intros H. apply Qltb_false in E. simpl.
      assert (len == 0)%Q as -> by lra. ring.
Qed.

(** The number of strokes depends on the length of the guide only. *)
Lemma guideLoop_length (width r width' r' : Q) (fuel : nat) :
  ∀ x y vx vy x' y' vx' vy' len,
  length <$> guideLoop fuel width r x y vx vy len
  = length <$> guideLoop fuel width' r' x' y' vx' vy' len.
Proof.
  induction fuel as [|fuel IH]; intros x y vx vy x' y' vx' vy' len.
  - simpl. by destruct (Qltb 0 len).
  - cbn [guideLoop]. destruct (Qltb 0 len); [|done]. cbn zeta.
    rewrite <- !option_fmap_compose.
    match goal with
    | |- _ <$> guideLoop fuel width r ?a ?b ?c vy ?l
         = _ <$> guideLoop fuel width' r' ?a' ?b' ?c' vy' ?l =>
        pose proof (IH a b c vy a' b' c' vy' l) as H
    end.
    destruct (guideLoop fuel width r _ _ _ _ _), (guideLoop fuel width' r' _ _ _ _ _);
      simpl in *; congruence.
Qed.

Lemma Game_guide_count (width r x y vx vy : Q) :
  length <$> guideLoop (guideTurns Game.aimGuideLength) width r x y vx vy
               Game.aimGuideLength = Some 12%nat.
Proof.
  rewrite (guideLoop_length width r 0 0 _ x y vx vy 0 0 0 0). by vm_compute.
Qed.

Lemma Early_guide_count (width r x y vx vy : Q) :
  length <$> guideLoop (guideTurns Early.aimGuideLength) width r x y vx vy
               Early.aimGuideLength = Some 10%nat.
Proof.
  rewrite (guideLoop_length width r 0 0 _ x y vx vy 0 0 0 0). by vm_compute.
Qed.

(** X22. [drawAimGuide()] terminates and draws one path: twelve
    strokes in [src/game.js] (ten in the earlier version), the first
    from the shooter, each from the end of the one before; the path
    ends [aimGuideLength * sin(angle)] below the shooter, whatever the
    reflections at the walls, and no stroke spans more than
    [12 * |sin(angle)|] vertically. *)
Theorem aim_guide_path (host : Host) :
  (∀ s, ∃ segs,
     Game.drawAimGuide host s = Some segs ∧ length segs = 12%nat ∧
     chained (sh_x (Game.shooter s)) (sh_y (Game.shooter s)) segs ∧
     (pathEndY (sh_y (Game.shooter s)) segs
      == sh_y (Game.shooter s)
         + sin host (sh_angle (Game.shooter s)) * Game.aimGuideLength)%Q ∧
     Forall (λ sg, (Qabs (seg_ny sg - seg_y sg)
                    <= 12 * Qabs (sin host (sh_angle (Game.shooter s))))%Q)
       segs) ∧
  (∀ s, ∃ segs,
     Early.drawAimGuide host s = Some segs ∧ length segs = 10%nat ∧
     chained (Early.sh_x (Early.shooter s)) (Early.sh_y (Early.shooter s)) segs ∧
     (pathEndY (Early.sh_y (Early.shooter s)) segs
      == Early.sh_y (Early.shooter s)
         + sin host (Early.sh_angle (Early.shooter s)) * Early.aimGuideLength)%Q ∧
     Forall (λ sg, (Qabs (seg_ny sg - seg_y sg)
                    <= 12 * Qabs (sin host (Early.sh_angle (Early.shooter s))))%Q)
       segs).
Proof.
  split; intros s.
  - unfold Game.drawAimGuide. cbn zeta.
    pose proof (Game_guide_count (ZtoQ (canvas_width host)) Game.bubbleRadius
                  (sh_x (Game.shooter s)) (sh_y (Game.shooter s))
                  (cos host (sh_angle (Game.shooter s)))
                  (sin host (sh_angle (Game.shooter s)))) as Hn.
    destruct (guideLoop_spec (ZtoQ (canvas_width host)) Game.bubbleRadius
                (guideTurns Game.aimGuideLength)
                (sh_x (Game.shooter s)) (sh_y (Game.shooter s))
                (cos host (sh_angle (Game.shooter s)))
                (sin host (sh_angle (Game.shooter s)))
                Game.aimGuideLength ltac:(by vm_compute))
      as (segs & Hs & Hch & Hend & Hall).
    rewrite Hs in Hn |- *. exists segs. split; [done|].
    split; [by injection Hn|]. split; [done|]. split; [|done].
    apply Hend. by vm_compute.
  - unfold Early.drawAimGuide. cbn zeta.
    pose proof (Early_guide_count (ZtoQ (canvas_width host)) Early.bubbleRadius
                  (Early.sh_x (Early.shooter s)) (Early.sh_y (Early.shooter s))
                  (cos host (Early.sh_angle (Early.shooter s)))
                  (sin host (Early.sh_angle (Early.shooter s)))) as Hn.
    destruct (guideLoop_spec (ZtoQ (canvas_width host)) Early.bubbleRadius
                (guideTurns Early.aimGuideLength)
                (Early.sh_x (Early.shooter s)) (Early.sh_y (Early.shooter s))
                (cos host (Early.sh_angle (Early.shooter s)))
                (sin host (Early.sh_angle (Early.shooter s)))
                Early.aimGuideLength ltac:(by vm_compute))
      as (segs & Hs & Hch & Hend & Hall).
    rewrite Hs in Hn |- *. exists segs. split; [done|].
    split; [by injection Hn|]. split; [done|]. split; [|done].
    apply Hend. by vm_compute.
Qed.

Lemma Qfloor_lt (x : Q) (z : Z) : (x < inject_Z z)%Q → Qfloor x < z.
Proof.
  intros H. pose proof (Qfloor_le x) as H1.
  assert (inject_Z (Qfloor x) < inject_Z z)%Q as H2
    by (eapply Qle_lt_trans; [exact H1|exact H]).
  by rewrite <- Zlt_Qlt in H2.
Qed.

(** [worldToGrid] of [src/game.js] on the [y] of the rows of the grid. *)
Lemma Game_worldToGrid_row (k : Z) :
  0 <= k →
  (Game.worldToGrid (Game.bubbleRadius + ZtoQ k * Game.rowHeight)%Q = k ↔ k <= 7).
Proof.
  intros Hk. unfold Game.worldToGrid, js_round, Game.rowHeight,
    Game.bubbleRadius, Game.rowHeightFactor, ZtoQ.
  assert ((16 + inject_Z k * (16 * (162 # 100)) - 16) / (16 * (1732 # 1000))
          + (1 # 2) == inject_Z k * (1620 # 1732) + (1 # 2))%Q as Hq by field.
  rewrite (Qfloor_comp _ _ Hq).
  assert (0 <= inject_Z k)%Q as H0
    by (change 0%Q with (inject_Z 0); rewrite <- Zle_Qle; lia).
  split.
  - intros Hf. destruct (Z.le_gt_cases k 7) as [|Hgt]; [done|]. exfalso.
    assert (inject_Z 8 <= inject_Z k)%Q as H8 by (rewrite <- Zle_Qle; lia).
    change (inject_Z 8) with 8%Q in H8.
    assert (Qfloor (inject_Z k * (1620 # 1732) + (1 # 2)) < k); [|lia].
    apply Qfloor_lt. lra.
  - intros H7.
    assert (inject_Z k <= inject_Z 7)%Q as H7' by (rewrite <- Zle_Qle; lia).
    change (inject_Z 7) with 7%Q in H7'.
    apply Qfloor_unique.
    + lra.
    + rewrite inject_Z_plus. change (inject_Z 1) with 1%Q. lra.
Qed.

(** [worldToGrid] of the earlier version on the [y] that [initGrid]
    gives the rows. *)
Lemma Early_worldToGrid_init (k : Z) :
  0 <= k < Early.rowCount →
  Early.worldToGrid (Early.bubbleRadius + ZtoQ k * Early.initRowHeight)%Q = k.
Proof.
  intros Hk. unfold Early.worldToGrid, js_round, Early.rowHeight,
    Early.initRowHeight, Early.bubbleRadius, Early.rowCount, ZtoQ in *.
  assert ((16 + inject_Z k * (16 * (165 # 100)) - 16) / (16 * (1732 # 1000))
          + (1 # 2) == inject_Z k * (1650 # 1732) + (1 # 2))%Q as Hq by field.
  rewrite (Qfloor_comp _ _ Hq).
  assert (0 <= inject_Z k)%Q as H0
    by (change 0%Q with (inject_Z 0); rewrite <- Zle_Qle; lia).
  assert (inject_Z k <= inject_Z 7)%Q as H7' by (rewrite <- Zle_Qle; lia).
  change (inject_Z 7) with 7%Q in H7'.
  apply Qfloor_unique.
  - lra.
  - rewrite inject_Z_plus. change (inject_Z 1) with 1%Q. lra.
Qed.

Lemma Game_startGame_onSlot host s :
  gridAll (onSlot host) (Game.grid (Game.startGame host s)).
Proof.
  apply startGame_gridAll. intros row c color Hrow Hc.
  apply (Game_cellOf_bubbleAt host row c color); [lia|].
  destruct (Z.rem row 2 =? 0); lia.
Qed.

Lemma Early_cellOf_init host row c color :
  0 <= row < Early.rowCount → 0 <= c < Early.perRow host →
  earlyOnSlot host
    (mkBubble row c
       (Early.bubbleRadius + ZtoQ c * Early.bubbleRadius * 2
        + ZtoQ (Z.rem row 2) * Early.bubbleRadius)%Q
       (Early.bubbleRadius + ZtoQ row * Early.initRowHeight)%Q color false).
Proof.
  intros Hrow Hc. unfold earlyOnSlot, Early.cellOf. cbn zeta. cbn [b_x b_y b_row b_c].
  rewrite Early_worldToGrid_init by done. f_equal.
  rewrite js_round_Z with (z := c); [lia|].
  unfold Early.bubbleRadius, ZtoQ. field.
Qed.

Lemma Early_startGame_onSlot host s :
  gridAll (earlyOnSlot host) (Early.grid (Early.startGame host s)).
Proof.
  apply Early_startGame_gridAll. intros row c color Hrow Hc.
  apply Early_cellOf_init; [done|]. destruct (Z.rem row 2 =? 0); lia.
Qed.

(** X3. The slot of a bubble is the slot that [addBubbleAt] snaps the
    position of the bubble to, in both versions: the bubble that
    [addBubbleAt] creates for the row [row] and a column [col] of
    [0 .. perRow - 1] has a position that is snapped to [(row, col)],
    and so has every bubble of the grid that [startGame] builds
    (in the earlier version although [initGrid] spaces its rows by
    [1.65 r] and [worldToGrid] by [1.732 r]). *)
Theorem slot_round_trip (host : Host) :
  (∀ row col color,
     0 <= row → 0 <= col < Game.perRow host →
     onSlot host (Game.bubbleAt row col color)) ∧
  (∀ row col color,
     0 <= col < Early.perRow host →
     earlyOnSlot host (Early.bubbleAt row col color)) ∧
  (∀ s, gridAll (onSlot host) (Game.grid (Game.startGame host s))) ∧
  (∀ s, gridAll (earlyOnSlot host) (Early.grid (Early.startGame host s))).
Proof.
  split; [|split; [|split]].
  - intros row col color H1 H2. by apply Game_cellOf_bubbleAt.
  - intros row col color H. by apply Early_cellOf_bubbleAt.
  - apply Game_startGame_onSlot.
  - apply Early_startGame_onSlot.
Qed.

(** [slot_round_trip] on the slot of row 3 and column 14 of the 480
    wide canvas. *)
Lemma slot_round_trip_witness :
  0 <= 14 < Game.perRow demoHost ∧
  Game.cellOf demoHost (b_x (Game.bubbleAt 3 14 red))
    (b_y (Game.bubbleAt 3 14 red)) = (3, 14).
Proof.
  assert (0 <= 14 < Game.perRow demoHost) as H by (by vm_compute).
  split; [exact H|].
  exact (proj1 (slot_round_trip demoHost) 3 14 red ltac:(lia) H).
Defined.

(** X23. [worldToGrid] of [src/game.js], which nothing calls, does
    not agree with the rows of the grid: on the [y] of the row [k]
    ([r + k * rowHeight], the row height being [1.62 r]) it returns
    [k] for the rows 0 to 7 and a smaller row from row 8 on. *)
Theorem worldToGrid_rows (k col : Z) (color : Color) :
  0 <= k →
  (Game.worldToGrid (b_y (Game.bubbleAt k col color)) = k ↔ k <= 7) ∧
  (8 <= k → Game.worldToGrid (b_y (Game.bubbleAt k col color)) < k).
Proof.
  intros Hk. pose proof (Game_worldToGrid_row k Hk) as H.
  change (b_y (Game.bubbleAt k col color))
    with (Game.bubbleRadius + ZtoQ k * Game.rowHeight)%Q.
  split; [exact H|]. intros H8.
  unfold Game.worldToGrid, js_round, Game.rowHeight,
    Game.bubbleRadius, Game.rowHeightFactor, ZtoQ.
  assert ((16 + inject_Z k * (16 * (162 # 100)) - 16) / (16 * (1732 # 1000))
          + (1 # 2) == inject_Z k * (1620 # 1732) + (1 # 2))%Q as Hq by field.
  rewrite (Qfloor_comp _ _ Hq).
  assert (inject_Z 8 <= inject_Z k)%Q as H8' by (rewrite <- Zle_Qle; lia).
  change (inject_Z 8) with 8%Q in H8'.
  apply Qfloor_lt. lra.
Qed.

(** [worldToGrid_rows] on the rows 7 and 8. *)
Lemma worldToGrid_rows_witness :
  Game.worldToGrid (b_y (Game.bubbleAt 7 0 red)) = 7 ∧
  Game.worldToGrid (b_y (Game.bubbleAt 8 0 red)) < 8.
Proof.
  split.
  - exact (proj2 (proj1 (worldToGrid_rows 7 0 red ltac:(lia))) ltac:(lia)).
  - exact (proj2 (worldToGrid_rows 8 0 red ltac:(lia)) ltac:(lia)).
Defined.

(** ** Row pressure *)

Lemma bubbleCount_imap (f : nat → Bubble → Bubble) (g : Grid) :
  bubbleCount (imap (λ i rowArr, map (f i) rowArr) g) = bubbleCount g.
Proof.
  unfold bubbleCount. revert f. induction g as [|r g IH]; intros f; [done|].
  cbn [imap concat]. rewrite !length_app, length_map. f_equal.
  apply (IH (λ i, f (S i))).
Qed.

Lemma pushRow_count host s :
  bubbleCount (Game.grid (Game.pushRow host s))
  = (bubbleCount (Game.grid s) + Z.to_nat (Game.perRow host))%nat.
Proof.
  destruct (Game_pushRow_grid host s) as (newRow & -> & Hlen & _).
  unfold Game.renumber.
  rewrite (bubbleCount_imap (λ i, Game.setRow (Z.of_nat i))).
  pose proof (length_concat_mapRows Game.lower (Game.grid s)) as Hm.
  unfold bubbleCount in *. cbn [concat]. rewrite length_app, Hlen, Hm. lia.
Qed.

Lemma pushRow_indexed host s :
  rowsIndexed (Game.grid (Game.pushRow host s)) = true.
Proof.
  destruct (Game_pushRow_grid host s) as (newRow & -> & _).
  apply (rowsIndexedFrom_renumbered Game.setRow _ ltac:(done) 0%nat).
Qed.

Lemma pushRow_old_rows host s (i : nat) (rowArr : list Bubble) :
  Game.grid s !! i = Some rowArr →
  Game.grid (Game.pushRow host s) !! S i
  = Some (map (λ b, Game.setRow (Z.of_nat (S i)) (Game.lower b)) rowArr).
Proof.
  intros Hi. destruct (Game_pushRow_grid host s) as (newRow & -> & _).
  unfold Game.renumber. cbn [imap].
  match goal with
  | |- (?x :: ?l) !! S i = _ => change ((x :: l) !! S i) with (l !! i)
  end.
  rewrite list_lookup_imap, lookup_map, Hi. simpl. f_equal.
  by rewrite map_map.
Qed.

(** The spawn timer after a frame, and the row that the frame pushes
    when the timer runs out. *)
Lemma update_spawnTimer host dt s :
  let t := (Game.spawnTimer s + dt * 1000)%Q in
  Game.spawnTimer (Game.update host dt s)
  = (if Qle_bool Game.spawnRowInterval t then 0%Q else t) ∧
  (Qle_bool Game.spawnRowInterval t = true →
   (length (Game.grid s) < length (Game.grid (Game.update host dt s)))%nat).
Proof.
  cbn zeta.
  assert (∀ x, Game.spawnTimer (Game.winLose host x) = Game.spawnTimer x ∧
               Game.grid (Game.winLose host x) = Game.grid x) as Hwin.
  { intros x. split; [|apply winLose_grid].
    apply (winLose_rel host (λ s s', Game.spawnTimer s' = Game.spawnTimer s));
      [done|congruence|].
    intros win y. unfold Game.endGame, Game.updateHighScore. cbn zeta.
    destruct (_ <? _); by destruct y. }
  unfold Game.update. destruct (Hwin (Game.advance host dt s)) as [-> ->].
  unfold Game.advance.
  pose proof (foldl_stepProjectile_rel host
                (λ s s', Game.spawnTimer s' = Game.spawnTimer s ∧
                         (length (Game.grid s) ≤ length (Game.grid s'))%nat))
    as H1.
  specialize (H1 ltac:(done) ltac:(intros ? ? ? [? ?] [? ?]; split; [congruence|lia])).
  specialize (H1 (λ p x, conj
                   (f_equal (λ c, c.1.1.1.2) (pushTrail_core host p x))
                   (eq_ind_r (λ g, (length (Game.grid x) ≤ length g)%nat)
                      (le_n _) (gameCore_grid _ _ (pushTrail_core host p x))))).
  assert (∀ p tx ty x,
            Game.spawnTimer (Game.addBubbleAt host p tx ty x) = Game.spawnTimer x ∧
            (length (Game.grid x)
             ≤ length (Game.grid (Game.addBubbleAt host p tx ty x)))%nat) as Hadd.
  { intros p tx ty x. split.
    - exact (f_equal (λ c, c.1.1.1.2) (addBubbleAt_frame host p tx ty x)).
    - rewrite addBubbleAt_rows. lia. }
  specialize (H1 Hadd dt (Game.projectiles (Game.easeAim s)) [] (Game.easeAim s)).
  destruct (foldl _ _ _) as [ps s1]. cbv beta in H1. cbn [snd] in H1.
  destruct H1 as [Ht Hg].
  change (Game.spawnTimer (Game.easeAim s)) with (Game.spawnTimer s) in Ht.
  change (Game.grid (Game.easeAim s)) with (Game.grid s) in Hg.
  destruct (Game.performanceNow host _) as [t s2] eqn:Hnow.
  assert (Game.spawnTimer s2 = Game.spawnTimer s1 ∧ Game.grid s2 = Game.grid s1)
    as [Ht2 Hg2].
  { change s2 with (t, s2).2. rewrite <- Hnow. by destruct s1. }
  match goal with
  | |- context [if Qle_bool _ (Game.spawnTimer ?X) then _ else _] =>
      assert (Game.spawnTimer X = (Game.spawnTimer s + dt * 1000)%Q ∧
              Game.grid X = Game.grid s2) as [Ht3 Hg3]
        by (rewrite <- Ht, <- Ht2; by destruct s2);
      generalize dependent X
  end.
  intros X Ht3 Hg3. rewrite Ht3.
  destruct (Qle_bool _ _).
  - split; [done|]. intros _.
    change (Game.grid (Game.set_spawnTimer 0 ?x)) with (Game.grid x).
    rewrite pushRow_rows, Hg3, Hg2. lia.
  - split; [done|]. done.
Qed.

(** ** The removal loop of the earlier version *)

Lemma Early_update_unflagged host dt s s' :
  Early.update host dt s = Some s' →
  gridAll (λ b, b_removing b = false) (Early.grid s').
Proof.
  unfold Early.update, Early.advance. intros H.
  destruct (foldl _ _ _) as [[ps s1]|]; [|done].
  cbn [mbind option_bind fmap option_fmap option_map] in H. cbn zeta in H.
  injection H as <-. rewrite Early_winLose_grid.
  assert (gridAll (λ b, b_removing b = false)
            (Early.removeFlagged (Early.grid s1))) as H2.
  { unfold gridAll. destruct (removeFlagged_spec (Early.grid s1)) as (-> & _).
    apply Forall_forall. intros b [_ Hb]%list_elem_of_In%filter_In.
    by apply negb_true_iff. }
  destruct (Qle_bool _ _); [|done].
  change (Early.grid (Early.set_spawnTimer 0 ?x)) with (Early.grid x).
  by apply (Early_pushRow_gridAll host (λ b, b_removing b = false)).
Qed.

(** X15. [pushRow] of [src/game.js] on any grid: the grid has one row
    array more and [perRow] bubbles more; the row array of index [i]
    is found at index [i + 1], each of its bubbles with its [y] one
    row height more and its row index set to [i + 1]; and after the
    call every bubble of the grid is stored in the row array of its
    row index, whatever the row indices were before. *)
Theorem pushRow_any_grid (host : Host) (s : Game.State) :
  length (Game.grid (Game.pushRow host s)) = S (length (Game.grid s)) ∧
  bubbleCount (Game.grid (Game.pushRow host s))
  = (bubbleCount (Game.grid s) + Z.to_nat (Game.perRow host))%nat ∧
  rowsIndexed (Game.grid (Game.pushRow host s)) = true ∧
  ∀ (i : nat) (rowArr : list Bubble),
    Game.grid s !! i = Some rowArr →
    Game.grid (Game.pushRow host s) !! S i
    = Some (map (λ b, Game.setRow (Z.of_nat (S i)) (Game.lower b)) rowArr).
Proof.
  split; [apply pushRow_rows|]. split; [apply pushRow_count|].
  split; [apply pushRow_indexed|]. apply pushRow_old_rows.
Qed.

(** [pushRow_any_grid] on the row of the two red bubbles. *)
Lemma pushRow_any_grid_witness :
  Game.grid (gameWith twoReds []) !! 0%nat
  = Some [Game.bubbleAt 0 0 red; Game.bubbleAt 0 1 red] ∧
  Game.grid (Game.pushRow demoHost (gameWith twoReds [])) !! 1%nat
  = Some (map (λ b, Game.setRow 1 (Game.lower b))
            [Game.bubbleAt 0 0 red; Game.bubbleAt 0 1 red]).
Proof.
  split; [reflexivity|].
  exact (proj2 (proj2 (proj2 (pushRow_any_grid demoHost (gameWith twoReds []))))
           0%nat _ eq_refl).
Defined.

(** X16. The row pressure of [src/game.js]: a frame update adds
    [dt * 1000] to the spawn timer; when the sum reaches
    [spawnRowInterval] the frame pushes a row (the grid has more rows
    after the frame than before) and sets the timer to 0, otherwise
    the timer keeps the sum.  After every frame update the timer is
    below the interval. *)
Theorem row_pressure (host : Host) (dt : Q) (s : Game.State) :
  let t := (Game.spawnTimer s + dt * 1000)%Q in
  Game.spawnTimer (Game.update host dt s)
  = (if Qle_bool Game.spawnRowInterval t then 0%Q else t) ∧
  (Game.spawnTimer (Game.update host dt s) < Game.spawnRowInterval)%Q ∧
  (Qle_bool Game.spawnRowInterval t = true →
   (length (Game.grid s) < length (Game.grid (Game.update host dt s)))%nat).
Proof.
  cbn zeta. destruct (update_spawnTimer host dt s) as [H1 H2]. cbn zeta in *.
  split; [exact H1|]. split; [|exact H2].
  rewrite H1. destruct (Qle_bool _ _) eqn:E; [by vm_compute|].
  apply Qnot_le_lt. intros Hle. apply Qle_bool_iff in Hle. congruence.
Qed.

(** [row_pressure] on a frame of 14 seconds. *)
Lemma row_pressure_witness :
  Qle_bool Game.spawnRowInterval
    (Game.spawnTimer (gameWith twoReds []) + 14 * 1000)%Q = true ∧
  (length (Game.grid (gameWith twoReds []))
   < length (Game.grid (Game.update demoHost 14 (gameWith twoReds []))))%nat.
Proof.
  split; [reflexivity|].
  exact (proj2 (proj2 (row_pressure demoHost 14 (gameWith twoReds []))) eq_refl).
Defined.

(** The rows that the removal loop leaves. *)
Lemma removeFlagged_rows (g : Grid) :
  let rows := map (List.filter (λ b, negb (b_removing b))) g in
  (last rows = Some [] → Early.removeFlagged g = take (length g - 1) rows) ∧
  (last rows ≠ Some [] → Early.removeFlagged g = rows).
Proof.
  cbn zeta. unfold Early.removeFlagged. cbn zeta.
  set (rows := map (List.filter (λ b, negb (b_removing b))) g).
  assert (length rows = length g) as Hl by apply length_map.
  destruct (last rows) as [[|b r]|] eqn:E.
  - split; [intros _|done].
    destruct (last_snoc_nil rows E) as (g' & Hg').
    rewrite Hg', removelast_last. rewrite Hg', length_app in Hl. simpl in Hl.
    replace (length g - 1)%nat with (length g') by lia.
    by rewrite take_app_length.
  - split; [done|by intros _].
  - split; [done|by intros _].
Qed.

(** X19. The removal loop of the earlier version's frame update takes
    out exactly the flagged bubbles: every row array stays in its
    place and keeps its other bubbles in their order, but for the last
    row array, which is dropped, and it alone, exactly when the
    removal leaves it empty.  A frame update that returns leaves no
    flagged bubble in the grid. *)
Theorem early_frame_clears_flags (host : Host) :
  (∀ g : Grid,
     let rows := map (List.filter (λ b, negb (b_removing b))) g in
     concat (Early.removeFlagged g)
     = List.filter (λ b, negb (b_removing b)) (concat g) ∧
     (last rows = Some [] →
        Early.removeFlagged g = take (length g - 1) rows) ∧
     (last rows ≠ Some [] → Early.removeFlagged g = rows)) ∧
  (∀ dt s s',
     Early.update host dt s = Some s' →
     gridAll (λ b, b_removing b = false) (Early.grid s')).
Proof.
  split.
  - intros g. cbn zeta. destruct (removeFlagged_spec g) as (H1 & _).
    destruct (removeFlagged_rows g) as [H2 H3]. by repeat split.
  - intros dt s s'. apply Early_update_unflagged.
Qed.

(** [early_frame_clears_flags] on a grid whose last row holds one
    flagged bubble, and on the frame of the worn shot under a full row
    of green bubbles. *)
Lemma early_frame_clears_flags_witness :
  last (map (List.filter (λ b, negb (b_removing b)))
          [[Early.bubbleAt 0 0 red]; [mark (Early.bubbleAt 1 0 red)]])
  = Some [] ∧
  Early.removeFlagged
    [[Early.bubbleAt 0 0 red]; [mark (Early.bubbleAt 1 0 red)]]
  = [[Early.bubbleAt 0 0 red]] ∧
  ∃ s', Early.update demoHost (1 # 60)
          (earlyWith [earlyGreenRow] [earlyWornShot 0]) = Some s' ∧
        gridAll (λ b, b_removing b = false) (Early.grid s').
Proof.
  split; [reflexivity|]. split.
  - exact (proj1 (proj2 (proj1 (early_frame_clears_flags demoHost)
                           [[Early.bubbleAt 0 0 red];
                            [mark (Early.bubbleAt 1 0 red)]]))
             eq_refl).
  - eexists. split; [vm_compute; reflexivity|].
    refine (proj2 (early_frame_clears_flags demoHost) (1 # 60)
              (earlyWith [earlyGreenRow] [earlyWornShot 0]) _ _).
    vm_compute. reflexivity.
Defined.

(** ** The fire command *)

(** What [newProjectile()] does to the session. *)
Lemma newProjectile_launch host s :
  ∃ p,
    Game.projectiles (Game.newProjectile host s) = Game.projectiles s ++ [p] ∧
    p_x p = sh_x (Game.shooter s) ∧ p_y p = sh_y (Game.shooter s) ∧
    p_vx p = (cos host (sh_angle (Game.shooter s)) * Game.launchSpeed)%Q ∧
    p_vy p = (sin host (sh_angle (Game.shooter s)) * Game.launchSpeed)%Q ∧
    p_active p = true ∧ p_bounces p = 0 ∧
    (∀ c, Game.nextColor s = Some c → p_color p = c) ∧
    Game.shots (Game.newProjectile host s) = Game.shots s + 1 ∧
    is_Some (Game.nextColor (Game.newProjectile host s)) ∧
    Game.grid (Game.newProjectile host s) = Game.grid s ∧
    Game.shooter (Game.newProjectile host s) = Game.shooter s.
Proof.
  unfold Game.newProjectile.
  destruct s as [g ps sh [c|] sc n go lt st pa po fa tr hs ov ec rc nc];
    eexists; cbn; (split; [reflexivity|]); repeat split; eauto;
    by intros c' [= <-].
Qed.

Lemma Early_newProjectile_launch host s :
  ∃ p,
    Early.projectiles (Early.newProjectile host s)
    = Early.projectiles s ++ [p] ∧
    Early.p_x p = Early.sh_x (Early.shooter s) ∧
    Early.p_y p = Early.sh_y (Early.shooter s) ∧
    Early.p_vx p
    = (cos host (Early.sh_angle (Early.shooter s)) * Early.launchSpeed)%Q ∧
    Early.p_vy p
    = (sin host (Early.sh_angle (Early.shooter s)) * Early.launchSpeed)%Q ∧
    Early.p_active p = true ∧ Early.p_bounces p = 0 ∧
    Early.shots (Early.newProjectile host s) = Early.shots s + 1.
Proof.
  unfold Early.newProjectile.
  destruct s as [g ps sh [c|]]; eexists; cbn; (split; [reflexivity|]);
    repeat split; eauto.
Qed.

(** A frame steps each projectile of the list once. *)
Lemma stepProjectile_one host dt ds s p :
  ∃ p', (Game.stepProjectile host dt (ds, s) p).1 = ds ++ [p'].
Proof.
  unfold Game.stepProjectile. destruct (negb (p_active p)); [by eexists|].
  cbn zeta. destruct (Qltb _ _); [by eexists|].
  destruct (Game.firstHit _ _ _) as [b|]; [|by eexists].
  unfold Game.collide. cbn zeta. by eexists.
Qed.

Lemma foldl_stepProjectile_length host dt ps : ∀ ds s,
  length (foldl (Game.stepProjectile host dt) (ds, s) ps).1
  = (length ds + length ps)%nat.
Proof.
  induction ps as [|p ps IH]; intros ds s; cbn [foldl]; [simpl; lia|].
  destruct (stepProjectile_one host dt ds s p) as (p' & Hp').
  destruct (Game.stepProjectile host dt (ds, s) p) as [ds1 s1].
  simpl in Hp'. subst ds1. rewrite IH, length_app. simpl. lia.
Qed.

Lemma update_projectiles_length host dt s :
  (length (Game.projectiles (Game.update host dt s))
   ≤ length (Game.projectiles s))%nat.
Proof.
  rewrite update_projectiles.
  etransitivity; [apply List.filter_length_le|].
  rewrite foldl_stepProjectile_length. simpl.
  by destruct s.
Qed.

Lemma update_shots host dt s :
  Game.shots (Game.update host dt s) = Game.shots s.
Proof.
  apply (update_rel host (λ s s', Game.shots s' = Game.shots s)).
  - done.
  - congruence.
  - intros x. by destruct x.
  - intros p x. unfold Game.pushTrail. cbn zeta.
    repeat (match goal with |- context [if ?c then _ else _] => destruct c end);
      by destruct x.
  - intros p tx ty x. apply addBubbleAt_keeps; intros v y; by destruct y.
  - intros x y H. unfold frameSide in H. congruence.
  - intros x. apply pushRow_keeps; intros v y; by destruct y.
  - intros win x. unfold Game.endGame, Game.updateHighScore. cbn zeta.
    destruct (_ <? _); by destruct x.
Qed.

Lemma handle_shotsCover host s e :
  Z.of_nat (length (Game.projectiles s)) <= Game.shots s →
  Z.of_nat (length (Game.projectiles (Game.handle host s e)))
  <= Game.shots (Game.handle host s e).
Proof.
  intros H. destruct e as [ts|mx my| |mx my|]; cbn [Game.handle].
  - unfold Game.gameLoop. cbn zeta. rewrite draw_eq.
    change (Game.projectiles (Game.set_nowCalls ?n ?x))
      with (Game.projectiles x).
    change (Game.shots (Game.set_nowCalls ?n ?x)) with (Game.shots x).
    match goal with
    | |- context [if _ then Game.update host ?dt ?X else _] =>
        assert (Game.projectiles X = Game.projectiles s ∧
                Game.shots X = Game.shots s) as [H1 H2]
          by (destruct (Qeq_bool _ _); by destruct s);
        pose proof (update_projectiles_length host dt X) as H3;
        pose proof (update_shots host dt X) as H4
    end.
    rewrite H1 in H3. destruct (negb _); [lia|]. by rewrite H1, H2.
  - by destruct s.
  - unfold Game.click. destruct (_ || _); [done|].
    destruct (newProjectile_launch host s) as (p & -> & _ & _ & _ & _ & _ & _ & _ & -> & _).
    rewrite length_app. simpl. lia.
  - unfold Game.touchstart. cbn zeta.
    assert (Game.projectiles (Game.aimAt host mx my s) = Game.projectiles s ∧
            Game.shots (Game.aimAt host mx my s) = Game.shots s) as [H1 H2]
      by by destruct s.
    destruct (_ && _); [|by rewrite H1, H2].
    destruct (newProjectile_launch host (Game.aimAt host mx my s))
      as (p & -> & _ & _ & _ & _ & _ & _ & _ & -> & _).
    rewrite length_app, H1, H2. simpl. lia.
  - unfold Game.startGame. cbn zeta.
    match goal with
    | |- context [Game.initGrid host ?s0] =>
        destruct (initGrid_eq host s0) as (g & n & ->)
    end.
    by destruct s.
Qed.

(** X24. The fire command of [src/game.js].  While the game runs and
    the overlay is hidden, a click and a touch each launch one
    projectile: it is appended to the projectiles, starts at the
    shooter, active and with no bounce behind it, with the launch speed
    along the angle of the shooter, in the colour shown as next, and
    the shot counter goes up by one.  A touch fires along the angle
    that the shooter had before the touch, since the touch sets only
    the angle to ease to; in the earlier version it fires along the
    angle of the touch point, which nothing clamps.  While the game is
    over or the overlay is shown, a click changes nothing and a touch
    only aims.  A frame update leaves the shot counter as it is and
    adds no projectile, so that no event brings the counter below the
    number of projectiles in flight. *)
Theorem fire_command (host : Host) :
  (∀ s,
     Game.gameOver s = false → Game.overlayShown s = false →
     ∃ p, Game.projectiles (Game.click host s) = Game.projectiles s ++ [p] ∧
          launchedFrom host (Game.shooter s) p ∧
          (∀ c, Game.nextColor s = Some c → p_color p = c) ∧
          Game.shots (Game.click host s) = Game.shots s + 1) ∧
  (∀ mx my s,
     Game.gameOver s = false → Game.overlayShown s = false →
     ∃ p, Game.projectiles (Game.touchstart host mx my s)
          = Game.projectiles s ++ [p] ∧
          launchedFrom host (Game.shooter s) p ∧
          (∀ c, Game.nextColor s = Some c → p_color p = c) ∧
          Game.shots (Game.touchstart host mx my s) = Game.shots s + 1) ∧
  (∀ mx my s,
     Early.gameOver s = false → Early.overlayShown s = false →
     let a := atan2 host (my - Early.sh_y (Early.shooter s))%Q
                (mx - Early.sh_x (Early.shooter s))%Q in
     ∃ p, Early.projectiles (Early.touchstart host mx my s)
          = Early.projectiles s ++ [p] ∧
          Early.p_vx p = (cos host a * Early.launchSpeed)%Q ∧
          Early.p_vy p = (sin host a * Early.launchSpeed)%Q) ∧
  (∀ s,
     Game.gameOver s = true ∨ Game.overlayShown s = true →
     Game.click host s = s ∧
     ∀ mx my, Game.touchstart host mx my s = Game.aimAt host mx my s) ∧
  (∀ dt s,
     Game.shots (Game.update host dt s) = Game.shots s ∧
     (length (Game.projectiles (Game.update host dt s))
      ≤ length (Game.projectiles s))%nat) ∧
  (∀ es s, shotsCover s → shotsCover (foldl (Game.handle host) s es)).
Proof.
  split; [|split; [|split; [|split; [|split]]]].
  - intros s Hgo Hov. unfold Game.click. rewrite Hgo, Hov. cbn [orb].
    destruct (newProjectile_launch host s)
      as (p & Hp & H1 & H2 & H3 & H4 & H5 & H6 & H7 & H8 & _).
    exists p. by repeat split.
  - intros mx my s Hgo Hov. unfold Game.touchstart. cbn zeta.
    assert (Game.gameOver (Game.aimAt host mx my s) = false) as ->
      by by destruct s.
    assert (Game.overlayShown (Game.aimAt host mx my s) = false) as ->
      by by destruct s.
    cbn [negb andb].
    destruct (newProjectile_launch host (Game.aimAt host mx my s))
      as (p & Hp & H1 & H2 & H3 & H4 & H5 & H6 & H7 & H8 & _).
    exists p. split; [by destruct s|]. split; [by repeat split|].
    split; [by destruct s|]. by destruct s.
  - intros mx my s Hgo Hov. cbn zeta. unfold Early.touchstart. cbn zeta.
    assert (∀ sh, Early.gameOver (Early.set_shooter sh s) = false ∧
                  Early.overlayShown (Early.set_shooter sh s) = false ∧
                  Early.projectiles (Early.set_shooter sh s)
                  = Early.projectiles s) as Hset
      by (intros sh; by destruct s).
    match goal with
    | |- context [Early.newProjectile host (Early.set_shooter ?sh s)] =>
        destruct (Hset sh) as (-> & -> & Hps);
        destruct (Early_newProjectile_launch host (Early.set_shooter sh s))
          as (p & Hp & _ & _ & H3 & H4 & _)
    end.
    cbn [negb andb]. exists p. rewrite Hp, Hps. split; [done|].
    split; [exact H3|exact H4].
  - intros s H. unfold Game.click, Game.touchstart. cbn zeta. split.
    + by destruct H as [-> | ->], (Game.gameOver s).
    + intros mx my.
      assert (Game.gameOver (Game.aimAt host mx my s) = Game.gameOver s) as ->
        by by destruct s.
      assert (Game.overlayShown (Game.aimAt host mx my s)
              = Game.overlayShown s) as -> by by destruct s.
      by destruct H as [-> | ->], (Game.gameOver s).
  - intros dt s. split; [apply update_shots|apply update_projectiles_length].
  - intros es. induction es as [|e es IH]; intros s H; cbn [foldl]; [done|].
    by apply IH, handle_shotsCover.
Qed.

(** [fire_command] on a click in the session of the two red bubbles. *)
Lemma fire_command_witness :
  Game.gameOver (gameWith twoReds []) = false ∧
  Game.overlayShown (gameWith twoReds []) = false ∧
  Game.shots (Game.click demoHost (gameWith twoReds [])) = 1.
Proof.
  split; [reflexivity|]. split; [reflexivity|].
  destruct (proj1 (fire_command demoHost) (gameWith twoReds [])
              eq_refl eq_refl) as (p & _ & _ & _ & H).
  exact H.
Defined.

(** ** The effects of a frame *)

(** The effects and the clock, which the row push and the terminal
    checks leave alone. *)
Lemma update_effects_eq host dt s :
  ∃ s1 : Game.State,
    let t := now host (Game.nowCalls s1) in
    Game.nowCalls (Game.update host dt s) = S (Game.nowCalls s1) ∧
    Game.popping (Game.update host dt s)
    = List.filter (λ pop, Qltb (t - pop_start pop)%Q Game.popDuration)
        (Game.popping s1) ∧
    Game.falling (Game.update host dt s)
    = List.filter
        (λ f, Qltb (f_y f) (ZtoQ (canvas_height host) + Game.bubbleRadius * 2)%Q)
        (map (Game.fall dt) (Game.falling s1)) ∧
    Game.particles (Game.update host dt s)
    = map (Game.drift dt t)
        (List.filter (λ pt, Qltb (t - pt_born pt)%Q Game.particleLife)
           (Game.particles s1)).
Proof.
  set (proj := λ x : Game.State,
         (Game.nowCalls x, Game.popping x, Game.falling x, Game.particles x)).
  assert (∀ x, proj (Game.winLose host x) = proj x) as Hwin.
  { intros x. apply (winLose_rel host (λ s s', proj s' = proj s));
      [done|congruence|].
    intros win y. unfold Game.endGame, Game.updateHighScore. cbn zeta.
    destruct (_ <? _); by destruct y. }
  assert (∀ x, proj (Game.pushRow host x) = proj x) as Hpush.
  { intros x. apply pushRow_keeps; intros v y; by destruct y. }
  unfold Game.update.
  assert (∀ x y, proj x = proj y →
            Game.nowCalls x = Game.nowCalls y ∧ Game.popping x = Game.popping y ∧
            Game.falling x = Game.falling y ∧ Game.particles x = Game.particles y)
    as Hproj by (intros x y [= -> -> -> ->]; done).
  destruct (Hproj _ _ (Hwin (Game.advance host dt s))) as (-> & -> & -> & ->).
  unfold Game.advance.
  destruct (foldl _ _ _) as [ps s1]. exists s1. cbn zeta.
  unfold Game.performanceNow.
  match goal with
  | |- context [if ?c then _ else _] => destruct c
  end.
  - match goal with
    | |- context [Game.pushRow host ?X] =>
        destruct (Hproj _ _ (Hpush X)) as (H1 & H2 & H3 & H4)
    end.
    assert (∀ v x, proj (Game.set_spawnTimer v x) = proj x) as Hst
      by (intros v x; by destruct x).
    match goal with
    | |- context [Game.set_spawnTimer 0 ?X] =>
        destruct (Hproj _ _ (Hst 0%Q X)) as (-> & -> & -> & ->)
    end.
    rewrite H1, H2, H3, H4. by destruct s1.
  - by destruct s1.
Qed.

(** X25. The effects of [src/game.js] after a frame update, [t] being
    the last clock value that the frame has read: every pop animation
    left is younger than [popDuration], every particle left is younger
    than [particleLife] and has the opacity
    [1 - (t - born) / particleLife], which is positive, and every
    falling bubble left is above [canvas.height + 2 r]. *)
Theorem effects_expire (host : Host) (dt : Q) (s : Game.State) :
  let s' := Game.update host dt s in
  let t := now host (Nat.pred (Game.nowCalls s')) in
  Forall (λ pop, (t - pop_start pop < Game.popDuration)%Q) (Game.popping s') ∧
  Forall (λ pt, (t - pt_born pt < Game.particleLife)%Q ∧
                (pt_alpha pt == 1 - (t - pt_born pt) / Game.particleLife)%Q ∧
                (0 < pt_alpha pt)%Q)
    (Game.particles s') ∧
  Forall (λ f, (f_y f < ZtoQ (canvas_height host) + Game.bubbleRadius * 2)%Q)
    (Game.falling s').
Proof.
  cbn zeta. destruct (update_effects_eq host dt s) as (s1 & Hn & Hp & Hf & Hpt).
  cbn zeta in *. rewrite Hn, Hp, Hf, Hpt. cbn [Nat.pred].
  split; [|split].
  - apply Forall_forall. intros pop [_ H]%list_elem_of_In%filter_In.
    by apply Qltb_true.
  - apply Forall_forall. intros pt' Hin%list_elem_of_In.
    apply in_map_iff in Hin as (pt & <- & [_ H]%filter_In).
    apply Qltb_true in H. cbn [Game.drift pt_born pt_alpha].
    split; [done|]. split; [reflexivity|].
    unfold Game.particleLife in *.
    assert ((now host (Game.nowCalls s1) - pt_born pt) / 420
            == (now host (Game.nowCalls s1) - pt_born pt) * (1 # 420))%Q as ->
      by (field). lra.
  - apply Forall_forall. intros f [_ H]%list_elem_of_In%filter_In.
    by apply Qltb_true.
Qed.

(** ** The effects of a pop and of a drop *)

Lemma foldl_adds {A} (m : Game.State → Z) (f : Game.State → A → Game.State)
    (d : Z) (l : list A) :
  (∀ s x, m (f s x) = m s + d) →
  ∀ s, m (foldl f s l) = m s + d * Z.of_nat (length l).
Proof.
  intros Hf. induction l as [|x l IH]; intros s; cbn [foldl length]; [lia|].
  rewrite IH, Hf. lia.
Qed.

(** The three effect lists, by their lengths. *)
Lemma spawnParticles_count host px py col drop s :
  Z.of_nat (length (Game.particles (Game.spawnParticles host px py col drop s)))
  = Z.of_nat (length (Game.particles s)) + Game.particleCountPerBubble.
Proof.
  unfold Game.spawnParticles, Game.performanceNow. cbn zeta.
  rewrite (foldl_adds (λ s, Z.of_nat (length (Game.particles s))) _ 1).
  - rewrite length_seqZ. unfold Game.particleCountPerBubble.
    destruct s; simpl; lia.
  - intros x _. unfold Game.spawnParticle, Game.mathRandom. cbn zeta.
    destruct x; simpl. rewrite length_app. simpl. lia.
Qed.

Lemma popBubble_count host s b :
  let s' := Game.popBubble host s b in
  Z.of_nat (length (Game.popping s')) = Z.of_nat (length (Game.popping s)) + 1 ∧
  Z.of_nat (length (Game.particles s'))
  = Z.of_nat (length (Game.particles s)) + Game.particleCountPerBubble ∧
  Game.falling s' = Game.falling s.
Proof.
  cbn zeta. unfold Game.popBubble, Game.performanceNow. cbn zeta.
  split; [|split].
  - rewrite (spawnParticles_keeps host Game.popping)
      by (intros v x; by destruct x).
    destruct s; simpl. rewrite length_app. simpl. lia.
  - rewrite spawnParticles_count. by destruct s.
  - rewrite (spawnParticles_keeps host Game.falling)
      by (intros v x; by destruct x).
    by destruct s.
Qed.

Lemma dropBubble_count host s b :
  let s' := Game.dropBubble host s b in
  Z.of_nat (length (Game.falling s')) = Z.of_nat (length (Game.falling s)) + 1 ∧
  Z.of_nat (length (Game.particles s'))
  = Z.of_nat (length (Game.particles s)) + Game.particleCountPerBubble ∧
  Game.popping s' = Game.popping s.
Proof.
  cbn zeta. unfold Game.dropBubble, Game.mathRandom, Game.performanceNow.
  cbn zeta. split; [|split].
  - rewrite (spawnParticles_keeps host Game.falling)
      by (intros v x; by destruct x).
    destruct s; simpl. rewrite length_app. simpl. lia.
  - rewrite spawnParticles_count. by destruct s.
  - rewrite (spawnParticles_keeps host Game.popping)
      by (intros v x; by destruct x).
    by destruct s.
Qed.

Lemma clusterCheck_count host origin s :
  let n := length (clusterOf (Game.grid s) origin) in
  let k := if (3 <=? n)%nat then Z.of_nat n else 0 in
  let s' := Game.clusterCheck host origin s in
  Z.of_nat (length (Game.popping s')) = Z.of_nat (length (Game.popping s)) + k ∧
  Z.of_nat (length (Game.particles s'))
  = Z.of_nat (length (Game.particles s)) + Game.particleCountPerBubble * k ∧
  Game.falling s' = Game.falling s.
Proof.
  cbn zeta. unfold Game.clusterCheck, Game.minCluster.
  destruct (3 <=? _)%nat; [|repeat split; lia].
  set (cl := clusterOf (Game.grid s) origin).
  assert (∀ x, Game.popping (Game.updateHighScore x) = Game.popping x ∧
               Game.particles (Game.updateHighScore x) = Game.particles x ∧
               Game.falling (Game.updateHighScore x) = Game.falling x) as Hh.
  { intros x. unfold Game.updateHighScore. by destruct (_ <? _), x. }
  match goal with
  | |- context [Game.updateHighScore ?X] => destruct (Hh X) as (-> & -> & ->)
  end.
  match goal with
  | |- context [Game.set_score ?v ?X] =>
      change (Game.popping (Game.set_score v X)) with (Game.popping X);
      change (Game.particles (Game.set_score v X)) with (Game.particles X);
      change (Game.falling (Game.set_score v X)) with (Game.falling X)
  end.
  split; [|split].
  - rewrite (foldl_adds (λ s, Z.of_nat (length (Game.popping s))) _ 1); [lia|].
    intros x b. apply popBubble_count.
  - rewrite (foldl_adds (λ s, Z.of_nat (length (Game.particles s))) _
               Game.particleCountPerBubble); [done|].
    intros x b. apply popBubble_count.
  - apply (foldl_keeps Game.falling). intros x b. apply popBubble_count.
Qed.

Lemma drops_adds host (m : Game.State → Z) (d : Z) K g :
  (∀ s b, m (Game.dropBubble host s b) = m s + d) →
  ∀ s,
    m (foldl (λ s rowArr,
                foldl (Game.dropBubble host) s
                  (List.filter (Game.floats K) (rev rowArr))) s g)
    = m s + d * Z.of_nat (length (List.filter (Game.floats K) (concat g))).
Proof.
  intros Hd. induction g as [|r g IH]; intros s; cbn [foldl concat].
  - simpl. lia.
  - rewrite IH, (foldl_adds m _ d) by done.
    rewrite List.filter_app, length_app, List.filter_rev, length_rev. lia.
Qed.

Lemma length_filter_split {A} (f : A → bool) (l : list A) :
  (length (List.filter f l) + length (List.filter (λ x, negb (f x)) l))%nat
  = length l.
Proof.
  induction l as [|x l IH]; [done|]. simpl. destruct (f x); simpl; lia.
Qed.

Lemma concat_filterRows {A} (f : A → bool) (g : list (list A)) :
  concat (map (List.filter f) g) = List.filter f (concat g).
Proof.
  induction g as [|r g IH]; [done|]. simpl. by rewrite IH, List.filter_app.
Qed.

Lemma floatingCheck_count host s :
  let k := Z.of_nat (length (List.filter
                              (Game.floats (connectedSet (Game.grid s)))
                              (concat (Game.grid s)))) in
  let s' := Game.floatingCheck host s in
  Z.of_nat (length (Game.falling s')) = Z.of_nat (length (Game.falling s)) + k ∧
  Z.of_nat (length (Game.particles s'))
  = Z.of_nat (length (Game.particles s)) + Game.particleCountPerBubble * k ∧
  Game.popping s' = Game.popping s ∧
  Z.of_nat (bubbleCount (Game.grid s')) + k
  = Z.of_nat (bubbleCount (Game.grid s)).
Proof.
  cbn zeta. split; [|split; [|split]].
  - rewrite Game_floatingCheck_eq. cbn zeta.
    assert (∀ x, Game.falling (Game.updateHighScore x) = Game.falling x) as ->
      by (intros x; unfold Game.updateHighScore; by destruct (_ <? _), x).
    match goal with
    | |- context [Game.set_grid ?v ?X] =>
        change (Game.falling (Game.set_grid v X)) with (Game.falling X)
    end.
    rewrite (drops_adds host (λ s, Z.of_nat (length (Game.falling s))) 1);
      [lia|].
    intros x b. apply dropBubble_count.
  - rewrite Game_floatingCheck_eq. cbn zeta.
    assert (∀ x, Game.particles (Game.updateHighScore x) = Game.particles x)
      as -> by (intros x; unfold Game.updateHighScore; by destruct (_ <? _), x).
    match goal with
    | |- context [Game.set_grid ?v ?X] =>
        change (Game.particles (Game.set_grid v X)) with (Game.particles X)
    end.
    rewrite (drops_adds host (λ s, Z.of_nat (length (Game.particles s)))
               Game.particleCountPerBubble); [done|].
    intros x b. apply dropBubble_count.
  - rewrite Game_floatingCheck_eq. cbn zeta.
    assert (∀ x, Game.popping (Game.updateHighScore x) = Game.popping x) as ->
      by (intros x; unfold Game.updateHighScore; by destruct (_ <? _), x).
    match goal with
    | |- context [Game.set_grid ?v ?X] =>
        change (Game.popping (Game.set_grid v X)) with (Game.popping X)
    end.
    apply (foldl_keeps Game.popping). intros x r.
    apply (foldl_keeps Game.popping). intros y b. apply dropBubble_count.
  - rewrite Game_floatingCheck_grid. unfold bubbleCount.
    rewrite concat_filterRows.
    pose proof (length_filter_split (Game.floats (connectedSet (Game.grid s)))
                  (concat (Game.grid s))). lia.
Qed.

(** ** The score in tens *)

Lemma addBubbleAt_score_tens host p tx ty s :
  (10 | Game.score (Game.addBubbleAt host p tx ty s) - Game.score s).
Proof.
  unfold Game.addBubbleAt. destruct (Game.cellOf host tx ty) as [row col].
  destruct (findCol _ _).
  - exists 0. unfold Game.set_grid. cbn [Game.score]. lia.
  - rewrite Game_floatingCheck_score.
    match goal with
    | |- context [Game.clusterCheck host ?b ?X] =>
        destruct (clusterCheck_effect host b X) as [Hlt Hge];
        destruct (le_lt_dec 3 (length (clusterOf (Game.grid X) b))) as [H|H];
        [destruct (Hge H) as [_ Hs]; rewrite Hs
        |rewrite (Hlt H)];
        change (Game.score X) with (Game.score s)
    end.
    + match goal with
      | |- (10 | _ + 10 * ?n + 20 * ?m - _) => exists (n + 2 * m); lia
      end.
    + match goal with
      | |- (10 | _ + 20 * ?m - _) => exists (2 * m); lia
      end.
Qed.

Lemma update_score_tens host dt s :
  (10 | Game.score (Game.update host dt s) - Game.score s).
Proof.
  apply (update_rel host (λ s s', (10 | Game.score s' - Game.score s))).
  - intros x. exists 0. lia.
  - intros x y z [a Ha] [b Hb]. exists (a + b). lia.
  - intros x. exists 0. destruct x; simpl; lia.
  - intros p x. exists 0. unfold Game.pushTrail. cbn zeta.
    repeat (match goal with |- context [if ?c then _ else _] => destruct c end);
      destruct x; simpl; lia.
  - intros p tx ty x. apply addBubbleAt_score_tens.
  - intros x y H. exists 0. unfold frameSide in H.
    assert (Game.score y = Game.score x) by congruence. lia.
  - intros x. exists 0.
    rewrite (pushRow_keeps host Game.score) by (intros v y; by destruct y). lia.
  - intros win x. exists 0. unfold Game.endGame, Game.updateHighScore.
    cbn zeta. destruct (_ <? _); destruct x; simpl; lia.
Qed.

Lemma handle_score_tens host s e :
  (10 | Game.score s) → (10 | Game.score (Game.handle host s e)).
Proof.
  intros H. destruct e as [ts|mx my| |mx my|]; cbn [Game.handle].
  - unfold Game.gameLoop. cbn zeta. rewrite draw_eq.
    change (Game.score (Game.set_nowCalls ?n ?x)) with (Game.score x).
    match goal with
    | |- context [if _ then Game.update host ?dt ?X else _] =>
        assert (Game.score X = Game.score s) as H1
          by (destruct (Qeq_bool _ _); by destruct s);
        pose proof (update_score_tens host dt X) as H2
    end.
    destruct (negb _); [|by rewrite H1].
    rewrite H1 in H2. destruct H as [a Ha], H2 as [b Hb]. exists (a + b). lia.
  - by rewrite aimAt_score.
  - unfold Game.click. destruct (_ || _); [done|]. by rewrite newProjectile_score.
  - unfold Game.touchstart. cbn zeta.
    destruct (_ && _); [rewrite newProjectile_score|]; by rewrite aimAt_score.
  - destruct (startGame_fields host s) as (-> & _). by exists 0.
Qed.

(** X26. What a pop and a drop of [src/game.js] leave behind.  A
    cluster check that pops [k] bubbles ([k] is 0 or at least 3) adds
    [k] pop animations and [7 k] particles and no falling bubble.  A
    floating check that drops [k] bubbles adds [k] falling bubbles and
    [7 k] particles and no pop animation, and the grid holds [k]
    bubbles fewer: each bubble taken out of the grid is a falling
    bubble. *)
Theorem effects_per_bubble (host : Host) :
  (∀ origin s,
     let n := length (clusterOf (Game.grid s) origin) in
     let k := if (3 <=? n)%nat then Z.of_nat n else 0 in
     let s' := Game.clusterCheck host origin s in
     Z.of_nat (length (Game.popping s'))
     = Z.of_nat (length (Game.popping s)) + k ∧
     Z.of_nat (length (Game.particles s'))
     = Z.of_nat (length (Game.particles s)) + 7 * k ∧
     Game.falling s' = Game.falling s) ∧
  (∀ s,
     let k := Z.of_nat (length (List.filter
                                  (Game.floats (connectedSet (Game.grid s)))
                                  (concat (Game.grid s)))) in
     let s' := Game.floatingCheck host s in
     Z.of_nat (length (Game.falling s'))
     = Z.of_nat (length (Game.falling s)) + k ∧
     Z.of_nat (length (Game.particles s'))
     = Z.of_nat (length (Game.particles s)) + 7 * k ∧
     Game.popping s' = Game.popping s ∧
     Z.of_nat (bubbleCount (Game.grid s')) + k
     = Z.of_nat (bubbleCount (Game.grid s))).
Proof.
  split.
  - intros origin s. apply clusterCheck_count.
  - intros s. apply floatingCheck_count.
Qed.

(** X27. The score of [src/game.js] moves in tens: a placement and a
    frame update change it by a multiple of 10, and from [startGame]
    on it is a multiple of 10 after every event. *)
Theorem score_in_tens (host : Host) :
  (∀ p tx ty s,
     (10 | Game.score (Game.addBubbleAt host p tx ty s) - Game.score s)) ∧
  (∀ dt s, (10 | Game.score (Game.update host dt s) - Game.score s)) ∧
  (∀ es s,
     (10 | Game.score s) → (10 | Game.score (foldl (Game.handle host) s es))) ∧
  (∀ es s,
     (10 | Game.score (foldl (Game.handle host) (Game.startGame host s) es))).
Proof.
  assert (∀ es s,
            (10 | Game.score s) →
            (10 | Game.score (foldl (Game.handle host) s es))) as H.
  { intros es. induction es as [|e es IH]; intros s H; cbn [foldl]; [done|].
    by apply IH, handle_score_tens. }
  split; [apply addBubbleAt_score_tens|].
  split; [apply update_score_tens|]. split; [exact H|].
  intros es s. apply H. destruct (startGame_fields host s) as (-> & _).
  by exists 0.
Qed.

(** [score_in_tens] on the frame in which a shot pops the two red
    bubbles of row 0. *)
Lemma score_in_tens_witness :
  (10 | Game.score (gameWith twoReds [wornShot 0])) ∧
  (10 | Game.score (foldl (Game.handle demoHost) (gameWith twoReds [wornShot 0])
                      [Game.Frame 16; Game.Frame 32])).
Proof.
  assert (10 | Game.score (gameWith twoReds [wornShot 0])) as H
    by (exists 0; reflexivity).
  split; [exact H|].
  exact (proj1 (proj2 (proj2 (score_in_tens demoHost))) _ _ H).
Defined.

(** ** The palette *)

Lemma colorAt_palette (u : Q) :
  (0 <= u)%Q → (u < 1)%Q →
  inPalette (Game.colorAt
               (js_floor (u * ZtoQ (Z.of_nat (length Game.colors)))%Q)).
Proof.
  intros H0 H1. unfold js_floor, ZtoQ.
  change (inject_Z (Z.of_nat (length Game.colors))) with 6%Q.
  assert (0 <= Qfloor (u * 6) < 6) as Hi.
  { split.
    - change 0 with (Qfloor 0). apply Qfloor_resp_le. lra.
    - apply Qfloor_lt. change (inject_Z 6) with 6%Q. lra. }
  generalize dependent (Qfloor (u * 6)). intros i Hi.
  assert (i = 0 ∨ i = 1 ∨ i = 2 ∨ i = 3 ∨ i = 4 ∨ i = 5) as Hcases by lia.
  unfold inPalette. clear Hi.
  destruct Hcases as [H|[H|[H|[H|[H|H]]]]]; rewrite H; vm_compute; set_solver.
Qed.

Lemma pickColor_palette host s :
  randomUnit host → inPalette (Game.pickColor host s).1.
Proof.
  intros Hr. destruct (Hr (Game.randomCalls s)) as [H0 H1].
  by apply colorAt_palette.
Qed.

(** Off [0, 1) the palette is missed: [Math.random() = 1] would give
    [CONFIG.colors[6]]. *)
Lemma colorAt_off_palette (u : Q) :
  (u < 0)%Q ∨ (1 <= u)%Q →
  Game.colorAt (js_floor (u * ZtoQ (Z.of_nat (length Game.colors)))%Q)
  = "undefined"%string.
Proof.
  intros H. unfold js_floor, ZtoQ.
  change (inject_Z (Z.of_nat (length Game.colors))) with 6%Q.
  unfold Game.colorAt. destruct H as [H|H].
  - assert (Qfloor (u * 6) < 0) as Hi
      by (apply Qfloor_lt; change (inject_Z 0) with 0%Q; lra).
    by rewrite (proj2 (Z.ltb_lt _ _) Hi).
  - assert (6 <= Qfloor (u * 6)) as Hi.
    { change 6 with (Qfloor 6) at 1. apply Qfloor_resp_le. lra. }
    rewrite (proj2 (Z.ltb_ge _ _)) by lia.
    unfold nth_default.
    rewrite (proj2 (nth_error_None Game.colors (Z.to_nat (Qfloor (u * 6)))));
      [done|].
    change (length Game.colors) with 6%nat. lia.
Qed.

Lemma addBubbleAt_palette host p tx ty s :
  inPalette (p_color p) →
  gridAll (λ b, inPalette (b_color b)) (Game.grid s) →
  gridAll (λ b, inPalette (b_color b))
    (Game.grid (Game.addBubbleAt host p tx ty s)).
Proof.
  intros Hp H.
  destruct (cellAt (Game.grid s) (Game.cellOf host tx ty).1
              (Game.cellOf host tx ty).2) as [x|] eqn:Hcell.
  - by rewrite Game_addBubbleAt_occupied by by eexists.
  - rewrite Game_addBubbleAt_free by done.
    apply floatingCheck_gridAll, clusterCheck_gridAll; [done|].
    by apply gridAll_withBubble.
Qed.

Lemma pushTrail_grid host p s :
  Game.grid (Game.pushTrail host p s) = Game.grid s.
Proof.
  unfold Game.pushTrail. cbn zeta.
  repeat (match goal with |- context [if ?c then _ else _] => destruct c end);
    by destruct s.
Qed.

Lemma stepProjectile_palette host dt ds s p :
  inPalette (p_color p) →
  gridAll (λ b, inPalette (b_color b)) (Game.grid s) →
  gridAll (λ b, inPalette (b_color b))
    (Game.grid (Game.stepProjectile host dt (ds, s) p).2) ∧
  ∃ p', (Game.stepProjectile host dt (ds, s) p).1 = ds ++ [p'] ∧
        p_color p' = p_color p.
Proof.
  intros Hp H. unfold Game.stepProjectile.
  destruct (negb (p_active p)); [split; [done|by eexists]|].
  cbn zeta.
  set (p1 := Game.bounceLimit (Game.bounce host (Game.move dt p))).
  assert (p_color p1 = p_color p) as Hc.
  { unfold p1, Game.bounceLimit, Game.bounce, Game.deactivate. cbn zeta.
    repeat (match goal with |- context [if ?c then _ else _] => destruct c end);
      done. }
  destruct (Qltb _ _).
  - cbn [fst snd]. split; [|by eexists].
    apply addBubbleAt_palette; [by rewrite <- Hc in Hp|].
    by rewrite pushTrail_grid.
  - destruct (Game.firstHit _ _ _) as [b|].
    + unfold Game.collide. cbn zeta. cbn [fst snd].
      split; [|eexists; split; [done|];
               by destruct (Qltb _ _)].
      apply addBubbleAt_palette; [by rewrite <- Hc in Hp|].
      by rewrite pushTrail_grid.
    + cbn [fst snd]. split; [by rewrite pushTrail_grid|].
      eexists; split; [done|]. by destruct (Qltb _ _).
Qed.

Lemma foldl_stepProjectile_palette host dt ps : ∀ ds s,
  Forall (λ p, inPalette (p_color p)) ps →
  Forall (λ p, inPalette (p_color p)) ds →
  gridAll (λ b, inPalette (b_color b)) (Game.grid s) →
  let r := foldl (Game.stepProjectile host dt) (ds, s) ps in
  gridAll (λ b, inPalette (b_color b)) (Game.grid r.2) ∧
  Forall (λ p, inPalette (p_color p)) r.1.
Proof.
  cbn zeta. induction ps as [|p ps IH]; intros ds s Hps Hds H; cbn [foldl];
    [done|].
  apply Forall_cons in Hps as [Hp Hps].
  destruct (stepProjectile_palette host dt ds s p Hp H)
    as (H1 & p' & Hp' & Hc).
  destruct (Game.stepProjectile host dt (ds, s) p) as [ds1 s1].
  simpl in Hp', H1. subst ds1. apply IH; [done| |done].
  apply Forall_app. split; [done|]. constructor; [|done]. by rewrite Hc.
Qed.

Lemma pushRow_palette host s :
  randomUnit host →
  gridAll (λ b, inPalette (b_color b)) (Game.grid s) →
  gridAll (λ b, inPalette (b_color b)) (Game.grid (Game.pushRow host s)).
Proof.
  intros Hr H. destruct (Game_pushRow_grid host s) as (newRow & -> & Hlen & Hk).
  unfold Game.renumber.
  apply (gridAll_imap _ (λ i, Game.setRow (Z.of_nat i))); [done|].
  apply gridAll_cons. split; [|by apply gridAll_mapRows].
  apply Forall_lookup. intros k b Hb.
  pose proof (lookup_lt_Some _ _ _ Hb) as Hlt. rewrite Hlen in Hlt.
  rewrite (Hk k Hlt) in Hb. apply (inj Some) in Hb. subst b.
  exact (pickColor_palette host _ Hr).
Qed.

Lemma initGrid_palette host (rows : list Z) : ∀ s,
  randomUnit host →
  gridAll (λ b, inPalette (b_color b)) (Game.grid s) →
  gridAll (λ b, inPalette (b_color b))
    (Game.grid
       (foldl (λ s row,
                 let count := Game.perRow host
                              - (if Z.rem row 2 =? 0 then 0 else 1) in
                 let '(arr, s) := Game.initRow host row count s in
                 Game.set_grid (Game.grid s ++ [arr]) s) s rows)).
Proof.
  induction rows as [|row rows IH]; intros s Hr H; [done|].
  cbn [foldl]. cbn zeta.
  assert (Forall (λ b, inPalette (b_color b))
            (Game.initRow host row
               (Game.perRow host - (if Z.rem row 2 =? 0 then 0 else 1)) s).1)
    as Harr.
  { unfold Game.initRow. cbn zeta.
    rewrite (Game_buildRow_fold host
               (λ c col, mkBubble row c
                  (Game.bubbleRadius + ZtoQ c * Game.bubbleRadius * 2
                   + ZtoQ (Z.rem row 2) * Game.bubbleRadius)%Q
                  (Game.bubbleRadius + ZtoQ row * Game.rowHeight)%Q col false)).
    rewrite app_nil_l. cbn [fst].
    apply Forall_lookup. intros k b Hb. rewrite list_lookup_imap in Hb.
    destruct (seqZ 0 _ !! k) as [c|] eqn:Hc; [|done].
    apply (inj Some) in Hb. subst b. exact (pickColor_palette host _ Hr). }
  destruct (initRow_row host row
              (Game.perRow host - (if Z.rem row 2 =? 0 then 0 else 1)) s)
    as (Hg & _).
  destruct (Game.initRow host row _ s) as [arr s1]. simpl in *.
  apply IH; [done|].
  change (Game.grid (Game.set_grid ?g _)) with g. rewrite Hg.
  by apply gridAll_snoc.
Qed.

Lemma startGame_palette host s :
  randomUnit host → paletteOk (Game.startGame host s).
Proof.
  intros Hr. unfold Game.startGame. cbn zeta.
  match goal with
  | |- context [Game.initGrid host ?s0] =>
      assert (gridAll (λ b, inPalette (b_color b))
                (Game.grid (Game.initGrid host s0)) ∧
              Game.projectiles (Game.initGrid host s0) = []) as [H1 H2];
      [|generalize dependent (Game.initGrid host s0)]
  end.
  { split.
    - unfold Game.initGrid. apply initGrid_palette; [done|constructor].
    - match goal with
      | |- context [Game.initGrid host ?s0] =>
          destruct (initGrid_eq host s0) as (g & n & ->)
      end. done. }
  intros s1 H1 H2. rewrite Game_pickColor_eq.
  pose proof (pickColor_palette host (Game.set_overlayShown false s1) Hr) as Hc.
  split; [|split].
  - by destruct s1.
  - replace (Game.projectiles _) with (Game.projectiles s1) by by destruct s1.
    rewrite H2. constructor.
  - intros c Hs. destruct s1; simpl in Hs. by injection Hs as <-.
Qed.

Lemma newProjectile_palette host s :
  randomUnit host → paletteOk s → paletteOk (Game.newProjectile host s).
Proof.
  intros Hr (Hg & Hp & Hn). unfold Game.newProjectile.
  destruct (Game.nextColor s) as [c|] eqn:Hc.
  - specialize (Hn c eq_refl). cbn zeta.
    unfold Game.performanceNow. cbn zeta. rewrite Game_pickColor_eq. cbn zeta.
    match goal with
    | |- context [(Game.pickColor host ?X).1] =>
        pose proof (pickColor_palette host X Hr) as Hc'
    end.
    split; [|split].
    + by destruct s.
    + destruct s; simpl in *. apply Forall_app. split; [done|].
      constructor; [done|constructor].
    + intros c' Hs. destruct s; simpl in *. by injection Hs as <-.
  - rewrite Game_pickColor_eq. cbn zeta.
    pose proof (pickColor_palette host s Hr) as Hc0.
    unfold Game.performanceNow. cbn zeta. rewrite Game_pickColor_eq. cbn zeta.
    match goal with
    | |- context [(Game.pickColor host ?X).1] =>
        lazymatch X with
        | s => fail
        | _ => pose proof (pickColor_palette host X Hr) as Hc'
        end
    end.
    split; [|split].
    + by destruct s.
    + destruct s; simpl in *. apply Forall_app. split; [done|].
      constructor; [done|constructor].
    + intros c' Hs. destruct s; simpl in *. by injection Hs as <-.
Qed.

Lemma update_palette host dt s :
  randomUnit host → paletteOk s → paletteOk (Game.update host dt s).
Proof.
  intros Hr (Hg & Hp & Hn).
  set (proj := λ x : Game.State,
         (Game.grid x, Game.projectiles x, Game.nextColor x)).
  assert (∀ x y, proj x = proj y →
            Game.grid x = Game.grid y ∧
            Game.projectiles x = Game.projectiles y ∧
            Game.nextColor x = Game.nextColor y)
    as Hproj by (intros x y [= -> -> ->]; done).
  assert (∀ x, proj (Game.winLose host x) = proj x) as Hwin.
  { intros x. apply (winLose_rel host (λ s s', proj s' = proj s));
      [done|congruence|].
    intros win y. unfold Game.endGame, Game.updateHighScore. cbn zeta.
    destruct (_ <? _); by destruct y. }
  assert (Game.nextColor (Game.update host dt s) = Game.nextColor s) as Hnext.
  { apply (update_rel host (λ s s', Game.nextColor s' = Game.nextColor s)).
    - done.
    - congruence.
    - intros x. by destruct x.
    - intros p x. unfold Game.pushTrail. cbn zeta.
      repeat (match goal with |- context [if ?c then _ else _] => destruct c end);
        by destruct x.
    - intros p tx ty x. apply addBubbleAt_keeps; intros v y; by destruct y.
    - intros x y H. unfold frameSide in H. congruence.
    - intros x. apply pushRow_keeps; intros v y; by destruct y.
    - intros win x. unfold Game.endGame, Game.updateHighScore. cbn zeta.
      destruct (_ <? _); by destruct x. }
  split; [|split]; [| |by rewrite Hnext].
  - unfold Game.update. rewrite winLose_grid. unfold Game.advance.
    pose proof (foldl_stepProjectile_palette host dt
                  (Game.projectiles (Game.easeAim s)) [] (Game.easeAim s)) as H1.
    cbn zeta in H1.
    destruct (foldl _ _ _) as [ps s1]. simpl in H1.
    destruct H1 as [H1 _]; [by destruct s|constructor|by destruct s|].
    unfold Game.performanceNow. cbn zeta.
    match goal with
    | |- context [if ?c then _ else _] => destruct c
    end.
    + change (Game.grid (Game.set_spawnTimer ?v ?X)) with (Game.grid X).
      apply pushRow_palette; [done|]. by destruct s1.
    + by destruct s1.
  - rewrite update_projectiles.
    pose proof (foldl_stepProjectile_palette host dt
                  (Game.projectiles (Game.easeAim s)) [] (Game.easeAim s)) as H1.
    cbn zeta in H1.
    destruct H1 as [_ H1]; [by destruct s|constructor|by destruct s|].
    apply Forall_forall. intros p [Hin _]%list_elem_of_In%filter_In.
    rewrite Forall_forall in H1. by apply H1, list_elem_of_In.
Qed.

Lemma handle_palette host s e :
  randomUnit host → paletteOk s → paletteOk (Game.handle host s e).
Proof.
  intros Hr H. destruct e as [ts|mx my| |mx my|]; cbn [Game.handle].
  - unfold Game.gameLoop. cbn zeta.
    assert (∀ x, paletteOk x → paletteOk (Game.draw host x)) as Hd
      by (intros x Hx; exact Hx).
    apply Hd.
    match goal with
    | |- context [if _ then Game.update host ?dt ?X else _] =>
        assert (paletteOk X) as H1
          by (destruct (Qeq_bool _ _); by destruct s);
        pose proof (update_palette host dt X Hr H1) as H2
    end.
    by destruct (negb _).
  - by destruct s.
  - unfold Game.click. destruct (_ || _); [done|]. by apply newProjectile_palette.
  - unfold Game.touchstart. cbn zeta.
    assert (paletteOk (Game.aimAt host mx my s)) as H1 by by destruct s.
    destruct (_ && _); [|done]. by apply newProjectile_palette.
  - by apply startGame_palette.
Qed.

(** X28. [pickColor()] returns a colour of [CONFIG.colors] exactly
    when the number that [Math.random()] gives it is in [0, 1).  With
    a [Math.random] that keeps to [0, 1), every colour of a session of
    [src/game.js] is a colour of the palette: [startGame] builds a
    grid of such bubbles and picks such a next colour, and every event
    keeps the bubbles of the grid, the projectiles and the next colour
    so. *)
Theorem palette_colours (host : Host) :
  (∀ s,
     inPalette (Game.pickColor host s).1 ↔
     (0 <= random host (Game.randomCalls s))%Q ∧
     (random host (Game.randomCalls s) < 1)%Q) ∧
  (randomUnit host →
   (∀ s, paletteOk (Game.startGame host s)) ∧
   (∀ es s, paletteOk s → paletteOk (foldl (Game.handle host) s es))).
Proof.
  split.
  - intros s. split.
    + intros Hin.
      destruct (Qlt_le_dec (random host (Game.randomCalls s)) 0) as [H0|H0];
        [|destruct (Qlt_le_dec (random host (Game.randomCalls s)) 1)
            as [H1|H1]; [done|]];
        exfalso; unfold Game.pickColor, Game.mathRandom in Hin;
        cbn [fst] in Hin;
        rewrite colorAt_off_palette in Hin by auto;
        unfold inPalette in Hin; vm_compute in Hin; set_solver.
    + intros [H0 H1]. by apply colorAt_palette.
  - intros Hr. split; [intros s; by apply startGame_palette|].
    intros es. induction es as [|e es IH]; intros s H; cbn [foldl]; [done|].
    by apply IH, handle_palette.
Qed.

Lemma demoHost_randomUnit : randomUnit demoHost.
Proof. intros n. by split. Qed.

(** [palette_colours] on the grid that [startGame] builds on the 480
    wide canvas. *)
Lemma palette_colours_witness :
  randomUnit demoHost ∧
  paletteOk (foldl (Game.handle demoHost)
               (Game.startGame demoHost (gameWith [] []))
               [Game.Click; Game.Frame 16]).
Proof.
  split; [exact demoHost_randomUnit|].
  destruct (proj2 (palette_colours demoHost) demoHost_randomUnit) as [H1 H2].
  exact (H2 _ _ (H1 _)).
Defined.

(** ** The end of a game in the earlier version *)

(** What the projectile loop, the removal loop and the row push of the
    earlier version leave alone. *)
Section EarlyKeeps.
Variable host : Host.
Context {B : Type} (proj : Early.State → B).
Hypothesis keep_grid : ∀ v s, proj (Early.set_grid v s) = proj s.
Hypothesis keep_score : ∀ v s, proj (Early.set_score v s) = proj s.
Hypothesis keep_randomCalls : ∀ v s, proj (Early.set_randomCalls v s) = proj s.
Hypothesis keep_projectiles : ∀ v s, proj (Early.set_projectiles v s) = proj s.
Hypothesis keep_spawnTimer : ∀ v s, proj (Early.set_spawnTimer v s) = proj s.

Lemma Early_clusterCheck_keeps origin s :
  proj (Early.clusterCheck origin s) = proj s.
Proof.
  unfold Early.clusterCheck. destruct (_ <=? _)%nat; [|done].
  rewrite keep_score. generalize (clusterOf (Early.grid s) origin) as cl.
  intros cl. revert s. induction cl as [|b cl IH]; intros s; cbn [foldl];
    [done|].
  by rewrite IH, keep_grid.
Qed.

Lemma Early_floatingCheck_keeps s : proj (Early.floatingCheck s) = proj s.
Proof. rewrite Early_floatingCheck_eq. cbn zeta. by rewrite keep_grid, keep_score. Qed.

Lemma Early_addBubbleAt_keeps p tx ty s s' :
  Early.addBubbleAt host p tx ty s = Some s' → proj s' = proj s.
Proof.
  unfold Early.addBubbleAt. destruct (Early.cellOf host tx ty) as [row col].
  destruct (gridRow _ _) as [rowArr|]; [|done].
  destruct (findCol _ _); intros [= <-]; [apply keep_grid|].
  by rewrite Early_floatingCheck_keeps, Early_clusterCheck_keeps, keep_grid.
Qed.

Lemma Early_stepProjectile_keeps dt ds s p ds' s' :
  Early.stepProjectile host dt (Some (ds, s)) p = Some (ds', s') →
  proj s' = proj s.
Proof.
  unfold Early.stepProjectile. cbn [mbind option_bind].
  destruct (negb (Early.p_active p)); [by intros [= _ <-]|].
  cbn zeta. destruct (Qltb _ _).
  - destruct (Early.addBubbleAt host _ _ _ s) as [s1|] eqn:Hadd; [|done].
    cbn [mbind option_bind]. intros [= _ <-].
    by apply Early_addBubbleAt_keeps in Hadd.
  - destruct (Early.firstHit host _ _) as [b|].
    + unfold Early.collide. cbn zeta.
      destruct (Early.addBubbleAt host _ _ _ s) as [s1|] eqn:Hadd; [|done].
      cbn [mbind option_bind]. intros [= _ <-].
      by apply Early_addBubbleAt_keeps in Hadd.
    + cbn [mbind option_bind]. by intros [= _ <-].
Qed.

Lemma Early_foldl_stepProjectile_keeps dt ps : ∀ ds s ds' s',
  foldl (Early.stepProjectile host dt) (Some (ds, s)) ps = Some (ds', s') →
  proj s' = proj s.
Proof.
  induction ps as [|p ps IH]; intros ds s ds' s'; cbn [foldl];
    [by intros [= _ <-]|].
  destruct (Early.stepProjectile host dt (Some (ds, s)) p) as [[ds1 s1]|]
    eqn:Hstep.
  - intros H. rewrite (IH _ _ _ _ H).
    by apply Early_stepProjectile_keeps in Hstep.
  - intros H. exfalso. clear -H. induction ps as [|q ps IH]; [done|].
    apply IH. exact H.
Qed.

Lemma Early_pushRow_keeps s : proj (Early.pushRow host s) = proj s.
Proof.
  unfold Early.pushRow, Early.newTopRow. rewrite Early_newTopRow_fold.
  by rewrite keep_grid, keep_randomCalls.
Qed.

Lemma Early_advance_keeps dt s s1 :
  Early.advance host dt s = Some s1 → proj s1 = proj s.
Proof.
  unfold Early.advance.
  destruct (foldl _ _ _) as [[ps s0]|] eqn:Hfold; [|done].
  apply Early_foldl_stepProjectile_keeps in Hfold.
  cbn [mbind option_bind]. cbn zeta. intros [= <-].
  destruct (Qle_bool _ _).
  - by rewrite keep_spawnTimer, Early_pushRow_keeps, keep_spawnTimer, keep_grid,
      keep_projectiles.
  - by rewrite keep_spawnTimer, keep_grid, keep_projectiles.
Qed.

End EarlyKeeps.

Lemma Early_loseCheck_none dangerY rows : ∀ s,
  Early.gameOver s = false →
  Forall (λ b, Qltb dangerY (b_y b) = false) (concat rows) →
  Early.loseCheck dangerY rows s = s.
Proof.
  induction rows as [|r rows IH]; intros s Hover Hall; [done|].
  cbn [Early.loseCheck concat] in *. cbn zeta.
  apply Forall_app in Hall as [Hr Hrest].
  assert (existsb (λ b, Qltb dangerY (b_y b)) r = false) as ->.
  { apply not_true_iff_false. rewrite existsb_exists.
    intros (b & Hb%list_elem_of_In & Hlt).
    rewrite Forall_forall in Hr. specialize (Hr b Hb). congruence. }
  rewrite Hover. by apply IH.
Qed.

Lemma Early_loseCheck_some dangerY rows : ∀ s,
  Early.gameOver s = false →
  Exists (λ b, Qltb dangerY (b_y b) = true) (concat rows) →
  Early.loseCheck dangerY rows s
  = Early.endGame false (Early.set_gameOver true s).
Proof.
  induction rows as [|r rows IH]; intros s Hover Hex.
  { by apply Exists_nil in Hex. }
  cbn [Early.loseCheck concat] in *. cbn zeta.
  destruct (existsb (λ b, Qltb dangerY (b_y b)) r) eqn:E.
  - by destruct s.
  - rewrite Hover. apply IH; [done|].
    apply Exists_app in Hex as [Hex|Hex]; [|done]. exfalso.
    apply Exists_exists in Hex as (b & Hb & Hlt).
    apply not_true_iff_false in E. apply E. apply existsb_exists.
    exists b. split; [by apply list_elem_of_In|done].
Qed.

Lemma Early_gridEmpty_concat (g : Grid) :
  Early.gridEmpty g = true ↔ concat g = [].
Proof.
  unfold Early.gridEmpty. induction g as [|r g IH]; simpl; [done|].
  rewrite andb_true_iff, IH. destruct r; simpl; [tauto|].
  split; [intros [? _]; done|done].
Qed.

Lemma Early_winLose_cases host s :
  Early.gameOver s = false →
  let s' := Early.winLose host s in
  (concat (Early.grid s) = [] →
     Early.gameOver s' = true ∧
     Early.endGameCalls s' = Early.endGameCalls s ++ [true]) ∧
  (Exists (belowDanger host) (concat (Early.grid s)) →
     Early.gameOver s' = true ∧
     Early.endGameCalls s' = Early.endGameCalls s ++ [false]) ∧
  (concat (Early.grid s) ≠ [] →
   Forall (λ b, ¬ belowDanger host b) (concat (Early.grid s)) →
     s' = s).
Proof.
  intros Hover. cbn zeta. unfold Early.winLose. cbn zeta.
  rewrite Hover. cbn [negb andb]. split; [|split].
  - intros Hnil. rewrite (proj2 (Early_gridEmpty_concat _) Hnil).
    assert (Early.grid (Early.endGame true (Early.set_gameOver true s))
            = Early.grid s) as -> by by destruct s.
    assert (∀ d x, concat (Early.grid s) = [] →
              Early.gameOver x = true → Early.loseCheck d (Early.grid s) x = x)
      as Hl.
    { intros d x. generalize (Early.grid s) as g.
      induction g as [|r g IH]; intros Hc Hx; [done|].
      cbn [concat] in Hc. apply app_eq_nil in Hc as [-> Hc].
      cbn [Early.loseCheck existsb]. by rewrite Hx. }
    rewrite Hl by (done || by destruct s). by destruct s.
  - intros Hex.
    assert (Early.gridEmpty (Early.grid s) = false) as ->.
    { apply not_true_iff_false. rewrite Early_gridEmpty_concat. intros Hnil.
      rewrite Hnil in Hex. by apply Exists_nil in Hex. }
    rewrite Early_loseCheck_some; [by destruct s|done|].
    apply Exists_exists in Hex as (b & Hb & Hlt). apply Exists_exists.
    exists b. split; [done|]. by apply Qltb_true.
  - intros Hne Hall.
    assert (Early.gridEmpty (Early.grid s) = false) as ->.
    { apply not_true_iff_false. by rewrite Early_gridEmpty_concat. }
    apply Early_loseCheck_none; [done|].
    apply Forall_forall. intros b Hb. rewrite Forall_forall in Hall.
    apply not_true_iff_false. intros Hlt. apply (Hall b Hb).
    by apply Qltb_true.
Qed.

(** X29. How a frame update of the earlier version ends a running
    game, the grid being the one that the frame has built before its
    win and lose checks.  The projectile loop, the removal loop and the
    row push set neither [state.gameOver] nor the overlay; with no
    bubble left the game is won, [endGame(true)] called once; with a
    bubble below the danger line ([y > canvas.height - 100]) the game
    is lost, [endGame(false)] called once, however many rows hold such
    a bubble; otherwise the checks change nothing. *)
Theorem early_game_end (host : Host) (dt : Q) (s s1 : Early.State) :
  Early.gameOver s = false →
  Early.advance host dt s = Some s1 →
  let s' := Early.winLose host s1 in
  Early.update host dt s = Some s' ∧
  Early.gameOver s1 = false ∧
  (concat (Early.grid s1) = [] →
     Early.gameOver s' = true ∧
     Early.endGameCalls s' = Early.endGameCalls s ++ [true]) ∧
  (Exists (belowDanger host) (concat (Early.grid s1)) →
     Early.gameOver s' = true ∧
     Early.endGameCalls s' = Early.endGameCalls s ++ [false]) ∧
  (concat (Early.grid s1) ≠ [] →
   Forall (λ b, ¬ belowDanger host b) (concat (Early.grid s1)) →
     s' = s1 ∧ Early.endGameCalls s' = Early.endGameCalls s).
Proof.
  intros Hover Hadv. cbn zeta.
  pose proof (Early_advance_keeps host
                (λ x, (Early.gameOver x, Early.endGameCalls x))
                ltac:(intros v x; by destruct x) ltac:(intros v x; by destruct x)
                ltac:(intros v x; by destruct x) ltac:(intros v x; by destruct x)
                ltac:(intros v x; by destruct x) dt s s1 Hadv) as Hk.
  injection Hk as Hgo Hcalls. rewrite Hover in Hgo.
  destruct (Early_winLose_cases host s1 Hgo) as (H1 & H2 & H3). cbn zeta in *.
  split; [unfold Early.update; by rewrite Hadv|]. split; [done|].
  rewrite <- Hcalls. split; [exact H1|]. split; [exact H2|].
  intros Hne Hall. by rewrite (H3 Hne Hall).
Qed.

(** [early_game_end] on a frame that finds the grid without a bubble. *)
Lemma early_game_end_witness :
  Early.gameOver (earlyWith [[]] []) = false ∧
  ∃ s1, Early.advance demoHost (1 # 60) (earlyWith [[]] []) = Some s1 ∧
        Early.gameOver (Early.winLose demoHost s1) = true.
Proof.
  split; [reflexivity|]. eexists.
  assert (Early.advance demoHost (1 # 60) (earlyWith [[]] []) = Some _) as H
    by (vm_compute; reflexivity).
  split; [exact H|].
  destruct (early_game_end demoHost (1 # 60) (earlyWith [[]] []) _ eq_refl H)
    as (_ & _ & Hwin & _).
  exact (proj1 (Hwin eq_refl)).
Defined.
